(** * Scroll-driven 3D presentation: character motion, camera follow,
      chapter lifecycle and atmosphere effects

    A shallow embedding of the TypeScript sources

    - [CharacterController] in its two revisions: the constant-rate chase
      ([updatePosition]/[updateAnimation]/[fadeToAction]) and the
      exponential chase ([update] guarded by the animation mixer, with
      [playIdle]/[playWalk]),
    - [CameraController.follow] and [Experience.updateCameraFollow],
    - [Experience]: scene table, environment setup and cleanup,
      [applyCurrentScene], [goToNextScene], [updateGidisEffects],

    followed by the properties of the specification that concern them.

    JavaScript numbers are modelled through the class [JsNumber] with two
    instances: the real numbers [R] (exact arithmetic on finite values) and
    [jsnum], the reals extended with [NaN] and the two infinities, whose
    operations follow IEEE-754 on the special values.  Rounding is not
    modelled, and [-0] is identified with [+0]. *)

From Stdlib Require Import Reals Lra Lia List Bool String Arith.
Import ListNotations.

Set Implicit Arguments.

(* ================================================================== *)
(** * Numbers *)
(* ================================================================== *)

(** The operations on [number] used by the sources. *)
Class JsNumber (A : Type) : Type := {
  lit       : R -> A;            (* a numeric literal *)
  add       : A -> A -> A;       (* x + y *)
  sub       : A -> A -> A;       (* x - y *)
  mul       : A -> A -> A;       (* x * y *)
  div       : A -> A -> A;       (* x / y *)
  opp       : A -> A;            (* -x *)
  gtb       : A -> A -> bool;    (* x > y *)
  ltb       : A -> A -> bool;    (* x < y *)
  leb       : A -> A -> bool;    (* x <= y *)
  geb       : A -> A -> bool;    (* x >= y *)
  Math_abs  : A -> A;
  Math_sign : A -> A;
  Math_min  : A -> A -> A;
  Math_max  : A -> A -> A;
  Math_exp  : A -> A
}.

Declare Scope js_scope.
Delimit Scope js_scope with js.
Infix "+" := add : js_scope.
Infix "-" := sub : js_scope.
Infix "*" := mul : js_scope.
Infix "/" := div : js_scope.
Notation "- x" := (opp x) : js_scope.
Infix ">?" := gtb (at level 70, no associativity) : js_scope.
Infix "<?" := ltb (at level 70, no associativity) : js_scope.
Infix "<=?" := leb (at level 70, no associativity) : js_scope.
Infix ">=?" := geb (at level 70, no associativity) : js_scope.

(** ** Instance 1: exact real arithmetic *)

Definition Rgtb (x y : R) : bool := if Rlt_dec y x then true else false.
Definition Rltb (x y : R) : bool := if Rlt_dec x y then true else false.
Definition Rleb (x y : R) : bool := if Rle_dec x y then true else false.

(** [Math.sign] on a finite number. *)
Definition Rsign (x : R) : R :=
  if Rlt_dec 0 x then 1%R else if Rlt_dec x 0 then (-1)%R else 0%R.

#[export] Instance RNumber : JsNumber R := {|
  lit       := fun r => r;
  add       := Rplus;
  sub       := Rminus;
  mul       := Rmult;
  div       := Rdiv;
  opp       := Ropp;
  gtb       := Rgtb;
  ltb       := Rltb;
  leb       := Rleb;
  geb       := fun x y => Rleb y x;
  Math_abs  := Rabs;
  Math_sign := Rsign;
  Math_min  := Rmin;
  Math_max  := Rmax;
  Math_exp  := exp
|}.

(** ** Instance 2: reals with NaN and infinities *)

Inductive jsnum : Type :=
| NaN : jsnum
| Inf : bool -> jsnum            (* [Inf true] is -Infinity *)
| Fin : R -> jsnum.

Definition PInf : jsnum := Inf false.
Definition NInf : jsnum := Inf true.

(** Sign bit of a finite real ([+0] for zero). *)
Definition Rneg (x : R) : bool := if Rlt_dec x 0 then true else false.
Definition Rzero (x : R) : bool := if Req_dec_T x 0 then true else false.

Definition js_neg (x : jsnum) : jsnum :=
  match x with
  | NaN => NaN
  | Inf s => Inf (negb s)
  | Fin a => Fin (- a)
  end.

Definition js_add (x y : jsnum) : jsnum :=
  match x, y with
  | NaN, _ | _, NaN => NaN
  | Inf s, Inf s' => if Bool.eqb s s' then Inf s else NaN
  | Inf s, Fin _ => Inf s
  | Fin _, Inf s => Inf s
  | Fin a, Fin b => Fin (a + b)
  end.

Definition js_sub (x y : jsnum) : jsnum := js_add x (js_neg y).

Definition js_mul (x y : jsnum) : jsnum :=
  match x, y with
  | NaN, _ | _, NaN => NaN
  | Inf s, Inf s' => Inf (xorb s s')
  | Inf s, Fin b => if Rzero b then NaN else Inf (xorb s (Rneg b))
  | Fin a, Inf s => if Rzero a then NaN else Inf (xorb (Rneg a) s)
  | Fin a, Fin b => Fin (a * b)
  end.

Definition js_div (x y : jsnum) : jsnum :=
  match x, y with
  | NaN, _ | _, NaN => NaN
  | Inf _, Inf _ => NaN
  | Inf s, Fin b => Inf (xorb s (Rneg b))
  | Fin _, Inf _ => Fin 0
  | Fin a, Fin b =>
      if Rzero b then (if Rzero a then NaN else Inf (Rneg a))
      else Fin (a / b)
  end.

Definition js_ltb (x y : jsnum) : bool :=
  match x, y with
  | NaN, _ | _, NaN => false
  | Inf s, Inf s' => s && negb s'
  | Inf s, Fin _ => s
  | Fin _, Inf s => negb s
  | Fin a, Fin b => Rltb a b
  end.

Definition js_gtb (x y : jsnum) : bool := js_ltb y x.

Definition js_leb (x y : jsnum) : bool :=
  match x, y with
  | NaN, _ | _, NaN => false
  | Inf s, Inf s' => s || negb s'
  | Inf s, Fin _ => s
  | Fin _, Inf s => negb s
  | Fin a, Fin b => Rleb a b
  end.

Definition js_abs (x : jsnum) : jsnum :=
  match x with
  | NaN => NaN
  | Inf _ => PInf
  | Fin a => Fin (Rabs a)
  end.

Definition js_sign (x : jsnum) : jsnum :=
  match x with
  | NaN => NaN
  | Inf s => if s then Fin (-1) else Fin 1
  | Fin a => Fin (Rsign a)
  end.

(** [Math.min] and [Math.max] return NaN as soon as one argument is NaN. *)
Definition js_min (x y : jsnum) : jsnum :=
  match x, y with
  | NaN, _ | _, NaN => NaN
  | _, _ => if js_leb x y then x else y
  end.

Definition js_max (x y : jsnum) : jsnum :=
  match x, y with
  | NaN, _ | _, NaN => NaN
  | _, _ => if js_leb x y then y else x
  end.

Definition js_exp (x : jsnum) : jsnum :=
  match x with
  | NaN => NaN
  | Inf s => if s then Fin 0 else PInf
  | Fin a => Fin (exp a)
  end.

#[export] Instance JsNum : JsNumber jsnum := {|
  lit       := Fin;
  add       := js_add;
  sub       := js_sub;
  mul       := js_mul;
  div       := js_div;
  opp       := js_neg;
  gtb       := js_gtb;
  ltb       := js_ltb;
  leb       := js_leb;
  geb       := fun x y => js_leb y x;
  Math_abs  := js_abs;
  Math_sign := js_sign;
  Math_min  := js_min;
  Math_max  := js_max;
  Math_exp  := js_exp
|}.

Definition isNaN (x : jsnum) : bool :=
  match x with NaN => true | _ => false end.

Definition isFinite (x : jsnum) : bool :=
  match x with Fin _ => true | _ => false end.

(* ================================================================== *)
(** * three.js helpers used by the sources *)
(* ================================================================== *)

Module MathUtils.
Section WithNumber.
Context {A : Type} {N : JsNumber A}.
Local Open Scope js_scope.

(** [THREE.MathUtils.clamp(value, min, max)] is
    [Math.max(min, Math.min(max, value))]. *)
Definition clamp (value lo hi : A) : A :=
  Math_max lo (Math_min hi value).

(** [THREE.MathUtils.lerp(x, y, t)] is [(1 - t) * x + t * y]. *)
Definition lerp (x y t : A) : A :=
  (lit 1 - t) * x + t * y.
End WithNumber.
End MathUtils.

(** [THREE.Vector3], with the methods the sources call. *)
Record Vector3 (A : Type) : Type := mkVector3 { vx : A; vy : A; vz : A }.
Arguments mkVector3 {A} _ _ _.

Module Vec3.
Section WithNumber.
Context {A : Type} {N : JsNumber A}.
Local Open Scope js_scope.

(** [v.add(w)] *)
Definition vadd (v w : Vector3 A) : Vector3 A :=
  mkVector3 (vx v + vx w) (vy v + vy w) (vz v + vz w).

(** [v.lerp(w, alpha)]: each component [c] becomes
    [c + (w.c - c) * alpha]. *)
Definition vlerp (v w : Vector3 A) (alpha : A) : Vector3 A :=
  mkVector3 (vx v + (vx w - vx v) * alpha)
            (vy v + (vy w - vy v) * alpha)
            (vz v + (vz w - vz v) * alpha).

Definition set_z (v : Vector3 A) (z : A) : Vector3 A :=
  mkVector3 (vx v) (vy v) z.
End WithNumber.
End Vec3.

(** The part of a [THREE.Object3D] the sources read and write. *)
Record Object3D (A : Type) : Type := mkObject3D {
  position : Vector3 A;
  visible  : bool
}.
Arguments mkObject3D {A} _ _.

(* ================================================================== *)
(** * Animation mixer and actions *)
(* ================================================================== *)

(** A [THREE.AnimationAction] is an object; the controllers compare
    actions by reference, so an action is modelled by its identity. *)
Definition AnimationAction : Type := nat.

(** Methods invoked on actions, recorded in call order.  A cross-fade is
    the [fadeOut] of the outgoing action together with [reset], [fadeIn]
    and [play] of the incoming one. *)
Inductive ActionCall (A : Type) : Type :=
| SetEnabled : AnimationAction -> ActionCall A     (* a.enabled = true *)
| Reset      : AnimationAction -> ActionCall A     (* a.reset()        *)
| FadeIn     : AnimationAction -> A -> ActionCall A  (* a.fadeIn(d)    *)
| FadeOut    : AnimationAction -> A -> ActionCall A  (* a.fadeOut(d)   *)
| Play       : AnimationAction -> ActionCall A.    (* a.play()         *)
Arguments SetEnabled {A} _.
Arguments Reset {A} _.
Arguments FadeIn {A} _ _.
Arguments FadeOut {A} _ _.
Arguments Play {A} _.

(** A [THREE.AnimationMixer]: [update(delta)] advances its clock. *)
Record AnimationMixer (A : Type) : Type := mkMixer { time : A }.
Arguments mkMixer {A} _.

Definition mixer_update {A} {N : JsNumber A}
    (m : AnimationMixer A) (delta : A) : AnimationMixer A :=
  mkMixer (add (time m) delta).

(** Truthiness of a nullable reference. *)
Definition isSome {T} (o : option T) : bool :=
  match o with Some _ => true | None => false end.

(** [a === b] on nullable action references. *)
Definition same_action (a b : option AnimationAction) : bool :=
  match a, b with
  | Some x, Some y => Nat.eqb x y
  | None, None => true
  | _, _ => false
  end.

(** The two locomotion states of the specification. *)
Inductive LocomotionState : Type := Idle | Walking.

(* ================================================================== *)
(** * CharacterController, constant-rate chase *)
(* ================================================================== *)

Module ConstantRate.
Section WithNumber.
Context {A : Type} {N : JsNumber A}.
Local Open Scope js_scope.

Record CharacterController : Type := mkCC {
  object3D        : Object3D A;
  mixer           : option (AnimationMixer A);
  idleAction      : option AnimationAction;
  walkAction      : option AnimationAction;
  currentAction   : option AnimationAction;
  startZ          : A;
  endZ            : A;
  currentProgress : A;
  targetProgress  : A;
  lastZ           : A;
  currentSpeed    : A;
  modelLoaded     : bool;
  actionCalls     : list (ActionCall A)
}.

(** [private readonly smoothSpeed: number = 2.0] *)
Definition smoothSpeed : A := lit 2.0.
(** [private readonly idleThreshold: number = 0.01] *)
Definition idleThreshold : A := lit 0.01.

(** State after the constructor: the placeholder box at [y = 0.9], no
    mixer and no actions until the asynchronous load completes. *)
Definition init : CharacterController :=
  {| object3D := mkObject3D (mkVector3 (lit 0) (lit 0.9) (lit 0)) true;
     mixer := None;
     idleAction := None; walkAction := None; currentAction := None;
     startZ := lit 0; endZ := lit (-30);
     currentProgress := lit 0; targetProgress := lit 0;
     lastZ := lit 0; currentSpeed := lit 0;
     modelLoaded := false;
     actionCalls := [] |}.

Definition setTargetProgress (progress : A) (c : CharacterController)
  : CharacterController :=
  {| object3D := object3D c; mixer := mixer c;
     idleAction := idleAction c; walkAction := walkAction c;
     currentAction := currentAction c;
     startZ := startZ c; endZ := endZ c;
     currentProgress := currentProgress c;
     targetProgress := MathUtils.clamp progress (lit 0) (lit 1);
     lastZ := lastZ c; currentSpeed := currentSpeed c;
     modelLoaded := modelLoaded c;
     actionCalls := actionCalls c |}.

(** The new [currentProgress] computed by [updatePosition]. *)
Definition stepProgress (delta : A) (c : CharacterController) : A :=
  let progressDiff := targetProgress c - currentProgress c in
  let maxStep := (smoothSpeed * delta) / Math_abs (endZ c - startZ c) in
  if Math_abs progressDiff >? lit 0.0001 then
    MathUtils.clamp
      (currentProgress c
       + Math_sign progressDiff * Math_min (Math_abs progressDiff) maxStep)
      (lit 0) (lit 1)
  else currentProgress c.

Definition updatePosition (delta : A) (c : CharacterController)
  : CharacterController :=
  let cp := stepProgress delta c in
  let z := MathUtils.lerp (startZ c) (endZ c) cp in
  {| object3D := mkObject3D (Vec3.set_z (position (object3D c)) z)
                            (visible (object3D c));
     mixer := mixer c;
     idleAction := idleAction c; walkAction := walkAction c;
     currentAction := currentAction c;
     startZ := startZ c; endZ := endZ c;
     currentProgress := cp;
     targetProgress := targetProgress c;
     lastZ := z;
     currentSpeed := Math_abs (z - lastZ c) / delta;
     modelLoaded := modelLoaded c;
     actionCalls := actionCalls c |}.

(** [fadeToAction(action, duration = 0.3)] *)
Definition fadeToAction (action : AnimationAction) (c : CharacterController)
  : CharacterController :=
  let duration : A := lit 0.3 in
  let calls1 :=
    match currentAction c with
    | Some cur =>
        if negb (Nat.eqb cur action)
        then actionCalls c ++ [FadeOut cur duration]
        else actionCalls c
    | None => actionCalls c
    end in
  {| object3D := object3D c; mixer := mixer c;
     idleAction := idleAction c; walkAction := walkAction c;
     currentAction := Some action;
     startZ := startZ c; endZ := endZ c;
     currentProgress := currentProgress c;
     targetProgress := targetProgress c;
     lastZ := lastZ c; currentSpeed := currentSpeed c;
     modelLoaded := modelLoaded c;
     actionCalls :=
       calls1 ++ [Reset action; FadeIn action duration; Play action] |}.

Definition updateAnimation (c : CharacterController) : CharacterController :=
  let isMoving := currentSpeed c >? idleThreshold in
  if isMoving && isSome (walkAction c)
     && negb (same_action (currentAction c) (walkAction c))
  then match walkAction c with
       | Some w => fadeToAction w c
       | None => c
       end
  else if negb isMoving && isSome (idleAction c)
          && negb (same_action (currentAction c) (idleAction c))
  then match idleAction c with
       | Some i => fadeToAction i c
       | None => c
       end
  else c.

Definition updateMixer (delta : A) (c : CharacterController)
  : CharacterController :=
  match mixer c with
  | Some m =>
      {| object3D := object3D c; mixer := Some (mixer_update m delta);
         idleAction := idleAction c; walkAction := walkAction c;
         currentAction := currentAction c;
         startZ := startZ c; endZ := endZ c;
         currentProgress := currentProgress c;
         targetProgress := targetProgress c;
         lastZ := lastZ c; currentSpeed := currentSpeed c;
         modelLoaded := modelLoaded c;
         actionCalls := actionCalls c |}
  | None => c
  end.

(** [update(delta)]: position, then animation, then the mixer. *)
Definition update (delta : A) (c : CharacterController)
  : CharacterController :=
  updateMixer delta (updateAnimation (updatePosition delta c)).

(** [loadCharacterAndAnimations] when the base model and both animation
  files load and each file has a clip: the placeholder is replaced by
  the loaded model (at the origin), the mixer is created, the idle
  action [i] is played and becomes current, the walk action is [w]. *)
Definition loadedWithClips (i w : AnimationAction) (c : CharacterController)
: CharacterController :=
{| object3D := mkObject3D (mkVector3 (lit 0) (lit 0) (lit 0)) true;
   mixer := Some (mkMixer (lit 0));
   idleAction := Some i; walkAction := Some w;
   currentAction := Some i;
   startZ := startZ c; endZ := endZ c;
   currentProgress := currentProgress c;
   targetProgress := targetProgress c;
   lastZ := lastZ c; currentSpeed := currentSpeed c;
   modelLoaded := true;
   actionCalls := actionCalls c ++ [Play i] |}.

(** The locomotion state in effect: which clip is the current one. *)
Definition locomotion (c : CharacterController) : option LocomotionState :=
  if same_action (currentAction c) (walkAction c) then
    match walkAction c with Some _ => Some Walking | None => None end
  else if same_action (currentAction c) (idleAction c) then
    match idleAction c with Some _ => Some Idle | None => None end
  else None.

(** Calls made on the controller by its owner. *)
Inductive Call : Type :=
| CallSetTargetProgress : A -> Call
| CallUpdate : A -> Call.

Definition call (k : Call) (c : CharacterController) : CharacterController :=
  match k with
  | CallSetTargetProgress p => setTargetProgress p c
  | CallUpdate dt => update dt c
  end.

(** Calls are applied first to last. *)
Definition run (ks : list Call) (c : CharacterController)
  : CharacterController :=
  fold_left (fun acc k => call k acc) ks c.

(** [n] frames with frame times [dts 0], [dts 1], ... *)
Fixpoint ticks (dts : nat -> A) (n : nat) (c : CharacterController)
  : CharacterController :=
  match n with
  | O => c
  | S k => update (dts k) (ticks dts k c)
  end.
End WithNumber.
Arguments CharacterController A : clear implicits.
Arguments Call A : clear implicits.
End ConstantRate.

(* ================================================================== *)
(** * CharacterController, exponential chase *)
(* ================================================================== *)

Module ExpChase.
Section WithNumber.
Context {A : Type} {N : JsNumber A}.
Local Open Scope js_scope.

Record CharacterController : Type := mkCC {
  object3D        : Object3D A;
  mixer           : option (AnimationMixer A);
  idleAction      : option AnimationAction;
  walkAction      : option AnimationAction;
  currentAction   : option AnimationAction;
  startZ          : A;
  endZ            : A;
  currentProgress : A;
  targetProgress  : A;
  lastZ           : A;
  modelLoaded     : bool;
  actionCalls     : list (ActionCall A)
}.

(** State after the constructor. *)
Definition init : CharacterController :=
  {| object3D := mkObject3D (mkVector3 (lit 0) (lit 0.9) (lit 0)) true;
     mixer := None;
     idleAction := None; walkAction := None; currentAction := None;
     startZ := lit 0; endZ := lit (-40);
     currentProgress := lit 0; targetProgress := lit 0;
     lastZ := lit 0;
     modelLoaded := false;
     actionCalls := [] |}.

Definition setTargetProgress (progress : A) (c : CharacterController)
  : CharacterController :=
  {| object3D := object3D c; mixer := mixer c;
     idleAction := idleAction c; walkAction := walkAction c;
     currentAction := currentAction c;
     startZ := startZ c; endZ := endZ c;
     currentProgress := currentProgress c;
     targetProgress := MathUtils.clamp progress (lit 0) (lit 1);
     lastZ := lastZ c;
     modelLoaded := modelLoaded c;
     actionCalls := actionCalls c |}.

Definition getZFromProgress (c : CharacterController) (p : A) : A :=
  let clamped := MathUtils.clamp p (lit 0) (lit 1) in
  MathUtils.lerp (startZ c) (endZ c) clamped.

(** Replace the current action and append to the recorded calls. *)
Definition withAction (c : CharacterController) (a : AnimationAction)
    (calls : list (ActionCall A)) : CharacterController :=
  {| object3D := object3D c; mixer := mixer c;
     idleAction := idleAction c; walkAction := walkAction c;
     currentAction := Some a;
     startZ := startZ c; endZ := endZ c;
     currentProgress := currentProgress c;
     targetProgress := targetProgress c;
     lastZ := lastZ c;
     modelLoaded := modelLoaded c;
     actionCalls := actionCalls c ++ calls |}.

(** The body shared by [playIdle] and [playWalk], for the action [a]. *)
Definition crossFadeTo (a : AnimationAction) (c : CharacterController)
  : CharacterController :=
  withAction c a
    ([SetEnabled a; Reset a; FadeIn a (lit 0.2)]
     ++ match currentAction c with
        | Some cur => [FadeOut cur (lit 0.2)]
        | None => []
        end
     ++ [Play a]).

Definition playIdle (c : CharacterController) : CharacterController :=
  match idleAction c with
  | None => c
  | Some i =>
      if same_action (currentAction c) (idleAction c) then c
      else crossFadeTo i c
  end.

Definition playWalk (c : CharacterController) : CharacterController :=
  match walkAction c with
  | None => c
  | Some w =>
      if same_action (currentAction c) (walkAction c) then c
      else crossFadeTo w c
  end.

(** [const smoothSpeed = 5] and [const WALK_THRESHOLD = 0.02], the
    locals of [update]. *)
Definition smoothSpeed : A := lit 5.
Definition WALK_THRESHOLD : A := lit 0.02.

(** The new [currentProgress] computed by [update]. *)
Definition stepProgress (delta : A) (c : CharacterController) : A :=
  let t := lit 1 - Math_exp (- smoothSpeed * delta) in
  MathUtils.lerp (currentProgress c) (targetProgress c) t.

(** The local [speed] computed by [update]. *)
Definition tickSpeed (delta : A) (c : CharacterController) : A :=
  let newZ := getZFromProgress c (stepProgress delta c) in
  let deltaZ := newZ - lastZ c in
  Math_abs deltaZ / Math_max delta (lit 1e-5).

Definition update (delta : A) (c : CharacterController)
  : CharacterController :=
  match mixer c with
  | None => c
  | Some m =>
      let cp := stepProgress delta c in
      let newZ := getZFromProgress c cp in
      let speed := tickSpeed delta c in
      let c1 :=
        {| object3D := mkObject3D (Vec3.set_z (position (object3D c)) newZ)
                                  (visible (object3D c));
           mixer := mixer c;
           idleAction := idleAction c; walkAction := walkAction c;
           currentAction := currentAction c;
           startZ := startZ c; endZ := endZ c;
           currentProgress := cp;
           targetProgress := targetProgress c;
           lastZ := newZ;
           modelLoaded := modelLoaded c;
           actionCalls := actionCalls c |} in
      let c2 :=
        if isSome (idleAction c1) && isSome (walkAction c1) then
          if speed >? WALK_THRESHOLD then playWalk c1 else playIdle c1
        else c1 in
      {| object3D := object3D c2; mixer := Some (mixer_update m delta);
         idleAction := idleAction c2; walkAction := walkAction c2;
         currentAction := currentAction c2;
         startZ := startZ c2; endZ := endZ c2;
         currentProgress := currentProgress c2;
         targetProgress := targetProgress c2;
         lastZ := lastZ c2;
         modelLoaded := modelLoaded c2;
         actionCalls := actionCalls c2 |}
  end.

(** [loadCharacterAndAnimations] when the base model and both animation
    files load and each file has a clip. *)
Definition loadedWithClips (i w : AnimationAction) (c : CharacterController)
  : CharacterController :=
  {| object3D := mkObject3D (mkVector3 (lit 0) (lit 0) (lit 0)) true;
     mixer := Some (mkMixer (lit 0));
     idleAction := Some i; walkAction := Some w;
     currentAction := Some i;
     startZ := startZ c; endZ := endZ c;
     currentProgress := currentProgress c;
     targetProgress := targetProgress c;
     lastZ := lastZ c;
     modelLoaded := true;
     actionCalls := actionCalls c ++ [Play i] |}.

(** [loadCharacterAndAnimations] when the base model fails to load: the
    [catch] block only warns. *)
Definition loadFailed (c : CharacterController) : CharacterController := c.

Definition locomotion (c : CharacterController) : option LocomotionState :=
  if same_action (currentAction c) (walkAction c) then
    match walkAction c with Some _ => Some Walking | None => None end
  else if same_action (currentAction c) (idleAction c) then
    match idleAction c with Some _ => Some Idle | None => None end
  else None.

Fixpoint ticks (dts : nat -> A) (n : nat) (c : CharacterController)
  : CharacterController :=
  match n with
  | O => c
  | S k => update (dts k) (ticks dts k c)
  end.
End WithNumber.
Arguments CharacterController A : clear implicits.
End ExpChase.

(** What [Experience] uses of a character controller; both revisions
    provide it. *)
Class CharacterApi (A C : Type) : Type := {
  cc_setTargetProgress : A -> C -> C;
  cc_update            : A -> C -> C;
  cc_object3D          : C -> Object3D A;
  cc_setVisible        : bool -> C -> C     (* object3D.visible = b *)
}.

Definition ConstantRate_setVisible {A} (b : bool)
    (c : ConstantRate.CharacterController A)
  : ConstantRate.CharacterController A :=
  {| ConstantRate.object3D :=
       mkObject3D (position (ConstantRate.object3D c)) b;
     ConstantRate.mixer := ConstantRate.mixer c;
     ConstantRate.idleAction := ConstantRate.idleAction c;
     ConstantRate.walkAction := ConstantRate.walkAction c;
     ConstantRate.currentAction := ConstantRate.currentAction c;
     ConstantRate.startZ := ConstantRate.startZ c;
     ConstantRate.endZ := ConstantRate.endZ c;
     ConstantRate.currentProgress := ConstantRate.currentProgress c;
     ConstantRate.targetProgress := ConstantRate.targetProgress c;
     ConstantRate.lastZ := ConstantRate.lastZ c;
     ConstantRate.currentSpeed := ConstantRate.currentSpeed c;
     ConstantRate.modelLoaded := ConstantRate.modelLoaded c;
     ConstantRate.actionCalls := ConstantRate.actionCalls c |}.

Definition ExpChase_setVisible {A} (b : bool)
    (c : ExpChase.CharacterController A)
  : ExpChase.CharacterController A :=
  {| ExpChase.object3D := mkObject3D (position (ExpChase.object3D c)) b;
     ExpChase.mixer := ExpChase.mixer c;
     ExpChase.idleAction := ExpChase.idleAction c;
     ExpChase.walkAction := ExpChase.walkAction c;
     ExpChase.currentAction := ExpChase.currentAction c;
     ExpChase.startZ := ExpChase.startZ c;
     ExpChase.endZ := ExpChase.endZ c;
     ExpChase.currentProgress := ExpChase.currentProgress c;
     ExpChase.targetProgress := ExpChase.targetProgress c;
     ExpChase.lastZ := ExpChase.lastZ c;
     ExpChase.modelLoaded := ExpChase.modelLoaded c;
     ExpChase.actionCalls := ExpChase.actionCalls c |}.

#[export] Instance ConstantRateApi {A} {N : JsNumber A}
  : CharacterApi A (ConstantRate.CharacterController A) := {|
  cc_setTargetProgress := ConstantRate.setTargetProgress;
  cc_update            := ConstantRate.update;
  cc_object3D          := @ConstantRate.object3D A;
  cc_setVisible        := ConstantRate_setVisible
|}.

#[export] Instance ExpChaseApi {A} {N : JsNumber A}
  : CharacterApi A (ExpChase.CharacterController A) := {|
  cc_setTargetProgress := ExpChase.setTargetProgress;
  cc_update            := ExpChase.update;
  cc_object3D          := @ExpChase.object3D A;
  cc_setVisible        := ExpChase_setVisible
|}.

(* ================================================================== *)
(** * CameraController *)
(* ================================================================== *)

(** The part of [THREE.PerspectiveCamera] the sources touch:
    [camTarget] is the point last given to [lookAt]. *)
Record PerspectiveCamera (A : Type) : Type := mkCamera {
  camPosition : Vector3 A;
  camTarget   : option (Vector3 A);
  aspect      : A
}.
Arguments mkCamera {A} _ _ _.

Module CameraController.
Section WithNumber.
Context {A : Type} {N : JsNumber A}.
Local Open Scope js_scope.

Record CameraController : Type := mkCam {
  camera          : PerspectiveCamera A;
  offset          : Vector3 A;
  lookAtOffset    : Vector3 A;
  currentPosition : Vector3 A;
  currentLookAt   : Vector3 A;
  smoothFactor    : A
}.

(** The constructor; [aspect0] is [window.innerWidth / innerHeight]. *)
Definition init (aspect0 : A) : CameraController :=
  let off := mkVector3 (lit 0) (lit 2) (lit 4) in
  {| camera := mkCamera off None aspect0;
     offset := off;
     lookAtOffset := mkVector3 (lit 0) (lit 1) (lit 0);
     currentPosition := off;
     currentLookAt := mkVector3 (lit 0) (lit 0) (lit 0);
     smoothFactor := lit 0.15 |}.

Definition desiredPosition (c : CameraController) (target : Object3D A)
  : Vector3 A :=
  mkVector3 (vx (position target) + vx (offset c))
            (vy (position target) + vy (offset c))
            (vz (position target) + vz (offset c)).

Definition lookAtTarget (c : CameraController) (target : Object3D A)
  : Vector3 A :=
  mkVector3 (vx (position target) + vx (lookAtOffset c))
            (vy (position target) + vy (lookAtOffset c))
            (vz (position target) + vz (lookAtOffset c)).

Definition follow (target : Object3D A) (c : CameraController)
  : CameraController :=
  let pos := Vec3.vlerp (currentPosition c) (desiredPosition c target)
                        (smoothFactor c) in
  let look := Vec3.vlerp (currentLookAt c) (lookAtTarget c target)
                         (smoothFactor c) in
  {| camera := mkCamera pos (Some look) (aspect (camera c));
     offset := offset c;
     lookAtOffset := lookAtOffset c;
     currentPosition := pos;
     currentLookAt := look;
     smoothFactor := smoothFactor c |}.

Definition onResize (width height : A) (c : CameraController)
  : CameraController :=
  {| camera := mkCamera (camPosition (camera c)) (camTarget (camera c))
                        (width / height);
     offset := offset c;
     lookAtOffset := lookAtOffset c;
     currentPosition := currentPosition c;
     currentLookAt := currentLookAt c;
     smoothFactor := smoothFactor c |}.

Definition setOffset (x y z : A) (c : CameraController) : CameraController :=
  {| camera := camera c;
     offset := mkVector3 x y z;
     lookAtOffset := lookAtOffset c;
     currentPosition := currentPosition c;
     currentLookAt := currentLookAt c;
     smoothFactor := smoothFactor c |}.

Definition setSmoothFactor (factor : A) (c : CameraController)
  : CameraController :=
  {| camera := camera c;
     offset := offset c;
     lookAtOffset := lookAtOffset c;
     currentPosition := currentPosition c;
     currentLookAt := currentLookAt c;
     smoothFactor := MathUtils.clamp factor (lit 0) (lit 1) |}.

(** Replace the camera object's state (used by [Experience], which moves
    the camera obtained from [getCamera()] directly). *)
Definition withCamera (cam : PerspectiveCamera A) (c : CameraController)
  : CameraController :=
  {| camera := cam;
     offset := offset c;
     lookAtOffset := lookAtOffset c;
     currentPosition := currentPosition c;
     currentLookAt := currentLookAt c;
     smoothFactor := smoothFactor c |}.

(** [n] frames of [follow] on the same target. *)
Fixpoint followN (target : Object3D A) (n : nat) (c : CameraController)
  : CameraController :=
  match n with
  | O => c
  | S k => follow target (followN target k c)
  end.
End WithNumber.
Arguments CameraController A : clear implicits.
End CameraController.

(* ================================================================== *)
(** * Experience: scenes, environments, effects *)
(* ================================================================== *)

Module Experience.
Local Open Scope string_scope.
Local Open Scope list_scope.

Inductive SceneId : Type := intro | lifStreet | yilSonu | gidis | final.

Definition SceneId_eqb (a b : SceneId) : bool :=
  match a, b with
  | intro, intro | lifStreet, lifStreet | yilSonu, yilSonu
  | gidis, gidis | final, final => true
  | _, _ => false
  end.

Definition SceneId_name (a : SceneId) : string :=
  match a with
  | intro => "intro" | lifStreet => "lifStreet" | yilSonu => "yilSonu"
  | gidis => "gidis" | final => "final"
  end.

Record UiSceneConfig : Type := mkUi {
  title          : string;
  texts          : list string;
  nextSceneTitle : option string
}.

Record SceneDefinition : Type := mkScene { id : SceneId; ui : UiSceneConfig }.

Definition SCENES : list SceneDefinition :=
  [ mkScene intro
      (mkUi "Giriş"
         [ "Bu sahne giriş sahnesi.";
           "Scroll ile hem karakter ilerleyecek, hem bu metinler açılacak.";
           "Her satır, ilerledikçe görünür hale gelecek.";
           "Sahnenin sonunda bir sonraki sahneye geçmek için buton göreceksin.";
           "Bu metinleri daha sonra gerçek içerikle değiştirebilirsin." ]
         (Some "Sonraki sahne: Lif Sokak"));
    mkScene lifStreet
      (mkUi "Lif Sokak"
         [ "Lif Sokak sahnesine hoş geldin.";
           "Sağ tarafta metinler, ortada karakterin yürüyüşü devam edecek.";
           "Bu sahnede daha sonra tribün ve güneş gibi 3D objeler de görünecek.";
           "Scroll ile ilerledikçe tüm satırlar tamamlanacak.";
           "Bu metinleri de ileride gerçek hikaye / açıklama ile değiştireceksin." ]
         (Some "Sonraki sahne: Yıl Sonu"));
    mkScene yilSonu
      (mkUi "Yıl Sonu"
         [ "Yeni bir yılın eşiği...";
           "Geride kalanların değerlendirilmesi...";
           "Dönüşümün başlangıcı...";
           "Yol devam ediyor..." ]
         (Some "Sonraki sahne: Gidiş"));
    mkScene gidis
      (mkUi "Gidiş"
         [ "Yolun sonuna yaklaşırken...";
           "Işık artık zayıf...";
           "Sessizlik ağırlaşıyor...";
           "Ama adımlar devam ediyor..." ]
         (Some "Son Durak"));
    mkScene final (mkUi "" [] None) ].

(** [SCENES[i]]; [None] stands for [undefined]. *)
Definition sceneAt (i : nat) : option SceneDefinition := nth_error SCENES i.

(** ** Scene graph objects created by the environments *)

Inductive ObjectKind : Type :=
| KLifTribune | KLifSun | KLifSunPointLight | KLifSunLight | KLifSunLightTarget
| KYilSonuIsland
| KGidisSun | KGidisSunLight | KGidisSunLightTarget | KGidisAmbientLight
| KGidisRainPoints | KGidisLightningLight | KGidisLightningTarget.

Definition kind_index (k : ObjectKind) : nat :=
  match k with
  | KLifTribune => 0 | KLifSun => 1 | KLifSunPointLight => 2
  | KLifSunLight => 3 | KLifSunLightTarget => 4
  | KYilSonuIsland => 5
  | KGidisSun => 6 | KGidisSunLight => 7 | KGidisSunLightTarget => 8
  | KGidisAmbientLight => 9 | KGidisRainPoints => 10
  | KGidisLightningLight => 11 | KGidisLightningTarget => 12
  end.

Definition kind_eqb (a b : ObjectKind) : bool :=
  Nat.eqb (kind_index a) (kind_index b).

(** The scene an environment object belongs to. *)
Definition kind_scene (k : ObjectKind) : SceneId :=
  match k with
  | KLifTribune | KLifSun | KLifSunPointLight | KLifSunLight
  | KLifSunLightTarget => lifStreet
  | KYilSonuIsland => yilSonu
  | _ => gidis
  end.

(** Every [new] and every loaded model is a fresh object: [oid] is its
    identity. *)
Record SceneObject : Type := mkObj { kind : ObjectKind; oid : nat }.

Definition obj_eqb (a b : SceneObject) : bool :=
  kind_eqb (kind a) (kind b) && Nat.eqb (oid a) (oid b).

(** A directional light together with its [target] property. *)
Record LightRef : Type := mkLight { light : SceneObject; target : SceneObject }.

(** Suspended [async] environment setups, named by the [await] they are
    parked on. *)
Inductive Task : Type :=
| LifAwaitTribune    (* setupLifStreetEnvironment, stadium.glb *)
| LifAwaitSun        (* setupLifStreetEnvironment, sun.glb     *)
| YilAwaitIsland     (* setupYilSonuEnvironment, island.glb    *)
| GidisAwaitSun.     (* setupGidisEnvironment, sun.glb         *)

Section WithNumber.
Context {A : Type} {N : JsNumber A}.
Local Open Scope js_scope.

Inductive LogEntry : Type :=
| ConsoleLog   : string -> LogEntry
| ConsoleError : string -> LogEntry
| StrikeLog    : A -> A -> A -> A -> LogEntry.  (* x, y, z, nextCooldown *)

(** The lightning light: its intensity and position change over time. *)
Record LightningLight : Type := mkLightning {
  lref      : LightRef;
  intensity : A;
  lposition : Vector3 A
}.

(** ** The surroundings of the class: the [THREE.Scene], the promises in
    flight, [Math.random], [console] and [window]. *)
Record World : Type := mkWorld {
  sceneChildren   : list SceneObject;
  sceneBackground : option Z;            (* colour, [None] for [null] *)
  pending         : list Task;
  nextId          : nat;                 (* identity of the next object *)
  random          : nat -> A;            (* successive [Math.random()] *)
  drawn           : nat;                 (* how many were consumed *)
  console         : list LogEntry;
  scrollY         : A
}.

Definition scene_remove (o : SceneObject) (w : World) : World :=
  {| sceneChildren :=
       filter (fun x => negb (obj_eqb x o)) (sceneChildren w);
     sceneBackground := sceneBackground w; pending := pending w;
     nextId := nextId w; random := random w; drawn := drawn w;
     console := console w; scrollY := scrollY w |}.

(** [scene.add(o)]: detach [o] from its parent, then append it. *)
Definition scene_add (o : SceneObject) (w : World) : World :=
  {| sceneChildren :=
       filter (fun x => negb (obj_eqb x o)) (sceneChildren w) ++ [o];
     sceneBackground := sceneBackground w; pending := pending w;
     nextId := nextId w; random := random w; drawn := drawn w;
     console := console w; scrollY := scrollY w |}.

Definition set_background (b : option Z) (w : World) : World :=
  {| sceneChildren := sceneChildren w;
     sceneBackground := b; pending := pending w;
     nextId := nextId w; random := random w; drawn := drawn w;
     console := console w; scrollY := scrollY w |}.

Definition set_pending (p : list Task) (w : World) : World :=
  {| sceneChildren := sceneChildren w;
     sceneBackground := sceneBackground w; pending := p;
     nextId := nextId w; random := random w; drawn := drawn w;
     console := console w; scrollY := scrollY w |}.

Definition emit (l : LogEntry) (w : World) : World :=
  {| sceneChildren := sceneChildren w;
     sceneBackground := sceneBackground w; pending := pending w;
     nextId := nextId w; random := random w; drawn := drawn w;
     console := console w ++ [l]; scrollY := scrollY w |}.

Definition scrollTo (y : A) (w : World) : World :=
  {| sceneChildren := sceneChildren w;
     sceneBackground := sceneBackground w; pending := pending w;
     nextId := nextId w; random := random w; drawn := drawn w;
     console := console w; scrollY := y |}.

(** Allocate one object identity. *)
Definition alloc (w : World) : World :=
  {| sceneChildren := sceneChildren w;
     sceneBackground := sceneBackground w; pending := pending w;
     nextId := S (nextId w); random := random w; drawn := drawn w;
     console := console w; scrollY := scrollY w |}.

(** Consume [n] values of [Math.random()]. *)
Definition consume (n : nat) (w : World) : World :=
  {| sceneChildren := sceneChildren w;
     sceneBackground := sceneBackground w; pending := pending w;
     nextId := nextId w; random := random w; drawn := (drawn w + n)%nat;
     console := console w; scrollY := scrollY w |}.

(** ** Collaborators *)

Record UiController : Type := mkUiC {
  currentScene  : option UiSceneConfig;
  lastProgress  : A;
  panelVisible  : bool;
  nextOverlay   : bool      (* the "next scene" popup is shown *)
}.

Record FinalChoiceController : Type := mkFinal {
  isActive      : bool;
  hasCelebrated : bool
}.

(** ** Fields of [Experience], grouped by the scene they belong to *)

Record LifStreetObjects : Type := mkLif {
  lifTribune       : option SceneObject;
  lifSun           : option SceneObject;
  lifSunLight      : option LightRef;
  lifSunPointLight : option SceneObject
}.

Record GidisObjects : Type := mkGidis {
  gidisSun               : option SceneObject;
  gidisSunLight          : option LightRef;
  gidisAmbientLight      : option SceneObject;
  gidisRainGeometry      : option (list (Vector3 A));  (* particle positions *)
  gidisRainMaterial      : option unit;
  gidisRainPoints        : option SceneObject;
  gidisLightningLight    : option LightningLight;
  gidisLightningTimer    : A;
  gidisLightningCooldown : A;
  gidisLightningDuration : A
}.

Context {C : Type} {Api : CharacterApi A C}.

Record Experience : Type := mkExp {
  world                 : World;
  cameraController      : CameraController.CameraController A;
  characterController   : C;
  uiController          : UiController;
  finalChoiceController : FinalChoiceController;
  isRunning             : bool;
  currentSceneIndex     : nat;
  sceneProgress         : A;
  lif                   : LifStreetObjects;
  yilSonuIsland         : option SceneObject;
  gidisObjs             : GidisObjects
}.

Definition withWorld (w : World) (e : Experience) : Experience :=
  {| world := w; cameraController := cameraController e;
     characterController := characterController e;
     uiController := uiController e;
     finalChoiceController := finalChoiceController e;
     isRunning := isRunning e; currentSceneIndex := currentSceneIndex e;
     sceneProgress := sceneProgress e; lif := lif e;
     yilSonuIsland := yilSonuIsland e; gidisObjs := gidisObjs e |}.

Definition withCamera (c : CameraController.CameraController A)
    (e : Experience) : Experience :=
  {| world := world e; cameraController := c;
     characterController := characterController e;
     uiController := uiController e;
     finalChoiceController := finalChoiceController e;
     isRunning := isRunning e; currentSceneIndex := currentSceneIndex e;
     sceneProgress := sceneProgress e; lif := lif e;
     yilSonuIsland := yilSonuIsland e; gidisObjs := gidisObjs e |}.

Definition withCharacter (c : C) (e : Experience) : Experience :=
  {| world := world e; cameraController := cameraController e;
     characterController := c;
     uiController := uiController e;
     finalChoiceController := finalChoiceController e;
     isRunning := isRunning e; currentSceneIndex := currentSceneIndex e;
     sceneProgress := sceneProgress e; lif := lif e;
     yilSonuIsland := yilSonuIsland e; gidisObjs := gidisObjs e |}.

Definition withUi (u : UiController) (e : Experience) : Experience :=
  {| world := world e; cameraController := cameraController e;
     characterController := characterController e;
     uiController := u;
     finalChoiceController := finalChoiceController e;
     isRunning := isRunning e; currentSceneIndex := currentSceneIndex e;
     sceneProgress := sceneProgress e; lif := lif e;
     yilSonuIsland := yilSonuIsland e; gidisObjs := gidisObjs e |}.

Definition withFinal (f : FinalChoiceController) (e : Experience)
  : Experience :=
  {| world := world e; cameraController := cameraController e;
     characterController := characterController e;
     uiController := uiController e;
     finalChoiceController := f;
     isRunning := isRunning e; currentSceneIndex := currentSceneIndex e;
     sceneProgress := sceneProgress e; lif := lif e;
     yilSonuIsland := yilSonuIsland e; gidisObjs := gidisObjs e |}.

Definition withIndex (i : nat) (e : Experience) : Experience :=
  {| world := world e; cameraController := cameraController e;
     characterController := characterController e;
     uiController := uiController e;
     finalChoiceController := finalChoiceController e;
     isRunning := isRunning e; currentSceneIndex := i;
     sceneProgress := sceneProgress e; lif := lif e;
     yilSonuIsland := yilSonuIsland e; gidisObjs := gidisObjs e |}.

Definition withProgress (p : A) (e : Experience) : Experience :=
  {| world := world e; cameraController := cameraController e;
     characterController := characterController e;
     uiController := uiController e;
     finalChoiceController := finalChoiceController e;
     isRunning := isRunning e; currentSceneIndex := currentSceneIndex e;
     sceneProgress := p; lif := lif e;
     yilSonuIsland := yilSonuIsland e; gidisObjs := gidisObjs e |}.

Definition withLif (l : LifStreetObjects) (e : Experience) : Experience :=
  {| world := world e; cameraController := cameraController e;
     characterController := characterController e;
     uiController := uiController e;
     finalChoiceController := finalChoiceController e;
     isRunning := isRunning e; currentSceneIndex := currentSceneIndex e;
     sceneProgress := sceneProgress e; lif := l;
     yilSonuIsland := yilSonuIsland e; gidisObjs := gidisObjs e |}.

Definition withIsland (o : option SceneObject) (e : Experience) : Experience :=
  {| world := world e; cameraController := cameraController e;
     characterController := characterController e;
     uiController := uiController e;
     finalChoiceController := finalChoiceController e;
     isRunning := isRunning e; currentSceneIndex := currentSceneIndex e;
     sceneProgress := sceneProgress e; lif := lif e;
     yilSonuIsland := o; gidisObjs := gidisObjs e |}.

Definition withGidis (g : GidisObjects) (e : Experience) : Experience :=
  {| world := world e; cameraController := cameraController e;
     characterController := characterController e;
     uiController := uiController e;
     finalChoiceController := finalChoiceController e;
     isRunning := isRunning e; currentSceneIndex := currentSceneIndex e;
     sceneProgress := sceneProgress e; lif := lif e;
     yilSonuIsland := yilSonuIsland e; gidisObjs := g |}.

Definition withRunning (b : bool) (e : Experience) : Experience :=
  {| world := world e; cameraController := cameraController e;
     characterController := characterController e;
     uiController := uiController e;
     finalChoiceController := finalChoiceController e;
     isRunning := b; currentSceneIndex := currentSceneIndex e;
     sceneProgress := sceneProgress e; lif := lif e;
     yilSonuIsland := yilSonuIsland e; gidisObjs := gidisObjs e |}.

(** Effects on the surroundings, lifted to [Experience]. *)
Definition log (s : string) (e : Experience) : Experience :=
  withWorld (emit (ConsoleLog s) (world e)) e.
Definition logError (s : string) (e : Experience) : Experience :=
  withWorld (emit (ConsoleError s) (world e)) e.
Definition sceneAdd (o : SceneObject) (e : Experience) : Experience :=
  withWorld (scene_add o (world e)) e.
Definition sceneRemove (o : SceneObject) (e : Experience) : Experience :=
  withWorld (scene_remove o (world e)) e.
Definition suspend (t : Task) (e : Experience) : Experience :=
  withWorld (set_pending (pending (world e) ++ [t]) (world e)) e.

(** A fresh object of kind [k], and the state after its creation. *)
Definition fresh (k : ObjectKind) (e : Experience)
  : SceneObject * Experience :=
  (mkObj k (nextId (world e)), withWorld (alloc (world e)) e).

(** The next value of [Math.random()]. *)
Definition rand (e : Experience) : A * Experience :=
  (random (world e) (drawn (world e)), withWorld (consume 1 (world e)) e).

(** ** UiController and FinalChoiceController, as seen from [Experience] *)

(** [!!scene.nextSceneTitle] *)
Definition hasNext (sc : UiSceneConfig) : bool :=
  match nextSceneTitle sc with
  | Some t => negb (String.eqb t "")
  | None => false
  end.

Definition ui_hideNextOverlay (u : UiController) : UiController :=
  mkUiC (currentScene u) (lastProgress u) (panelVisible u) false.

Definition ui_setScene (sc : UiSceneConfig) (u : UiController)
  : UiController :=
  mkUiC (Some sc) (lit 0) (panelVisible u) false.

Definition ui_updateProgress (progress : A) (u : UiController)
  : UiController :=
  match currentScene u with
  | None => u
  | Some sc =>
      let clamped := Math_min (lit 1) (Math_max (lit 0) progress) in
      mkUiC (currentScene u) clamped (panelVisible u)
            ((clamped >=? lit 0.98) && hasNext sc)
  end.

Definition ui_setPanelVisible (v : bool) (u : UiController) : UiController :=
  mkUiC (currentScene u) (lastProgress u) v (nextOverlay u).

Definition final_show (f : FinalChoiceController) : FinalChoiceController :=
  mkFinal true false.

Definition final_hide (f : FinalChoiceController) : FinalChoiceController :=
  mkFinal false (hasCelebrated f).

(** ** Field assignments *)

Definition setLifTribune (v : option SceneObject) (e : Experience) :=
  withLif (mkLif v (lifSun (lif e)) (lifSunLight (lif e))
                 (lifSunPointLight (lif e))) e.
Definition setLifSun (v : option SceneObject) (e : Experience) :=
  withLif (mkLif (lifTribune (lif e)) v (lifSunLight (lif e))
                 (lifSunPointLight (lif e))) e.
Definition setLifSunLight (v : option LightRef) (e : Experience) :=
  withLif (mkLif (lifTribune (lif e)) (lifSun (lif e)) v
                 (lifSunPointLight (lif e))) e.
Definition setLifSunPointLight (v : option SceneObject) (e : Experience) :=
  withLif (mkLif (lifTribune (lif e)) (lifSun (lif e)) (lifSunLight (lif e))
                 v) e.

Definition setGidisSun (v : option SceneObject) (e : Experience) :=
  let g := gidisObjs e in
  withGidis (mkGidis v (gidisSunLight g) (gidisAmbientLight g)
    (gidisRainGeometry g) (gidisRainMaterial g) (gidisRainPoints g)
    (gidisLightningLight g) (gidisLightningTimer g)
    (gidisLightningCooldown g) (gidisLightningDuration g)) e.
Definition setGidisSunLight (v : option LightRef) (e : Experience) :=
  let g := gidisObjs e in
  withGidis (mkGidis (gidisSun g) v (gidisAmbientLight g)
    (gidisRainGeometry g) (gidisRainMaterial g) (gidisRainPoints g)
    (gidisLightningLight g) (gidisLightningTimer g)
    (gidisLightningCooldown g) (gidisLightningDuration g)) e.
Definition setGidisAmbientLight (v : option SceneObject) (e : Experience) :=
  let g := gidisObjs e in
  withGidis (mkGidis (gidisSun g) (gidisSunLight g) v
    (gidisRainGeometry g) (gidisRainMaterial g) (gidisRainPoints g)
    (gidisLightningLight g) (gidisLightningTimer g)
    (gidisLightningCooldown g) (gidisLightningDuration g)) e.
Definition setGidisRainGeometry (v : option (list (Vector3 A)))
    (e : Experience) :=
  let g := gidisObjs e in
  withGidis (mkGidis (gidisSun g) (gidisSunLight g) (gidisAmbientLight g)
    v (gidisRainMaterial g) (gidisRainPoints g)
    (gidisLightningLight g) (gidisLightningTimer g)
    (gidisLightningCooldown g) (gidisLightningDuration g)) e.
Definition setGidisRainMaterial (v : option unit) (e : Experience) :=
  let g := gidisObjs e in
  withGidis (mkGidis (gidisSun g) (gidisSunLight g) (gidisAmbientLight g)
    (gidisRainGeometry g) v (gidisRainPoints g)
    (gidisLightningLight g) (gidisLightningTimer g)
    (gidisLightningCooldown g) (gidisLightningDuration g)) e.
Definition setGidisRainPoints (v : option SceneObject) (e : Experience) :=
  let g := gidisObjs e in
  withGidis (mkGidis (gidisSun g) (gidisSunLight g) (gidisAmbientLight g)
    (gidisRainGeometry g) (gidisRainMaterial g) v
    (gidisLightningLight g) (gidisLightningTimer g)
    (gidisLightningCooldown g) (gidisLightningDuration g)) e.
Definition setGidisLightningLight (v : option LightningLight)
    (e : Experience) :=
  let g := gidisObjs e in
  withGidis (mkGidis (gidisSun g) (gidisSunLight g) (gidisAmbientLight g)
    (gidisRainGeometry g) (gidisRainMaterial g) (gidisRainPoints g)
    v (gidisLightningTimer g)
    (gidisLightningCooldown g) (gidisLightningDuration g)) e.
Definition setGidisLightningTimer (v : A) (e : Experience) :=
  let g := gidisObjs e in
  withGidis (mkGidis (gidisSun g) (gidisSunLight g) (gidisAmbientLight g)
    (gidisRainGeometry g) (gidisRainMaterial g) (gidisRainPoints g)
    (gidisLightningLight g) v
    (gidisLightningCooldown g) (gidisLightningDuration g)) e.
Definition setGidisLightningCooldown (v : A) (e : Experience) :=
  let g := gidisObjs e in
  withGidis (mkGidis (gidisSun g) (gidisSunLight g) (gidisAmbientLight g)
    (gidisRainGeometry g) (gidisRainMaterial g) (gidisRainPoints g)
    (gidisLightningLight g) (gidisLightningTimer g)
    v (gidisLightningDuration g)) e.
Definition setGidisLightningDuration (v : A) (e : Experience) :=
  let g := gidisObjs e in
  withGidis (mkGidis (gidisSun g) (gidisSunLight g) (gidisAmbientLight g)
    (gidisRainGeometry g) (gidisRainMaterial g) (gidisRainPoints g)
    (gidisLightningLight g) (gidisLightningTimer g)
    (gidisLightningCooldown g) v) e.

(** ** Lif Sokak *)

Definition setupLifStreetEnvironment (e : Experience) : Experience :=
  if isSome (lifTribune (lif e)) || isSome (lifSun (lif e))
     || isSome (lifSunLight (lif e))
  then e
  else suspend LifAwaitTribune (log "Loading Lif Sokak environment..." e).

(** After [stadium.glb] has loaded, up to the next [await]. *)
Definition lifAfterTribune (e : Experience) : Experience :=
  let (tribune, e) := fresh KLifTribune e in
  let e := setLifTribune (Some tribune) e in
  let e := sceneAdd tribune e in
  let e := log "✓ Tribune loaded and positioned" e in
  suspend LifAwaitSun e.

(** After [sun.glb] has loaded, to the end of the [try] block. *)
Definition lifAfterSun (e : Experience) : Experience :=
  let (sun, e) := fresh KLifSun e in
  let e := setLifSun (Some sun) e in
  let e := sceneAdd sun e in
  let e := log "✓ Sun loaded and positioned" e in
  let (point, e) := fresh KLifSunPointLight e in
  let e := setLifSunPointLight (Some point) e in
  let e := sceneAdd point e in
  let e := log "✓ Sun point light created (radiating from sun)" e in
  let (sunLight, e) := fresh KLifSunLight e in
  let (lightTarget, e) := fresh KLifSunLightTarget e in
  let e := setLifSunLight (Some (mkLight sunLight lightTarget)) e in
  let e := sceneAdd lightTarget e in
  let e := sceneAdd sunLight e in
  let e := log "✓ Sun light created" e in
  log "✓ Lif Sokak environment setup complete" e.

Definition cleanupLifStreetEnvironment (e : Experience) : Experience :=
  let e := match lifTribune (lif e) with
           | Some o =>
               log "✓ Tribune removed" (setLifTribune None (sceneRemove o e))
           | None => e
           end in
  let e := match lifSun (lif e) with
           | Some o => log "✓ Sun removed" (setLifSun None (sceneRemove o e))
           | None => e
           end in
  let e := match lifSunPointLight (lif e) with
           | Some o =>
               log "✓ Sun point light removed"
                   (setLifSunPointLight None (sceneRemove o e))
           | None => e
           end in
  match lifSunLight (lif e) with
  | Some l =>
      log "✓ Sun directional light removed"
          (setLifSunLight None
             (sceneRemove (target l) (sceneRemove (light l) e)))
  | None => e
  end.

(** ** Yıl Sonu *)

Definition setupYilSonuEnvironment (e : Experience) : Experience :=
  if isSome (yilSonuIsland e) then e
  else suspend YilAwaitIsland (log "Loading Yıl Sonu environment..." e).

Definition yilAfterIsland (e : Experience) : Experience :=
  let (island, e) := fresh KYilSonuIsland e in
  let e := withIsland (Some island) e in
  let e := sceneAdd island e in
  log "✓ Yıl Sonu island loaded and positioned" e.

Definition cleanupYilSonuEnvironment (e : Experience) : Experience :=
  match yilSonuIsland e with
  | Some o =>
      log "✓ Yıl Sonu island removed" (withIsland None (sceneRemove o e))
  | None => e
  end.

(** ** Gidiş *)

(** Initial rain: [count] drops, three draws each (x, y, z). *)
Fixpoint makeRain (rnd : nat -> A) (k count : nat) : list (Vector3 A) :=
  match count with
  | O => []
  | S c =>
      mkVector3 ((rnd k - lit 0.5) * lit 10)
                (lit 3 + rnd (k + 1)%nat * lit 8)
                (lit (-25) + rnd (k + 2)%nat * lit 30)
      :: makeRain rnd (k + 3)%nat c
  end.

(** Steps 2 to 5 of [setupGidisEnvironment], each behind its own guard. *)
Definition gidisRest (e : Experience) : Experience :=
  let e :=
    if isSome (gidisSunLight (gidisObjs e)) then e
    else
      let (sunLight, e) := fresh KGidisSunLight e in
      let (tgt, e) := fresh KGidisSunLightTarget e in
      let e := setGidisSunLight (Some (mkLight sunLight tgt)) e in
      let e := sceneAdd tgt e in
      let e := sceneAdd sunLight e in
      log "✓ Faint directional light created (dying sun)" e in
  let e :=
    if isSome (gidisAmbientLight (gidisObjs e)) then e
    else
      let (ambient, e) := fresh KGidisAmbientLight e in
      let e := setGidisAmbientLight (Some ambient) e in
      let e := sceneAdd ambient e in
      let e := withWorld (set_background (Some 1382432%Z) (world e)) e in
      log "✓ Dark ambient light added" e in
  let e :=
    if isSome (gidisRainPoints (gidisObjs e)) then e
    else
      let rainCount := 1800%nat in
      let positions :=
        makeRain (random (world e)) (drawn (world e)) rainCount in
      let e := withWorld (consume (3 * rainCount) (world e)) e in
      let e := setGidisRainGeometry (Some positions) e in
      let e := setGidisRainMaterial (Some tt) e in
      let (points, e) := fresh KGidisRainPoints e in
      let e := setGidisRainPoints (Some points) e in
      let e := sceneAdd points e in
      log "✓ Rain particles created (1800 drops)" e in
  let e :=
    if isSome (gidisLightningLight (gidisObjs e)) then e
    else
      let (lightning, e) := fresh KGidisLightningLight e in
      let (lightningTarget, e) := fresh KGidisLightningTarget e in
      let e := setGidisLightningLight
                 (Some (mkLightning (mkLight lightning lightningTarget)
                          (lit 0)
                          (mkVector3 (lit (-5)) (lit 10) (lit (-15))))) e in
      let e := sceneAdd lightningTarget e in
      let e := sceneAdd lightning e in
      let e := setGidisLightningTimer (lit 0) e in
      let (r, e) := rand e in
      let e := setGidisLightningCooldown (lit 2 + r * lit 4) e in
      log "✓ Lightning system initialized" e in
  log "✓ Gidiş environment setup complete (dark, rainy atmosphere)" e.

Definition setupGidisEnvironment (e : Experience) : Experience :=
  let g := gidisObjs e in
  if isSome (gidisSun g) && isSome (gidisRainPoints g)
     && isSome (gidisLightningLight g)
  then e
  else
    let e := log "Loading Gidiş environment..." e in
    if isSome (gidisSun (gidisObjs e)) then gidisRest e
    else suspend GidisAwaitSun e.

(** After [sun.glb] has loaded for Gidiş. *)
Definition gidisAfterSun (e : Experience) : Experience :=
  let (sun, e) := fresh KGidisSun e in
  let e := setGidisSun (Some sun) e in
  let e := sceneAdd sun e in
  let e := log "✓ Dim sun loaded and positioned (left side)" e in
  gidisRest e.

Definition cleanupGidisEnvironment (e : Experience) : Experience :=
  let e := match gidisSun (gidisObjs e) with
           | Some o => log "✓ Dim sun removed"
                           (setGidisSun None (sceneRemove o e))
           | None => e
           end in
  let e := match gidisSunLight (gidisObjs e) with
           | Some l =>
               log "✓ Faint directional light removed"
                   (setGidisSunLight None
                      (sceneRemove (target l) (sceneRemove (light l) e)))
           | None => e
           end in
  let e := match gidisAmbientLight (gidisObjs e) with
           | Some o =>
               let e := setGidisAmbientLight None (sceneRemove o e) in
               let e := withWorld (set_background None (world e)) e in
               log "✓ Dark ambient light removed" e
           | None => e
           end in
  let e := match gidisRainPoints (gidisObjs e) with
           | Some o => log "✓ Rain particles removed"
                           (setGidisRainPoints None (sceneRemove o e))
           | None => e
           end in
  let e := match gidisRainGeometry (gidisObjs e) with
           | Some _ => setGidisRainGeometry None e
           | None => e
           end in
  let e := match gidisRainMaterial (gidisObjs e) with
           | Some _ => setGidisRainMaterial None e
           | None => e
           end in
  let e := match gidisLightningLight (gidisObjs e) with
           | Some l =>
               log "✓ Lightning system removed"
                   (setGidisLightningLight None
                      (sceneRemove (target (lref l))
                         (sceneRemove (light (lref l)) e)))
           | None => e
           end in
  setGidisLightningCooldown (lit 0) (setGidisLightningTimer (lit 0) e).

(** [const rainSpeed = 9] *)
Definition rainSpeed : A := lit 9.

(** The rain loop: every drop falls; a drop below the ground is put back
    at the top with three draws (y, then x, then z).  Returns the new
    positions and the number of draws consumed so far. *)
Fixpoint fallRain (rnd : nat -> A) (k : nat) (delta : A)
    (ps : list (Vector3 A)) : list (Vector3 A) * nat :=
  match ps with
  | [] => ([], k)
  | p :: rest =>
      let y := vy p - rainSpeed * delta in
      if y <? lit 0 then
        let p' := mkVector3 ((rnd (k + 1)%nat - lit 0.5) * lit 10)
                            (lit 8 + rnd k * lit 4)
                            (lit (-25) + rnd (k + 2)%nat * lit 30) in
        let (r, k') := fallRain rnd (k + 3)%nat delta rest in
        (p' :: r, k')
      else
        let (r, k') := fallRain rnd k delta rest in
        (mkVector3 (vx p) y (vz p) :: r, k')
  end.

Definition updateRain (delta : A) (e : Experience) : Experience :=
  match gidisRainGeometry (gidisObjs e), gidisRainPoints (gidisObjs e) with
  | Some positions, Some _ =>
      let (ps, k') :=
        fallRain (random (world e)) (drawn (world e)) delta positions in
      let e := withWorld (consume (k' - drawn (world e)) (world e)) e in
      setGidisRainGeometry (Some ps) e
  | _, _ => e
  end.

Definition setIntensity (i : A) (l : LightningLight) : LightningLight :=
  mkLightning (lref l) i (lposition l).

Definition setLightningPosition (p : Vector3 A) (l : LightningLight)
  : LightningLight :=
  mkLightning (lref l) (intensity l) p.

Definition updateLightning (delta : A) (e : Experience) : Experience :=
  match gidisLightningLight (gidisObjs e) with
  | None => e
  | Some l =>
      if gidisLightningTimer (gidisObjs e) >? lit 0 then
        (* Lightning is currently active *)
        let e := setGidisLightningTimer
                   (gidisLightningTimer (gidisObjs e) - delta) e in
        let t := Math_max (lit 0)
                   (gidisLightningTimer (gidisObjs e)
                    / gidisLightningDuration (gidisObjs e)) in
        let l := setIntensity (lit 6.5 * (t * t)) l in
        let l := if gidisLightningTimer (gidisObjs e) <=? lit 0
                 then setIntensity (lit 0) l else l in
        setGidisLightningLight (Some l) e
      else
        (* Waiting for next lightning *)
        let e := setGidisLightningCooldown
                   (gidisLightningCooldown (gidisObjs e) - delta) e in
        if gidisLightningCooldown (gidisObjs e) <=? lit 0 then
          let (r0, e) := rand e in
          let e := setGidisLightningDuration (lit 0.08 + r0 * lit 0.12) e in
          let e := setGidisLightningTimer
                     (gidisLightningDuration (gidisObjs e)) e in
          let (r1, e) := rand e in
          let nextCooldown := lit 2 + r1 * lit 4 in
          let e := setGidisLightningCooldown nextCooldown e in
          let cam :=
            camPosition (CameraController.camera (cameraController e)) in
          let (r2, e) := rand e in
          let x := vx cam + (r2 - lit 0.5) * lit 4 in
          let (r3, e) := rand e in
          let y := vy cam + lit 6 + r3 * lit 3 in
          let (r4, e) := rand e in
          let z := vz cam - lit 10 + (r4 - lit 0.5) * lit 3 in
          let e := setGidisLightningLight
                     (Some (setLightningPosition (mkVector3 x y z) l)) e in
          withWorld (emit (StrikeLog x y z nextCooldown) (world e)) e
        else e
  end.

Definition updateGidisEffects (delta : A) (e : Experience) : Experience :=
  updateLightning delta (updateRain delta e).

(** ** Scene switching *)

Definition setupSceneEnvironment (sceneIndex : nat) (e : Experience)
  : option Experience :=
  match sceneAt sceneIndex with
  | None => None                       (* TypeError: sceneDef is undefined *)
  | Some sceneDef =>
      Some match id sceneDef with
           | lifStreet => setupLifStreetEnvironment e
           | yilSonu => setupYilSonuEnvironment e
           | gidis => setupGidisEnvironment e
           | intro | final => e
           end
  end.

Definition cleanupSceneEnvironment (sceneIndex : nat) (e : Experience)
  : option Experience :=
  match sceneAt sceneIndex with
  | None => None
  | Some sceneDef =>
      Some match id sceneDef with
           | lifStreet => cleanupLifStreetEnvironment e
           | yilSonu => cleanupYilSonuEnvironment e
           | gidis => cleanupGidisEnvironment e
           | intro | final => e
           end
  end.

(** [for (let i = from; i < SCENES.length; i++) cleanupSceneEnvironment(i)],
    with [fuel] iterations left. *)
Fixpoint cleanupLoop (fuel from : nat) (e : Experience) : option Experience :=
  match fuel with
  | O => Some e
  | S f =>
      match cleanupSceneEnvironment from e with
      | None => None
      | Some e' => cleanupLoop f (S from) e'
      end
  end.

Definition cleanupAll (e : Experience) : option Experience :=
  cleanupLoop (List.length SCENES) 0 e.

Definition applyCurrentScene (e : Experience) : option Experience :=
  match sceneAt (currentSceneIndex e) with
  | None => None                       (* TypeError reading [sceneDef.ui] *)
  | Some sceneDef =>
      let e := log ("Applying scene: " ++ SceneId_name (id sceneDef)) e in
      match cleanupAll e with
      | None => None
      | Some e =>
          let e := withProgress (lit 0) e in
          let e := withWorld (scrollTo (lit 0) (world e)) e in
          let e := withCharacter
                     (cc_setTargetProgress (lit 0) (characterController e))
                     e in
          let isFinal := SceneId_eqb (id sceneDef) final in
          let e :=
            if isFinal then
              let e := withUi (ui_setScene (ui sceneDef) (uiController e)) e in
              let e := withUi (ui_setPanelVisible false (uiController e)) e in
              let e := withCharacter
                         (cc_setVisible false (characterController e)) e in
              withFinal (final_show (finalChoiceController e)) e
            else
              let e := withFinal (final_hide (finalChoiceController e)) e in
              let e := withCharacter
                         (cc_setVisible true (characterController e)) e in
              let e := withUi (ui_setScene (ui sceneDef) (uiController e)) e in
              let e := withUi (ui_setPanelVisible true (uiController e)) e in
              withUi (ui_updateProgress (lit 0) (uiController e)) e in
          setupSceneEnvironment (currentSceneIndex e) e
      end
  end.

Definition goToNextScene (e : Experience) : option Experience :=
  if Nat.leb (List.length SCENES - 1) (currentSceneIndex e) then
    Some (log "No more scenes available" e)
  else
    applyCurrentScene (withIndex (S (currentSceneIndex e)) e).

(** ** Per-frame work *)

Definition updateCameraFollow (e : Experience) : Experience :=
  let tgt := cc_object3D (characterController e) in
  let offset := mkVector3 (lit 0) (lit 1.7) (lit 4) in
  let desiredPos := Vec3.vadd (position tgt) offset in
  let followLerp := lit 0.1 in
  let cam := CameraController.camera (cameraController e) in
  let lookAtTarget :=
    Vec3.vadd (position tgt) (mkVector3 (lit 0) (lit 1.5) (lit 0)) in
  withCamera
    (CameraController.withCamera
       (mkCamera (Vec3.vlerp (camPosition cam) desiredPos followLerp)
                 (Some lookAtTarget) (aspect cam))
       (cameraController e)) e.

(** One run of the animation loop body, [delta] being [clock.getDelta()]. *)
Definition update (delta : A) (e : Experience) : option Experience :=
  if negb (isRunning e) then Some e
  else
    let e := withCharacter (cc_update delta (characterController e)) e in
    match sceneAt (currentSceneIndex e) with
    | None => None
    | Some sceneDef =>
        let e := if SceneId_eqb (id sceneDef) gidis
                 then updateGidisEffects delta e else e in
        Some (updateCameraFollow e)
    end.

(** The callback given to [ScrollController]. *)
Definition onScrollProgress (progress : A) (e : Experience)
  : option Experience :=
  match sceneAt (currentSceneIndex e) with
  | None => None
  | Some sceneDef =>
      if SceneId_eqb (id sceneDef) final then Some e
      else
        let e := withProgress
                   (Math_min (lit 1) (Math_max (lit 0) progress)) e in
        let e := withCharacter
                   (cc_setTargetProgress (sceneProgress e)
                      (characterController e)) e in
        Some (withUi (ui_updateProgress (sceneProgress e) (uiController e)) e)
  end.

(** [start()]: the loop body runs once at once; [delta] is what
    [clock.getDelta()] returns in it. *)
Definition start (delta : A) (e : Experience) : option Experience :=
  if isRunning e then Some e
  else
    match update delta (withRunning true e) with
    | Some e' => Some (log "Experience started" e')
    | None => None
    end.

Definition stop (e : Experience) : Experience := withRunning false e.

(** ** Completion of the asynchronous loads *)

Definition resume (t : Task) (e : Experience) : Experience :=
  match t with
  | LifAwaitTribune => lifAfterTribune e
  | LifAwaitSun => lifAfterSun e
  | YilAwaitIsland => yilAfterIsland e
  | GidisAwaitSun => gidisAfterSun e
  end.

(** The [catch] blocks. *)
Definition rejected (t : Task) (e : Experience) : Experience :=
  match t with
  | LifAwaitTribune | LifAwaitSun =>
      logError "Error setting up Lif Sokak environment:" e
  | YilAwaitIsland => logError "Failed to load YılSonu island:" e
  | GidisAwaitSun => logError "Failed to load Gidis sun:" e
  end.

(** Remove the [n]-th element of a list. *)
Fixpoint extract {T} (n : nat) (l : list T) : option (T * list T) :=
  match l, n with
  | [], _ => None
  | x :: r, O => Some (x, r)
  | x :: r, S k =>
      match extract k r with
      | Some (y, r') => Some (y, x :: r')
      | None => None
      end
  end.

(** What can happen to a running [Experience]. *)
Inductive Event : Type :=
| ClickNext : Event            (* the "next scene" button *)
| Scroll    : A -> Event       (* scroll progress reported *)
| Tick      : A -> Event       (* animation frame *)
| Resolve   : nat -> Event     (* the n-th load in flight succeeds *)
| Reject    : nat -> Event.    (* the n-th load in flight fails *)

Definition step (ev : Event) (e : Experience) : option Experience :=
  match ev with
  | ClickNext =>
      goToNextScene (withUi (ui_hideNextOverlay (uiController e)) e)
  | Scroll p => onScrollProgress p e
  | Tick delta => update delta e
  | Resolve n =>
      match extract n (pending (world e)) with
      | Some (t, rest) =>
          Some (resume t (withWorld (set_pending rest (world e)) e))
      | None => Some e
      end
  | Reject n =>
      match extract n (pending (world e)) with
      | Some (t, rest) =>
          Some (rejected t (withWorld (set_pending rest (world e)) e))
      | None => Some e
      end
  end.

Fixpoint run (evs : list Event) (e : Experience) : option Experience :=
  match evs with
  | [] => Some e
  | ev :: rest =>
      match step ev e with
      | Some e' => run rest e'
      | None => None
      end
  end.

(** What the page does with a constructed [Experience]: it calls
    [start] and [stop], and the browser delivers events. *)
Inductive Command : Type :=
| Handle    : Event -> Command
| CallStart : A -> Command     (* start(), with the delta of its frame *)
| CallStop  : Command.         (* stop() *)

Definition perform (k : Command) (e : Experience) : option Experience :=
  match k with
  | Handle ev => step ev e
  | CallStart delta => start delta e
  | CallStop => Some (stop e)
  end.

Fixpoint performAll (ks : list Command) (e : Experience)
  : option Experience :=
  match ks with
  | [] => Some e
  | k :: rest =>
      match perform k e with
      | Some e' => performAll rest e'
      | None => None
      end
  end.

(** ** Construction *)

(** The fields as initialised, before the constructor applies scene 0. *)
Definition blank (rnd : nat -> A) (aspect0 : A) (c0 : C) : Experience :=
  {| world := {| sceneChildren := []; sceneBackground := None;
                 pending := []; nextId := 0; random := rnd; drawn := 0;
                 console := []; scrollY := lit 0 |};
     cameraController := CameraController.init aspect0;
     characterController := c0;
     uiController := mkUiC None (lit 0) true false;
     finalChoiceController := mkFinal false false;
     isRunning := false;
     currentSceneIndex := 0;
     sceneProgress := lit 0;
     lif := mkLif None None None None;
     yilSonuIsland := None;
     gidisObjs := mkGidis None None None None None None None
                          (lit 0) (lit 0) (lit 0.15) |}.

Definition construct (rnd : nat -> A) (aspect0 : A) (c0 : C)
  : option Experience :=
  applyCurrentScene (blank rnd aspect0 c0).

(** ** Observations used by the properties *)

(** No environment field refers to an object. *)
Definition lifEmpty (e : Experience) : bool :=
  negb (isSome (lifTribune (lif e))) && negb (isSome (lifSun (lif e)))
  && negb (isSome (lifSunLight (lif e)))
  && negb (isSome (lifSunPointLight (lif e))).

Definition yilEmpty (e : Experience) : bool :=
  negb (isSome (yilSonuIsland e)).

Definition gidisEmpty (e : Experience) : bool :=
  let g := gidisObjs e in
  negb (isSome (gidisSun g)) && negb (isSome (gidisSunLight g))
  && negb (isSome (gidisAmbientLight g))
  && negb (isSome (gidisRainGeometry g))
  && negb (isSome (gidisRainMaterial g))
  && negb (isSome (gidisRainPoints g))
  && negb (isSome (gidisLightningLight g)).

(** The kinds of the environment objects in the scene graph, in order. *)
Definition sceneKinds (e : Experience) : list ObjectKind :=
  map kind (sceneChildren (world e)).

(** The environment of a scene once its setup has run to the end. *)
Definition environmentOf (s : SceneId) : list ObjectKind :=
  match s with
  | intro | final => []
  | lifStreet =>
      [KLifTribune; KLifSun; KLifSunPointLight; KLifSunLightTarget;
       KLifSunLight]
  | yilSonu => [KYilSonuIsland]
  | gidis =>
      [KGidisSun; KGidisSunLightTarget; KGidisSunLight; KGidisAmbientLight;
       KGidisRainPoints; KGidisLightningTarget; KGidisLightningLight]
  end.

(** The scene graph holds exactly the environment of scene [s]. *)
Definition onlyEnvironmentOf (s : SceneId) (e : Experience) : Prop :=
  sceneKinds e = environmentOf s.

(** The objects referred to by the environment fields. *)
Definition opt_list {T} (o : option T) : list T :=
  match o with Some x => [x] | None => [] end.

Definition light_list (o : option LightRef) : list SceneObject :=
  match o with Some l => [light l; target l] | None => [] end.

Definition referenced (e : Experience) : list SceneObject :=
  let g := gidisObjs e in
  opt_list (lifTribune (lif e)) ++ opt_list (lifSun (lif e))
  ++ opt_list (lifSunPointLight (lif e)) ++ light_list (lifSunLight (lif e))
  ++ opt_list (yilSonuIsland e)
  ++ opt_list (gidisSun g) ++ light_list (gidisSunLight g)
  ++ opt_list (gidisAmbientLight g) ++ opt_list (gidisRainPoints g)
  ++ light_list (option_map lref (gidisLightningLight g)).
(** The load each scene's setup waits for first, and the load events
    that complete its environment. *)
Definition awaits (s : SceneId) : list Task :=
  match s with
  | lifStreet => [LifAwaitTribune]
  | yilSonu => [YilAwaitIsland]
  | gidis => [GidisAwaitSun]
  | intro | final => []
  end.


Definition completions (s : SceneId) : list Event :=
  match s with
  | lifStreet => [Resolve 0; Resolve 0]
  | yilSonu | gidis => [Resolve 0]
  | intro | final => []
  end.


(** The objects referred to by the fields of each scene. *)
Definition lifRefs (e : Experience) : list SceneObject :=
  opt_list (lifTribune (lif e)) ++ opt_list (lifSun (lif e))
  ++ opt_list (lifSunPointLight (lif e)) ++ light_list (lifSunLight (lif e)).


Definition yilRefs (e : Experience) : list SceneObject :=
  opt_list (yilSonuIsland e).


Definition gidisRefs (e : Experience) : list SceneObject :=
  let g := gidisObjs e in
  opt_list (gidisSun g) ++ light_list (gidisSunLight g)
  ++ opt_list (gidisAmbientLight g) ++ opt_list (gidisRainPoints g)
  ++ light_list (option_map lref (gidisLightningLight g)).


(** Everything a teardown or a setup does not touch. *)
Definition sameCore (e e' : Experience) : Prop :=
  cameraController e' = cameraController e
  /\ characterController e' = characterController e
  /\ uiController e' = uiController e
  /\ finalChoiceController e' = finalChoiceController e
  /\ isRunning e' = isRunning e
  /\ currentSceneIndex e' = currentSceneIndex e
  /\ sceneProgress e' = sceneProgress e
  /\ pending (world e') = pending (world e)
  /\ nextId (world e') = nextId (world e)
  /\ random (world e') = random (world e)
  /\ drawn (world e') = drawn (world e)
  /\ scrollY (world e') = scrollY (world e).


(** The scene whose setup a suspended task belongs to. *)
Definition taskScene (t : Task) : SceneId :=
  match t with
  | LifAwaitTribune | LifAwaitSun => lifStreet
  | YilAwaitIsland => yilSonu
  | GidisAwaitSun => gidis
  end.


(** Number of loads in flight for scene [s]. *)
Definition inFlight (s : SceneId) (p : list Task) : nat :=
  List.length (filter (fun t => SceneId_eqb (taskScene t) s) p).


(** At most one load per scene is in flight, and none for a scene that
    has not been reached yet ([k] is the index of the scene). *)
Definition atMostOnce (k : nat) (s : SceneId) (e : Experience) : Prop :=
  (inFlight s (pending (world e))
   <= if Nat.leb k (currentSceneIndex e) then 1 else 0)%nat.


(** What holds of every state of a running [Experience]. *)
Definition consistent (e : Experience) : Prop :=
  incl (sceneChildren (world e)) (referenced e)
  /\ (currentSceneIndex e < List.length SCENES)%nat
  /\ atMostOnce 1 lifStreet e
  /\ atMostOnce 2 yilSonu e
  /\ atMostOnce 3 gidis e
  /\ (In LifAwaitTribune (pending (world e)) -> lifEmpty e = true)
  /\ (In LifAwaitSun (pending (world e)) ->
      lifSun (lif e) = None /\ lifSunPointLight (lif e) = None
      /\ lifSunLight (lif e) = None)
  /\ (In YilAwaitIsland (pending (world e)) -> yilEmpty e = true)
  /\ (In GidisAwaitSun (pending (world e)) -> gidisEmpty e = true).


End WithNumber.
Arguments Experience A C : clear implicits.
Arguments World A : clear implicits.
Arguments GidisObjects A : clear implicits.
Arguments UiController A : clear implicits.
Arguments LogEntry A : clear implicits.
Arguments LightningLight A : clear implicits.
End Experience.

(* ================================================================== *)
(** * Predicates and sample states used by the properties *)
(* ================================================================== *)

Unset Implicit Arguments.
Local Open Scope R_scope.

(** Both progress values of the constant-rate controller lie in [0,1]. *)
Definition unit_progress (c : ConstantRate.CharacterController R) : Prop :=
  0 <= ConstantRate.targetProgress c <= 1
  /\ 0 <= ConstantRate.currentProgress c <= 1.

(** [maxStep] of [updatePosition] in the constant-rate controller. *)
Definition maxStepOf (dt : R) (c : ConstantRate.CharacterController R) : R :=
  2.0 * dt / Rabs (ConstantRate.endZ c - ConstantRate.startZ c).


(** The claim of convergence, for the constant-rate controller. *)
Definition converges_to_target (c : ConstantRate.CharacterController R)
    (dts : nat -> R) : Prop :=
  forall eps, 0 < eps ->
    exists n0, forall n, (n0 <= n)%nat ->
      Rabs (ConstantRate.targetProgress c
            - ConstantRate.currentProgress (ConstantRate.ticks dts n c)) < eps.


(** A target closer than the dead zone of [updatePosition]. *)
Definition nearTarget : ConstantRate.CharacterController R :=
  ConstantRate.setTargetProgress 0.00005 ConstantRate.init.


Ltac js_ops :=
  cbv [lit add sub mul div opp gtb ltb leb geb Math_abs Math_sign Math_min
       Math_max Math_exp JsNum RNumber
       MathUtils.clamp MathUtils.lerp
       ConstantRate.smoothSpeed ConstantRate.idleThreshold
       ExpChase.smoothSpeed ExpChase.WALK_THRESHOLD].

(** A finite number in [0,1]. *)
Definition finite_unit (v : jsnum) : Prop :=
  exists r, v = Fin r /\ 0 <= r <= 1.

(** A frame time that is finite and non-negative, or [+Infinity]. *)
Definition nonneg_time (d : jsnum) : Prop :=
  match d with
  | NaN => False
  | Inf s => s = false
  | Fin r => 0 <= r
  end.

Definition wf_constantrate (c : ConstantRate.CharacterController jsnum) : Prop :=
  finite_unit (ConstantRate.currentProgress c)
  /\ finite_unit (ConstantRate.targetProgress c)
  /\ exists s e, ConstantRate.startZ c = Fin s /\ ConstantRate.endZ c = Fin e
                 /\ s <> e.

Definition wf_expchase (c : ExpChase.CharacterController jsnum) : Prop :=
  finite_unit (ExpChase.currentProgress c)
  /\ finite_unit (ExpChase.targetProgress c)
  /\ exists s e, ExpChase.startZ c = Fin s /\ ExpChase.endZ c = Fin e.

(** A target one full path away from the constructed controller. *)
Definition farTarget : ConstantRate.CharacterController jsnum :=
  ConstantRate.run [ConstantRate.CallSetTargetProgress (Fin 1)]
                   ConstantRate.init.

(** The same for the exponential chase, with the model and clips loaded. *)
Definition farTargetLoaded : ExpChase.CharacterController jsnum :=
  ExpChase.loadedWithClips 0%nat 1%nat
    (ExpChase.setTargetProgress (Fin 1) ExpChase.init).

(** Euclidean distance between two points. *)
Definition dist (u v : Vector3 R) : R :=
  sqrt ((vx u - vx v) * (vx u - vx v) + (vy u - vy v) * (vy u - vy v)
        + (vz u - vz v) * (vz u - vz v)).

(** A state whose lightning light exists, and the freshly built state. *)
Definition sampleExperience
  : Experience.Experience R (ConstantRate.CharacterController R) :=
  Experience.blank (fun _ => 1 / 2) (16 / 9) ConstantRate.init.

Definition stormExperience
  : Experience.Experience R (ConstantRate.CharacterController R) :=
  Experience.setGidisLightningLight
    (Some (Experience.mkLightning
             (Experience.mkLight
                (Experience.mkObj Experience.KGidisLightningLight 0)
                (Experience.mkObj Experience.KGidisLightningTarget 1))
             0 (mkVector3 (-5) 10 (-15))))
    sampleExperience.

(** Two advances in a row, then every load in flight completes. *)
Definition doubleAdvance : list (Experience.Event (A := R)) :=
  [Experience.ClickNext; Experience.ClickNext; Experience.Resolve 0;
   Experience.Resolve 0; Experience.Resolve 0].


Definition afterDoubleAdvance
  : option (Experience.Experience R (ConstantRate.CharacterController R)) :=
  match Experience.applyCurrentScene sampleExperience with
  | Some e => Experience.run doubleAdvance e
  | None => None
  end.


(** The controller after the scroll reached the end of the scene and the
    character arrived there (one long frame). *)
Definition walkedToEnd : ConstantRate.CharacterController R :=
  ConstantRate.run
    [ConstantRate.CallSetTargetProgress 1; ConstantRate.CallUpdate 15]
    ConstantRate.init.

(** The intro scene with the character at the end of its path. *)
Definition endOfIntro
  : Experience.Experience R (ConstantRate.CharacterController R) :=
  Experience.withCharacter walkedToEnd sampleExperience.

(** Calls made on the exponential-chase controller: by its owner, and by
    the completion of its own asynchronous load. *)
Inductive ExpChaseCall : Type :=
| ExpSetTargetProgress : R -> ExpChaseCall
| ExpUpdate : R -> ExpChaseCall
| ExpLoaded : AnimationAction -> AnimationAction -> ExpChaseCall.

Definition expchase_call (k : ExpChaseCall)
    (c : ExpChase.CharacterController R) : ExpChase.CharacterController R :=
  match k with
  | ExpSetTargetProgress p => ExpChase.setTargetProgress p c
  | ExpUpdate dt => ExpChase.update dt c
  | ExpLoaded i w => ExpChase.loadedWithClips i w c
  end.

Definition expchase_run (ks : list ExpChaseCall)
    (c : ExpChase.CharacterController R) : ExpChase.CharacterController R :=
  fold_left (fun acc k => expchase_call k acc) ks c.

(** Every frame time of the sequence is non-negative. *)
Definition nonneg_frames (ks : list ExpChaseCall) : Prop :=
  Forall (fun k => match k with ExpUpdate dt => 0 <= dt | _ => True end) ks.

(** The state the constant-rate controller keeps between calls. *)
Definition constantrate_in_step (c : ConstantRate.CharacterController R)
  : Prop :=
  ConstantRate.startZ c = 0 /\ ConstantRate.endZ c = -30
  /\ unit_progress c
  /\ ConstantRate.lastZ c = -30 * ConstantRate.currentProgress c
  /\ vz (position (ConstantRate.object3D c)) = ConstantRate.lastZ c.

(** A controller that has a walk clip and no idle clip. *)
Definition walkOnly (w : AnimationAction)
  : ConstantRate.CharacterController R :=
  ConstantRate.mkCC (mkObject3D (mkVector3 0 0 0) true)
    (Some (mkMixer 0)) None (Some w) None 0 (-30) 0 0 0 0 true [].

(** What the exponential-chase controller keeps whatever it is called
    with: the path, the character on it, the target in [0,1]. *)
Definition expchase_on_path (c : ExpChase.CharacterController R) : Prop :=
  ExpChase.startZ c = 0 /\ ExpChase.endZ c = -40
  /\ -40 <= vz (position (ExpChase.object3D c)) <= 0
  /\ 0 <= ExpChase.targetProgress c <= 1.

(* ================================================================== *)
(** * Experience, first revision: character and follow camera only *)
(* ================================================================== *)

Module SimpleExperience.
Section WithNumber.
Context {A : Type} {N : JsNumber A} {C : Type} {Api : CharacterApi A C}.

Record Experience : Type := mkExp {
  cameraController    : CameraController.CameraController A;
  characterController : C;
  isRunning           : bool;
  console             : list string
}.

(** The constructor; [c0] is the character controller as constructed.
    The callbacks of the [ScrollController] created here arrive later, as
    calls of [onScroll]. *)
Definition construct (aspect0 : A) (c0 : C) : Experience :=
  {| cameraController := CameraController.init aspect0;
     characterController := c0;
     isRunning := false;
     console := [] |}.

(** The callback given to [ScrollController]. *)
Definition onScroll (progress : A) (e : Experience) : Experience :=
  {| cameraController := cameraController e;
     characterController :=
       cc_setTargetProgress progress (characterController e);
     isRunning := isRunning e;
     console := console e |}.

Definition onWindowResize (width height : A) (e : Experience) : Experience :=
  {| cameraController :=
       CameraController.onResize width height (cameraController e);
     characterController := characterController e;
     isRunning := isRunning e;
     console := console e |}.

(** One run of the animation loop body, [delta] being
    [clock.getDelta()]. *)
Definition update (delta : A) (e : Experience) : Experience :=
  if negb (isRunning e) then e
  else
    let ch := cc_update delta (characterController e) in
    {| cameraController :=
         CameraController.follow (cc_object3D ch) (cameraController e);
       characterController := ch;
       isRunning := isRunning e;
       console := console e |}.

(** [start()] runs the first frame at once; [delta] is what
    [clock.getDelta()] returns in it. *)
Definition start (delta : A) (e : Experience) : Experience :=
  if isRunning e then e
  else
    let e1 := update delta
                {| cameraController := cameraController e;
                   characterController := characterController e;
                   isRunning := true;
                   console := console e |} in
    {| cameraController := cameraController e1;
       characterController := characterController e1;
       isRunning := isRunning e1;
       console := console e1 ++ ["Experience started"%string] |}.

Definition stop (e : Experience) : Experience :=
  {| cameraController := cameraController e;
     characterController := characterController e;
     isRunning := false;
     console := console e |}.

(** [n] frames with frame times [dts 0], [dts 1], ... *)
Fixpoint frames (dts : nat -> A) (n : nat) (e : Experience) : Experience :=
  match n with
  | O => e
  | S k => update (dts k) (frames dts k e)
  end.
End WithNumber.
Arguments Experience A C : clear implicits.
End SimpleExperience.

(** [n] animation frames of the scene-based [Experience], as events. *)
Definition tickEvents (dts : nat -> R) (n : nat)
  : list (Experience.Event (A := R)) :=
  map (fun k => Experience.Tick (dts k)) (seq 0 n).

(** Number of clicks on the "next scene" button among the commands. *)
Fixpoint clicks {A : Type} (ks : list (Experience.Command (A := A))) : nat :=
  match ks with
  | [] => 0
  | Experience.Handle Experience.ClickNext :: rest => S (clicks rest)
  | _ :: rest => clicks rest
  end.

(** The scroll progress is one number, shared by [Experience], the
    character ([target] reads its target progress) and the UI. *)
Definition progress_shared {C : Type} (target : C -> R)
    (e : Experience.Experience R C) : Prop :=
  0 <= Experience.sceneProgress e <= 1
  /\ target (Experience.characterController e) = Experience.sceneProgress e
  /\ Experience.lastProgress (Experience.uiController e)
     = Experience.sceneProgress e
  /\ (Experience.currentSceneIndex e = 4%nat -> Experience.sceneProgress e = 0).

(** What is on stage depends on the scene alone: the final-choice overlay
    in the final scene, the character and the text panel in the others,
    where the "next scene" popup shows from progress 0.98 on. *)
Definition stage_matches_scene {C : Type} {Api : CharacterApi R C}
    (e : Experience.Experience R C) : Prop :=
  let last := Nat.eqb (Experience.currentSceneIndex e) 4 in
  Experience.isActive (Experience.finalChoiceController e) = last
  /\ Experience.panelVisible (Experience.uiController e) = negb last
  /\ visible (cc_object3D (Experience.characterController e)) = negb last
  /\ (Experience.nextOverlay (Experience.uiController e) = true
      <-> 0.98 <= Experience.sceneProgress e
          /\ (Experience.currentSceneIndex e < 4)%nat).

(** What every command keeps, for a character whose target progress is
    read by [target]. *)
Definition in_tune {C : Type} {Api : CharacterApi R C} (target : C -> R)
    (e : Experience.Experience R C) : Prop :=
  progress_shared target e
  /\ stage_matches_scene e
  /\ Experience.currentScene (Experience.uiController e)
     = option_map Experience.ui
         (Experience.sceneAt (Experience.currentSceneIndex e)).

(** The box the rain of Gidiş falls in. *)
Definition inRainBox (p : Vector3 R) : Prop :=
  -5 <= vx p < 5 /\ 0 <= vy p < 12 /\ -25 <= vz p < 5.

(** The drops that one frame of length [dt] takes below the ground. *)
Definition fallen (dt : R) (ps : list (Vector3 R)) : list (Vector3 R) :=
  filter (fun p => Rltb (vy p - 9 * dt) 0) ps.

(** After a failed load of Lif Sokak: the scene has been reached, none of
    its loads is in flight, and the sun and its lights are missing. *)
Definition lifSunMissing {A C : Type} {N : JsNumber A}
    {Api : CharacterApi A C} (e : Experience.Experience A C) : Prop :=
  (1 <= Experience.currentSceneIndex e)%nat
  /\ Experience.inFlight Experience.lifStreet
       (Experience.pending (Experience.world e)) = 0%nat
  /\ Experience.lifSun (Experience.lif e) = None
  /\ Experience.lifSunLight (Experience.lif e) = None
  /\ Experience.lifSunPointLight (Experience.lif e) = None.

(** Lif Sokak just activated, its first load in flight. *)
Definition lifLoading
  : Experience.Experience R (ConstantRate.CharacterController R) :=
  Experience.withIndex 1
    (Experience.withWorld
       (Experience.set_pending [Experience.LifAwaitTribune]
          (Experience.world sampleExperience))
       sampleExperience).

(* ================================================================== *)
(** * UiController, with the page elements it writes to *)
(* ================================================================== *)

(** [Math.ceil], which only the UI uses. *)
Class JsCeil (A : Type) : Type := { Math_ceil : A -> A }.

(** The least integer not below [x]. *)
Definition Rceil (x : R) : R := IZR (- Int_part (- x)).

Definition js_ceil (x : jsnum) : jsnum :=
  match x with
  | NaN => NaN
  | Inf s => Inf s
  | Fin a => Fin (Rceil a)
  end.

#[export] Instance RCeil : JsCeil R := {| Math_ceil := Rceil |}.
#[export] Instance JsNumCeil : JsCeil jsnum := {| Math_ceil := js_ceil |}.

Module UiControllerDom.
Section WithNumber.
Context {A : Type} {N : JsNumber A} {Cl : JsCeil A}.
Local Open Scope js_scope.

(** A child of the text panel: its text, and whether its class list has
    [visible]. *)
Record Paragraph : Type := mkP { textContent : string; isVisible : bool }.

Record UiController : Type := mkUiDom {
  panelChildren : list Paragraph;   (* textPanel.children *)
  panelDisplay  : string;           (* textPanel.style.display *)
  overlayHidden : bool;             (* overlay.classList has 'hidden' *)
  overlayActive : bool;             (* overlay.classList has 'active' *)
  nextTitleText : string;           (* nextTitleEl.textContent *)
  currentScene  : option Experience.UiSceneConfig;
  lastProgress  : A
}.

(** What [document.getElementById] finds for the four ids the
    constructor asks for: [None] stands for [null]. *)
Record Page : Type := mkPage {
  scene_text_panel   : option (list Paragraph * string);
  scene_next_overlay : option (bool * bool);
  scene_next_title   : option string;
  scene_next_button  : option unit
}.

Definition hideNextOverlay (u : UiController) : UiController :=
  {| panelChildren := panelChildren u; panelDisplay := panelDisplay u;
     overlayHidden := true; overlayActive := false;
     nextTitleText := nextTitleText u;
     currentScene := currentScene u; lastProgress := lastProgress u |}.

(** The constructor: an error message when an element is missing. *)
Definition construct (page : Page) : UiController + string :=
  match scene_text_panel page, scene_next_overlay page,
        scene_next_title page, scene_next_button page with
  | Some (children, display), Some (hidden, active), Some title, Some _ =>
      inl (hideNextOverlay
             {| panelChildren := children; panelDisplay := display;
                overlayHidden := hidden; overlayActive := active;
                nextTitleText := title;
                currentScene := None; lastProgress := lit 0 |})
  | _, _, _, _ => inr "UiController: Missing UI elements in index.html"%string
  end.

Definition setScene (scene : Experience.UiSceneConfig) (u : UiController)
  : UiController :=
  hideNextOverlay
    {| panelChildren :=
         map (fun line => mkP line false) (Experience.texts scene);
       panelDisplay := panelDisplay u;
       overlayHidden := overlayHidden u; overlayActive := overlayActive u;
       nextTitleText := nextTitleText u;
       currentScene := Some scene; lastProgress := lit 0 |}.

Definition updateNextOverlay (progress : A) (u : UiController)
  : UiController :=
  match currentScene u with
  | None => u
  | Some scene =>
      if (progress >=? lit 0.98) && Experience.hasNext scene then
        {| panelChildren := panelChildren u; panelDisplay := panelDisplay u;
           overlayHidden := false; overlayActive := true;
           nextTitleText :=
             match Experience.nextSceneTitle scene with
             | Some t => t
             | None => ""%string
             end;
           currentScene := currentScene u; lastProgress := lastProgress u |}
      else hideNextOverlay u
  end.

(** [panelChildren.forEach((el, index) => ...)], from [index] on. *)
Fixpoint reveal (index : nat) (visibleCount : A) (els : list Paragraph)
  : list Paragraph :=
  match els with
  | [] => []
  | el :: rest =>
      mkP (textContent el) (lit (INR index) <? visibleCount)
      :: reveal (S index) visibleCount rest
  end.

Definition updateProgress (progress : A) (u : UiController)
  : UiController :=
  match currentScene u with
  | None => u
  | Some scene =>
      let clamped := Math_min (lit 1) (Math_max (lit 0) progress) in
      let u :=
        {| panelChildren := panelChildren u; panelDisplay := panelDisplay u;
           overlayHidden := overlayHidden u; overlayActive := overlayActive u;
           nextTitleText := nextTitleText u;
           currentScene := currentScene u; lastProgress := clamped |} in
      let lineCount := List.length (Experience.texts scene) in
      if Nat.eqb lineCount 0 || Nat.eqb (List.length (panelChildren u)) 0
      then updateNextOverlay clamped u
      else
        let visibleCount :=
          Math_max (lit 1)
            (Math_min (lit (INR lineCount))
               (Math_ceil (clamped * lit (INR lineCount)))) in
        updateNextOverlay clamped
          {| panelChildren := reveal 0 visibleCount (panelChildren u);
             panelDisplay := panelDisplay u;
             overlayHidden := overlayHidden u;
             overlayActive := overlayActive u;
             nextTitleText := nextTitleText u;
             currentScene := currentScene u;
             lastProgress := lastProgress u |}
  end.

Definition setPanelVisible (v : bool) (u : UiController) : UiController :=
  {| panelChildren := panelChildren u;
     panelDisplay := if v then ""%string else "none"%string;
     overlayHidden := overlayHidden u; overlayActive := overlayActive u;
     nextTitleText := nextTitleText u;
     currentScene := currentScene u; lastProgress := lastProgress u |}.

(** The click listener of the "next scene" button, before it calls
    [onNextScene]. *)
Definition onNextClick (u : UiController) : UiController :=
  hideNextOverlay u.

(** What [Experience] is concerned with. *)
Definition summary (u : UiController) : Experience.UiController A :=
  Experience.mkUiC (currentScene u) (lastProgress u)
    (negb (String.eqb (panelDisplay u) "none")) (overlayActive u).
End WithNumber.
Arguments UiController A : clear implicits.
End UiControllerDom.

(** The controller shows [sc]: it is the current scene and the panel
    holds its lines, in order. *)
Definition showing {A : Type} (sc : Experience.UiSceneConfig)
  (u : UiControllerDom.UiController A) : Prop :=
  UiControllerDom.currentScene u = Some sc
  /\ map UiControllerDom.textContent (UiControllerDom.panelChildren u)
     = Experience.texts sc.

(* ================================================================== *)
(** * FinalChoiceController, with the page elements it writes to *)
(* ================================================================== *)

Module FinalChoiceControllerDom.
Section WithNumber.
Context {A : Type} {N : JsNumber A}.
Local Open Scope js_scope.

(** The [<audio>] element. *)
Record Audio : Type := mkAudio { currentTime : A; paused : bool }.

Record FinalChoiceController : Type := mkFinalDom {
  rootHidden        : bool;      (* root.classList has 'hidden' *)
  rootActive        : bool;      (* root.classList has 'active' *)
  rootCelebrate     : bool;      (* root.classList has 'celebrate' *)
  celebrationHidden : bool;      (* celebrationEl.classList has 'hidden' *)
  celebrationActive : bool;      (* celebrationEl.classList has 'active' *)
  musicEl           : option Audio;
  negativeLeft      : option A;  (* negativeBtn.style.left, in px *)
  negativeTop       : option A;  (* negativeBtn.style.top, in px *)
  isActive          : bool;
  hasCelebrated     : bool;
  animations        : nat;       (* calls of root.animate *)
  console           : list string
}.

(** What [document.getElementById] finds for the five ids the
    constructor asks for: [None] stands for [null]. *)
Record Page : Type := mkPage {
  final_choice_overlay  : option (bool * bool * bool);
  final_choice_positive : option unit;
  final_choice_negative : option (option A * option A);
  final_celebration     : option (bool * bool);
  final_music           : option Audio
}.

(** What the two position routines read: the window and the button. *)
Record Viewport : Type := mkViewport {
  innerWidth   : A;
  innerHeight  : A;
  offsetWidth  : A;
  offsetHeight : A
}.

(** The constructor: an error message when a required element is
    missing. *)
Definition construct (page : Page) : FinalChoiceController + string :=
  match final_choice_overlay page, final_choice_positive page,
        final_choice_negative page, final_celebration page with
  | Some (hidden, active, celebrate), Some _, Some (l, t),
    Some (chidden, cactive) =>
      inl {| rootHidden := hidden; rootActive := active;
             rootCelebrate := celebrate;
             celebrationHidden := chidden; celebrationActive := cactive;
             musicEl := final_music page;
             negativeLeft := l; negativeTop := t;
             isActive := false; hasCelebrated := false;
             animations := 0; console := [] |}
  | _, _, _, _ =>
      inr "FinalChoiceController: Missing final choice DOM elements"%string
  end.

Definition withPosition (x y : A) (f : FinalChoiceController)
  : FinalChoiceController :=
  {| rootHidden := rootHidden f; rootActive := rootActive f;
     rootCelebrate := rootCelebrate f;
     celebrationHidden := celebrationHidden f;
     celebrationActive := celebrationActive f;
     musicEl := musicEl f;
     negativeLeft := Some x; negativeTop := Some y;
     isActive := isActive f; hasCelebrated := hasCelebrated f;
     animations := animations f; console := console f |}.

(** [rx] and [ry] are the two values of [Math.random()], in the order
    drawn. *)
Definition resetNegativeButtonPosition (vp : Viewport) (rx ry : A)
  (f : FinalChoiceController) : FinalChoiceController :=
  let maxX := innerWidth vp - offsetWidth vp - lit 20 in
  let maxY := innerHeight vp - offsetHeight vp - lit 20 in
  let x := lit 50 + rx * (maxX - lit 100) in
  let y := lit 50 + ry * (maxY - lit 100) in
  withPosition x y f.

Definition evade (vp : Viewport) (rx ry : A) (f : FinalChoiceController)
  : FinalChoiceController :=
  let maxX := innerWidth vp - offsetWidth vp - lit 20 in
  let maxY := innerHeight vp - offsetHeight vp - lit 20 in
  let randX := lit 20 + rx * maxX in
  let randY := lit 20 + ry * maxY in
  withPosition randX randY f.

(** [autoplay]: whether the browser lets [play()] start the music; when
    it does not, the rejection is swallowed. *)
Definition show (vp : Viewport) (rx ry : A) (autoplay : bool)
  (f : FinalChoiceController) : FinalChoiceController :=
  resetNegativeButtonPosition vp rx ry
    {| rootHidden := false; rootActive := true;
       rootCelebrate := false;
       celebrationHidden := celebrationHidden f;
       celebrationActive := false;
       musicEl :=
         match musicEl f with
         | Some m =>
             Some (mkAudio (lit 0) (if autoplay then false else paused m))
         | None => None
         end;
       negativeLeft := negativeLeft f; negativeTop := negativeTop f;
       isActive := true; hasCelebrated := false;
       animations := animations f; console := console f |}.

Definition hide (f : FinalChoiceController) : FinalChoiceController :=
  {| rootHidden := true; rootActive := false;
     rootCelebrate := rootCelebrate f;
     celebrationHidden := celebrationHidden f;
     celebrationActive := celebrationActive f;
     musicEl :=
       match musicEl f with
       | Some m => Some (mkAudio (currentTime m) true)
       | None => None
       end;
     negativeLeft := negativeLeft f; negativeTop := negativeTop f;
     isActive := false; hasCelebrated := hasCelebrated f;
     animations := animations f; console := console f |}.

Definition startCelebration (f : FinalChoiceController)
  : FinalChoiceController :=
  {| rootHidden := rootHidden f; rootActive := rootActive f;
     rootCelebrate := true;
     celebrationHidden := false; celebrationActive := true;
     musicEl := musicEl f;
     negativeLeft := negativeLeft f; negativeTop := negativeTop f;
     isActive := isActive f; hasCelebrated := true;
     animations := S (animations f);
     console :=
       console f ++ ["🎉 KUTLAMA BAŞLADI! Güzel bir yıl oldu! 🌟"%string] |}.

(** The three listeners the constructor installs. *)
Definition onPositiveClick (f : FinalChoiceController)
  : FinalChoiceController :=
  if negb (isActive f) || hasCelebrated f then f else startCelebration f.

Definition onNegativeMouseEnter (vp : Viewport) (rx ry : A)
  (f : FinalChoiceController) : FinalChoiceController :=
  if negb (isActive f) then f else evade vp rx ry f.

Definition onNegativeMouseMove (vp : Viewport) (rx ry : A)
  (f : FinalChoiceController) : FinalChoiceController :=
  if negb (isActive f) then f else evade vp rx ry f.

(** What can happen to a controller: calls of its public methods and
    the events it listens to. *)
Inductive Event : Type :=
| Show : Viewport -> A -> A -> bool -> Event
| Hide : Event
| PositiveClick : Event
| NegativeMouseEnter : Viewport -> A -> A -> Event
| NegativeMouseMove : Viewport -> A -> A -> Event.

Definition handle (ev : Event) (f : FinalChoiceController)
  : FinalChoiceController :=
  match ev with
  | Show vp rx ry autoplay => show vp rx ry autoplay f
  | Hide => hide f
  | PositiveClick => onPositiveClick f
  | NegativeMouseEnter vp rx ry => onNegativeMouseEnter vp rx ry f
  | NegativeMouseMove vp rx ry => onNegativeMouseMove vp rx ry f
  end.

Definition run (evs : list Event) (f : FinalChoiceController)
  : FinalChoiceController :=
  fold_left (fun f ev => handle ev f) evs f.

Definition isShow (ev : Event) : bool :=
  match ev with Show _ _ _ _ => true | _ => false end.

(** What [Experience] is concerned with. *)
Definition summary (f : FinalChoiceController)
  : Experience.FinalChoiceController :=
  Experience.mkFinal (isActive f) (hasCelebrated f).
End WithNumber.
Arguments FinalChoiceController A : clear implicits.
Arguments Page A : clear implicits.
Arguments Viewport A : clear implicits.
Arguments Event A : clear implicits.
End FinalChoiceControllerDom.

(** The button fits into the window with the margin the two routines
    leave. *)
Definition roomy (vp : FinalChoiceControllerDom.Viewport R) : Prop :=
  FinalChoiceControllerDom.offsetWidth vp + 20
    <= FinalChoiceControllerDom.innerWidth vp
  /\ FinalChoiceControllerDom.offsetHeight vp + 20
    <= FinalChoiceControllerDom.innerHeight vp
  /\ 0 <= FinalChoiceControllerDom.offsetWidth vp
  /\ 0 <= FinalChoiceControllerDom.offsetHeight vp.

(** A value of [Math.random()]. *)
Definition unit_draw (r : R) : Prop := 0 <= r < 1.

(** The button lies inside the window, at least [m] px from its left
    and top edge. *)
Definition onScreen (m : R) (vp : FinalChoiceControllerDom.Viewport R)
  (f : FinalChoiceControllerDom.FinalChoiceController R) : Prop :=
  exists x y,
    FinalChoiceControllerDom.negativeLeft f = Some x
    /\ FinalChoiceControllerDom.negativeTop f = Some y
    /\ m <= x
    /\ x + FinalChoiceControllerDom.offsetWidth vp
       <= FinalChoiceControllerDom.innerWidth vp
    /\ m <= y
    /\ y + FinalChoiceControllerDom.offsetHeight vp
       <= FinalChoiceControllerDom.innerHeight vp.

(** What every event keeps: the celebrations so far are those logged and
    animated, and one more is possible only while the overlay is active
    and has not celebrated. *)
Definition celebrations_bounded {A : Type} (shows : nat)
  (f : FinalChoiceControllerDom.FinalChoiceController A) : Prop :=
  FinalChoiceControllerDom.animations f = List.length (FinalChoiceControllerDom.console f)
  /\ (List.length (FinalChoiceControllerDom.console f)
      + (if FinalChoiceControllerDom.isActive f && negb (FinalChoiceControllerDom.hasCelebrated f) then 1 else 0)
      <= shows)%nat
  /\ (FinalChoiceControllerDom.isActive f = true -> FinalChoiceControllerDom.rootActive f = true /\ FinalChoiceControllerDom.rootHidden f = false)
  /\ (FinalChoiceControllerDom.hasCelebrated f = true ->
      FinalChoiceControllerDom.rootCelebrate f = true /\ FinalChoiceControllerDom.celebrationActive f = true
      /\ FinalChoiceControllerDom.celebrationHidden f = false).

(* ================================================================== *)
(** * ScrollController *)
(* ================================================================== *)

(** The part of the browser a ScrollController deals with.  Function
    objects are told apart by identity, a number given when the object
    is created; the listeners of the [scroll] event are kept by
    identity, as [addEventListener] and [removeEventListener] do. *)
Module Browser.
Section WithNumber.
Context {A : Type}.

Record Window : Type := mkWindow {
  scrollY         : A;              (* window.scrollY *)
  innerHeight     : A;              (* window.innerHeight *)
  scrollHeight    : A;              (* document.body.scrollHeight *)
  bodyHeight      : option string;  (* document.body.style.height *)
  scrollListeners : list nat;       (* listeners of 'scroll', in order *)
  functions       : nat             (* function objects created so far *)
}.

(** A new function object: its identity is [functions w]. *)
Definition newFunction (w : Window) : Window :=
  {| scrollY := scrollY w; innerHeight := innerHeight w;
     scrollHeight := scrollHeight w; bodyHeight := bodyHeight w;
     scrollListeners := scrollListeners w; functions := S (functions w) |}.

Definition withListeners (l : list nat) (w : Window) : Window :=
  {| scrollY := scrollY w; innerHeight := innerHeight w;
     scrollHeight := scrollHeight w; bodyHeight := bodyHeight w;
     scrollListeners := l; functions := functions w |}.

(** A listener already registered is not registered twice. *)
Definition addEventListener (fn : nat) (w : Window) : Window :=
  if existsb (Nat.eqb fn) (scrollListeners w) then w
  else withListeners (scrollListeners w ++ [fn]) w.

Definition removeEventListener (fn : nat) (w : Window) : Window :=
  withListeners
    (filter (fun g => negb (Nat.eqb fn g)) (scrollListeners w)) w.

Definition setBodyHeight (h : string) (w : Window) : Window :=
  {| scrollY := scrollY w; innerHeight := innerHeight w;
     scrollHeight := scrollHeight w; bodyHeight := Some h;
     scrollListeners := scrollListeners w; functions := functions w |}.

(** The user scrolls to [y]. *)
Definition scrolledTo (y : A) (w : Window) : Window :=
  {| scrollY := y; innerHeight := innerHeight w;
     scrollHeight := scrollHeight w; bodyHeight := bodyHeight w;
     scrollListeners := scrollListeners w; functions := functions w |}.

(** The window is resized or the page laid out anew. *)
Definition laidOut (ih sh : A) (w : Window) : Window :=
  {| scrollY := scrollY w; innerHeight := ih;
     scrollHeight := sh; bodyHeight := bodyHeight w;
     scrollListeners := scrollListeners w; functions := functions w |}.
End WithNumber.
Arguments Window A : clear implicits.
End Browser.

(** ** The direct version: progress is reported as it is computed *)

Module ScrollControllerDirect.
Section WithCallback.
Context {A : Type} {N : JsNumber A}.
(** The callback acts on the state [S] of whoever gave it. *)
Context {S : Type} (callback : A -> S -> S).
Local Open Scope js_scope.

Record ScrollController : Type := mkScroll {
  maxScroll    : A;
  handleScroll : nat      (* the arrow function kept in the instance *)
}.

Definition runHandleScroll (c : ScrollController) (w : Browser.Window A)
  (s : S) : S :=
  if maxScroll c <=? lit 0 then callback (lit 0) s
  else
    let progress := Browser.scrollY w / maxScroll c in
    callback progress s.

(** [Browser.scrollHeight w] is what the page gives once the height of
    the body is set. *)
Definition construct (w : Browser.Window A) (s : S)
  : ScrollController * Browser.Window A * S :=
  let fn := Browser.functions w in
  let w := Browser.newFunction w in
  let w := Browser.setBodyHeight "4000px" w in
  let c := {| maxScroll := Browser.scrollHeight w - Browser.innerHeight w;
              handleScroll := fn |} in
  let w := Browser.addEventListener fn w in
  (c, w, runHandleScroll c w s).

Definition dispose (c : ScrollController) (w : Browser.Window A)
  : Browser.Window A :=
  Browser.removeEventListener (handleScroll c) w.

(** The [scroll] event: every registered listener that is the
    controller's runs. *)
Definition dispatchScroll (c : ScrollController) (w : Browser.Window A)
  (s : S) : S :=
  fold_left
    (fun s fn =>
       if Nat.eqb fn (handleScroll c) then runHandleScroll c w s else s)
    (Browser.scrollListeners w) s.

Inductive Event : Type :=
| ScrollTo : A -> Event
| LaidOut : A -> A -> Event
| Dispose : Event.

Definition step (c : ScrollController) (ev : Event)
  (ws : Browser.Window A * S) : Browser.Window A * S :=
  let (w, s) := ws in
  match ev with
  | ScrollTo y =>
      let w := Browser.scrolledTo y w in (w, dispatchScroll c w s)
  | LaidOut ih sh => (Browser.laidOut ih sh w, s)
  | Dispose => (dispose c w, s)
  end.

Definition run (c : ScrollController) (evs : list Event)
  (ws : Browser.Window A * S) : Browser.Window A * S :=
  fold_left (fun ws ev => step c ev ws) evs ws.

(** What a scroll to [y] reports, for the divisor [m]. *)
Definition report (m y : A) : A :=
  if m <=? lit 0 then lit 0 else y / m.

(** The positions scrolled to before the first [Dispose]. *)
Fixpoint heard (evs : list Event) : list A :=
  match evs with
  | [] => []
  | ScrollTo y :: rest => y :: heard rest
  | LaidOut _ _ :: rest => heard rest
  | Dispose :: _ => []
  end.
End WithCallback.
Arguments ScrollController A : clear implicits.
Arguments Event A : clear implicits.
End ScrollControllerDirect.

(** ** The smoothed version *)

Module ScrollControllerSmooth.
Section WithCallback.
Context {A : Type} {N : JsNumber A}.
Context {S : Type} (onProgressChange : A -> S -> S).
Local Open Scope js_scope.

Record ScrollController : Type := mkScroll {
  progress       : A;
  targetProgress : A;
  smoothProgress : A;          (* smoothProgress.value *)
  isSmoothing    : bool;
  tweens         : list A;     (* targets handed to gsap.to, in order *)
  boundSince     : nat         (* not a field: the functions created from
                                  this identity on are bound [onScroll]s *)
}.

Definition withTarget (v : A) (c : ScrollController) : ScrollController :=
  {| progress := progress c; targetProgress := v;
     smoothProgress := smoothProgress c; isSmoothing := isSmoothing c;
     tweens := tweens c; boundSince := boundSince c |}.

Definition setProgress (value : A) (cs : ScrollController * S)
  : ScrollController * S :=
  let (c, s) := cs in
  ({| progress := value; targetProgress := targetProgress c;
      smoothProgress := smoothProgress c; isSmoothing := isSmoothing c;
      tweens := tweens c; boundSince := boundSince c |},
   onProgressChange value s).

(** [gsap.to] only takes the request; what it does later arrives as
    [gsapUpdate]. *)
Definition smoothToProgress (target : A) (cs : ScrollController * S)
  : ScrollController * S :=
  let (c, s) := cs in
  ({| progress := progress c; targetProgress := targetProgress c;
      smoothProgress := smoothProgress c; isSmoothing := isSmoothing c;
      tweens := tweens c ++ [target]; boundSince := boundSince c |}, s).

(** A tick of a tween: gsap has written [v] to [smoothProgress.value]
    and calls [onUpdate]. *)
Definition gsapUpdate (v : A) (cs : ScrollController * S)
  : ScrollController * S :=
  let (c, s) := cs in
  let c := {| progress := progress c; targetProgress := targetProgress c;
              smoothProgress := v; isSmoothing := isSmoothing c;
              tweens := tweens c; boundSince := boundSince c |} in
  setProgress (smoothProgress c) (c, s).

Definition calculateProgress (w : Browser.Window A)
  (cs : ScrollController * S) : ScrollController * S :=
  let (c, s) := cs in
  let scrollHeight := Browser.scrollHeight w - Browser.innerHeight w in
  if scrollHeight <=? lit 0 then (withTarget (lit 0) c, s)
  else
    let rawProgress := Browser.scrollY w / scrollHeight in
    let c := withTarget (Math_max (lit 0) (Math_min (lit 1) rawProgress)) c in
    if isSmoothing c then smoothToProgress (targetProgress c) (c, s)
    else setProgress (targetProgress c) (c, s).

Definition onScroll (w : Browser.Window A) (cs : ScrollController * S)
  : ScrollController * S :=
  calculateProgress w cs.

(** [this.onScroll.bind(this)] makes a new function object each time it
    is evaluated. *)
Definition construct (w : Browser.Window A) (s : S)
  : ScrollController * Browser.Window A * S :=
  let c := {| progress := lit 0; targetProgress := lit 0;
              smoothProgress := lit 0; isSmoothing := true;
              tweens := []; boundSince := Browser.functions w |} in
  let bound := Browser.functions w in
  let w := Browser.newFunction w in
  let w := Browser.addEventListener bound w in
  let (c, s) := calculateProgress w (c, s) in
  (c, w, s).

Definition getProgress (c : ScrollController) : A := progress c.

Definition setSmoothing (enabled : bool) (c : ScrollController)
  : ScrollController :=
  {| progress := progress c; targetProgress := targetProgress c;
     smoothProgress := smoothProgress c; isSmoothing := enabled;
     tweens := tweens c; boundSince := boundSince c |}.

Definition setManualProgress (p : A) (cs : ScrollController * S)
  : ScrollController * S :=
  let (c, s) := cs in
  let c := withTarget (Math_max (lit 0) (Math_min (lit 1) p)) c in
  setProgress (targetProgress c) (c, s).

Definition dispose (w : Browser.Window A) : Browser.Window A :=
  let bound := Browser.functions w in
  let w := Browser.newFunction w in
  Browser.removeEventListener bound w.

(** The [scroll] event: every registered listener that is a bound
    [onScroll] of the controller runs. *)
Definition dispatchScroll (w : Browser.Window A)
  (cs : ScrollController * S) : ScrollController * S :=
  fold_left
    (fun cs fn =>
       if Nat.leb (boundSince (fst cs)) fn then onScroll w cs else cs)
    (Browser.scrollListeners w) cs.

Inductive Event : Type :=
| ScrollTo : A -> Event
| LaidOut : A -> A -> Event
| GsapUpdate : A -> Event
| SetSmoothing : bool -> Event
| SetManualProgress : A -> Event
| Dispose : Event.

Definition step (ev : Event)
  (st : ScrollController * Browser.Window A * S)
  : ScrollController * Browser.Window A * S :=
  let '(c, w, s) := st in
  match ev with
  | ScrollTo y =>
      let w := Browser.scrolledTo y w in
      let (c, s) := dispatchScroll w (c, s) in (c, w, s)
  | LaidOut ih sh => (c, Browser.laidOut ih sh w, s)
  | GsapUpdate v => let (c, s) := gsapUpdate v (c, s) in (c, w, s)
  | SetSmoothing b => (setSmoothing b c, w, s)
  | SetManualProgress p =>
      let (c, s) := setManualProgress p (c, s) in (c, w, s)
  | Dispose => (c, dispose w, s)
  end.

Definition run (evs : list Event)
  (st : ScrollController * Browser.Window A * S)
  : ScrollController * Browser.Window A * S :=
  fold_left (fun st ev => step ev st) evs st.
End WithCallback.
Arguments ScrollController A : clear implicits.
Arguments Event A : clear implicits.
End ScrollControllerSmooth.

(** A callback that keeps what it is given, newest last. *)
Definition record_progress {A : Type} (p : A) (log : list A) : list A :=
  log ++ [p].

(** Every identity in use was given out already. *)
Definition listeners_known {A : Type} (w : Browser.Window A) : Prop :=
  Forall (fun fn => (fn < Browser.functions w)%nat)
    (Browser.scrollListeners w).

(** The values gsap hands to [onUpdate] lie in [[0,1]]. *)
Definition tween_in_unit (ev : ScrollControllerSmooth.Event R) : Prop :=
  match ev with
  | ScrollControllerSmooth.GsapUpdate v => 0 <= v <= 1
  | _ => True
  end.

(** The listener of the direct controller is registered ([true]) or
    not: what a [scroll] event does then. *)
Definition listening {A : Type} {N : JsNumber A} {S : Type}
  (callback : A -> S -> S) (c : ScrollControllerDirect.ScrollController A)
  (w : Browser.Window A) (b : bool) : Prop :=
  forall w' s,
    Browser.scrollListeners w' = Browser.scrollListeners w ->
    ScrollControllerDirect.dispatchScroll callback c w' s
    = if b then ScrollControllerDirect.runHandleScroll callback c w' s
      else s.

(** The listeners of the window are the ones it had at construction and
    the function bound by the constructor of the smoothed controller. *)
Definition still_bound {A : Type} (w0 : Browser.Window A)
  (c : ScrollControllerSmooth.ScrollController A) (w : Browser.Window A)
  : Prop :=
  Browser.scrollListeners w
  = Browser.scrollListeners w0 ++ [Browser.functions w0]
  /\ ScrollControllerSmooth.boundSince c = Browser.functions w0
  /\ (Browser.functions w0 < Browser.functions w)%nat.

(** A window of 800 px on a page of 4000 px, nothing registered. *)
Definition sampleWindow : Browser.Window R :=
  Browser.mkWindow 0 800 4000 None [] 0.

(** What the smoothed controller keeps when its callback records: the
    values reported and the target lie in [[0,1]], and [progress] is
    the value reported last. *)
Definition reports_in_unit
  (c : ScrollControllerSmooth.ScrollController R) (log : list R) : Prop :=
  Forall (fun p => 0 <= p <= 1) log
  /\ 0 <= ScrollControllerSmooth.targetProgress c <= 1
  /\ ScrollControllerSmooth.getProgress c = last log 0.

(* ================================================================== *)
(** * Properties *)
(* ================================================================== *)

(** ** Comparisons and clamping on the reals *)

Lemma Rgtb_true (x y : R) : Rgtb x y = true <-> y < x.
Proof.
  unfold Rgtb. destruct (Rlt_dec y x); split; intros; try easy.
Qed.

Lemma Rgtb_false (x y : R) : Rgtb x y = false <-> x <= y.
Proof.
  unfold Rgtb. destruct (Rlt_dec y x); split; intros; try easy; lra.
Qed.

Lemma Rltb_true (x y : R) : Rltb x y = true <-> x < y.
Proof.
  unfold Rltb. destruct (Rlt_dec x y); split; intros; try easy.
Qed.

Lemma Rleb_true (x y : R) : Rleb x y = true <-> x <= y.
Proof.
  unfold Rleb. destruct (Rle_dec x y); split; intros; try easy.
Qed.

Lemma Rleb_false (x y : R) : Rleb x y = false <-> y < x.
Proof.
  unfold Rleb. destruct (Rle_dec x y); split; intros; try easy; lra.
Qed.

Lemma Rsign_pos (x : R) : 0 < x -> Rsign x = 1.
Proof.
  intros H. unfold Rsign. destruct (Rlt_dec 0 x); [reflexivity | lra].
Qed.

Lemma Rsign_neg (x : R) : x < 0 -> Rsign x = -1.
Proof.
  intros H. unfold Rsign.
  destruct (Rlt_dec 0 x); [lra |]. destruct (Rlt_dec x 0); [reflexivity | lra].
Qed.

Lemma clamp_unit (x : R) : 0 <= MathUtils.clamp x 0 1 <= 1.
Proof.
  unfold MathUtils.clamp. cbn.
  unfold Rmax, Rmin. destruct (Rle_dec 1 x); destruct (Rle_dec 0 _); lra.
Qed.

Lemma clamp_id (x : R) : 0 <= x <= 1 -> MathUtils.clamp x 0 1 = x.
Proof.
  intros H. unfold MathUtils.clamp. cbn.
  unfold Rmax, Rmin. destruct (Rle_dec 1 x); destruct (Rle_dec 0 _); lra.
Qed.

Lemma clamp_cases (p : R) :
  MathUtils.clamp p 0 1
  = if Rlt_dec p 0 then 0 else if Rlt_dec 1 p then 1 else p.
Proof.
  unfold MathUtils.clamp. cbn. unfold Rmax, Rmin.
  destruct (Rlt_dec p 0); destruct (Rle_dec 1 p);
    destruct (Rle_dec 0 _); try destruct (Rlt_dec 1 p); lra.
Qed.

(** ** The constant-rate chase keeps both progress values in [0,1] *)

Lemma stepProgress_unit (dt : R) (c : ConstantRate.CharacterController R) :
  0 <= ConstantRate.currentProgress c <= 1 ->
  0 <= ConstantRate.stepProgress dt c <= 1.
Proof.
  intros H. unfold ConstantRate.stepProgress. cbn.
  destruct (Rgtb _ _); [apply clamp_unit | exact H].
Qed.

Lemma updateAnimation_progress {A} {N : JsNumber A}
    (c : ConstantRate.CharacterController A) :
  ConstantRate.targetProgress (ConstantRate.updateAnimation c)
    = ConstantRate.targetProgress c
  /\ ConstantRate.currentProgress (ConstantRate.updateAnimation c)
    = ConstantRate.currentProgress c.
Proof.
  unfold ConstantRate.updateAnimation.
  destruct (_ && _ && _).
  - destruct (ConstantRate.walkAction c); split; reflexivity.
  - destruct (_ && _ && _); [| split; reflexivity].
    destruct (ConstantRate.idleAction c); split; reflexivity.
Qed.

Lemma updateMixer_progress {A} {N : JsNumber A} (dt : A)
    (c : ConstantRate.CharacterController A) :
  ConstantRate.targetProgress (ConstantRate.updateMixer dt c)
    = ConstantRate.targetProgress c
  /\ ConstantRate.currentProgress (ConstantRate.updateMixer dt c)
    = ConstantRate.currentProgress c.
Proof.
  unfold ConstantRate.updateMixer.
  destruct (ConstantRate.mixer c); split; reflexivity.
Qed.

Lemma update_progress {A} {N : JsNumber A} (dt : A)
    (c : ConstantRate.CharacterController A) :
  ConstantRate.targetProgress (ConstantRate.update dt c)
    = ConstantRate.targetProgress c
  /\ ConstantRate.currentProgress (ConstantRate.update dt c)
    = ConstantRate.stepProgress dt c.
Proof.
  unfold ConstantRate.update.
  destruct (updateMixer_progress dt
              (ConstantRate.updateAnimation (ConstantRate.updatePosition dt c)))
    as [-> ->].
  destruct (updateAnimation_progress (ConstantRate.updatePosition dt c))
    as [-> ->].
  split; reflexivity.
Qed.

Lemma call_unit (k : ConstantRate.Call R) (c : ConstantRate.CharacterController R) :
  unit_progress c -> unit_progress (ConstantRate.call k c).
Proof.
  intros [Ht Hc]. destruct k as [p | dt]; unfold unit_progress; cbn.
  - split; [apply clamp_unit | exact Hc].
  - destruct (update_progress dt c) as [-> ->].
    split; [exact Ht | apply stepProgress_unit; exact Hc].
Qed.

Lemma run_unit (ks : list (ConstantRate.Call R))
    (c : ConstantRate.CharacterController R) :
  unit_progress c -> unit_progress (ConstantRate.run ks c).
Proof.
  revert c. induction ks as [| k ks IH]; intros c H; [exact H |].
  apply IH, call_unit, H.
Qed.

(** C2. Starting from the constructed controller, after any sequence of
    [setTargetProgress] and [update] calls with arbitrary real arguments,
    [targetProgress] and [currentProgress] lie in [0,1]; and
    [setTargetProgress p] stores 0 for [p < 0], 1 for [p > 1] and [p]
    otherwise.  The functions are total: no call can fail. *)
Theorem C2_progress_in_unit_interval :
  forall (ks : list (ConstantRate.Call R)) (p : R),
    let c := ConstantRate.run ks ConstantRate.init in
    (0 <= ConstantRate.targetProgress c <= 1
     /\ 0 <= ConstantRate.currentProgress c <= 1)
    /\ ConstantRate.targetProgress (ConstantRate.setTargetProgress p c)
       = (if Rlt_dec p 0 then 0 else if Rlt_dec 1 p then 1 else p).
Proof.
  intros ks p c. split.
  - apply run_unit. unfold unit_progress. cbn. lra.
  - cbn. apply clamp_cases.
Qed.

(** ** Locomotion state machine *)

Lemma same_action_Some (o : option AnimationAction) (a : AnimationAction) :
  same_action o (Some a) = true <-> o = Some a.
Proof.
  destruct o as [x |]; cbn; [| split; discriminate].
  rewrite Nat.eqb_eq. split; [intros ->; reflexivity | intros [= ->]; reflexivity].
Qed.

Lemma same_action_Some_false (o : option AnimationAction) (a : AnimationAction) :
  same_action o (Some a) = false <-> o <> Some a.
Proof.
  rewrite <- same_action_Some. destruct (same_action o (Some a)); split; intros; try easy.
Qed.

(** The decision taken by [updateAnimation] of the constant-rate controller when both clips exist. *)
Lemma updateAnimation_decides {A} {N : JsNumber A}
    (c : ConstantRate.CharacterController A) (i w : AnimationAction) :
  ConstantRate.idleAction c = Some i ->
  ConstantRate.walkAction c = Some w ->
  i <> w ->
  let chosen := if gtb (ConstantRate.currentSpeed c) ConstantRate.idleThreshold
                then w else i in
  let c' := ConstantRate.updateAnimation c in
  ConstantRate.currentAction c' = Some chosen
  /\ ConstantRate.idleAction c' = Some i
  /\ ConstantRate.walkAction c' = Some w
  /\ ConstantRate.currentSpeed c' = ConstantRate.currentSpeed c
  /\ (ConstantRate.currentAction c = Some chosen -> c' = c)
  /\ (ConstantRate.currentAction c <> Some chosen ->
      ConstantRate.actionCalls c'
      = ConstantRate.actionCalls c
        ++ match ConstantRate.currentAction c with
           | Some cur => [FadeOut cur (lit 0.3)]
           | None => []
           end
        ++ [Reset chosen; FadeIn chosen (lit 0.3); Play chosen]).
Proof.
  intros Hi Hw Hiw chosen c'. subst chosen c'.
  unfold ConstantRate.updateAnimation.
  rewrite Hi, Hw. cbn [isSome].
  destruct (gtb (ConstantRate.currentSpeed c) ConstantRate.idleThreshold) eqn:Hm;
    cbn [andb negb].
  - destruct (same_action (ConstantRate.currentAction c) (Some w)) eqn:Hs; cbn [negb].
    + apply same_action_Some in Hs.
      repeat split; try assumption. intros H; contradiction.
    + apply same_action_Some_false in Hs.
      unfold ConstantRate.fadeToAction. cbn.
      repeat split; try assumption.
      * intros H; contradiction.
      * intros _. destruct (ConstantRate.currentAction c) as [cur |]; cbn.
        -- destruct (Nat.eqb cur w) eqn:E.
           ++ apply Nat.eqb_eq in E. subst. contradiction.
           ++ cbn. rewrite <- app_assoc. reflexivity.
        -- reflexivity.
  - destruct (same_action (ConstantRate.currentAction c) (Some i)) eqn:Hs; cbn [negb].
    + apply same_action_Some in Hs.
      repeat split; try assumption. intros H; contradiction.
    + apply same_action_Some_false in Hs.
      unfold ConstantRate.fadeToAction. cbn.
      repeat split; try assumption.
      * intros H; contradiction.
      * intros _. destruct (ConstantRate.currentAction c) as [cur |]; cbn.
        -- destruct (Nat.eqb cur i) eqn:E.
           ++ apply Nat.eqb_eq in E. subst. contradiction.
           ++ cbn. rewrite <- app_assoc. reflexivity.
        -- reflexivity.
Qed.
(** The decision taken by [update] of the exponential-chase controller. *)
Lemma expchase_update_decides {A} {N : JsNumber A} (delta : A)
    (c : ExpChase.CharacterController A) (m : AnimationMixer A)
    (i w : AnimationAction) :
  ExpChase.mixer c = Some m ->
  ExpChase.idleAction c = Some i ->
  ExpChase.walkAction c = Some w ->
  i <> w ->
  let chosen := if gtb (ExpChase.tickSpeed delta c) ExpChase.WALK_THRESHOLD
                then w else i in
  let c' := ExpChase.update delta c in
  ExpChase.currentAction c' = Some chosen
  /\ ExpChase.idleAction c' = Some i
  /\ ExpChase.walkAction c' = Some w
  /\ (ExpChase.currentAction c = Some chosen ->
      ExpChase.actionCalls c' = ExpChase.actionCalls c)
  /\ (ExpChase.currentAction c <> Some chosen ->
      ExpChase.actionCalls c'
      = ExpChase.actionCalls c
        ++ [SetEnabled chosen; Reset chosen; FadeIn chosen (lit 0.2)]
        ++ match ExpChase.currentAction c with
           | Some cur => [FadeOut cur (lit 0.2)]
           | None => []
           end
        ++ [Play chosen]).
Proof.
  intros Hm Hi Hw Hiw chosen c'. subst chosen c'.
  unfold ExpChase.update, ExpChase.playWalk, ExpChase.playIdle. rewrite Hm. cbn [ExpChase.idleAction ExpChase.walkAction ExpChase.currentAction].
  rewrite Hi, Hw. cbn [isSome andb].
  destruct (gtb (ExpChase.tickSpeed delta c) ExpChase.WALK_THRESHOLD).
  -
    destruct (same_action (ExpChase.currentAction c) (Some w)) eqn:Hs.
    + apply same_action_Some in Hs. cbn.
      repeat split; try assumption; try reflexivity. intros H; contradiction.
    + apply same_action_Some_false in Hs. cbn.
      repeat split; try assumption; try reflexivity. intros H; contradiction.
  -
    destruct (same_action (ExpChase.currentAction c) (Some i)) eqn:Hs.
    + apply same_action_Some in Hs. cbn.
      repeat split; try assumption; try reflexivity. intros H; contradiction.
    + apply same_action_Some_false in Hs. cbn.
      repeat split; try assumption; try reflexivity. intros H; contradiction.
Qed.

Lemma expchase_locomotion_of {A} {N : JsNumber A}
    (c : ExpChase.CharacterController A) (i w : AnimationAction) :
  ExpChase.idleAction c = Some i ->
  ExpChase.walkAction c = Some w ->
  i <> w ->
  (ExpChase.locomotion c = Some Walking
     <-> ExpChase.currentAction c = Some w)
  /\ (ExpChase.locomotion c = Some Idle
     <-> ExpChase.currentAction c = Some i).
Proof.
  intros Hi Hw Hiw. unfold ExpChase.locomotion. rewrite Hi, Hw.
  destruct (same_action (ExpChase.currentAction c) (Some w)) eqn:E1.
  - apply same_action_Some in E1. rewrite E1.
    split; split; intros H; try easy. injection H as ->. contradiction.
  - apply same_action_Some_false in E1.
    destruct (same_action (ExpChase.currentAction c) (Some i)) eqn:E2.
    + apply same_action_Some in E2. split; split; intros H; try easy.
    + apply same_action_Some_false in E2. split; split; intros H; try easy.
Qed.

Lemma constantrate_locomotion_of {A} {N : JsNumber A}
    (c : ConstantRate.CharacterController A) (i w : AnimationAction) :
  ConstantRate.idleAction c = Some i ->
  ConstantRate.walkAction c = Some w ->
  i <> w ->
  (ConstantRate.locomotion c = Some Walking
     <-> ConstantRate.currentAction c = Some w)
  /\ (ConstantRate.locomotion c = Some Idle
     <-> ConstantRate.currentAction c = Some i).
Proof.
  intros Hi Hw Hiw. unfold ConstantRate.locomotion. rewrite Hi, Hw.
  destruct (same_action (ConstantRate.currentAction c) (Some w)) eqn:E1.
  - apply same_action_Some in E1. rewrite E1.
    split; split; intros H; try easy. injection H as ->. contradiction.
  - apply same_action_Some_false in E1.
    destruct (same_action (ConstantRate.currentAction c) (Some i)) eqn:E2.
    + apply same_action_Some in E2. split; split; intros H; try easy.
    + apply same_action_Some_false in E2. split; split; intros H; try easy.
Qed.

Lemma constantrate_update_decides (delta : R)
    (c : ConstantRate.CharacterController R) (i w : AnimationAction) :
  ConstantRate.idleAction c = Some i ->
  ConstantRate.walkAction c = Some w ->
  i <> w ->
  let c' := ConstantRate.update delta c in
  let chosen := if Rgtb (ConstantRate.currentSpeed c') 0.01 then w else i in
  ConstantRate.currentAction c' = Some chosen
  /\ ConstantRate.idleAction c' = Some i
  /\ ConstantRate.walkAction c' = Some w
  /\ (ConstantRate.currentAction c = Some chosen ->
      ConstantRate.actionCalls c' = ConstantRate.actionCalls c)
  /\ (ConstantRate.currentAction c <> Some chosen ->
      ConstantRate.actionCalls c'
      = ConstantRate.actionCalls c
        ++ match ConstantRate.currentAction c with
           | Some cur => [FadeOut cur 0.3]
           | None => []
           end
        ++ [Reset chosen; FadeIn chosen 0.3; Play chosen]).
Proof.
  intros Hi Hw Hiw c' chosen.
  pose proof (@updateAnimation_decides R _ (ConstantRate.updatePosition delta c) i w
                Hi Hw Hiw) as H.
  cbv zeta in H. destruct H as (Hc & Hi' & Hw' & Hs & Hsame & Hdiff).
  assert (Hsp : ConstantRate.currentSpeed c'
                = ConstantRate.currentSpeed (ConstantRate.updatePosition delta c)).
  { subst c'. unfold ConstantRate.update, ConstantRate.updateMixer.
    destruct (ConstantRate.mixer _); cbn [ConstantRate.currentSpeed]; rewrite ?Hs; reflexivity. }
  subst chosen. rewrite Hsp.
  change (Rgtb (ConstantRate.currentSpeed (ConstantRate.updatePosition delta c)) 0.01)
    with (gtb (ConstantRate.currentSpeed (ConstantRate.updatePosition delta c))
              (@ConstantRate.idleThreshold R _)).
  subst c'. unfold ConstantRate.update, ConstantRate.updateMixer.
  destruct (ConstantRate.mixer (ConstantRate.updateAnimation _)) eqn:Hm.
  all: cbn [ConstantRate.currentAction ConstantRate.idleAction
            ConstantRate.walkAction ConstantRate.actionCalls].
  all: repeat split; try assumption.
  all: try (intros H; rewrite (Hsame H); reflexivity).
  all: intros H; exact (Hdiff H).
Qed.

(** C4. With two distinct clips present (and, for the exponential chase,
    the mixer), after an [update] the locomotion state is [Walking]
    exactly when the speed of that tick exceeds the threshold (0.01 for
    the constant-rate controller, 0.02 for the exponential chase) and
    [Idle] exactly when it does not; when the state decided is the one
    already in effect no action method is called, and action methods are
    called only when [currentAction] changes. *)
Theorem C4_locomotion_follows_speed :
  forall (delta : R)
         (cA : ConstantRate.CharacterController R)
         (cB : ExpChase.CharacterController R)
         (m : AnimationMixer R) (i w : AnimationAction),
    i <> w ->
    ConstantRate.idleAction cA = Some i ->
    ConstantRate.walkAction cA = Some w ->
    ExpChase.mixer cB = Some m ->
    ExpChase.idleAction cB = Some i ->
    ExpChase.walkAction cB = Some w ->
    let cA' := ConstantRate.update delta cA in
    let cB' := ExpChase.update delta cB in
    ((ConstantRate.locomotion cA' = Some Walking
        <-> ConstantRate.currentSpeed cA' > 0.01)
     /\ (ConstantRate.locomotion cA' = Some Idle
        <-> ConstantRate.currentSpeed cA' <= 0.01)
     /\ (ConstantRate.locomotion cA = ConstantRate.locomotion cA' ->
         ConstantRate.actionCalls cA' = ConstantRate.actionCalls cA)
     /\ (ConstantRate.actionCalls cA' <> ConstantRate.actionCalls cA ->
         ConstantRate.currentAction cA' <> ConstantRate.currentAction cA))
    /\ ((ExpChase.locomotion cB' = Some Walking
        <-> ExpChase.tickSpeed delta cB > 0.02)
     /\ (ExpChase.locomotion cB' = Some Idle
        <-> ExpChase.tickSpeed delta cB <= 0.02)
     /\ (ExpChase.locomotion cB = ExpChase.locomotion cB' ->
         ExpChase.actionCalls cB' = ExpChase.actionCalls cB)
     /\ (ExpChase.actionCalls cB' <> ExpChase.actionCalls cB ->
         ExpChase.currentAction cB' <> ExpChase.currentAction cB)).
Proof.
  intros delta cA cB m i w Hiw HiA HwA Hm HiB HwB cA' cB'. split.
  - destruct (constantrate_update_decides delta cA i w HiA HwA Hiw)
      as (Hc & Hi' & Hw' & Hsame & _).
    fold cA' in Hc, Hi', Hw', Hsame.
    destruct (constantrate_locomotion_of cA' i w Hi' Hw' Hiw) as [HW HI].
    destruct (constantrate_locomotion_of cA i w HiA HwA Hiw) as [HW0 HI0].
    assert (Hloc : ConstantRate.locomotion cA = ConstantRate.locomotion cA' ->
                   ConstantRate.actionCalls cA' = ConstantRate.actionCalls cA).
    { intros Heq. apply Hsame.
      destruct (Rgtb (ConstantRate.currentSpeed cA') 0.01).
      - apply HW0. rewrite Heq. apply HW. exact Hc.
      - apply HI0. rewrite Heq. apply HI. exact Hc. }
    assert (Hcur : ConstantRate.actionCalls cA' <> ConstantRate.actionCalls cA ->
                   ConstantRate.currentAction cA' <> ConstantRate.currentAction cA).
    { intros Hne Heq. apply Hne, Hsame. rewrite <- Heq. exact Hc. }
    split; [| split; [| split; assumption]]; rewrite ?HW, ?HI, Hc;
      (destruct (Rgtb (ConstantRate.currentSpeed cA') 0.01) eqn:E;
       [apply Rgtb_true in E | apply Rgtb_false in E]).
    + split; [intros _; lra | reflexivity].
    + split; [intros [= ->]; contradiction | intros; lra].
    + split; [intros [= ->]; contradiction | intros; lra].
    + split; [intros _; lra | reflexivity].
  - destruct (expchase_update_decides delta cB m i w Hm HiB HwB Hiw)
      as (Hc & Hi' & Hw' & Hsame & _).
    fold cB' in Hc, Hi', Hw', Hsame.
    destruct (expchase_locomotion_of cB' i w Hi' Hw' Hiw) as [HW HI].
    destruct (expchase_locomotion_of cB i w HiB HwB Hiw) as [HW0 HI0].
    change (gtb (ExpChase.tickSpeed delta cB) ExpChase.WALK_THRESHOLD)
      with (Rgtb (ExpChase.tickSpeed delta cB) 0.02) in *.
    assert (Hloc : ExpChase.locomotion cB = ExpChase.locomotion cB' ->
                   ExpChase.actionCalls cB' = ExpChase.actionCalls cB).
    { intros Heq. apply Hsame.
      destruct (Rgtb (ExpChase.tickSpeed delta cB) 0.02).
      - apply HW0. rewrite Heq. apply HW. exact Hc.
      - apply HI0. rewrite Heq. apply HI. exact Hc. }
    assert (Hcur : ExpChase.actionCalls cB' <> ExpChase.actionCalls cB ->
                   ExpChase.currentAction cB' <> ExpChase.currentAction cB).
    { intros Hne Heq. apply Hne, Hsame. rewrite <- Heq. exact Hc. }
    split; [| split; [| split; assumption]]; rewrite ?HW, ?HI, Hc;
      (destruct (Rgtb (ExpChase.tickSpeed delta cB) 0.02) eqn:E;
       [apply Rgtb_true in E | apply Rgtb_false in E]).
    + split; [intros _; lra | reflexivity].
    + split; [intros [= ->]; contradiction | intros; lra].
    + split; [intros [= ->]; contradiction | intros; lra].
    + split; [intros _; lra | reflexivity].
Qed.

Lemma C4_locomotion_follows_speed_witness :
  let cA := ConstantRate.loadedWithClips 0%nat 1%nat (@ConstantRate.init R _) in
  let cB := ExpChase.loadedWithClips 0%nat 1%nat (@ExpChase.init R _) in
  (0%nat <> 1%nat
   /\ ConstantRate.idleAction cA = Some 0%nat
   /\ ConstantRate.walkAction cA = Some 1%nat
   /\ ExpChase.mixer cB = Some (mkMixer 0)
   /\ ExpChase.idleAction cB = Some 0%nat
   /\ ExpChase.walkAction cB = Some 1%nat)
  /\ (ConstantRate.locomotion (ConstantRate.update (1 / 60) cA) = Some Walking
      <-> ConstantRate.currentSpeed (ConstantRate.update (1 / 60) cA) > 0.01)
  /\ (ExpChase.locomotion (ExpChase.update (1 / 60) cB) = Some Walking
      <-> ExpChase.tickSpeed (1 / 60) cB > 0.02).
Proof.
  intros cA cB.
  pose proof (C4_locomotion_follows_speed (1 / 60) cA cB (mkMixer 0)
                0%nat 1%nat (O_S 0) eq_refl eq_refl eq_refl eq_refl eq_refl)
    as H.
  split; [repeat split; try reflexivity; exact (O_S 0) |].
  split; [exact (proj1 (proj1 H)) | exact (proj1 (proj2 H))].
Defined.

(** ** The exponential chase without a mixer *)

Lemma expchase_update_no_mixer {A} {N : JsNumber A} (delta : A)
    (c : ExpChase.CharacterController A) :
  ExpChase.mixer c = None -> ExpChase.update delta c = c.
Proof.
  intros H. unfold ExpChase.update. rewrite H. reflexivity.
Qed.

Lemma expchase_ticks_no_mixer {A} {N : JsNumber A} (dts : nat -> A) (n : nat)
    (c : ExpChase.CharacterController A) :
  ExpChase.mixer c = None -> ExpChase.ticks dts n c = c.
Proof.
  intros H. induction n as [| n IH]; cbn; [reflexivity |].
  rewrite IH. apply expchase_update_no_mixer, H.
Qed.

(** C10. In the exponential-chase controller, while [mixer] is null
    [update(delta)] returns the state unchanged for every [delta] (finite,
    infinite or NaN), also after any number of frames and whatever target
    was set: [currentProgress], the object's position and [lastZ] stay as
    they were.  The constructor and a failed model load both leave the
    mixer null. *)
Theorem C10_update_is_noop_without_mixer :
  forall (delta p : jsnum) (dts : nat -> jsnum) (n : nat)
         (c : ExpChase.CharacterController jsnum),
    ExpChase.mixer c = None ->
    ExpChase.update delta c = c
    /\ ExpChase.ticks dts n c = c
    /\ (let c' := ExpChase.ticks dts n (ExpChase.setTargetProgress p c) in
        ExpChase.currentProgress c' = ExpChase.currentProgress c
        /\ ExpChase.object3D c' = ExpChase.object3D c
        /\ ExpChase.lastZ c' = ExpChase.lastZ c)
    /\ ExpChase.mixer (@ExpChase.init jsnum _) = None
    /\ ExpChase.mixer (ExpChase.loadFailed c) = None.
Proof.
  intros delta p dts n c H.
  split; [apply expchase_update_no_mixer, H |].
  split; [apply expchase_ticks_no_mixer, H |].
  split; [| split; [reflexivity | exact H]].
  cbv zeta. rewrite expchase_ticks_no_mixer by exact H.
  repeat split; reflexivity.
Qed.

Lemma C10_update_is_noop_without_mixer_witness :
  ExpChase.mixer (@ExpChase.init jsnum _) = None
  /\ ExpChase.update NaN (@ExpChase.init jsnum _) = ExpChase.init
  /\ ExpChase.currentProgress
       (ExpChase.ticks (fun _ => Fin (1 / 60)) 100
          (ExpChase.setTargetProgress (Fin 1) ExpChase.init))
     = Fin 0.
Proof.
  pose proof (C10_update_is_noop_without_mixer NaN (Fin 1)
                (fun _ => Fin (1 / 60)) 100 ExpChase.init eq_refl) as H.
  split; [reflexivity |].
  split; [exact (proj1 H) | exact (proj1 (proj1 (proj2 (proj2 H))))].
Defined.

(** ** Chasing the target *)

Lemma Rclamp_id (x : R) : 0 <= x <= 1 -> Rmax 0 (Rmin 1 x) = x.
Proof. exact (clamp_id x). Qed.

Lemma constantrate_step_cases (dt : R) (c : ConstantRate.CharacterController R) :
  let cur := ConstantRate.currentProgress c in
  let tgt := ConstantRate.targetProgress c in
  0 <= cur <= 1 -> 0 <= tgt <= 1 -> 0 <= maxStepOf dt c ->
  (0.0001 < tgt - cur ->
     ConstantRate.stepProgress dt c = cur + Rmin (tgt - cur) (maxStepOf dt c))
  /\ (tgt - cur < - 0.0001 ->
     ConstantRate.stepProgress dt c = cur - Rmin (cur - tgt) (maxStepOf dt c))
  /\ (- 0.0001 <= tgt - cur <= 0.0001 ->
     ConstantRate.stepProgress dt c = cur).
Proof.
  intros cur tgt Hc Ht Hm.
  unfold ConstantRate.stepProgress. cbn.
  fold (maxStepOf dt c). fold cur. fold tgt.
  generalize dependent (maxStepOf dt c). intros ms Hm.
  repeat split; intros Hd.
  - assert (E : Rgtb (Rabs (tgt - cur)) 0.0001 = true).
    { apply Rgtb_true. rewrite Rabs_right; lra. }
    rewrite E, Rsign_pos by lra. rewrite (Rabs_right (tgt - cur)) by lra.
    rewrite Rclamp_id; [lra |].
    unfold Rmin. destruct (Rle_dec _ _); lra.
  - assert (E : Rgtb (Rabs (tgt - cur)) 0.0001 = true).
    { apply Rgtb_true. rewrite Rabs_left; lra. }
    rewrite E, Rsign_neg by lra. rewrite (Rabs_left (tgt - cur)) by lra.
    replace (- (tgt - cur)) with (cur - tgt) by lra.
    rewrite Rclamp_id; [lra |].
    unfold Rmin. destruct (Rle_dec _ _); lra.
  - assert (E : Rgtb (Rabs (tgt - cur)) 0.0001 = false).
    { apply Rgtb_false. unfold Rabs. destruct (Rcase_abs _); lra. }
    rewrite E. reflexivity.
Qed.

Lemma constantrate_update_frame {A} {N : JsNumber A} (dt : A)
    (c : ConstantRate.CharacterController A) :
  ConstantRate.startZ (ConstantRate.update dt c) = ConstantRate.startZ c
  /\ ConstantRate.endZ (ConstantRate.update dt c) = ConstantRate.endZ c.
Proof.
  unfold ConstantRate.update, ConstantRate.updateMixer,
    ConstantRate.updateAnimation.
  set (c1 := ConstantRate.updatePosition dt c).
  assert (H1 : ConstantRate.startZ c1 = ConstantRate.startZ c
               /\ ConstantRate.endZ c1 = ConstantRate.endZ c)
    by (split; reflexivity).
  destruct (_ && _ && _).
  - destruct (ConstantRate.walkAction c1);
      destruct (ConstantRate.mixer _); exact H1.
  - destruct (_ && _ && _).
    + destruct (ConstantRate.idleAction c1);
        destruct (ConstantRate.mixer _); exact H1.
    + destruct (ConstantRate.mixer _); exact H1.
Qed.

Lemma constantrate_ticks_frame (dts : nat -> R) (n : nat)
    (c : ConstantRate.CharacterController R) :
  ConstantRate.targetProgress (ConstantRate.ticks dts n c)
    = ConstantRate.targetProgress c
  /\ ConstantRate.startZ (ConstantRate.ticks dts n c) = ConstantRate.startZ c
  /\ ConstantRate.endZ (ConstantRate.ticks dts n c) = ConstantRate.endZ c.
Proof.
  induction n as [| n (IHt & IHs & IHe)]; cbn; [repeat split |].
  destruct (update_progress (dts n) (ConstantRate.ticks dts n c)) as [-> _].
  destruct (constantrate_update_frame (dts n) (ConstantRate.ticks dts n c))
    as [-> ->].
  repeat split; assumption.
Qed.

Lemma constantrate_ticks_S (dts : nat -> R) (n : nat)
    (c : ConstantRate.CharacterController R) :
  ConstantRate.currentProgress (ConstantRate.ticks dts (S n) c)
  = ConstantRate.stepProgress (dts n) (ConstantRate.ticks dts n c).
Proof.
  cbn. apply update_progress.
Qed.

Section ConstantRateChase.
Variable c : ConstantRate.CharacterController R.
Variable dts : nat -> R.
Variable dmin : R.
Hypothesis Hcur : 0 <= ConstantRate.currentProgress c <= 1.
Hypothesis Htgt : 0 <= ConstantRate.targetProgress c <= 1.
Hypothesis Hpath : ConstantRate.startZ c <> ConstantRate.endZ c.
Hypothesis Hdmin : 0 < dmin.
Hypothesis Hdts : forall n, dmin <= dts n.

Let tgt := ConstantRate.targetProgress c.
Let cur (n : nat) := ConstantRate.currentProgress (ConstantRate.ticks dts n c).
Let len := Rabs (ConstantRate.endZ c - ConstantRate.startZ c).
Let m := 2.0 * dmin / len.

Lemma cr_len_pos : 0 < len.
Proof. apply Rabs_pos_lt. lra. Qed.

Lemma cr_m_pos : 0 < m.
Proof.
  unfold m. apply Rdiv_lt_0_compat; [lra | apply cr_len_pos].
Qed.

Lemma cr_maxStep (n : nat) :
  m <= maxStepOf (dts n) (ConstantRate.ticks dts n c).
Proof.
  unfold maxStepOf.
  destruct (constantrate_ticks_frame dts n c) as (_ & -> & ->).
  fold len. unfold m, Rdiv.
  apply Rmult_le_compat_r.
  - left. apply Rinv_0_lt_compat, cr_len_pos.
  - specialize (Hdts n). lra.
Qed.

Lemma cr_step (n : nat) :
  0 <= cur n <= 1 ->
  0 <= cur (S n) <= 1
  /\ (cur n <= tgt -> cur n <= cur (S n) <= tgt)
  /\ (tgt <= cur n -> tgt <= cur (S n) <= cur n)
  /\ (0.0001 < Rabs (tgt - cur n) ->
      Rabs (tgt - cur (S n)) <= Rmax 0 (Rabs (tgt - cur n) - m))
  /\ (Rabs (tgt - cur n) <= 0.0001 -> cur (S n) = cur n).
Proof.
  intros Hn.
  assert (ES : cur (S n)
               = ConstantRate.stepProgress (dts n) (ConstantRate.ticks dts n c))
    by (apply constantrate_ticks_S).
  pose proof (cr_maxStep n) as Hm. pose proof cr_m_pos as Hmp.
  destruct (constantrate_step_cases (dts n) (ConstantRate.ticks dts n c))
    as (Hup & Hdown & Hstay).
  - exact Hn.
  - destruct (constantrate_ticks_frame dts n c) as (-> & _). exact Htgt.
  - lra.
  - destruct (constantrate_ticks_frame dts n c) as (Et & _).
    rewrite Et in Hup, Hdown, Hstay. fold tgt in Hup, Hdown, Hstay.
    fold (cur n) in Hup, Hdown, Hstay.
    set (ms := maxStepOf (dts n) (ConstantRate.ticks dts n c)) in *.
    unfold tgt in Htgt |- *. fold tgt in Htgt |- *.
    destruct (Rlt_dec 0.0001 (tgt - cur n)) as [Hd | Hd].
    + rewrite ES, (Hup Hd). unfold Rmin, Rmax, Rabs.
      repeat destruct (Rle_dec _ _); repeat destruct (Rcase_abs _); repeat split; intros; lra.
    + destruct (Rlt_dec (tgt - cur n) (- 0.0001)) as [Hd' | Hd'].
      * rewrite ES, (Hdown Hd'). unfold Rmin, Rmax, Rabs.
        repeat destruct (Rle_dec _ _); repeat destruct (Rcase_abs _); repeat split; intros; lra.
      * rewrite ES, Hstay by lra. unfold Rmax, Rabs.
        repeat destruct (Rle_dec _ _); repeat destruct (Rcase_abs _); repeat split; intros; lra.
Qed.

Lemma cr_unit (n : nat) : 0 <= cur n <= 1.
Proof.
  induction n as [| n IH]; [exact Hcur | apply (cr_step n IH)].
Qed.

Lemma cr_gap_bound (n : nat) :
  Rabs (tgt - cur n) <= Rmax 0.0001 (Rabs (tgt - cur 0) - INR n * m).
Proof.
  induction n as [| n IH].
  - cbn [INR]. unfold Rmax. destruct (Rle_dec _ _); lra.
  - destruct (cr_step n (cr_unit n)) as (_ & _ & _ & Hbig & Hsmall).
    rewrite S_INR. pose proof cr_m_pos as Hmp.
    destruct (Rlt_dec 0.0001 (Rabs (tgt - cur n))) as [Hd | Hd].
    + specialize (Hbig Hd). revert IH Hbig. unfold Rmax.
      repeat destruct (Rle_dec _ _); intros; lra.
    + rewrite Hsmall by lra. revert IH. unfold Rmax.
      repeat destruct (Rle_dec _ _); intros; lra.
Qed.

Lemma cr_dead_zone :
  exists n0, forall n, (n0 <= n)%nat -> Rabs (tgt - cur n) <= 0.0001.
Proof.
  destruct (INR_archimed m (Rabs (tgt - cur 0)) cr_m_pos) as [n0 Hn0].
  exists n0. intros n Hn. pose proof (cr_gap_bound n) as Hb.
  assert (INR n0 <= INR n) by (apply le_INR; exact Hn).
  pose proof cr_m_pos as Hmp.
  assert (INR n0 * m <= INR n * m) by (apply Rmult_le_compat_r; lra).
  revert Hb. unfold Rmax. destruct (Rle_dec _ _); intros; lra.
Qed.
End ConstantRateChase.

(** ** The exponential chase *)

Lemma expchase_update_fields {A} {N : JsNumber A} (dt : A)
    (c : ExpChase.CharacterController A) (m : AnimationMixer A) :
  ExpChase.mixer c = Some m ->
  ExpChase.currentProgress (ExpChase.update dt c) = ExpChase.stepProgress dt c
  /\ ExpChase.targetProgress (ExpChase.update dt c) = ExpChase.targetProgress c
  /\ ExpChase.mixer (ExpChase.update dt c) = Some (mixer_update m dt).
Proof.
  intros Hm. unfold ExpChase.update. rewrite Hm.
  cbn [ExpChase.idleAction ExpChase.walkAction].
  destruct (isSome (ExpChase.idleAction c) && isSome (ExpChase.walkAction c)).
  - destruct (gtb _ _).
    + unfold ExpChase.playWalk. cbn [ExpChase.walkAction ExpChase.currentAction].
      destruct (ExpChase.walkAction c); [| repeat split].
      destruct (same_action _ _); repeat split.
    + unfold ExpChase.playIdle. cbn [ExpChase.idleAction ExpChase.currentAction].
      destruct (ExpChase.idleAction c); [| repeat split].
      destruct (same_action _ _); repeat split.
  - repeat split.
Qed.

Lemma expchase_step_gap (dt : R) (c : ExpChase.CharacterController R) :
  ExpChase.targetProgress c - ExpChase.stepProgress dt c
  = exp (Ropp 5 * dt) * (ExpChase.targetProgress c - ExpChase.currentProgress c).
Proof.
  unfold ExpChase.stepProgress, MathUtils.lerp. cbn. ring.
Qed.

Section ExponentialChase.
Variable c : ExpChase.CharacterController R.
Variable m0 : AnimationMixer R.
Variable dts : nat -> R.
Variable dmin : R.
Hypothesis Hmixer : ExpChase.mixer c = Some m0.
Hypothesis Hcur : 0 <= ExpChase.currentProgress c <= 1.
Hypothesis Htgt : 0 <= ExpChase.targetProgress c <= 1.
Hypothesis Hdmin : 0 < dmin.
Hypothesis Hdts : forall n, dmin <= dts n.

Let tgt := ExpChase.targetProgress c.
Let cur (n : nat) := ExpChase.currentProgress (ExpChase.ticks dts n c).
Let q := exp (Ropp 5 * dmin).

Lemma ec_ticks_frame (n : nat) :
  ExpChase.targetProgress (ExpChase.ticks dts n c) = tgt
  /\ exists m, ExpChase.mixer (ExpChase.ticks dts n c) = Some m.
Proof.
  induction n as [| n (IHt & m & IHm)]; cbn.
  - split; [reflexivity | exists m0; exact Hmixer].
  - destruct (expchase_update_fields (dts n) (ExpChase.ticks dts n c) m IHm)
      as (_ & -> & ->).
    split; [exact IHt | eexists; reflexivity].
Qed.

Lemma ec_gap_S (n : nat) :
  tgt - cur (S n) = exp (Ropp 5 * dts n) * (tgt - cur n).
Proof.
  destruct (ec_ticks_frame n) as (Ht & m & Hm).
  unfold cur. cbn [ExpChase.ticks].
  destruct (expchase_update_fields (dts n) (ExpChase.ticks dts n c) m Hm)
    as (-> & _ & _).
  rewrite <- Ht. apply expchase_step_gap.
Qed.

Lemma ec_q_bounds : 0 < q < 1.
Proof.
  unfold q. split; [apply exp_pos |].
  rewrite <- exp_0. apply exp_increasing. lra.
Qed.

Lemma ec_factor (n : nat) : 0 < exp (Ropp 5 * dts n) <= q.
Proof.
  split; [apply exp_pos |]. unfold q.
  destruct (Req_dec (dts n) dmin) as [-> | Hne]; [lra |].
  left. apply exp_increasing. specialize (Hdts n). lra.
Qed.

Lemma ec_step (n : nat) :
  (cur n <= tgt -> cur n <= cur (S n) <= tgt)
  /\ (tgt <= cur n -> tgt <= cur (S n) <= cur n)
  /\ Rabs (tgt - cur (S n)) <= q * Rabs (tgt - cur n).
Proof.
  pose proof (ec_gap_S n) as E. pose proof (ec_factor n) as [Hp Hq].
  pose proof ec_q_bounds as [Hq0 Hq1].
  set (f := exp (Ropp 5 * dts n)) in *.
  repeat split; try intros H; try nra.
  rewrite E, Rabs_mult, (Rabs_right f) by lra.
  apply Rmult_le_compat_r; [apply Rabs_pos | exact Hq].
Qed.

Lemma ec_unit (n : nat) : 0 <= cur n <= 1.
Proof.
  induction n as [| n IH]; [exact Hcur |].
  destruct (ec_step n) as (Hup & Hdown & _).
  unfold tgt in *. destruct (Rle_dec (cur n) (ExpChase.targetProgress c)).
  - specialize (Hup r). lra.
  - assert (Hge : ExpChase.targetProgress c <= cur n) by lra.
    specialize (Hdown Hge). lra.
Qed.

Lemma ec_gap_pow (n : nat) :
  Rabs (tgt - cur n) <= q ^ n * Rabs (tgt - cur 0).
Proof.
  induction n as [| n IH]; [cbn; lra |].
  destruct (ec_step n) as (_ & _ & H). pose proof ec_q_bounds as [Hq0 Hq1].
  cbn [pow]. eapply Rle_trans; [exact H |].
  rewrite Rmult_assoc. apply Rmult_le_compat_l; lra.
Qed.

Lemma ec_converges :
  forall eps, 0 < eps ->
    exists n0, forall n, (n0 <= n)%nat -> Rabs (tgt - cur n) < eps.
Proof.
  intros eps Heps. pose proof ec_q_bounds as [Hq0 Hq1].
  set (g := Rabs (tgt - cur 0)).
  assert (Hg : 0 <= g) by apply Rabs_pos.
  destruct (pow_lt_1_zero q) with (y := eps / (g + 1)) as [n0 Hn0].
  - rewrite Rabs_right; lra.
  - apply Rdiv_lt_0_compat; lra.
  - exists n0. intros n Hn. specialize (Hn0 n Hn).
    rewrite Rabs_right in Hn0 by (left; apply pow_lt; exact Hq0).
    eapply Rle_lt_trans; [apply ec_gap_pow |]. fold g.
    assert (Hpow : 0 < q ^ n) by (apply pow_lt; exact Hq0).
    apply Rle_lt_trans with (q ^ n * (g + 1)); [nra |].
    apply Rmult_lt_reg_r with (/ (g + 1)).
    + apply Rinv_0_lt_compat. lra.
    + rewrite Rmult_assoc, Rinv_r by lra. unfold Rdiv in Hn0. lra.
Qed.
End ExponentialChase.

Lemma nearTarget_stuck (n : nat) :
  ConstantRate.currentProgress
    (ConstantRate.ticks (fun _ => 1 / 60) n nearTarget) = 0.
Proof.
  induction n as [| n IH]; [reflexivity |].
  rewrite constantrate_ticks_S.
  destruct (constantrate_ticks_frame (fun _ => 1 / 60) n nearTarget)
    as (Ht & Hs & He).
  assert (Htv : ConstantRate.targetProgress nearTarget = 0.00005).
  { cbn. apply Rclamp_id. lra. }
  destruct (constantrate_step_cases (1 / 60)
              (ConstantRate.ticks (fun _ => 1 / 60) n nearTarget))
    as (_ & _ & Hstay).
  - rewrite IH. lra.
  - rewrite Ht, Htv. lra.
  - unfold maxStepOf. rewrite Hs, He. cbn. unfold Rdiv.
    apply Rmult_le_pos; [lra |].
    left. apply Rinv_0_lt_compat, Rabs_pos_lt. lra.
  - rewrite Hstay; [exact IH |]. rewrite Ht, Htv, IH. lra.
Qed.

(** C3, as stated, fails for the constant-rate controller: with the
    target set to 0.00005 the progress stays at 0 on every frame. *)
Lemma C3_counterexample_dead_zone :
  (0 <= ConstantRate.targetProgress nearTarget <= 1)
  /\ ~ converges_to_target nearTarget (fun _ => 1 / 60).
Proof.
  assert (Htv : ConstantRate.targetProgress nearTarget = 0.00005).
  { cbn. apply Rclamp_id. lra. }
  split; [rewrite Htv; lra |].
  intros H. destruct (H 0.00001 ltac:(lra)) as [n0 Hn0].
  specialize (Hn0 n0 (Nat.le_refl n0)).
  rewrite nearTarget_stuck, Htv in Hn0.
  rewrite Rabs_right in Hn0; lra.
Qed.

(** C3 (amended). With the target in [0,1] held fixed and frame times
    bounded below by some [dmin > 0], [currentProgress] stays in [0,1],
    moves monotonically toward the target and never crosses it, in both
    controllers.  The exponential chase (mixer present) converges to the
    target.  The constant-rate chase does not step while the gap is at
    most 0.0001: after finitely many frames it is, and remains, within
    0.0001 of the target. *)
Theorem C3_chase_monotone_without_overshoot :
  forall (cA : ConstantRate.CharacterController R)
         (cB : ExpChase.CharacterController R) (mB : AnimationMixer R)
         (dts : nat -> R) (dmin : R),
    0 < dmin -> (forall n, dmin <= dts n) ->
    0 <= ConstantRate.currentProgress cA <= 1 ->
    0 <= ConstantRate.targetProgress cA <= 1 ->
    ConstantRate.startZ cA <> ConstantRate.endZ cA ->
    ExpChase.mixer cB = Some mB ->
    0 <= ExpChase.currentProgress cB <= 1 ->
    0 <= ExpChase.targetProgress cB <= 1 ->
    let tA := ConstantRate.targetProgress cA in
    let a n := ConstantRate.currentProgress (ConstantRate.ticks dts n cA) in
    let tB := ExpChase.targetProgress cB in
    let b n := ExpChase.currentProgress (ExpChase.ticks dts n cB) in
    (forall n, 0 <= a n <= 1
               /\ (a n <= tA -> a n <= a (S n) <= tA)
               /\ (tA <= a n -> tA <= a (S n) <= a n))
    /\ (exists n0, forall n, (n0 <= n)%nat -> Rabs (tA - a n) <= 0.0001)
    /\ (forall n, 0 <= b n <= 1
                  /\ (b n <= tB -> b n <= b (S n) <= tB)
                  /\ (tB <= b n -> tB <= b (S n) <= b n))
    /\ (forall eps, 0 < eps ->
          exists n0, forall n, (n0 <= n)%nat -> Rabs (tB - b n) < eps).
Proof.
  intros cA cB mB dts dmin Hd Hdts HcA HtA Hp Hm HcB HtB tA a tB b.
  split; [| split; [| split]].
  - intros n.
    assert (Hu : 0 <= a n <= 1)
      by (apply cr_unit with (dmin := dmin); assumption).
    destruct (cr_step cA dts dmin) with (n := n) as (_ & H1 & H2 & _);
      try assumption.
    repeat split; try apply Hu; try apply H1; try apply H2; assumption.
  - apply cr_dead_zone with (dmin := dmin); assumption.
  - intros n.
    assert (Hu : 0 <= b n <= 1)
      by (apply ec_unit with (m0 := mB) (dmin := dmin); assumption).
    destruct (ec_step cB mB dts dmin) with (n := n) as (H1 & H2 & _);
      try assumption.
    repeat split; try apply Hu; try apply H1; try apply H2; assumption.
  - apply ec_converges with (m0 := mB) (dmin := dmin); assumption.
Qed.

Lemma C3_chase_monotone_without_overshoot_witness :
  let cA := ConstantRate.setTargetProgress 1 (@ConstantRate.init R _) in
  let cB := ExpChase.loadedWithClips 0%nat 1%nat
              (ExpChase.setTargetProgress 1 (@ExpChase.init R _)) in
  (0 < 1 / 60
   /\ 0 <= ConstantRate.currentProgress cA <= 1
   /\ 0 <= ConstantRate.targetProgress cA <= 1
   /\ ConstantRate.startZ cA <> ConstantRate.endZ cA
   /\ ExpChase.mixer cB = Some (mkMixer 0)
   /\ 0 <= ExpChase.currentProgress cB <= 1
   /\ 0 <= ExpChase.targetProgress cB <= 1)
  /\ (exists n0, forall n, (n0 <= n)%nat ->
        Rabs (ConstantRate.targetProgress cA
              - ConstantRate.currentProgress
                  (ConstantRate.ticks (fun _ => 1 / 60) n cA)) <= 0.0001).
Proof.
  intros cA cB.
  assert (H0 : 0 < 1 / 60) by lra.
  assert (H1 : 0 <= ConstantRate.currentProgress cA <= 1) by (cbn; lra).
  assert (H2 : 0 <= ConstantRate.targetProgress cA <= 1)
    by (cbn; apply clamp_unit).
  assert (H3 : ConstantRate.startZ cA <> ConstantRate.endZ cA)
    by (cbn; lra).
  assert (H4 : 0 <= ExpChase.currentProgress cB <= 1) by (cbn; lra).
  assert (H5 : 0 <= ExpChase.targetProgress cB <= 1)
    by (cbn; apply clamp_unit).
  split; [repeat split; solve [assumption | apply H1 | apply H2 | apply H4 | apply H5] |].
  exact (proj1 (proj2
           (C3_chase_monotone_without_overshoot cA cB (mkMixer 0)
              (fun _ => 1 / 60) (1 / 60) H0 (fun _ => Rle_refl _)
              H1 H2 H3 eq_refl H4 H5))).
Defined.

(** ** Malformed frame times *)

Lemma js_clamp_unit (v : jsnum) :
  v <> NaN -> finite_unit (MathUtils.clamp v (Fin 0) (Fin 1)).
Proof.
  intros Hv. unfold MathUtils.clamp, finite_unit. cbn.
  destruct v as [| s | r]; [contradiction | |].
  - destruct s; cbn; unfold Rleb; repeat destruct (Rle_dec _ _);
      eexists; (split; [reflexivity | lra]).
  - cbn. unfold Rleb. destruct (Rle_dec 1 r); cbn; unfold Rleb;
      destruct (Rle_dec 0 _); eexists; (split; [reflexivity | lra]).
Qed.

Lemma js_add_fin_notNaN (a : R) (v : jsnum) : v <> NaN -> js_add (Fin a) v <> NaN.
Proof. destruct v; cbn; intros H; [contradiction | discriminate | discriminate]. Qed.

Lemma js_mul_fin_notNaN (a : R) (v : jsnum) :
  a <> 0 -> v <> NaN -> js_mul (Fin a) v <> NaN.
Proof.
  intros Ha Hv. destruct v as [| s | r]; cbn; [contradiction | | discriminate].
  unfold Rzero. destruct (Req_dec_T a 0); [contradiction | discriminate].
Qed.

Lemma js_min_notNaN (u v : jsnum) : u <> NaN -> v <> NaN -> js_min u v <> NaN.
Proof.
  intros Hu Hv. destruct u, v; try contradiction; cbn;
    match goal with |- (if ?b then _ else _) <> _ => destruct b end;
    discriminate.
Qed.

Lemma js_div_fin_notNaN (u : jsnum) (l : R) :
  u <> NaN -> l <> 0 -> js_div u (Fin l) <> NaN.
Proof.
  intros Hu Hl. destruct u as [| s | r]; cbn; [contradiction | discriminate |].
  unfold Rzero. destruct (Req_dec_T l 0); [contradiction | discriminate].
Qed.

Lemma Rsign_nonzero (x : R) : x <> 0 -> Rsign x <> 0.
Proof.
  intros H. unfold Rsign.
  destruct (Rlt_dec 0 x); [lra |]. destruct (Rlt_dec x 0); lra.
Qed.

Lemma constantrate_step_notNaN (delta : jsnum)
    (c : ConstantRate.CharacterController jsnum) :
  delta <> NaN -> wf_constantrate c ->
  finite_unit (ConstantRate.stepProgress delta c).
Proof.
  intros Hd ((x & Hx & Hx01) & (y & Hy & Hy01) & (s & e & Hs & He & Hse)).
  unfold ConstantRate.stepProgress. rewrite Hx, Hy, Hs, He.
  js_ops.
  change (js_sub (Fin y) (Fin x)) with (Fin (y + - x)).
  change (js_sub (Fin e) (Fin s)) with (Fin (e + - s)).
  change (js_abs (Fin (y + - x))) with (Fin (Rabs (y + - x))).
  change (js_abs (Fin (e + - s))) with (Fin (Rabs (e + - s))).
  change (js_sign (Fin (y + - x))) with (Fin (Rsign (y + - x))).
  change (js_gtb (Fin (Rabs (y + - x))) (Fin 0.0001))
    with (Rltb 0.0001 (Rabs (y + - x))).
  destruct (Rltb 0.0001 (Rabs (y + - x))) eqn:Hgap.
  - apply (js_clamp_unit). apply js_add_fin_notNaN.
    apply js_mul_fin_notNaN.
    + apply Rsign_nonzero. apply Rltb_true in Hgap.
      intros H0. rewrite H0, Rabs_R0 in Hgap. lra.
    + apply js_min_notNaN; [discriminate |].
      apply js_div_fin_notNaN.
      * apply js_mul_fin_notNaN; [lra | exact Hd].
      * apply Rabs_no_R0. lra.
  - exists x. split; [reflexivity | exact Hx01].
Qed.

Lemma constantrate_update_object {A} {N : JsNumber A} (dt : A)
    (c : ConstantRate.CharacterController A) :
  ConstantRate.object3D (ConstantRate.update dt c)
  = ConstantRate.object3D (ConstantRate.updatePosition dt c).
Proof.
  unfold ConstantRate.update, ConstantRate.updateMixer,
    ConstantRate.updateAnimation.
  set (c1 := ConstantRate.updatePosition dt c).
  destruct (_ && _ && _).
  - destruct (ConstantRate.walkAction c1);
      destruct (ConstantRate.mixer _); reflexivity.
  - destruct (_ && _ && _).
    + destruct (ConstantRate.idleAction c1);
        destruct (ConstantRate.mixer _); reflexivity.
    + destruct (ConstantRate.mixer _); reflexivity.
Qed.

Lemma js_lerp_fin (s e r : R) :
  MathUtils.lerp (Fin s) (Fin e) (Fin r) = Fin ((1 - r) * s + r * e).
Proof. reflexivity. Qed.

Lemma constantrate_update_notNaN (delta : jsnum)
    (c : ConstantRate.CharacterController jsnum) :
  delta <> NaN -> wf_constantrate c ->
  wf_constantrate (ConstantRate.update delta c)
  /\ isFinite (vz (position (ConstantRate.object3D (ConstantRate.update delta c))))
     = true.
Proof.
  intros Hd Hwf.
  pose proof (constantrate_step_notNaN delta c Hd Hwf) as (r & Hr & Hr01).
  destruct Hwf as (Hx & Hy & (s & e & Hs & He & Hse)).
  destruct (update_progress delta c) as [Et Ec].
  destruct (constantrate_update_frame delta c) as [Es Ee].
  split.
  - unfold wf_constantrate. rewrite Et, Ec, Es, Ee.
    split; [exists r; split; [exact Hr | exact Hr01] |].
    split; [exact Hy |]. exists s, e. repeat split; assumption.
  - rewrite constantrate_update_object.
    unfold ConstantRate.updatePosition.
    cbn [ConstantRate.object3D position Vec3.set_z vz].
    rewrite Hr, Hs, He, js_lerp_fin. reflexivity.
Qed.

(** The exponential chase with a well-formed (non-negative or infinite)
    frame time. *)
Lemma expchase_step_finite (delta : jsnum)
    (c : ExpChase.CharacterController jsnum) :
  nonneg_time delta -> wf_expchase c ->
  finite_unit (ExpChase.stepProgress delta c).
Proof.
  intros Hd ((x & Hx & Hx01) & (y & Hy & Hy01) & _).
  unfold ExpChase.stepProgress. rewrite Hx, Hy.
  destruct delta as [| sg | d]; cbn in Hd; [contradiction | subst sg |].
  - js_ops.
    change (js_neg (Fin 5)) with (Fin (- 5)).
    assert (E : js_mul (Fin (- 5)) (Inf false) = Inf true).
    { cbn. unfold Rzero, Rneg.
      destruct (Req_dec_T (- 5) 0); [lra |]. destruct (Rlt_dec (- 5) 0); [reflexivity | lra]. }
    rewrite E. cbn.
    eexists. split; [reflexivity | lra].
  - js_ops. cbn.
    eexists. split; [reflexivity |].
    match goal with
    | |- context [exp ?a] =>
        assert (H0 : 0 < exp a) by apply exp_pos;
        assert (H1 : exp a <= 1);
        [ rewrite <- exp_0; destruct (Req_dec d 0) as [-> | Hne];
          [ right; f_equal; lra | left; apply exp_increasing; lra ]
        | set (q := exp a) in * ]
    end.
    nra.
Qed.

Lemma expchase_update_motion {A} {N : JsNumber A} (dt : A)
    (c : ExpChase.CharacterController A) (m : AnimationMixer A) :
  ExpChase.mixer c = Some m ->
  let newZ := ExpChase.getZFromProgress c (ExpChase.stepProgress dt c) in
  ExpChase.object3D (ExpChase.update dt c)
  = mkObject3D (Vec3.set_z (position (ExpChase.object3D c)) newZ)
               (visible (ExpChase.object3D c))
  /\ ExpChase.lastZ (ExpChase.update dt c) = newZ
  /\ ExpChase.startZ (ExpChase.update dt c) = ExpChase.startZ c
  /\ ExpChase.endZ (ExpChase.update dt c) = ExpChase.endZ c.
Proof.
  intros Hm. unfold ExpChase.update. rewrite Hm.
  cbn [ExpChase.idleAction ExpChase.walkAction].
  destruct (isSome (ExpChase.idleAction c) && isSome (ExpChase.walkAction c)).
  - destruct (gtb _ _).
    + unfold ExpChase.playWalk. cbn [ExpChase.walkAction ExpChase.currentAction].
      destruct (ExpChase.walkAction c); [| repeat split].
      destruct (same_action _ _); repeat split.
    + unfold ExpChase.playIdle. cbn [ExpChase.idleAction ExpChase.currentAction].
      destruct (ExpChase.idleAction c); [| repeat split].
      destruct (same_action _ _); repeat split.
  - repeat split.
Qed.

Lemma expchase_update_finite (delta : jsnum)
    (c : ExpChase.CharacterController jsnum) (m : AnimationMixer jsnum) :
  nonneg_time delta -> ExpChase.mixer c = Some m -> wf_expchase c ->
  wf_expchase (ExpChase.update delta c)
  /\ isFinite (vz (position (ExpChase.object3D (ExpChase.update delta c))))
     = true.
Proof.
  intros Hd Hm Hwf.
  pose proof (expchase_step_finite delta c Hd Hwf) as (r & Hr & Hr01).
  destruct Hwf as (Hx & Hy & (s & e & Hs & He)).
  destruct (expchase_update_fields delta c m Hm) as (Ec & Et & _).
  destruct (expchase_update_motion delta c m Hm) as (Eo & _ & Es & Ee).
  split.
  - unfold wf_expchase. rewrite Et, Ec, Es, Ee.
    split; [exists r; split; [exact Hr | exact Hr01] |].
    split; [exact Hy |]. exists s, e. split; assumption.
  - rewrite Eo. cbn [position Vec3.set_z vz].
    unfold ExpChase.getZFromProgress. rewrite Hr, Hs, He.
    change (isFinite (MathUtils.lerp (Fin s) (Fin e)
                        (MathUtils.clamp (Fin r) (Fin 0) (Fin 1))) = true).
    destruct (js_clamp_unit (Fin r)) as (r' & -> & _); [discriminate |].
    reflexivity.
Qed.

Lemma finite_unit_notNaN (v : jsnum) : finite_unit v -> isNaN v = false.
Proof. intros (r & -> & _). reflexivity. Qed.

Lemma isFinite_notNaN (v : jsnum) : isFinite v = true -> isNaN v = false.
Proof. destruct v; cbn; intros H; try discriminate; reflexivity. Qed.

(** C8 (amended). A frame time that is not NaN never makes
    [currentProgress] or the position NaN in the constant-rate controller
    (negative and infinite frame times included: the result is clamped to
    [0,1]); in the exponential chase the same holds for a frame time that
    is finite and non-negative, or [+Infinity].  Nothing clamps or skips a
    malformed frame time before the position is computed. *)
Theorem C8_position_not_NaN_for_wellformed_dt :
  forall (dA dB : jsnum)
         (cA : ConstantRate.CharacterController jsnum)
         (cB : ExpChase.CharacterController jsnum)
         (mB : AnimationMixer jsnum),
    dA <> NaN -> wf_constantrate cA ->
    nonneg_time dB -> ExpChase.mixer cB = Some mB -> wf_expchase cB ->
    let cA' := ConstantRate.update dA cA in
    let cB' := ExpChase.update dB cB in
    (wf_constantrate cA'
     /\ isNaN (ConstantRate.currentProgress cA') = false
     /\ isNaN (vz (position (ConstantRate.object3D cA'))) = false)
    /\ (wf_expchase cB'
        /\ isNaN (ExpChase.currentProgress cB') = false
        /\ isNaN (vz (position (ExpChase.object3D cB'))) = false).
Proof.
  intros dA dB cA cB mB HdA HwA HdB Hm HwB cA' cB'.
  destruct (constantrate_update_notNaN dA cA HdA HwA) as [HA1 HA2].
  destruct (expchase_update_finite dB cB mB HdB Hm HwB) as [HB1 HB2].
  fold cA' in HA1, HA2. fold cB' in HB1, HB2.
  split; (split; [assumption |]); split.
  - apply finite_unit_notNaN, HA1.
  - apply isFinite_notNaN, HA2.
  - apply finite_unit_notNaN, HB1.
  - apply isFinite_notNaN, HB2.
Qed.

Lemma js_clamp_fin (x : R) :
  MathUtils.clamp (Fin x) (Fin 0) (Fin 1) = Fin (Rmax 0 (Rmin 1 x)).
Proof.
  unfold MathUtils.clamp. js_ops. cbn. unfold Rleb, Rmin, Rmax.
  destruct (Rle_dec 1 x); cbn; unfold Rleb; destruct (Rle_dec 0 _); reflexivity.
Qed.

(** C8, as stated, fails: a NaN frame time is neither clamped nor skipped
    and makes [currentProgress] and the position NaN. *)
Lemma C8_counterexample_NaN_delta :
  let c := ConstantRate.update NaN farTarget in
  let c' := ExpChase.update NaN farTargetLoaded in
  (isNaN (ConstantRate.currentProgress c) = true
   /\ isNaN (vz (position (ConstantRate.object3D c))) = true)
  /\ (isNaN (ExpChase.currentProgress c') = true
      /\ isNaN (vz (position (ExpChase.object3D c'))) = true).
Proof.
  cbv zeta. split; [| split; reflexivity].
  destruct (update_progress NaN farTarget) as [_ ->].
  rewrite constantrate_update_object.
  unfold ConstantRate.updatePosition.
  cbn [ConstantRate.object3D position Vec3.set_z vz].
  assert (E : ConstantRate.stepProgress NaN farTarget = NaN).
  { unfold ConstantRate.stepProgress, farTarget.
    cbn [ConstantRate.run fold_left ConstantRate.call
         ConstantRate.setTargetProgress ConstantRate.targetProgress
         ConstantRate.currentProgress ConstantRate.init ConstantRate.startZ
         ConstantRate.endZ].
    rewrite js_clamp_fin.
    replace (Rmax 0 (Rmin 1 1)) with 1
      by (unfold Rmax, Rmin; repeat destruct (Rle_dec _ _); lra).
    js_ops.
    change (js_gtb (js_abs (js_sub (Fin 1) (Fin 0))) (Fin 0.0001))
      with (Rltb 0.0001 (Rabs (1 + - 0))).
    assert (G : Rltb 0.0001 (Rabs (1 + - 0)) = true).
    { apply Rltb_true. rewrite Rabs_right; lra. }
    rewrite G. reflexivity. }
  rewrite E. split; reflexivity.
Qed.

Lemma C8_position_not_NaN_for_wellformed_dt_witness :
  (NInf <> NaN /\ wf_constantrate farTarget
   /\ nonneg_time (Fin (1 / 60))
   /\ ExpChase.mixer farTargetLoaded = Some (mkMixer (Fin 0))
   /\ wf_expchase farTargetLoaded)
  /\ isNaN (vz (position (ConstantRate.object3D
                            (ConstantRate.update NInf farTarget)))) = false
  /\ isNaN (vz (position (ExpChase.object3D
                            (ExpChase.update (Fin (1 / 60)) farTargetLoaded))))
     = false.
Proof.
  assert (H1 : NInf <> NaN) by discriminate.
  assert (H2 : wf_constantrate farTarget).
  { split; [exists 0; split; [reflexivity | lra] |].
    split; [apply (js_clamp_unit (Fin 1)); discriminate |].
    exists 0, (-30). repeat split; lra. }
  assert (H3 : nonneg_time (Fin (1 / 60))) by (cbn; lra).
  assert (H4 : wf_expchase farTargetLoaded).
  { split; [exists 0; split; [reflexivity | lra] |].
    split; [apply (js_clamp_unit (Fin 1)); discriminate |].
    exists 0, (-40). split; reflexivity. }
  pose proof (C8_position_not_NaN_for_wellformed_dt NInf (Fin (1 / 60))
                farTarget farTargetLoaded (mkMixer (Fin 0))
                H1 H2 H3 eq_refl H4) as H.
  split; [exact (conj H1 (conj H2 (conj H3 (conj eq_refl H4)))) |].
  split; [exact (proj2 (proj2 (proj1 H))) | exact (proj2 (proj2 (proj2 H)))].
Defined.

(** ** Follow camera *)

Lemma dist_nonneg (u v : Vector3 R) : 0 <= dist u v.
Proof. apply sqrt_pos. Qed.

Lemma sum_squares_nonneg (a b c : R) : 0 <= a * a + b * b + c * c.
Proof.
  pose proof (Rle_0_sqr a). pose proof (Rle_0_sqr b). pose proof (Rle_0_sqr c).
  unfold Rsqr in *. lra.
Qed.

(** One [lerp] step toward [w] scales the distance to [w] by [1 - f]. *)
Lemma vlerp_contracts (v w : Vector3 R) (f : R) :
  0 <= f <= 1 ->
  dist (Vec3.vlerp v w f) w = (1 - f) * dist v w.
Proof.
  intros Hf. unfold dist, Vec3.vlerp. cbn.
  match goal with
  | |- sqrt ?a = _ * sqrt ?b =>
      replace a with ((1 - f) * (1 - f) * b) by ring
  end.
  rewrite sqrt_mult; [| apply Rle_0_sqr | apply sum_squares_nonneg].
  rewrite sqrt_square by lra. reflexivity.
Qed.

Lemma followN_frame (tgt : Object3D R) (n : nat)
    (c : CameraController.CameraController R) :
  CameraController.offset (CameraController.followN tgt n c)
    = CameraController.offset c
  /\ CameraController.lookAtOffset (CameraController.followN tgt n c)
    = CameraController.lookAtOffset c
  /\ CameraController.smoothFactor (CameraController.followN tgt n c)
    = CameraController.smoothFactor c.
Proof.
  induction n as [| n IH]; cbn; [repeat split | exact IH].
Qed.

Lemma followN_desired (tgt : Object3D R) (n : nat)
    (c : CameraController.CameraController R) :
  CameraController.desiredPosition (CameraController.followN tgt n c) tgt
    = CameraController.desiredPosition c tgt
  /\ CameraController.lookAtTarget (CameraController.followN tgt n c) tgt
    = CameraController.lookAtTarget c tgt.
Proof.
  destruct (followN_frame tgt n c) as (Ho & Hl & _).
  unfold CameraController.desiredPosition, CameraController.lookAtTarget.
  rewrite Ho, Hl. split; reflexivity.
Qed.

Lemma followN_distance (tgt : Object3D R) (n : nat)
    (c : CameraController.CameraController R) :
  0 <= CameraController.smoothFactor c <= 1 ->
  let f := CameraController.smoothFactor c in
  dist (CameraController.currentPosition (CameraController.followN tgt n c))
       (CameraController.desiredPosition c tgt)
  = (1 - f) ^ n
    * dist (CameraController.currentPosition c)
           (CameraController.desiredPosition c tgt)
  /\ dist (CameraController.currentLookAt (CameraController.followN tgt n c))
          (CameraController.lookAtTarget c tgt)
     = (1 - f) ^ n
       * dist (CameraController.currentLookAt c)
              (CameraController.lookAtTarget c tgt).
Proof.
  intros Hf f. induction n as [| n [IHp IHl]]; [cbn; split; ring |].
  destruct (followN_frame tgt n c) as (_ & _ & Hs).
  destruct (followN_desired tgt n c) as (Hd & Hl).
  cbn [CameraController.followN CameraController.follow
       CameraController.currentPosition CameraController.currentLookAt pow].
  rewrite Hd, Hl, Hs. fold f.
  rewrite !vlerp_contracts by exact Hf. rewrite IHp, IHl. split; ring.
Qed.

Lemma geometric_vanishes (q g eps : R) :
  0 <= q < 1 -> 0 <= g -> 0 < eps ->
  exists n0, forall n, (n0 <= n)%nat -> q ^ n * g < eps.
Proof.
  intros Hq Hg Heps.
  destruct (pow_lt_1_zero q) with (y := eps / (g + 1)) as [n0 Hn0].
  - rewrite Rabs_right; lra.
  - apply Rdiv_lt_0_compat; lra.
  - exists n0. intros n Hn. specialize (Hn0 n Hn).
    assert (Hpow : 0 <= q ^ n) by (apply pow_le; lra).
    rewrite Rabs_right in Hn0 by lra.
    apply Rle_lt_trans with (q ^ n * (g + 1)); [nra |].
    apply Rmult_lt_reg_r with (/ (g + 1)).
    + apply Rinv_0_lt_compat. lra.
    + rewrite Rmult_assoc, Rinv_r by lra. unfold Rdiv in Hn0. lra.
Qed.

(** C5. With smoothing factor [f] strictly between 0 and 1, one
    [follow] step lerps the smoothed position toward the subject's
    position plus [offset] and the smoothed look-at point toward the
    subject's position plus [lookAtOffset], both with factor [f], and
    hands them to the camera; for a subject that does not move, the
    distance from the smoothed position to its target is multiplied by
    exactly [1 - f] at each step, hence by [(1 - f)^n] after [n] steps,
    and tends to 0. *)
Theorem C5_follow_contracts_and_converges :
  forall (c : CameraController.CameraController R) (tgt : Object3D R),
    0 < CameraController.smoothFactor c < 1 ->
    let f := CameraController.smoothFactor c in
    let desired := Vec3.vadd (position tgt) (CameraController.offset c) in
    let aim := Vec3.vadd (position tgt) (CameraController.lookAtOffset c) in
    let c' := CameraController.follow tgt c in
    (CameraController.currentPosition c'
       = Vec3.vlerp (CameraController.currentPosition c) desired f
     /\ CameraController.currentLookAt c'
       = Vec3.vlerp (CameraController.currentLookAt c) aim f
     /\ camPosition (CameraController.camera c')
       = CameraController.currentPosition c'
     /\ camTarget (CameraController.camera c')
       = Some (CameraController.currentLookAt c'))
    /\ dist (CameraController.currentPosition c') desired
       = (1 - f) * dist (CameraController.currentPosition c) desired
    /\ (forall n,
          dist (CameraController.currentPosition
                  (CameraController.followN tgt n c)) desired
          = (1 - f) ^ n * dist (CameraController.currentPosition c) desired)
    /\ (forall eps, 0 < eps ->
          exists n0, forall n, (n0 <= n)%nat ->
            dist (CameraController.currentPosition
                    (CameraController.followN tgt n c)) desired < eps).
Proof.
  intros c tgt Hf f desired aim c'.
  assert (Hf' : 0 <= f <= 1) by (unfold f; lra).
  split; [repeat split |]. split; [| split].
  - apply (vlerp_contracts (CameraController.currentPosition c) desired f Hf').
  - intros n. apply (followN_distance tgt n c Hf').
  - intros eps Heps.
    destruct (geometric_vanishes (1 - f)
                (dist (CameraController.currentPosition c) desired) eps)
      as [n0 Hn0]; [unfold f; lra | apply dist_nonneg | exact Heps |].
    exists n0. intros n Hn.
    change desired with (CameraController.desiredPosition c tgt) in *.
    rewrite (proj1 (followN_distance tgt n c Hf')).
    apply Hn0, Hn.
Qed.

Lemma C5_follow_contracts_and_converges_witness :
  let c := @CameraController.init R _ (16 / 9) in
  let tgt := mkObject3D (mkVector3 0 0 (-10)) true in
  0 < CameraController.smoothFactor c < 1
  /\ dist (CameraController.currentPosition (CameraController.follow tgt c))
          (Vec3.vadd (position tgt) (CameraController.offset c))
     = (1 - CameraController.smoothFactor c)
       * dist (CameraController.currentPosition c)
              (Vec3.vadd (position tgt) (CameraController.offset c)).
Proof.
  intros c tgt.
  assert (H : 0 < CameraController.smoothFactor c < 1) by (cbn; lra).
  split; [exact H |].
  exact (proj1 (proj2 (C5_follow_contracts_and_converges c tgt H))).
Defined.

(** [Experience.updateCameraFollow], the helper of the scene-based
    [Experience]: the camera position is lerped toward the subject's
    position plus (0, 1.7, 4) with the fixed factor 0.1, with the same
    contraction; the camera is aimed at the subject's position plus
    (0, 1.5, 0) directly. *)
Lemma updateCameraFollow_contracts
    (e : Experience.Experience R (ConstantRate.CharacterController R)) :
  let subject := position (cc_object3D (Experience.characterController e)) in
  let desired := Vec3.vadd subject (mkVector3 0 1.7 4) in
  let cam e := CameraController.camera (Experience.cameraController e) in
  dist (camPosition (cam (Experience.updateCameraFollow e))) desired
  = (1 - 0.1) * dist (camPosition (cam e)) desired
  /\ camTarget (cam (Experience.updateCameraFollow e))
     = Some (Vec3.vadd subject (mkVector3 0 1.5 0)).
Proof.
  cbv zeta. split; [| reflexivity].
  apply (vlerp_contracts _ _ 0.1). lra.
Qed.

(** ** Lightning *)

Section Lightning.
Context {C : Type} {Api : CharacterApi R C}.
Let Exp : Type := Experience.Experience R C.

(** The rain loop leaves the lightning state, the oracle and the camera
    alone. *)
Lemma updateRain_frame (dt : R) (e : Exp) :
  let e' := Experience.updateRain dt e in
  Experience.gidisLightningLight (Experience.gidisObjs e')
    = Experience.gidisLightningLight (Experience.gidisObjs e)
  /\ Experience.gidisLightningTimer (Experience.gidisObjs e')
    = Experience.gidisLightningTimer (Experience.gidisObjs e)
  /\ Experience.gidisLightningCooldown (Experience.gidisObjs e')
    = Experience.gidisLightningCooldown (Experience.gidisObjs e)
  /\ Experience.gidisLightningDuration (Experience.gidisObjs e')
    = Experience.gidisLightningDuration (Experience.gidisObjs e)
  /\ Experience.random (Experience.world e')
    = Experience.random (Experience.world e)
  /\ Experience.cameraController e' = Experience.cameraController e.
Proof.
  unfold Experience.updateRain.
  destruct (Experience.gidisRainGeometry _) as [ps |]; [| repeat split].
  destruct (Experience.gidisRainPoints _); [| repeat split].
  destruct (Experience.fallRain _ _ _ _) as [ps' k']. repeat split.
Qed.

Lemma updateLightning_flash (dt : R) (e : Exp) (l : Experience.LightningLight R) :
  let g := Experience.gidisObjs e in
  Experience.gidisLightningLight g = Some l ->
  0 < Experience.gidisLightningDuration g ->
  0 < Experience.gidisLightningTimer g ->
  let g' := Experience.gidisObjs (Experience.updateLightning dt e) in
  let remaining := Experience.gidisLightningTimer g - dt in
  Experience.gidisLightningTimer g' = remaining
  /\ Experience.gidisLightningCooldown g' = Experience.gidisLightningCooldown g
  /\ Experience.gidisLightningDuration g' = Experience.gidisLightningDuration g
  /\ exists l', Experience.gidisLightningLight g' = Some l'
       /\ Experience.lref l' = Experience.lref l
       /\ (0 < remaining ->
           Experience.intensity l'
           = 6.5 * (remaining / Experience.gidisLightningDuration g) ^ 2)
       /\ (remaining <= 0 -> Experience.intensity l' = 0).
Proof.
  intros g Hl Hdur Ht g' remaining. subst g'.
  unfold Experience.updateLightning. fold g. rewrite Hl.
  change (gtb (Experience.gidisLightningTimer g) (lit 0))
    with (Rgtb (Experience.gidisLightningTimer g) 0).
  assert (E : Rgtb (Experience.gidisLightningTimer g) 0 = true)
    by (apply Rgtb_true; exact Ht).
  rewrite E. cbn. fold g. fold remaining.
  repeat split.
  eexists. split; [reflexivity |]. 
  destruct (Rleb remaining 0) eqn:Hr.
  - apply Rleb_true in Hr. cbn. repeat split; intros; try lra.
  - apply Rleb_false in Hr. cbn. repeat split; intros; try lra.
    assert (Hq : 0 < remaining / Experience.gidisLightningDuration g)
      by (apply Rdiv_lt_0_compat; assumption).
    rewrite Rmax_right by lra. ring.
Qed.

Lemma updateLightning_wait (dt : R) (e : Exp) (l : Experience.LightningLight R) :
  let g := Experience.gidisObjs e in
  Experience.gidisLightningLight g = Some l ->
  Experience.gidisLightningTimer g <= 0 ->
  0 < Experience.gidisLightningCooldown g - dt ->
  let g' := Experience.gidisObjs (Experience.updateLightning dt e) in
  Experience.gidisLightningCooldown g' = Experience.gidisLightningCooldown g - dt
  /\ Experience.gidisLightningTimer g' = Experience.gidisLightningTimer g
  /\ Experience.gidisLightningDuration g' = Experience.gidisLightningDuration g
  /\ Experience.gidisLightningLight g' = Some l.
Proof.
  intros g Hl Ht Hc g'. subst g'.
  unfold Experience.updateLightning. fold g. rewrite Hl.
  change (gtb (Experience.gidisLightningTimer g) (lit 0))
    with (Rgtb (Experience.gidisLightningTimer g) 0).
  assert (E : Rgtb (Experience.gidisLightningTimer g) 0 = false)
    by (apply Rgtb_false; exact Ht).
  rewrite E. cbn. fold g.
  assert (E2 : Rleb (Experience.gidisLightningCooldown g - dt) 0 = false)
    by (apply Rleb_false; exact Hc).
  rewrite E2. cbn. fold g. repeat split. exact Hl.
Qed.

Lemma updateLightning_strike (dt : R) (e : Exp) (l : Experience.LightningLight R) :
  let g := Experience.gidisObjs e in
  Experience.gidisLightningLight g = Some l ->
  (forall n, 0 <= Experience.random (Experience.world e) n < 1) ->
  Experience.gidisLightningTimer g <= 0 ->
  Experience.gidisLightningCooldown g - dt <= 0 ->
  let g' := Experience.gidisObjs (Experience.updateLightning dt e) in
  0.08 <= Experience.gidisLightningDuration g' < 0.2
  /\ Experience.gidisLightningTimer g' = Experience.gidisLightningDuration g'
  /\ 2 <= Experience.gidisLightningCooldown g' < 6
  /\ exists l', Experience.gidisLightningLight g' = Some l'
       /\ Experience.lref l' = Experience.lref l
       /\ Experience.intensity l' = Experience.intensity l.
Proof.
  intros g Hl Hrnd Ht Hc g'. subst g'.
  unfold Experience.updateLightning. fold g. rewrite Hl.
  change (gtb (Experience.gidisLightningTimer g) (lit 0))
    with (Rgtb (Experience.gidisLightningTimer g) 0).
  assert (E : Rgtb (Experience.gidisLightningTimer g) 0 = false)
    by (apply Rgtb_false; exact Ht).
  rewrite E. cbn. fold g.
  assert (E2 : Rleb (Experience.gidisLightningCooldown g - dt) 0 = true)
    by (apply Rleb_true; exact Hc).
  rewrite E2. cbn.
  pose proof (Hrnd (Experience.drawn (Experience.world e))) as H0.
  pose proof (Hrnd (Experience.drawn (Experience.world e) + 1)%nat) as H1.
  repeat split; try lra.
  eexists. repeat split.
Qed.

(** The lightning part of [gidisRest], when no lightning light exists. *)
Lemma gidisRest_lightning (e : Exp) :
  Experience.gidisLightningLight (Experience.gidisObjs e) = None ->
  (forall n, 0 <= Experience.random (Experience.world e) n < 1) ->
  let g' := Experience.gidisObjs (Experience.gidisRest e) in
  Experience.gidisLightningTimer g' = 0
  /\ 2 <= Experience.gidisLightningCooldown g' < 6
  /\ exists l', Experience.gidisLightningLight g' = Some l'
       /\ Experience.intensity l' = 0.
Proof.
  intros Hl Hrnd. unfold Experience.gidisRest.
  destruct e as [w cam ch u f run idx prog lf isl g].
  destruct g as [sun sl amb rg rm rp ll tm cd du].
  cbn in Hl, Hrnd. subst ll.
  destruct sl as [sl |], amb as [amb |], rp as [rp |];
    cbn -[Experience.makeRain Nat.mul Nat.add];
    (split; [reflexivity |]);
    (split; [match goal with
             | |- _ <= 2 + Experience.random w ?k * 4 < _ =>
                 pose proof (Hrnd k); lra
             end |]);
    eexists; split; reflexivity.
Qed.

(** C9. The lightning of Gidiş is a two-phase timer.  Setup leaves it
    waiting ([timer = 0], light off) with a cooldown of [2 + u * 4] for a
    draw [u] of [Math.random()], so in [2,6).  While waiting
    ([timer <= 0]) a frame subtracts [dt] from the cooldown; when that
    reaches 0 or less, a flash starts: the duration is drawn in
    [0.08, 0.2), the flash timer is set to it and the cooldown is drawn
    again in [2,6).  While flashing ([timer > 0]) a frame subtracts [dt]
    from the timer and sets the intensity to
    [6.5 * (remaining / duration)^2], and to 0 once the timer has run
    out; the cooldown does not move during a flash. *)
Theorem C9_lightning_two_phase_timer :
  forall (dt : R) (e e0 : Exp) (l : Experience.LightningLight R),
    Experience.gidisLightningLight (Experience.gidisObjs e) = Some l ->
    0 < Experience.gidisLightningDuration (Experience.gidisObjs e) ->
    (forall n, 0 <= Experience.random (Experience.world e) n < 1) ->
    Experience.gidisLightningLight (Experience.gidisObjs e0) = None ->
    (forall n, 0 <= Experience.random (Experience.world e0) n < 1) ->
    let g := Experience.gidisObjs e in
    let g' := Experience.gidisObjs (Experience.updateGidisEffects dt e) in
    let g0 := Experience.gidisObjs (Experience.gidisRest e0) in
    let remaining := Experience.gidisLightningTimer g - dt in
    (* setup: waiting phase with a cooldown in [2,6), light off *)
    (Experience.gidisLightningTimer g0 = 0
     /\ 2 <= Experience.gidisLightningCooldown g0 < 6
     /\ exists l0, Experience.gidisLightningLight g0 = Some l0
          /\ Experience.intensity l0 = 0)
    (* waiting, cooldown not yet expired *)
    /\ (Experience.gidisLightningTimer g <= 0 ->
        0 < Experience.gidisLightningCooldown g - dt ->
        Experience.gidisLightningCooldown g'
          = Experience.gidisLightningCooldown g - dt
        /\ Experience.gidisLightningTimer g' = Experience.gidisLightningTimer g
        /\ Experience.gidisLightningLight g' = Some l)
    (* waiting, cooldown expires: a flash starts *)
    /\ (Experience.gidisLightningTimer g <= 0 ->
        Experience.gidisLightningCooldown g - dt <= 0 ->
        0.08 <= Experience.gidisLightningDuration g' < 0.2
        /\ Experience.gidisLightningTimer g'
           = Experience.gidisLightningDuration g'
        /\ 2 <= Experience.gidisLightningCooldown g' < 6)
    (* flashing *)
    /\ (0 < Experience.gidisLightningTimer g ->
        Experience.gidisLightningTimer g' = remaining
        /\ Experience.gidisLightningCooldown g'
           = Experience.gidisLightningCooldown g
        /\ Experience.gidisLightningDuration g'
           = Experience.gidisLightningDuration g
        /\ exists l', Experience.gidisLightningLight g' = Some l'
             /\ (0 < remaining ->
                 Experience.intensity l'
                 = 6.5 * (remaining / Experience.gidisLightningDuration g) ^ 2)
             /\ (remaining <= 0 -> Experience.intensity l' = 0)).
Proof.
  intros dt e e0 l Hl Hdur Hrnd Hl0 Hrnd0 g g' g0 remaining.
  destruct (updateRain_frame dt e) as (Rl & Rt & Rc & Rd & Rr & _).
  set (e1 := Experience.updateRain dt e) in *.
  assert (Hl1 : Experience.gidisLightningLight (Experience.gidisObjs e1) = Some l)
    by (rewrite Rl; exact Hl).
  split; [exact (gidisRest_lightning e0 Hl0 Hrnd0) |].
  split; [| split].
  - intros Ht Hc.
    destruct (updateLightning_wait dt e1 l Hl1) as (H1 & H2 & _ & H4).
    + rewrite Rt. exact Ht.
    + rewrite Rc. exact Hc.
    + unfold g', Experience.updateGidisEffects. fold e1.
      rewrite H1, H2, H4, Rc, Rt. repeat split.
  - intros Ht Hc.
    destruct (updateLightning_strike dt e1 l Hl1) as (H1 & H2 & H3 & _).
    + intros n. rewrite Rr. apply Hrnd.
    + rewrite Rt. exact Ht.
    + rewrite Rc. exact Hc.
    + unfold g', Experience.updateGidisEffects. fold e1.
      repeat split; solve [apply H1 | apply H2 | apply H3].
  - intros Ht.
    destruct (updateLightning_flash dt e1 l Hl1)
      as (H1 & H2 & H3 & l' & H4 & _ & H5 & H6).
    + rewrite Rd. exact Hdur.
    + rewrite Rt. exact Ht.
    + unfold g', Experience.updateGidisEffects. fold e1.
      rewrite Rt, Rd in *. rewrite H1, H2, H3, Rc.
      repeat split. exists l'. repeat split; assumption.
Qed.
End Lightning.

Lemma C9_lightning_two_phase_timer_witness :
  (0 < Experience.gidisLightningDuration (Experience.gidisObjs stormExperience)
   /\ (forall n,
         0 <= Experience.random (Experience.world stormExperience) n < 1)
   /\ Experience.gidisLightningLight (Experience.gidisObjs sampleExperience)
      = None)
  /\ 2 <= Experience.gidisLightningCooldown
            (Experience.gidisObjs (Experience.gidisRest sampleExperience)) < 6.
Proof.
  assert (H1 : 0 < Experience.gidisLightningDuration
                     (Experience.gidisObjs stormExperience)) by (cbn; lra).
  assert (H2 : forall n : nat,
             0 <= Experience.random (Experience.world stormExperience) n < 1)
    by (intros n; cbn; lra).
  split; [exact (conj H1 (conj H2 eq_refl)) |].
  exact (proj1 (proj2 (proj1
           (C9_lightning_two_phase_timer (1 / 60) stormExperience
              sampleExperience _ eq_refl H1 H2 eq_refl H2)))).
Defined.

(** ** Advancing past the last scene *)

(** C7. When the current scene is the last one, [goToNextScene] only
    writes "No more scenes available" to the console: the scene index,
    the scene graph, the loads in flight, every environment field, the
    character and the UI are as before, so no teardown and no setup took
    place. *)
Theorem C7_advance_on_last_scene_is_noop :
  forall (A C : Type) (N : JsNumber A) (Api : CharacterApi A C)
         (e : Experience.Experience A C),
    Experience.currentSceneIndex e
      = (List.length Experience.SCENES - 1)%nat ->
    exists e',
      Experience.goToNextScene e = Some e'
      /\ Experience.currentSceneIndex e' = Experience.currentSceneIndex e
      /\ Experience.console (Experience.world e')
         = Experience.console (Experience.world e)
           ++ [Experience.ConsoleLog "No more scenes available"%string]
      /\ Experience.sceneChildren (Experience.world e')
         = Experience.sceneChildren (Experience.world e)
      /\ Experience.sceneBackground (Experience.world e')
         = Experience.sceneBackground (Experience.world e)
      /\ Experience.pending (Experience.world e')
         = Experience.pending (Experience.world e)
      /\ Experience.lif e' = Experience.lif e
      /\ Experience.yilSonuIsland e' = Experience.yilSonuIsland e
      /\ Experience.gidisObjs e' = Experience.gidisObjs e
      /\ Experience.characterController e' = Experience.characterController e
      /\ Experience.uiController e' = Experience.uiController e
      /\ Experience.finalChoiceController e'
         = Experience.finalChoiceController e
      /\ Experience.sceneProgress e' = Experience.sceneProgress e.
Proof.
  intros A C N Api e Hidx.
  exists (Experience.log "No more scenes available" e).
  split; [| repeat split].
  unfold Experience.goToNextScene. rewrite Hidx, Nat.leb_refl. reflexivity.
Qed.

Lemma C7_advance_on_last_scene_is_noop_witness :
  let e := Experience.withIndex 4 sampleExperience in
  Experience.currentSceneIndex e = (List.length Experience.SCENES - 1)%nat
  /\ exists e', Experience.goToNextScene e = Some e'
                /\ Experience.currentSceneIndex e' = 4%nat.
Proof.
  intros e.
  split; [reflexivity |].
  destruct (C7_advance_on_last_scene_is_noop R _ _ _ e eq_refl)
    as (e' & H1 & H2 & _).
  exists e'. split; [exact H1 | exact H2].
Defined.

(** ** Chapter lifecycle *)

Import Experience.

Lemma kind_eqb_eq (a b : ObjectKind) : kind_eqb a b = true <-> a = b.
Proof.
  unfold kind_eqb. rewrite Nat.eqb_eq. split; [| intros ->; reflexivity].
  destruct a, b; cbn; intros H; try reflexivity; discriminate.
Qed.

Lemma obj_eqb_eq (a b : SceneObject) : obj_eqb a b = true <-> a = b.
Proof.
  unfold obj_eqb. rewrite andb_true_iff, kind_eqb_eq, Nat.eqb_eq.
  destruct a, b; cbn. split; [intros [-> ->]; reflexivity | intros [= -> ->]; split; reflexivity].
Qed.

Lemma obj_eqb_refl (a : SceneObject) : obj_eqb a a = true.
Proof. apply obj_eqb_eq. reflexivity. Qed.

Section Lifecycle.
Context {A : Type} {N : JsNumber A} {C : Type} {Api : CharacterApi A C}.
Let Exp : Type := Experience A C.

(** ** Teardown is idempotent *)

Lemma cleanupLif_idempotent (e : Exp) :
  cleanupLifStreetEnvironment (cleanupLifStreetEnvironment e)
  = cleanupLifStreetEnvironment e.
Proof.
  destruct e as [w cam ch u f run idx prog lf isl g].
  destruct lf as [[t |] [s |] [sl |] [pl |]]; vm_compute; reflexivity.
Qed.

Lemma cleanupYil_idempotent (e : Exp) :
  cleanupYilSonuEnvironment (cleanupYilSonuEnvironment e)
  = cleanupYilSonuEnvironment e.
Proof.
  destruct e as [w cam ch u f run idx prog lf isl g].
  destruct isl; reflexivity.
Qed.

Lemma cleanupGidis_idempotent (e : Exp) :
  cleanupGidisEnvironment (cleanupGidisEnvironment e)
  = cleanupGidisEnvironment e.
Proof.
  destruct e as [w cam ch u f run idx prog lf isl g].
  destruct g as [[sun |] [sl |] [amb |] [rg |] [rm |] [rp |] [ll |] tm cd du];
    vm_compute; reflexivity.
Qed.

(** ** What a teardown leaves behind *)

Ltac removed_from_scene H :=
  repeat (apply filter_In in H; destruct H as [H ?]);
  split; [exact H |];
  let Hin := fresh "Hin" in
  cbn; intros Hin;
  repeat match type of Hin with
         | _ \/ _ => destruct Hin as [Hin | Hin]
         end;
  try contradiction; subst;
  match goal with
  | Hn : negb (obj_eqb ?a ?a) = true |- _ =>
      rewrite obj_eqb_refl in Hn; discriminate Hn
  end.

Lemma cleanupLif_effect (e : Exp) :
  let e' := cleanupLifStreetEnvironment e in
  lif e' = mkLif None None None None
  /\ yilSonuIsland e' = yilSonuIsland e
  /\ gidisObjs e' = gidisObjs e
  /\ sameCore e e'
  /\ forall o, In o (sceneChildren (world e')) ->
               In o (sceneChildren (world e)) /\ ~ In o (lifRefs e).
Proof.
  destruct e as [w cam ch u f run idx prog lf isl g].
  destruct lf as [[t |] [s |] [sl |] [pl |]];
    (split; [reflexivity |]); (split; [reflexivity |]);
    (split; [reflexivity |]); (split; [repeat split |]);
    intros o H; cbn in H; removed_from_scene H.
Qed.

Lemma cleanupYil_effect (e : Exp) :
  let e' := cleanupYilSonuEnvironment e in
  lif e' = lif e
  /\ yilSonuIsland e' = None
  /\ gidisObjs e' = gidisObjs e
  /\ sameCore e e'
  /\ forall o, In o (sceneChildren (world e')) ->
               In o (sceneChildren (world e)) /\ ~ In o (yilRefs e).
Proof.
  destruct e as [w cam ch u f run idx prog lf isl g].
  destruct isl as [i |];
    (split; [reflexivity |]); (split; [reflexivity |]);
    (split; [reflexivity |]); (split; [repeat split |]);
    intros o H; cbn in H; removed_from_scene H.
Qed.

Lemma cleanupGidis_effect (e : Exp) :
  let e' := cleanupGidisEnvironment e in
  lif e' = lif e
  /\ yilSonuIsland e' = yilSonuIsland e
  /\ gidisObjs e'
     = mkGidis None None None None None None None (lit 0) (lit 0)
               (gidisLightningDuration (gidisObjs e))
  /\ sameCore e e'
  /\ forall o, In o (sceneChildren (world e')) ->
               In o (sceneChildren (world e)) /\ ~ In o (gidisRefs e).
Proof.
  destruct e as [w cam ch u f run idx prog lf isl g].
  destruct g as [[sun |] [sl |] [amb |] [rg |] [rm |] [rp |] [ll |] tm cd du];
    (split; [reflexivity |]); (split; [reflexivity |]);
    (split; [reflexivity |]); (split; [repeat split |]);
    intros o H; cbn in H; removed_from_scene H.
Qed.

Lemma cleanupAll_eq (e : Exp) :
  cleanupAll e
  = Some (cleanupGidisEnvironment
            (cleanupYilSonuEnvironment (cleanupLifStreetEnvironment e))).
Proof. reflexivity. Qed.

Lemma sameCore_trans (e1 e2 e3 : Exp) :
  sameCore e1 e2 -> sameCore e2 e3 -> sameCore e1 e3.
Proof.
  unfold sameCore. intros H1 H2.
  repeat match goal with
         | H : _ /\ _ |- _ => destruct H
         end.
  repeat split; congruence.
Qed.

Lemma referenced_split (e : Exp) (o : SceneObject) :
  In o (referenced e) <-> In o (lifRefs e) \/ In o (yilRefs e) \/ In o (gidisRefs e).
Proof.
  unfold referenced, lifRefs, yilRefs, gidisRefs. cbv zeta.
  rewrite !in_app_iff. tauto.
Qed.

(** After the teardown loop every environment field is null, and of the
    scene graph only objects that no field referred to remain. *)
Lemma cleanupAll_effect (e : Exp) :
  exists e', cleanupAll e = Some e'
    /\ lif e' = mkLif None None None None
    /\ yilSonuIsland e' = None
    /\ gidisObjs e'
       = mkGidis None None None None None None None (lit 0) (lit 0)
                 (gidisLightningDuration (gidisObjs e))
    /\ sameCore e e'
    /\ forall o, In o (sceneChildren (world e')) ->
                 In o (sceneChildren (world e)) /\ ~ In o (referenced e).
Proof.
  rewrite cleanupAll_eq. eexists. split; [reflexivity |].
  set (e1 := cleanupLifStreetEnvironment e).
  set (e2 := cleanupYilSonuEnvironment e1).
  destruct (cleanupLif_effect e) as (L1 & L2 & L3 & L4 & L5). fold e1 in L1, L2, L3, L4, L5.
  destruct (cleanupYil_effect e1) as (Y1 & Y2 & Y3 & Y4 & Y5). fold e2 in Y1, Y2, Y3, Y4, Y5.
  destruct (cleanupGidis_effect e2) as (G1 & G2 & G3 & G4 & G5).
  cbv zeta in G1, G2, G3, G4, G5.
  split; [rewrite G1, Y1; exact L1 |].
  split; [rewrite G2; exact Y2 |].
  split; [rewrite G3, Y3, L3; reflexivity |].
  split; [exact (sameCore_trans _ _ _ (sameCore_trans _ _ _ L4 Y4) G4) |].
  intros o Ho.
  destruct (G5 o Ho) as [Ho2 Hg]. destruct (Y5 o Ho2) as [Ho1 Hy].
  destruct (L5 o Ho1) as [Ho0 Hl].
  split; [exact Ho0 |].
  rewrite referenced_split. intros [H | [H | H]].
  - exact (Hl H).
  - apply Hy. unfold yilRefs in *. rewrite L2. exact H.
  - apply Hg. unfold gidisRefs in *. rewrite Y3, L3. exact H.
Qed.

Lemma cleanupAll_idempotent (e e' : Exp) :
  cleanupAll e = Some e' -> cleanupAll e' = Some e'.
Proof.
  destruct (cleanupAll_effect e) as (e0 & H0 & Hl & Hy & Hg & _).
  rewrite H0. intros [= <-]. rewrite cleanupAll_eq. f_equal.
  destruct e0 as [w cam ch u f run idx prog lf isl g].
  cbn in Hl, Hy, Hg. subst lf isl g. reflexivity.
Qed.

(** ** Activation of a scene *)

Lemma applyCurrentScene_effect (e : Exp) (def : SceneDefinition) :
  sceneAt (currentSceneIndex e) = Some def ->
  exists e1, applyCurrentScene e = Some e1
    /\ characterController e1
       = cc_setVisible (negb (SceneId_eqb (id def) final))
           (cc_setTargetProgress (lit 0) (characterController e))
    /\ currentSceneIndex e1 = currentSceneIndex e
    /\ sceneProgress e1 = lit 0
    /\ lif e1 = mkLif None None None None
    /\ yilSonuIsland e1 = None
    /\ gidisObjs e1
       = mkGidis None None None None None None None (lit 0) (lit 0)
                 (gidisLightningDuration (gidisObjs e))
    /\ pending (world e1) = pending (world e) ++ awaits (id def)
    /\ nextId (world e1) = nextId (world e)
    /\ forall o, In o (sceneChildren (world e1)) ->
                 In o (sceneChildren (world e)) /\ ~ In o (referenced e).
Proof.
  intros Hdef. unfold applyCurrentScene. rewrite Hdef.
  set (e' := log _ e).
  destruct (cleanupAll_effect e') as (e0 & H0 & Hl & Hy & Hg & Hc & Hs).
  rewrite H0. clear H0.
  destruct Hc as (_ & Hch & _ & _ & _ & Hidx & _ & Hp & Hn & _).
  destruct e0 as [w0 cam0 ch0 u0 f0 run0 idx0 prog0 lf0 isl0 g0].
  subst e'. destruct e as [w cam ch u f run idx prog lf isl g].
  cbn in Hl, Hy, Hg, Hch, Hidx, Hp, Hn, Hs, Hdef. subst lf0 isl0 g0 ch0 idx0.
  destruct idx as [| [| [| [| [| idx]]]]]; cbn in Hdef;
    [ | | | | | destruct idx; discriminate Hdef]; injection Hdef as <-.
  all: lazy beta iota zeta delta -[lit add sub mul div opp gtb ltb leb geb
         Math_abs Math_sign Math_min Math_max Math_exp
         cc_setTargetProgress cc_setVisible cc_update cc_object3D
         sceneChildren pending nextId app In not referenced].
  all: eexists; (split; [reflexivity |]).
  all: rewrite ?Hp, ?Hn, ?app_nil_r.
  all: repeat (split; [reflexivity |]).
  all: intros o Ho; apply (Hs o Ho).
Qed.

(** From a torn-down state on which the setup of scene [s] has just
    started, the completion of its loads builds exactly its environment. *)
Lemma completions_build (e1 : Exp) (s : SceneId) (d : A) :
  lif e1 = mkLif None None None None ->
  yilSonuIsland e1 = None ->
  gidisObjs e1
    = mkGidis None None None None None None None (lit 0) (lit 0) d ->
  sceneChildren (world e1) = [] ->
  pending (world e1) = awaits s ->
  exists e2, run (completions s) e1 = Some e2
    /\ sceneKinds e2 = environmentOf s
    /\ pending (world e2) = []
    /\ currentSceneIndex e2 = currentSceneIndex e1
    /\ (s <> lifStreet -> lifEmpty e2 = true)
    /\ (s <> yilSonu -> yilEmpty e2 = true)
    /\ (s <> gidis -> gidisEmpty e2 = true).
Proof.
  intros Hl Hy Hg Hs Hp.
  destruct e1 as [w cam ch u f run0 idx prog lf isl g].
  destruct w as [sc bg pd ni rnd dr con sy].
  cbn in Hl, Hy, Hg, Hs, Hp. subst lf isl g sc pd.
  destruct s.
  1,3,4,5: (eexists; split; [reflexivity |]);
    repeat (split; [reflexivity |]);
    repeat split; intros H; solve [reflexivity | contradiction].
  eexists; split; [vm_compute; reflexivity |].
  repeat (split; [reflexivity |]);
    repeat split; intros H; solve [reflexivity | contradiction].
Qed.
End Lifecycle.

Lemma scene_empty_of_covered {A C} (e e1 : Experience A C) :
  incl (sceneChildren (world e)) (referenced e) ->
  (forall o, In o (sceneChildren (world e1)) ->
             In o (sceneChildren (world e)) /\ ~ In o (referenced e)) ->
  sceneChildren (world e1) = [].
Proof.
  intros Hinc H. destruct (sceneChildren (world e1)) as [| o r]; [reflexivity |].
  destruct (H o (or_introl eq_refl)) as [Hin Hn].
  exfalso. apply Hn, Hinc, Hin.
Qed.

(** C6 (amended). Each teardown is idempotent, and so is the loop over
    all scenes; activating a scene runs that loop first.  From a state in
    which no load is in flight and every object in the scene graph is
    referred to by an environment field, activation leaves the scene
    graph and all environment fields empty and starts the first load of
    the new scene; when the loads of that scene then succeed, exactly its
    environment objects exist, nothing remains in flight, and the fields
    of the other scenes are still empty.  Nothing is claimed when an
    earlier load is still in flight: it is not cancelled and attaches its
    objects on completion. *)
Theorem C6_activation_builds_exactly_its_environment :
  forall (A C : Type) (N : JsNumber A) (Api : CharacterApi A C)
         (e : Experience A C) (def : SceneDefinition),
    sceneAt (currentSceneIndex e) = Some def ->
    pending (world e) = [] ->
    incl (sceneChildren (world e)) (referenced e) ->
    (cleanupLifStreetEnvironment (cleanupLifStreetEnvironment e)
       = cleanupLifStreetEnvironment e
     /\ cleanupYilSonuEnvironment (cleanupYilSonuEnvironment e)
       = cleanupYilSonuEnvironment e
     /\ cleanupGidisEnvironment (cleanupGidisEnvironment e)
       = cleanupGidisEnvironment e)
    /\ (exists e0, cleanupAll e = Some e0 /\ cleanupAll e0 = Some e0
          /\ sceneKinds e0 = []
          /\ lifEmpty e0 = true /\ yilEmpty e0 = true /\ gidisEmpty e0 = true)
    /\ exists e1, applyCurrentScene e = Some e1
         /\ sceneKinds e1 = []
         /\ lifEmpty e1 = true /\ yilEmpty e1 = true /\ gidisEmpty e1 = true
         /\ pending (world e1) = awaits (id def)
         /\ exists e2, run (completions (id def)) e1 = Some e2
              /\ onlyEnvironmentOf (id def) e2
              /\ pending (world e2) = []
              /\ currentSceneIndex e2 = currentSceneIndex e
              /\ (id def <> lifStreet -> lifEmpty e2 = true)
              /\ (id def <> yilSonu -> yilEmpty e2 = true)
              /\ (id def <> gidis -> gidisEmpty e2 = true).
Proof.
  intros A C N Api e def Hdef Hpend Hinc.
  split; [| split].
  - split; [apply cleanupLif_idempotent |].
    split; [apply cleanupYil_idempotent | apply cleanupGidis_idempotent].
  - destruct (cleanupAll_effect e) as (e0 & H0 & Hl & Hy & Hg & _ & Hs).
    exists e0. split; [exact H0 |].
    split; [exact (cleanupAll_idempotent e e0 H0) |].
    unfold sceneKinds, lifEmpty, yilEmpty, gidisEmpty.
    rewrite (scene_empty_of_covered e e0 Hinc Hs), Hl, Hy, Hg.
    repeat split.
  - destruct (applyCurrentScene_effect e def Hdef)
      as (e1 & H1 & _ & Hidx & _ & Hl & Hy & Hg & Hp & _ & Hs).
    exists e1. split; [exact H1 |].
    pose proof (scene_empty_of_covered e e1 Hinc Hs) as Hsc.
    rewrite Hpend in Hp. cbn [app] in Hp.
    unfold sceneKinds at 1. unfold lifEmpty at 1, yilEmpty at 1, gidisEmpty at 1.
    rewrite Hsc, Hl, Hy, Hg.
    repeat (split; [reflexivity |]). split; [exact Hp |].
    destruct (completions_build e1 (id def) _ Hl Hy Hg Hsc Hp)
      as (e2 & R1 & R2 & R3 & R4 & R5 & R6 & R7).
    exists e2. rewrite <- Hidx.
    repeat (split; [assumption |]). assumption.
Qed.

Lemma doubleAdvance_outcome :
  option_map
    (fun e => (option_map id (sceneAt (currentSceneIndex e)),
               pending (world e), sceneKinds e))
    afterDoubleAdvance
  = Some (Some yilSonu, [],
          [KLifTribune; KYilSonuIsland; KLifSun; KLifSunPointLight;
           KLifSunLightTarget; KLifSunLight]).
Proof. lazy. reflexivity. Qed.

(** C6, as stated, fails under the documented race: after two advances
    in a row (intro, Lif Sokak, Yıl Sonu) and the completion of every
    load, the active scene is Yıl Sonu, nothing is in flight, and the
    whole Lif Sokak environment stands in the scene graph next to the
    island. *)
Lemma C6_counterexample_double_advance :
  exists e,
    afterDoubleAdvance = Some e
    /\ option_map id (sceneAt (currentSceneIndex e)) = Some yilSonu
    /\ pending (world e) = []
    /\ sceneKinds e
       = [KLifTribune; KYilSonuIsland; KLifSun; KLifSunPointLight;
          KLifSunLightTarget; KLifSunLight]
    /\ ~ onlyEnvironmentOf yilSonu e.
Proof.
  pose proof doubleAdvance_outcome as H.
  destruct afterDoubleAdvance as [e |]; [| discriminate H].
  cbn [option_map] in H. injection H as H1 H2 H3.
  exists e. repeat (split; [assumption || reflexivity |]).
  unfold onlyEnvironmentOf. rewrite H3. discriminate.
Qed.

Lemma C6_activation_builds_exactly_its_environment_witness :
  let e := withIndex 1 sampleExperience in
  (option_map id (sceneAt (currentSceneIndex e)) = Some lifStreet
   /\ pending (world e) = []
   /\ incl (sceneChildren (world e)) (referenced e))
  /\ exists e1 e2,
       applyCurrentScene e = Some e1
       /\ run [Resolve 0; Resolve 0] e1 = Some e2
       /\ onlyEnvironmentOf lifStreet e2.
Proof.
  intros e.
  assert (H3 : incl (sceneChildren (world e)) (referenced e))
    by (intros o Ho; destruct Ho).
  split; [exact (conj eq_refl (conj eq_refl H3)) |].
  destruct (C6_activation_builds_exactly_its_environment R _ _ _ e _
              eq_refl eq_refl H3)
    as (_ & _ & e1 & H1 & _ & _ & _ & _ & _ & e2 & R1 & R2 & _).
  exists e1, e2. split; [exact H1 |]. split; [exact R1 | exact R2].
Defined.

(** ** Chapter reset and the motion smoother *)

Lemma constantrate_update_motion {A} {N : JsNumber A} (dt : A)
    (c : ConstantRate.CharacterController A) :
  let z := MathUtils.lerp (ConstantRate.startZ c) (ConstantRate.endZ c)
             (ConstantRate.stepProgress dt c) in
  ConstantRate.lastZ (ConstantRate.update dt c) = z
  /\ ConstantRate.currentSpeed (ConstantRate.update dt c)
     = div (Math_abs (sub z (ConstantRate.lastZ c))) dt.
Proof.
  unfold ConstantRate.update, ConstantRate.updateMixer,
    ConstantRate.updateAnimation.
  set (c1 := ConstantRate.updatePosition dt c).
  destruct (_ && _ && _).
  - destruct (ConstantRate.walkAction c1);
      destruct (ConstantRate.mixer _); split; reflexivity.
  - destruct (_ && _ && _).
    + destruct (ConstantRate.idleAction c1);
        destruct (ConstantRate.mixer _); split; reflexivity.
    + destruct (ConstantRate.mixer _); split; reflexivity.
Qed.

Lemma maxStepOf_path (dt : R) (c : ConstantRate.CharacterController R) :
  ConstantRate.startZ c = 0 -> ConstantRate.endZ c = -30 ->
  maxStepOf dt c = dt / 15.
Proof.
  intros Hs He. unfold maxStepOf. rewrite Hs, He.
  replace (-30 - 0) with (-30) by lra. rewrite Rabs_left by lra.
  replace (- (-30)) with 30 by lra. lra.
Qed.

Lemma walkedToEnd_fields :
  ConstantRate.currentProgress walkedToEnd = 1
  /\ ConstantRate.targetProgress walkedToEnd = 1
  /\ ConstantRate.lastZ walkedToEnd = -30
  /\ ConstantRate.startZ walkedToEnd = 0
  /\ ConstantRate.endZ walkedToEnd = -30.
Proof.
  unfold walkedToEnd.
  cbn [ConstantRate.run fold_left ConstantRate.call].
  set (c0 := ConstantRate.setTargetProgress 1 ConstantRate.init).
  assert (Ht : ConstantRate.targetProgress c0 = 1).
  { cbn. apply Rclamp_id. lra. }
  assert (Hstep : ConstantRate.stepProgress 15 c0 = 1).
  { destruct (constantrate_step_cases 15 c0) as (Hup & _ & _).
    - cbn. lra.
    - rewrite Ht. lra.
    - rewrite (maxStepOf_path 15 c0 eq_refl eq_refl). lra.
    - rewrite Hup by (rewrite Ht; cbn; lra).
      rewrite Ht, (maxStepOf_path 15 c0 eq_refl eq_refl). cbn.
      unfold Rmin. destruct (Rle_dec _ _); lra. }
  destruct (update_progress 15 c0) as [-> ->].
  destruct (constantrate_update_frame 15 c0) as [-> ->].
  destruct (constantrate_update_motion 15 c0) as [-> _].
  rewrite Hstep, Ht. cbn. repeat split; lra.
Qed.

(** C1 fails on the code: [applyCurrentScene] only calls
    [setTargetProgress(0)].  At the end of the intro scene, with the
    character arrived ([currentProgress = 1], [lastZ = -30]), advancing to
    the next scene leaves [currentProgress] at 1 and [lastZ] at -30 and
    only sets the target to 0; the first frame afterwards (1/60 s) moves
    the character back by 1/30 and computes the speed 2, not 0. *)
Theorem C1_chapter_reset_keeps_progress :
  exists e1,
    Experience.goToNextScene endOfIntro = Some e1
    /\ Experience.currentSceneIndex e1 = 1%nat
    /\ (let c := Experience.characterController e1 in
        ConstantRate.targetProgress c = 0
        /\ ConstantRate.currentProgress c = 1
        /\ ConstantRate.lastZ c = -30
        /\ ConstantRate.currentSpeed (ConstantRate.update (1 / 60) c) = 2).
Proof.
  destruct walkedToEnd_fields as (Hc & Ht & Hl & Hs & He).
  unfold Experience.goToNextScene.
  change (Nat.leb (List.length Experience.SCENES - 1)
            (Experience.currentSceneIndex endOfIntro)) with false.
  cbv iota.
  destruct (applyCurrentScene_effect
              (Experience.withIndex
                 (S (Experience.currentSceneIndex endOfIntro)) endOfIntro)
              _ eq_refl)
    as (e1 & H1 & Hch & Hidx & _).
  exists e1. split; [exact H1 |]. split; [exact Hidx |].
  cbv zeta. rewrite Hch.
  change (Experience.characterController
            (Experience.withIndex
               (S (Experience.currentSceneIndex endOfIntro)) endOfIntro))
    with walkedToEnd.
  set (c := cc_setVisible _ _).
  assert (Et : ConstantRate.targetProgress c = 0)
    by (cbn; apply Rclamp_id; lra).
  assert (Ec : ConstantRate.currentProgress c = 1) by exact Hc.
  assert (El : ConstantRate.lastZ c = -30) by exact Hl.
  assert (Es : ConstantRate.startZ c = 0) by exact Hs.
  assert (Ee : ConstantRate.endZ c = -30) by exact He.
  split; [exact Et |]. split; [exact Ec |]. split; [exact El |].
  destruct (constantrate_update_motion (1 / 60) c) as [_ ->].
  assert (Hstep : ConstantRate.stepProgress (1 / 60) c = 1 - 1 / 900).
  { assert (Hm : maxStepOf (1 / 60) c = 1 / 900)
      by (rewrite (maxStepOf_path (1 / 60) c Es Ee); lra).
    destruct (constantrate_step_cases (1 / 60) c) as (_ & Hdown & _).
    - rewrite Ec. lra.
    - rewrite Et. lra.
    - rewrite Hm. lra.
    - rewrite Hdown by (rewrite Et, Ec; lra).
      rewrite Ec, Et, Hm. unfold Rmin. destruct (Rle_dec _ _); lra. }
  rewrite Hstep, Es, Ee, El. cbn.
  replace ((1 - (1 - 1 / 900)) * 0 + (1 - 1 / 900) * -30 - -30)
    with (1 / 30) by lra.
  rewrite Rabs_right by lra. lra.
Qed.

(** ** States of a running Experience *)


Section Reachability.
Context {A : Type} {N : JsNumber A} {C : Type} {Api : CharacterApi A C}.
Let Exp : Type := Experience A C.

Lemma extract_spec {T} (n : nat) (l : list T) (x : T) (r : list T) :
  extract n l = Some (x, r) ->
  exists l1 l2, l = l1 ++ x :: l2 /\ r = l1 ++ l2.
Proof.
  revert n x r. induction l as [| y l IH]; intros n x r H; [destruct n; discriminate H |].
  destruct n as [| n]; cbn in H.
  - injection H as <- <-. exists [], l. split; reflexivity.
  - destruct (extract n l) as [[z r'] |] eqn:E; [| discriminate H].
    injection H as <- <-. destruct (IH n z r' E) as (l1 & l2 & -> & ->).
    exists (y :: l1), l2. split; reflexivity.
Qed.

Lemma inFlight_app (s : SceneId) (p q : list Task) :
  inFlight s (p ++ q) = (inFlight s p + inFlight s q)%nat.
Proof. unfold inFlight. rewrite filter_app, length_app. reflexivity. Qed.

Lemma inFlight_zero_notin (s : SceneId) (p : list Task) (t : Task) :
  inFlight s p = 0%nat -> taskScene t = s -> ~ In t p.
Proof.
  unfold inFlight. intros H Ht Hin.
  assert (Hf : In t (filter (fun t => SceneId_eqb (taskScene t) s) p)).
  { apply filter_In. split; [exact Hin |]. rewrite Ht. destruct s; reflexivity. }
  destruct (filter _ p); [destruct Hf | discriminate H].
Qed.

Lemma inFlight_remove (s : SceneId) (l1 l2 : list Task) (t : Task) :
  inFlight s (l1 ++ t :: l2)
  = (inFlight s (l1 ++ l2)
     + if SceneId_eqb (taskScene t) s then 1 else 0)%nat.
Proof.
  rewrite !inFlight_app. unfold inFlight at 2. cbn [filter].
  destruct (SceneId_eqb (taskScene t) s); cbn [List.length];
    fold (inFlight s l2); lia.
Qed.

Lemma SceneId_eqb_refl (s : SceneId) : SceneId_eqb s s = true.
Proof. destruct s; reflexivity. Qed.

(** Once a task is taken out of the loads in flight, no other load of
    its scene remains, and its scene has been reached. *)
Lemma taken_out (k : nat) (e : Exp) (l1 l2 : list Task) (t : Task) :
  pending (world e) = l1 ++ t :: l2 ->
  atMostOnce k (taskScene t) e ->
  inFlight (taskScene t) (l1 ++ l2) = 0%nat
  /\ (k <= currentSceneIndex e)%nat.
Proof.
  unfold atMostOnce. intros -> H.
  rewrite inFlight_remove, SceneId_eqb_refl in H.
  destruct (Nat.leb k (currentSceneIndex e)) eqn:E.
  - apply Nat.leb_le in E. split; lia.
  - lia.
Qed.

Lemma atMostOnce_rest (k : nat) (s : SceneId) (e e' : Exp)
    (l1 l2 r : list Task) (t : Task) :
  pending (world e) = l1 ++ t :: l2 ->
  pending (world e') = l1 ++ l2 ++ r ->
  inFlight s r = 0%nat ->
  currentSceneIndex e' = currentSceneIndex e ->
  atMostOnce k s e -> atMostOnce k s e'.
Proof.
  unfold atMostOnce. intros -> -> Hr -> H.
  rewrite inFlight_remove in H.
  rewrite app_assoc, inFlight_app, Hr. lia.
Qed.

Ltac refs_tauto :=
  unfold referenced in *; cbn -[makeRain] in *;
  repeat (rewrite in_app_iff in *); cbn -[makeRain] in *;
  repeat (rewrite in_app_iff in *); intuition auto.

Ltac in_scene_add H :=
  repeat first
    [ apply in_app_or in H;
      destruct H as [H | H];
      [| cbn in H; destruct H as [H | []]; subst;
         refs_tauto]
    | apply filter_In in H; destruct H as [H _] ].

Lemma consistent_lifAfterTribune (e : Exp) (l1 l2 : list Task) :
  consistent e ->
  pending (world e) = l1 ++ LifAwaitTribune :: l2 ->
  consistent
    (lifAfterTribune (withWorld (set_pending (l1 ++ l2) (world e)) e)).
Proof.
  intros (I1 & I2 & L1 & Y1 & G1 & L2 & L3 & Y2 & G2) Hp.
  destruct (taken_out 1 e l1 l2 LifAwaitTribune Hp L1) as [Hz Hk].
  cbn [taskScene] in Hz.
  assert (Hin : In LifAwaitTribune (pending (world e)))
    by (rewrite Hp; apply in_elt).
  specialize (L2 Hin). clear L3.
  assert (Hsub : forall t, In t (l1 ++ l2) -> In t (pending (world e))).
  { intros t Ht. rewrite Hp. apply in_app_or in Ht. apply in_or_app.
    destruct Ht; [left | right; right]; assumption. }
  set (e' := lifAfterTribune _).
  assert (P' : pending (world e') = l1 ++ l2 ++ [LifAwaitSun])
    by (cbn; rewrite app_assoc; reflexivity).
  assert (X' : currentSceneIndex e' = currentSceneIndex e) by reflexivity.
  assert (Hnl : forall t, taskScene t = lifStreet -> ~ In t (l1 ++ l2))
    by (intros t Ht; exact (inFlight_zero_notin _ _ t Hz Ht)).
  destruct e as [w cam ch u f run idx prog lf isl g].
  destruct lf as [[t0 |] [s0 |] [sl0 |] [pl0 |]]; try discriminate L2.
  unfold consistent.
  split.
  { intros o Ho. cbn in Ho. in_scene_add Ho.
    apply I1 in Ho. clear - Ho. refs_tauto. }
  split; [exact I2 |].
  split.
  { unfold atMostOnce. rewrite P', X', app_assoc, inFlight_app, Hz.
    apply Nat.leb_le in Hk. rewrite Hk. cbn. lia. }
  split; [exact (atMostOnce_rest 2 yilSonu _ e' l1 l2 _ LifAwaitTribune Hp P' eq_refl X' Y1) |].
  split; [exact (atMostOnce_rest 3 gidis _ e' l1 l2 _ LifAwaitTribune Hp P' eq_refl X' G1) |].
  rewrite P', app_assoc.
  split; [intros H; apply in_app_or in H; destruct H as [H | [H | []]];
          [exfalso; exact (Hnl LifAwaitTribune eq_refl H) | discriminate H] |].
  split; [intros _; repeat split |].
  split; intros H; apply in_app_or in H; destruct H as [H | [H | []]];
    try discriminate H.
  - exact (Y2 (Hsub _ H)).
  - exact (G2 (Hsub _ H)).
Qed.

Lemma consistent_lifAfterSun (e : Exp) (l1 l2 : list Task) :
  consistent e ->
  pending (world e) = l1 ++ LifAwaitSun :: l2 ->
  consistent (lifAfterSun (withWorld (set_pending (l1 ++ l2) (world e)) e)).
Proof.
  intros (I1 & I2 & L1 & Y1 & G1 & L2 & L3 & Y2 & G2) Hp.
  destruct (taken_out 1 e l1 l2 LifAwaitSun Hp L1) as [Hz Hk].
  cbn [taskScene] in Hz.
  assert (Hin : In LifAwaitSun (pending (world e)))
    by (rewrite Hp; apply in_elt).
  destruct (L3 Hin) as (S1 & S2 & S3). clear L2 L3.
  assert (Hsub : forall t, In t (l1 ++ l2) -> In t (pending (world e))).
  { intros t Ht. rewrite Hp. apply in_app_or in Ht. apply in_or_app.
    destruct Ht; [left | right; right]; assumption. }
  set (e' := lifAfterSun _).
  assert (P' : pending (world e') = l1 ++ l2 ++ [])
    by (cbn; rewrite app_nil_r; reflexivity).
  assert (X' : currentSceneIndex e' = currentSceneIndex e) by reflexivity.
  assert (Hnl : forall t, taskScene t = lifStreet -> ~ In t (l1 ++ l2))
    by (intros t Ht; exact (inFlight_zero_notin _ _ t Hz Ht)).
  destruct e as [w cam ch u f run idx prog lf isl g].
  destruct lf as [t0 s0 sl0 pl0]. cbn in S1, S2, S3. subst s0 sl0 pl0.
  unfold consistent.
  split.
  { intros o Ho. cbn in Ho. in_scene_add Ho.
    apply I1 in Ho. clear - Ho. refs_tauto. }
  split; [exact I2 |].
  split; [exact (atMostOnce_rest 1 lifStreet _ e' l1 l2 _ LifAwaitSun Hp P' eq_refl X' L1) |].
  split; [exact (atMostOnce_rest 2 yilSonu _ e' l1 l2 _ LifAwaitSun Hp P' eq_refl X' Y1) |].
  split; [exact (atMostOnce_rest 3 gidis _ e' l1 l2 _ LifAwaitSun Hp P' eq_refl X' G1) |].
  rewrite P', app_nil_r.
  split; [intros H; exfalso; exact (Hnl LifAwaitTribune eq_refl H) |].
  split; [intros H; exfalso; exact (Hnl LifAwaitSun eq_refl H) |].
  split; intros H.
  - exact (Y2 (Hsub _ H)).
  - exact (G2 (Hsub _ H)).
Qed.

Lemma consistent_yilAfterIsland (e : Exp) (l1 l2 : list Task) :
  consistent e ->
  pending (world e) = l1 ++ YilAwaitIsland :: l2 ->
  consistent (yilAfterIsland (withWorld (set_pending (l1 ++ l2) (world e)) e)).
Proof.
  intros (I1 & I2 & L1 & Y1 & G1 & L2 & L3 & Y2 & G2) Hp.
  destruct (taken_out 2 e l1 l2 YilAwaitIsland Hp Y1) as [Hz Hk].
  cbn [taskScene] in Hz.
  assert (Hin : In YilAwaitIsland (pending (world e)))
    by (rewrite Hp; apply in_elt).
  specialize (Y2 Hin).
  assert (Hsub : forall t, In t (l1 ++ l2) -> In t (pending (world e))).
  { intros t Ht. rewrite Hp. apply in_app_or in Ht. apply in_or_app.
    destruct Ht; [left | right; right]; assumption. }
  set (e' := yilAfterIsland _).
  assert (P' : pending (world e') = l1 ++ l2 ++ [])
    by (cbn; rewrite app_nil_r; reflexivity).
  assert (X' : currentSceneIndex e' = currentSceneIndex e) by reflexivity.
  assert (Hnl : forall t, taskScene t = yilSonu -> ~ In t (l1 ++ l2))
    by (intros t Ht; exact (inFlight_zero_notin _ _ t Hz Ht)).
  destruct e as [w cam ch u f run idx prog lf isl g].
  destruct isl as [i0 |]; [discriminate Y2 |].
  unfold consistent.
  split.
  { intros o Ho. cbn in Ho. in_scene_add Ho.
    apply I1 in Ho. clear - Ho. refs_tauto. }
  split; [exact I2 |].
  split; [exact (atMostOnce_rest 1 lifStreet _ e' l1 l2 _ YilAwaitIsland Hp P' eq_refl X' L1) |].
  split; [exact (atMostOnce_rest 2 yilSonu _ e' l1 l2 _ YilAwaitIsland Hp P' eq_refl X' Y1) |].
  split; [exact (atMostOnce_rest 3 gidis _ e' l1 l2 _ YilAwaitIsland Hp P' eq_refl X' G1) |].
  rewrite P', app_nil_r.
  split; [intros H; exact (L2 (Hsub _ H)) |].
  split; [intros H; exact (L3 (Hsub _ H)) |].
  split; intros H.
  - exfalso; exact (Hnl YilAwaitIsland eq_refl H).
  - exact (G2 (Hsub _ H)).
Qed.

Lemma consistent_gidisAfterSun (e : Exp) (l1 l2 : list Task) :
  consistent e ->
  pending (world e) = l1 ++ GidisAwaitSun :: l2 ->
  consistent (gidisAfterSun (withWorld (set_pending (l1 ++ l2) (world e)) e)).
Proof.
  intros (I1 & I2 & L1 & Y1 & G1 & L2 & L3 & Y2 & G2) Hp.
  destruct (taken_out 3 e l1 l2 GidisAwaitSun Hp G1) as [Hz Hk].
  cbn [taskScene] in Hz.
  assert (Hin : In GidisAwaitSun (pending (world e)))
    by (rewrite Hp; apply in_elt).
  specialize (G2 Hin).
  assert (Hsub : forall t, In t (l1 ++ l2) -> In t (pending (world e))).
  { intros t Ht. rewrite Hp. apply in_app_or in Ht. apply in_or_app.
    destruct Ht; [left | right; right]; assumption. }
  assert (Hnl : forall t, taskScene t = gidis -> ~ In t (l1 ++ l2))
    by (intros t Ht; exact (inFlight_zero_notin _ _ t Hz Ht)).
  destruct e as [w cam ch u f run idx prog lf isl g].
  destruct g as [[sun |] [sl |] [amb |] [rg |] [rm |] [rp |] [ll |] tm cd du];
    try discriminate G2.
  set (e' := gidisAfterSun _).
  assert (P' : pending (world e') = l1 ++ l2 ++ [])
    by (rewrite app_nil_r; reflexivity).
  assert (X' : currentSceneIndex e' = idx) by reflexivity.
  assert (F1 : lif e' = lf) by reflexivity.
  assert (F2 : yilSonuIsland e' = isl) by reflexivity.
  unfold consistent.
  split.
  { intros o Ho. subst e'. cbn -[makeRain] in Ho. in_scene_add Ho.
    apply I1 in Ho. clear - Ho. refs_tauto. }
  split; [exact I2 |].
  split; [exact (atMostOnce_rest 1 lifStreet _ e' l1 l2 _ GidisAwaitSun Hp P' eq_refl X' L1) |].
  split; [exact (atMostOnce_rest 2 yilSonu _ e' l1 l2 _ GidisAwaitSun Hp P' eq_refl X' Y1) |].
  split; [exact (atMostOnce_rest 3 gidis _ e' l1 l2 _ GidisAwaitSun Hp P' eq_refl X' G1) |].
  rewrite P', app_nil_r. unfold lifEmpty, yilEmpty. rewrite F1, F2.
  split; [intros H; exact (L2 (Hsub _ H)) |].
  split; [intros H; exact (L3 (Hsub _ H)) |].
  split; intros H.
  - exact (Y2 (Hsub _ H)).
  - exfalso; exact (Hnl GidisAwaitSun eq_refl H).
Qed.

(** A failed load only leaves the list of loads in flight. *)
Lemma consistent_rejected (e : Exp) (l1 l2 : list Task) (t : Task) :
  consistent e ->
  pending (world e) = l1 ++ t :: l2 ->
  consistent (rejected t (withWorld (set_pending (l1 ++ l2) (world e)) e)).
Proof.
  intros (I1 & I2 & L1 & Y1 & G1 & L2 & L3 & Y2 & G2) Hp.
  assert (Hsub : forall t', In t' (l1 ++ l2) -> In t' (pending (world e))).
  { intros t' Ht. rewrite Hp. apply in_app_or in Ht. apply in_or_app.
    destruct Ht; [left | right; right]; assumption. }
  set (e' := rejected t _).
  assert (P' : pending (world e') = l1 ++ l2 ++ [])
    by (rewrite app_nil_r; destruct t; reflexivity).
  assert (X' : currentSceneIndex e' = currentSceneIndex e)
    by (destruct t; reflexivity).
  assert (F : sceneChildren (world e') = sceneChildren (world e)
              /\ referenced e' = referenced e
              /\ lif e' = lif e /\ yilSonuIsland e' = yilSonuIsland e
              /\ gidisObjs e' = gidisObjs e)
    by (destruct t; repeat split).
  destruct F as (F0 & F1 & F2 & F3 & F4).
  unfold consistent, lifEmpty, yilEmpty, gidisEmpty.
  rewrite F0, F1, F2, F3, F4, X'.
  split; [exact I1 |]. split; [exact I2 |].
  split; [exact (atMostOnce_rest 1 lifStreet _ e' l1 l2 _ t Hp P' eq_refl X' L1) |].
  split; [exact (atMostOnce_rest 2 yilSonu _ e' l1 l2 _ t Hp P' eq_refl X' Y1) |].
  split; [exact (atMostOnce_rest 3 gidis _ e' l1 l2 _ t Hp P' eq_refl X' G1) |].
  rewrite P', app_nil_r.
  split; [intros H; exact (L2 (Hsub _ H)) |].
  split; [intros H; exact (L3 (Hsub _ H)) |].
  split; intros H; [exact (Y2 (Hsub _ H)) | exact (G2 (Hsub _ H))].
Qed.

(** The per-frame effects of Gidiş move no object in or out of the scene
    graph and keep every reference. *)
Lemma updateGidisEffects_frame (dt : A) (e : Exp) :
  let e' := updateGidisEffects dt e in
  sceneChildren (world e') = sceneChildren (world e)
  /\ pending (world e') = pending (world e)
  /\ currentSceneIndex e' = currentSceneIndex e
  /\ lif e' = lif e
  /\ yilSonuIsland e' = yilSonuIsland e
  /\ referenced e' = referenced e
  /\ (gidisEmpty e = true -> gidisEmpty e' = true).
Proof.
  destruct e as [w cam ch u f run idx prog lf isl g].
  destruct g as [sun sl amb rg rm rp ll tm cd du].
  unfold updateGidisEffects, updateRain.
  cbn [gidisObjs gidisRainGeometry gidisRainPoints].
  assert (H : forall e0 : Exp,
             let e' := updateLightning dt e0 in
             sceneChildren (world e') = sceneChildren (world e0)
             /\ pending (world e') = pending (world e0)
             /\ currentSceneIndex e' = currentSceneIndex e0
             /\ lif e' = lif e0
             /\ yilSonuIsland e' = yilSonuIsland e0
             /\ referenced e' = referenced e0
             /\ (gidisEmpty e0 = true -> gidisEmpty e' = true)).
  { intros e0. unfold updateLightning.
    destruct e0 as [w0 cam0 ch0 u0 f0 run0 idx0 prog0 lf0 isl0 g0].
    destruct g0 as [sun0 sl0 amb0 rg0 rm0 rp0 [l0 |] tm0 cd0 du0];
      cbn [gidisObjs gidisLightningLight]; [| repeat split; auto].
    cbn [gidisLightningTimer gidisLightningCooldown].
    destruct (gtb tm0 (lit 0)).
    - cbn. destruct (leb _ _); repeat split; intros H;
        unfold gidisEmpty in H; cbn in H;
        rewrite ?andb_false_r in H; discriminate H.
    - cbn. destruct (leb _ _); cbn; repeat split; intros H;
        unfold gidisEmpty in H; cbn in H;
        rewrite ?andb_false_r in H; discriminate H. }
  destruct rg as [ps |]; [| apply H].
  destruct rp as [p |]; [| apply H].
  destruct (fallRain _ _ _ _) as [ps' k'].
  match goal with
  | |- context [updateLightning dt ?x] => specialize (H x)
  end.
  cbv zeta in H |- *.
  destruct H as (H1 & H2 & H3 & H4 & H5 & H6 & H7).
  rewrite H1, H2, H3, H4, H5, H6.
  repeat split. intros H. unfold gidisEmpty in H. cbn in H.
  rewrite ?andb_false_r in H. discriminate H.
Qed.

(** Changes that leave the environment alone keep consistency. *)
Lemma consistent_same_env (e e' : Exp) :
  sceneChildren (world e') = sceneChildren (world e) ->
  pending (world e') = pending (world e) ->
  currentSceneIndex e' = currentSceneIndex e ->
  lif e' = lif e ->
  yilSonuIsland e' = yilSonuIsland e ->
  referenced e' = referenced e ->
  (gidisEmpty e = true -> gidisEmpty e' = true) ->
  consistent e -> consistent e'.
Proof.
  intros H1 H2 H3 H4 H5 H6 H7 (I1 & I2 & L1 & Y1 & G1 & L2 & L3 & Y2 & G2).
  unfold consistent, atMostOnce, lifEmpty, yilEmpty in *.
  rewrite H1, H2, H3, H4, H5, H6.
  repeat (split; [assumption |]). intros H. apply H7, G2, H.
Qed.

Lemma sceneAt_in_range (k : nat) :
  (k < List.length SCENES)%nat -> exists def, sceneAt k = Some def.
Proof.
  intros H. destruct k as [| [| [| [| [| k]]]]];
    try (eexists; reflexivity). cbn in H. lia.
Qed.

(** Activating scene [k], later than the current one (or the first
    activation, with nothing in flight), keeps consistency. *)
Lemma consistent_activate (e : Exp) (k : nat) :
  consistent e ->
  (k < List.length SCENES)%nat ->
  (currentSceneIndex e < k)%nat \/ pending (world e) = [] ->
  exists e1, applyCurrentScene (withIndex k e) = Some e1 /\ consistent e1.
Proof.
  intros (I1 & I2 & L1 & Y1 & G1 & _) Hk Hlate.
  destruct (sceneAt_in_range k Hk) as [def Hdef].
  destruct (applyCurrentScene_effect (withIndex k e) def Hdef)
    as (e1 & H1 & _ & Hidx & _ & Hl & Hy & Hg & Hp & _ & Hs).
  exists e1. split; [exact H1 |].
  assert (Hsc : sceneChildren (world e1) = [])
    by (exact (scene_empty_of_covered (withIndex k e) e1 I1 Hs)).
  change (pending (world (withIndex k e))) with (pending (world e)) in Hp.
  change (currentSceneIndex (withIndex k e)) with k in Hidx.
  unfold consistent, atMostOnce, lifEmpty, yilEmpty, gidisEmpty in *.
  rewrite Hsc, Hidx, Hl, Hy, Hg, Hp, !inFlight_app.
  split; [intros o [] |]. split; [exact Hk |].
  assert (Hcount :
    (inFlight lifStreet (pending (world e)) + inFlight lifStreet (awaits (id def))
       <= if Nat.leb 1 k then 1 else 0)%nat
    /\ (inFlight yilSonu (pending (world e)) + inFlight yilSonu (awaits (id def))
       <= if Nat.leb 2 k then 1 else 0)%nat
    /\ (inFlight gidis (pending (world e)) + inFlight gidis (awaits (id def))
       <= if Nat.leb 3 k then 1 else 0)%nat).
  { destruct Hlate as [Hlt | Hnil].
    - destruct (Nat.leb_spec 1 (currentSceneIndex e)),
               (Nat.leb_spec 2 (currentSceneIndex e)),
               (Nat.leb_spec 3 (currentSceneIndex e));
        destruct k as [| [| [| [| [| k]]]]];
        try (cbn in Hk; lia); try lia;
        cbn in Hdef; injection Hdef as <-; cbn; lia.
    - rewrite Hnil.
      destruct k as [| [| [| [| [| k]]]]];
        try (cbn in Hk; lia);
        cbn in Hdef; injection Hdef as <-; cbn; lia. }
  destruct Hcount as (C1 & C2 & C3).
  repeat (split; [assumption |]).
  repeat split.
Qed.

(** Every event is handled without an exception and keeps consistency. *)
Lemma consistent_step (ev : Event) (e : Exp) :
  consistent e -> exists e', step ev e = Some e' /\ consistent e'.
Proof.
  intros Hc. pose proof Hc as (I1 & I2 & _).
  destruct (sceneAt_in_range _ I2) as [def Hdef].
  destruct ev as [| p | dt | n | n]; cbn [step].
  - unfold goToNextScene.
    set (e0 := withUi _ e).
    assert (Hc0 : consistent e0)
      by (apply (consistent_same_env e e0); auto).
    change (currentSceneIndex e0) with (currentSceneIndex e).
    destruct (Nat.leb_spec (List.length SCENES - 1) (currentSceneIndex e))
      as [Hlast | Hmore].
    + eexists. split; [reflexivity |].
      apply (consistent_same_env e0); auto.
    + apply (consistent_activate e0 (S (currentSceneIndex e)) Hc0).
      * cbn in Hmore |- *. lia.
      * left. change (currentSceneIndex e0) with (currentSceneIndex e). lia.
  - unfold onScrollProgress. rewrite Hdef.
    destruct (SceneId_eqb (id def) final).
    + exists e. split; [reflexivity | exact Hc].
    + eexists. split; [reflexivity |].
      apply (consistent_same_env e); auto.
  - unfold update. destruct (isRunning e); cbn [negb].
    + cbn [currentSceneIndex withCharacter]. rewrite Hdef.
      eexists. split; [reflexivity |].
      set (e0 := withCharacter _ e).
      assert (Hc0 : consistent e0)
        by (apply (consistent_same_env e e0); auto).
      destruct (SceneId_eqb (id def) gidis).
      * destruct (updateGidisEffects_frame dt e0)
          as (H1 & H2 & H3 & H4 & H5 & H6 & H7).
        apply (consistent_same_env (updateGidisEffects dt e0)); auto.
        apply (consistent_same_env e0); auto.
      * apply (consistent_same_env e0); auto.
    + exists e. split; [reflexivity | exact Hc].
  - destruct (extract n (pending (world e))) as [[t rest] |] eqn:E.
    + destruct (extract_spec _ _ _ _ E) as (l1 & l2 & Hp & ->).
      eexists. split; [reflexivity |].
      destruct t; cbn [resume].
      * apply consistent_lifAfterTribune; assumption.
      * apply consistent_lifAfterSun; assumption.
      * apply consistent_yilAfterIsland; assumption.
      * apply consistent_gidisAfterSun; assumption.
    + exists e. split; [reflexivity | exact Hc].
  - destruct (extract n (pending (world e))) as [[t rest] |] eqn:E.
    + destruct (extract_spec _ _ _ _ E) as (l1 & l2 & Hp & ->).
      eexists. split; [reflexivity |].
      apply consistent_rejected; assumption.
    + exists e. split; [reflexivity | exact Hc].
Qed.

Lemma consistent_run (evs : list Event) (e : Exp) :
  consistent e -> exists e', run evs e = Some e' /\ consistent e'.
Proof.
  revert e. induction evs as [| ev evs IH]; intros e Hc; cbn [run].
  - exists e. split; [reflexivity | exact Hc].
  - destruct (consistent_step ev e Hc) as (e1 & -> & Hc1). apply IH, Hc1.
Qed.

Lemma consistent_blank (rnd : nat -> A) (aspect0 : A) (c0 : C) :
  consistent (blank rnd aspect0 c0).
Proof.
  unfold consistent, atMostOnce. cbn.
  split; [intros o [] |].
  repeat split; try lia; intros [].
Qed.

(** The constructor succeeds, and whatever happens afterwards is handled
    without an exception and leaves a consistent state: every object in
    the scene graph is referred to by an environment field, the scene
    index is valid, and at most one load per scene is in flight. *)
Theorem running_experience_is_consistent
    (rnd : nat -> A) (aspect0 : A) (c0 : C) (evs : list Event) :
  exists e0 e,
    construct rnd aspect0 c0 = Some e0
    /\ run evs e0 = Some e
    /\ consistent e.
Proof.
  destruct (consistent_activate (blank rnd aspect0 c0) 0
              (consistent_blank rnd aspect0 c0))
    as (e0 & H0 & Hc0); [cbn; lia | right; reflexivity |].
  destruct (consistent_run evs e0 Hc0) as (e & He & Hc).
  exists e0, e. split; [exact H0 |]. split; [exact He | exact Hc].
Qed.
End Reachability.

(** ** Speed of the constant-rate chase *)

Lemma constantrate_in_step_init : constantrate_in_step ConstantRate.init.
Proof.
  unfold constantrate_in_step, unit_progress. cbn. repeat split; lra.
Qed.

Lemma constantrate_in_step_call (k : ConstantRate.Call R)
    (c : ConstantRate.CharacterController R) :
  constantrate_in_step c -> constantrate_in_step (ConstantRate.call k c).
Proof.
  intros (Hs & He & Hu & Hl & Hz).
  destruct k as [p | dt]; cbn [ConstantRate.call].
  - unfold constantrate_in_step.
    repeat split; try assumption; try apply (call_unit (ConstantRate.CallSetTargetProgress p) c Hu).
  - pose proof (call_unit (ConstantRate.CallUpdate dt) c Hu) as Hu'.
    cbn [ConstantRate.call] in Hu'.
    destruct (constantrate_update_frame dt c) as [Es Ee].
    destruct (update_progress dt c) as [Et Ec].
    destruct (constantrate_update_motion dt c) as [El _].
    unfold constantrate_in_step.
    rewrite Es, Ee, El, Ec, constantrate_update_object, Hs, He.
    split; [reflexivity |]. split; [reflexivity |]. split; [exact Hu' |].
    cbn. rewrite Hs, He. split; lra.
Qed.

Lemma constantrate_in_step_run (ks : list (ConstantRate.Call R))
    (c : ConstantRate.CharacterController R) :
  constantrate_in_step c -> constantrate_in_step (ConstantRate.run ks c).
Proof.
  revert c. induction ks as [| k ks IH]; intros c H; [exact H |].
  apply IH, constantrate_in_step_call, H.
Qed.

(** The speed computed by one frame of positive length, from a state in
    step. *)
Lemma constantrate_speed_of_frame (dt : R)
    (c : ConstantRate.CharacterController R) :
  constantrate_in_step c -> 0 < dt ->
  let gap := Rabs (ConstantRate.targetProgress c
                   - ConstantRate.currentProgress c) in
  ConstantRate.currentSpeed (ConstantRate.update dt c)
  = if Rle_dec gap 0.0001 then 0 else Rmin 2 (30 * gap / dt).
Proof.
  intros (Hs & He & (Ht & Hc) & Hl & _) Hdt gap.
  destruct (constantrate_update_motion dt c) as [_ ->].
  assert (Hm : maxStepOf dt c = dt / 15) by (apply maxStepOf_path; assumption).
  destruct (constantrate_step_cases dt c Hc Ht) as (Hup & Hdown & Hstay);
    [rewrite Hm; lra |].
  rewrite Hs, He, Hl. cbn. rewrite Hm in Hup, Hdown.
  set (cur := ConstantRate.currentProgress c) in *.
  set (tgt := ConstantRate.targetProgress c) in *.
  destruct (Rle_dec gap 0.0001) as [Hg | Hg].
  - rewrite Hstay.
    + replace ((1 - cur) * 0 + cur * -30 - -30 * cur) with 0 by lra.
      rewrite Rabs_R0. lra.
    + unfold gap, Rabs in Hg. destruct (Rcase_abs _); lra.
  - destruct (Rle_lt_dec 0 (tgt - cur)) as [Hpos | Hneg].
    + assert (Eg : gap = tgt - cur) by (unfold gap; apply Rabs_right; lra).
      rewrite Hup by lra. rewrite Eg.
      assert (Hmin : 0 <= Rmin (tgt - cur) (dt / 15))
        by (unfold Rmin; destruct (Rle_dec _ _); lra).
      replace ((1 - (cur + Rmin (tgt - cur) (dt / 15))) * 0
               + (cur + Rmin (tgt - cur) (dt / 15)) * -30 - -30 * cur)
        with (- (30 * Rmin (tgt - cur) (dt / 15))) by lra.
      rewrite Rabs_Ropp, Rabs_right by lra.
      unfold Rmin. destruct (Rle_dec (tgt - cur) (dt / 15)) as [Hle | Hgt];
        destruct (Rle_dec 2 (30 * (tgt - cur) / dt)) as [H2 | H2].
      * apply Rmult_le_compat_r with (r := dt) in H2; [| lra].
        unfold Rdiv in H2. rewrite Rmult_assoc, Rinv_l, Rmult_1_r in H2 by lra.
        assert (tgt - cur = dt / 15) by lra.
        replace (tgt - cur) with (dt / 15). field. lra.
      * reflexivity.
      * field. lra.
      * exfalso. apply H2.
        apply Rmult_le_reg_r with (r := dt); [lra |].
        unfold Rdiv. rewrite Rmult_assoc, Rinv_l, Rmult_1_r by lra. lra.
    + assert (Eg : gap = cur - tgt) by (unfold gap; rewrite Rabs_left; lra).
      rewrite Hdown by lra. rewrite Eg.
      assert (Hmin : 0 <= Rmin (cur - tgt) (dt / 15))
        by (unfold Rmin; destruct (Rle_dec _ _); lra).
      replace ((1 - (cur - Rmin (cur - tgt) (dt / 15))) * 0
               + (cur - Rmin (cur - tgt) (dt / 15)) * -30 - -30 * cur)
        with (30 * Rmin (cur - tgt) (dt / 15)) by lra.
      rewrite Rabs_right by lra.
      unfold Rmin. destruct (Rle_dec (cur - tgt) (dt / 15)) as [Hle | Hgt];
        destruct (Rle_dec 2 (30 * (cur - tgt) / dt)) as [H2 | H2].
      * apply Rmult_le_compat_r with (r := dt) in H2; [| lra].
        unfold Rdiv in H2. rewrite Rmult_assoc, Rinv_l, Rmult_1_r in H2 by lra.
        assert (cur - tgt = dt / 15) by lra.
        replace (cur - tgt) with (dt / 15). field. lra.
      * reflexivity.
      * field. lra.
      * exfalso. apply H2.
        apply Rmult_le_reg_r with (r := dt); [lra |].
        unfold Rdiv. rewrite Rmult_assoc, Rinv_l, Rmult_1_r by lra. lra.
Qed.

(** The constant-rate controller never moves the character faster than
    [smoothSpeed].  After any sequence of calls on the constructed
    controller, a frame of positive length [dt] computes the speed 0 when
    the target is within 0.0001 of the current progress, and otherwise
    the smaller of 2 and [30 * gap / dt] (the path is 30 units long): so
    the speed is at most 2 units per second, and exactly 2 while the
    target is at least one full step away. *)
Theorem constantrate_speed_is_capped :
  forall (ks : list (ConstantRate.Call R)) (dt : R),
    0 < dt ->
    let c := ConstantRate.run ks ConstantRate.init in
    let gap := Rabs (ConstantRate.targetProgress c
                     - ConstantRate.currentProgress c) in
    let v := ConstantRate.currentSpeed (ConstantRate.update dt c) in
    v = (if Rle_dec gap 0.0001 then 0 else Rmin 2 (30 * gap / dt))
    /\ 0 <= v <= 2
    /\ (0.0001 < gap -> dt / 15 <= gap -> v = 2).
Proof.
  intros ks dt Hdt c gap v.
  assert (Hv : v = if Rle_dec gap 0.0001 then 0 else Rmin 2 (30 * gap / dt)).
  { apply constantrate_speed_of_frame; [| exact Hdt].
    apply constantrate_in_step_run, constantrate_in_step_init. }
  assert (Hgap : 0 <= gap) by apply Rabs_pos.
  assert (Hq : 0 <= 30 * gap / dt).
  { apply Rmult_le_pos; [lra |]. apply Rlt_le, Rinv_0_lt_compat, Hdt. }
  split; [exact Hv |]. split.
  - rewrite Hv. destruct (Rle_dec gap 0.0001); [lra |].
    unfold Rmin. destruct (Rle_dec _ _); lra.
  - intros H1 H2. rewrite Hv. destruct (Rle_dec gap 0.0001); [lra |].
    apply Rmin_left.
    apply Rmult_le_reg_r with (r := dt); [lra |].
    unfold Rdiv. rewrite Rmult_assoc, Rinv_l, Rmult_1_r by lra. lra.
Qed.

Lemma constantrate_speed_is_capped_witness :
  0 < 1 / 60
  /\ ConstantRate.currentSpeed
       (ConstantRate.update (1 / 60)
          (ConstantRate.run [ConstantRate.CallSetTargetProgress 1]
                            ConstantRate.init)) <= 2.
Proof.
  assert (H : 0 < 1 / 60) by lra.
  split; [exact H |].
  exact (proj2 (proj1 (proj2
    (constantrate_speed_is_capped
       [ConstantRate.CallSetTargetProgress 1] (1 / 60) H)))).
Defined.

(** ** The exponential chase stays on the path *)

(** What the exponential-chase controller keeps whatever it is called
    with. *)
Lemma expchase_on_path_call (k : ExpChaseCall)
    (c : ExpChase.CharacterController R) :
  expchase_on_path c -> expchase_on_path (expchase_call k c).
Proof.
  intros (Hs & He & Hz & Ht).
  destruct k as [p | dt | i w]; cbn [expchase_call].
  - unfold expchase_on_path. cbn.
    split; [exact Hs |]. split; [exact He |].
    split; [exact Hz | apply clamp_unit].
  - destruct (ExpChase.mixer c) as [m |] eqn:Hm.
    + destruct (expchase_update_motion dt c m Hm) as (Eo & _ & Es & Ee).
      destruct (expchase_update_fields dt c m Hm) as (_ & Et & _).
      unfold expchase_on_path. rewrite Eo, Es, Ee, Et.
      split; [exact Hs |]. split; [exact He |]. split; [| exact Ht].
      cbn [position vz Vec3.set_z]. unfold ExpChase.getZFromProgress.
      rewrite Hs, He.
      pose proof (clamp_unit (ExpChase.stepProgress dt c)) as Hk.
      change (@lit R RNumber 0) with 0. change (@lit R RNumber 1) with 1.
      generalize dependent (MathUtils.clamp (ExpChase.stepProgress dt c) 0 1).
      intros k Hk. cbn. lra.
    + rewrite expchase_update_no_mixer by exact Hm.
      exact (conj Hs (conj He (conj Hz Ht))).
  - unfold expchase_on_path. cbn.
    split; [exact Hs |]. split; [exact He |]. split; [lra | exact Ht].
Qed.

Lemma expchase_on_path_run (ks : list ExpChaseCall)
    (c : ExpChase.CharacterController R) :
  expchase_on_path c -> expchase_on_path (expchase_run ks c).
Proof.
  revert c. induction ks as [| k ks IH]; intros c H; [exact H |].
  apply IH, expchase_on_path_call, H.
Qed.

Lemma exp_decay_unit (dt : R) : 0 <= dt -> 0 < exp (Ropp 5 * dt) <= 1.
Proof.
  intros H. split; [apply exp_pos |].
  rewrite <- exp_0. destruct (Req_dec dt 0) as [-> | Hne].
  - right. f_equal. lra.
  - left. apply exp_increasing. lra.
Qed.

Lemma expchase_step_unit (dt : R) (c : ExpChase.CharacterController R) :
  0 <= dt ->
  0 <= ExpChase.currentProgress c <= 1 ->
  0 <= ExpChase.targetProgress c <= 1 ->
  0 <= ExpChase.stepProgress dt c <= 1.
Proof.
  intros Hdt Hc Ht. pose proof (exp_decay_unit dt Hdt) as Hq.
  unfold ExpChase.stepProgress, MathUtils.lerp. cbn.
  set (q := exp (Ropp 5 * dt)) in *. nra.
Qed.

Lemma expchase_unit_call (k : ExpChaseCall)
    (c : ExpChase.CharacterController R) :
  match k with ExpUpdate dt => 0 <= dt | _ => True end ->
  0 <= ExpChase.currentProgress c <= 1 /\ 0 <= ExpChase.targetProgress c <= 1 ->
  0 <= ExpChase.currentProgress (expchase_call k c) <= 1
  /\ 0 <= ExpChase.targetProgress (expchase_call k c) <= 1.
Proof.
  intros Hk [Hc Ht]. destruct k as [p | dt | i w]; cbn [expchase_call].
  - cbn. split; [exact Hc | apply clamp_unit].
  - destruct (ExpChase.mixer c) as [m |] eqn:Hm.
    + destruct (expchase_update_fields dt c m Hm) as (-> & -> & _).
      split; [apply expchase_step_unit; assumption | exact Ht].
    + rewrite expchase_update_no_mixer by exact Hm. split; assumption.
  - cbn. split; assumption.
Qed.

Lemma expchase_unit_run (ks : list ExpChaseCall)
    (c : ExpChase.CharacterController R) :
  nonneg_frames ks ->
  0 <= ExpChase.currentProgress c <= 1 /\ 0 <= ExpChase.targetProgress c <= 1 ->
  0 <= ExpChase.currentProgress (expchase_run ks c) <= 1
  /\ 0 <= ExpChase.targetProgress (expchase_run ks c) <= 1.
Proof.
  revert c. induction ks as [| k ks IH]; intros c Hks H; [exact H |].
  inversion Hks as [| k' ks' Hk Hrest]; subst.
  apply IH; [exact Hrest |]. apply expchase_unit_call; assumption.
Qed.

(** The exponential-chase controller keeps the character on its path.
    After any sequence of [setTargetProgress], [update] and load
    completions on the constructed controller, with arbitrary real
    arguments, the character's [z] lies between [endZ = -40] and
    [startZ = 0] and the target progress lies in [0,1]; when no frame
    time is negative the current progress lies in [0,1] too.  A negative
    frame time can take the current progress below 0 (the position is
    still clamped onto the path). *)
Theorem expchase_character_stays_on_path :
  forall ks : list ExpChaseCall,
    let c := expchase_run ks ExpChase.init in
    (-40 <= vz (position (ExpChase.object3D c)) <= 0
     /\ 0 <= ExpChase.targetProgress c <= 1
     /\ (nonneg_frames ks -> 0 <= ExpChase.currentProgress c <= 1))
    /\ ExpChase.currentProgress
         (expchase_run [ExpLoaded 0%nat 1%nat; ExpSetTargetProgress 1; ExpUpdate (-1)]
                       ExpChase.init) < 0.
Proof.
  intros ks c. split.
  - assert (H0 : expchase_on_path ExpChase.init).
    { unfold expchase_on_path. cbn. repeat split; lra. }
    destruct (expchase_on_path_run ks _ H0) as (_ & _ & Hz & Ht).
    split; [exact Hz |]. split; [exact Ht |].
    intros Hks. apply (expchase_unit_run ks ExpChase.init Hks).
    cbn. lra.
  - cbn [expchase_run fold_left expchase_call].
    set (c0 := ExpChase.setTargetProgress 1 _).
    destruct (expchase_update_fields (-1) c0 (mkMixer 0) eq_refl) as (-> & _).
    unfold ExpChase.stepProgress, MathUtils.lerp. cbn.
    rewrite Rclamp_id by lra.
    replace (Ropp 5 * -1) with 5 by lra.
    pose proof (exp_ineq1 5). lra.
Qed.

(** ** A missing clip *)

Lemma constantrate_update_actions {A} {N : JsNumber A} (dt : A)
    (c : ConstantRate.CharacterController A) :
  ConstantRate.idleAction (ConstantRate.update dt c) = ConstantRate.idleAction c
  /\ ConstantRate.walkAction (ConstantRate.update dt c)
     = ConstantRate.walkAction c.
Proof.
  unfold ConstantRate.update, ConstantRate.updateMixer,
    ConstantRate.updateAnimation.
  set (c1 := ConstantRate.updatePosition dt c).
  destruct (_ && _ && _).
  - destruct (ConstantRate.walkAction c1);
      destruct (ConstantRate.mixer _); split; reflexivity.
  - destruct (_ && _ && _).
    + destruct (ConstantRate.idleAction c1);
        destruct (ConstantRate.mixer _); split; reflexivity.
    + destruct (ConstantRate.mixer _); split; reflexivity.
Qed.

(** One frame of the constant-rate controller when there is a walk clip
    and no idle clip. *)
Lemma constantrate_walk_only_frame {A} {N : JsNumber A} (dt : A)
    (c : ConstantRate.CharacterController A) (w : AnimationAction) :
  ConstantRate.idleAction c = None ->
  ConstantRate.walkAction c = Some w ->
  let c' := ConstantRate.update dt c in
  let moving :=
    gtb (ConstantRate.currentSpeed (ConstantRate.updatePosition dt c))
        ConstantRate.idleThreshold in
  (ConstantRate.currentAction c = Some w ->
   ConstantRate.currentAction c' = Some w
   /\ ConstantRate.actionCalls c' = ConstantRate.actionCalls c)
  /\ (ConstantRate.currentAction c = None -> moving = true ->
      ConstantRate.currentAction c' = Some w
      /\ ConstantRate.actionCalls c'
         = ConstantRate.actionCalls c
           ++ [Reset w; FadeIn w (lit 0.3); Play w])
  /\ (ConstantRate.currentAction c = None -> moving = false ->
      ConstantRate.currentAction c' = None
      /\ ConstantRate.actionCalls c' = ConstantRate.actionCalls c).
Proof.
  intros Hi Hw c' moving. subst c' moving.
  unfold ConstantRate.update, ConstantRate.updateMixer,
    ConstantRate.updateAnimation.
  set (c1 := ConstantRate.updatePosition dt c).
  set (moving := gtb (ConstantRate.currentSpeed c1) ConstantRate.idleThreshold).
  change (ConstantRate.walkAction c1) with (ConstantRate.walkAction c).
  change (ConstantRate.idleAction c1) with (ConstantRate.idleAction c).
  change (ConstantRate.currentAction c1) with (ConstantRate.currentAction c).
  change (ConstantRate.actionCalls c1) with (ConstantRate.actionCalls c).
  rewrite Hi, Hw. cbn [isSome andb].
  rewrite !andb_false_r. cbn [andb].
  split; [| split].
  - intros Hc. rewrite Hc. cbn [same_action]. rewrite Nat.eqb_refl.
    rewrite andb_false_r.
    destruct (ConstantRate.mixer c1); (split; [exact Hc | reflexivity]).
  - intros Hc Hm. rewrite Hc, Hm. cbn [same_action negb andb].
    unfold ConstantRate.fadeToAction.
    change (ConstantRate.currentAction c1) with (ConstantRate.currentAction c).
    change (ConstantRate.actionCalls c1) with (ConstantRate.actionCalls c).
    rewrite Hc.
    destruct (ConstantRate.mixer _); split; reflexivity.
  - intros Hc Hm. rewrite Hm. cbn [andb].
    destruct (ConstantRate.mixer c1); (split; [exact Hc | reflexivity]).
Qed.

(** With a walk clip and no idle clip (the idle file has no animation,
    or the base model only carries a walk clip), the constant-rate
    controller starts the walk action on the first frame whose speed
    exceeds [idleThreshold] and never leaves it: once the walk action is
    the current one, it stays the current one on every later frame,
    however slow, and no further call is made on any action. *)
Theorem constantrate_walk_without_idle_never_stops :
  forall (A : Type) (N : JsNumber A)
         (c : ConstantRate.CharacterController A) (w : AnimationAction)
         (dts : nat -> A) (n : nat) (dt : A),
    ConstantRate.idleAction c = None ->
    ConstantRate.walkAction c = Some w ->
    (ConstantRate.currentAction c = None ->
     gtb (ConstantRate.currentSpeed (ConstantRate.updatePosition dt c))
         ConstantRate.idleThreshold = true ->
     ConstantRate.currentAction (ConstantRate.update dt c) = Some w
     /\ ConstantRate.actionCalls (ConstantRate.update dt c)
        = ConstantRate.actionCalls c
          ++ [Reset w; FadeIn w (lit 0.3); Play w])
    /\ (ConstantRate.currentAction c = Some w ->
        ConstantRate.currentAction (ConstantRate.ticks dts n c) = Some w
        /\ ConstantRate.actionCalls (ConstantRate.ticks dts n c)
           = ConstantRate.actionCalls c).
Proof.
  intros A N c w dts n dt Hi Hw. split.
  - intros Hc Hm.
    exact (proj1 (proj2 (constantrate_walk_only_frame dt c w Hi Hw)) Hc Hm).
  - intros Hc.
    assert (H : ConstantRate.idleAction (ConstantRate.ticks dts n c) = None
                /\ ConstantRate.walkAction (ConstantRate.ticks dts n c) = Some w
                /\ ConstantRate.currentAction (ConstantRate.ticks dts n c)
                   = Some w
                /\ ConstantRate.actionCalls (ConstantRate.ticks dts n c)
                   = ConstantRate.actionCalls c).
    { induction n as [| n (IHi & IHw & IHc & IHa)];
        [repeat split; assumption |].
      cbn [ConstantRate.ticks].
      destruct (constantrate_update_actions (dts n) (ConstantRate.ticks dts n c))
        as [-> ->].
      destruct (proj1 (constantrate_walk_only_frame (dts n) _ w IHi IHw) IHc)
        as [-> ->].
      repeat split; assumption. }
    split; apply H.
Qed.

Lemma constantrate_walk_without_idle_never_stops_witness :
  let c := ConstantRate.fadeToAction 7%nat (walkOnly 7%nat) in
  (ConstantRate.idleAction c = None /\ ConstantRate.walkAction c = Some 7%nat)
  /\ ConstantRate.currentAction
       (ConstantRate.ticks (fun _ => 1 / 60) 3 c) = Some 7%nat.
Proof.
  intros c. split; [split; reflexivity |].
  exact (proj1 (proj2
    (constantrate_walk_without_idle_never_stops R _ c 7%nat
       (fun _ => 1 / 60) 3%nat (1 / 60) eq_refl eq_refl) eq_refl)).
Defined.

Lemma expchase_update_actions {A} {N : JsNumber A} (dt : A)
    (c : ExpChase.CharacterController A) :
  ExpChase.idleAction (ExpChase.update dt c) = ExpChase.idleAction c
  /\ ExpChase.walkAction (ExpChase.update dt c) = ExpChase.walkAction c.
Proof.
  unfold ExpChase.update. destruct (ExpChase.mixer c); [| split; reflexivity].
  cbn [ExpChase.idleAction ExpChase.walkAction].
  destruct (isSome (ExpChase.idleAction c) && isSome (ExpChase.walkAction c)).
  - destruct (gtb _ _).
    + unfold ExpChase.playWalk. cbn [ExpChase.walkAction ExpChase.currentAction].
      destruct (ExpChase.walkAction c); [| repeat split].
      destruct (same_action _ _); repeat split.
    + unfold ExpChase.playIdle. cbn [ExpChase.idleAction ExpChase.currentAction].
      destruct (ExpChase.idleAction c); [| repeat split].
      destruct (same_action _ _); repeat split.
  - repeat split.
Qed.

(** The exponential-chase controller switches clips only when it has
    both.  With the idle or the walk clip missing, no frame makes any call
    on an action and the current action never changes: a controller with
    only a walk clip never plays it, whatever the speed. *)
Theorem expchase_needs_both_clips :
  forall (A : Type) (N : JsNumber A)
         (c : ExpChase.CharacterController A) (dts : nat -> A) (n : nat),
    ExpChase.idleAction c = None \/ ExpChase.walkAction c = None ->
    ExpChase.currentAction (ExpChase.ticks dts n c) = ExpChase.currentAction c
    /\ ExpChase.actionCalls (ExpChase.ticks dts n c) = ExpChase.actionCalls c.
Proof.
  intros A N c dts n Hmiss.
  assert (H : ExpChase.idleAction (ExpChase.ticks dts n c)
                = ExpChase.idleAction c
              /\ ExpChase.walkAction (ExpChase.ticks dts n c)
                 = ExpChase.walkAction c
              /\ ExpChase.currentAction (ExpChase.ticks dts n c)
                 = ExpChase.currentAction c
              /\ ExpChase.actionCalls (ExpChase.ticks dts n c)
                 = ExpChase.actionCalls c).
  { induction n as [| n (IHi & IHw & IHc & IHa)]; [repeat split |].
    cbn [ExpChase.ticks].
    destruct (expchase_update_actions (dts n) (ExpChase.ticks dts n c))
      as [Ei Ew].
    rewrite Ei, Ew. split; [exact IHi |]. split; [exact IHw |].
    rewrite <- IHc, <- IHa.
    set (c0 := ExpChase.ticks dts n c) in *.
    unfold ExpChase.update. destruct (ExpChase.mixer c0); [| split; reflexivity].
    cbn [ExpChase.idleAction ExpChase.walkAction].
    assert (E : isSome (ExpChase.idleAction c0)
                && isSome (ExpChase.walkAction c0) = false).
    { rewrite IHi, IHw. destruct Hmiss as [-> | ->];
        [reflexivity | apply andb_false_r]. }
    rewrite E. split; reflexivity. }
  split; apply H.
Qed.

Lemma expchase_needs_both_clips_witness :
  let c := ExpChase.mkCC (mkObject3D (mkVector3 0 0 0) true)
             (Some (mkMixer 0)) None (Some 7%nat) None 0 (-40) 0 1 0 true [] in
  (ExpChase.idleAction c = None \/ ExpChase.walkAction c = None)
  /\ ExpChase.currentAction (ExpChase.ticks (fun _ => 1 / 60) 5 c) = None.
Proof.
  intros c.
  assert (H : ExpChase.idleAction c = None \/ ExpChase.walkAction c = None)
    by (left; reflexivity).
  split; [exact H |].
  exact (proj1 (expchase_needs_both_clips R _ c (fun _ => 1 / 60) 5%nat H)).
Defined.

(** ** A frame of length zero *)

Lemma Rzero_true (r : R) : r = 0 -> Rzero r = true.
Proof.
  intros H. unfold Rzero. destruct (Req_dec_T r 0); [reflexivity | contradiction].
Qed.

Lemma Rzero_false (r : R) : r <> 0 -> Rzero r = false.
Proof.
  intros H. unfold Rzero. destruct (Req_dec_T r 0); [contradiction | reflexivity].
Qed.

Lemma constantrate_zero_frame_step
    (c : ConstantRate.CharacterController jsnum) :
  wf_constantrate c ->
  ConstantRate.stepProgress (Fin 0) c = ConstantRate.currentProgress c.
Proof.
  intros ((x & Hx & Hx01) & (y & Hy & Hy01) & (s & e & Hs & He & Hse)).
  unfold ConstantRate.stepProgress. rewrite Hx, Hy, Hs, He.
  js_ops.
  change (js_sub (Fin y) (Fin x)) with (Fin (y + - x)).
  change (js_sub (Fin e) (Fin s)) with (Fin (e + - s)).
  change (js_abs (Fin (y + - x))) with (Fin (Rabs (y + - x))).
  change (js_abs (Fin (e + - s))) with (Fin (Rabs (e + - s))).
  change (js_sign (Fin (y + - x))) with (Fin (Rsign (y + - x))).
  change (js_gtb (Fin (Rabs (y + - x))) (Fin 0.0001))
    with (Rltb 0.0001 (Rabs (y + - x))).
  destruct (Rltb 0.0001 (Rabs (y + - x))) eqn:Hgap; [| reflexivity].
  apply Rltb_true in Hgap.
  change (js_mul (Fin 2.0) (Fin 0)) with (Fin (2.0 * 0)).
  assert (HL : Rabs (e + - s) <> 0) by (apply Rabs_no_R0; lra).
  unfold js_div. rewrite (Rzero_false _ HL).
  assert (Hz : 2.0 * 0 / Rabs (e + - s) = 0) by (unfold Rdiv; ring).
  rewrite Hz.
  change (js_min (Fin (Rabs (y + - x))) (Fin 0))
    with (if Rleb (Rabs (y + - x)) 0 then Fin (Rabs (y + - x)) else Fin 0).
  assert (E : Rleb (Rabs (y + - x)) 0 = false) by (apply Rleb_false; lra).
  rewrite E.
  change (js_mul (Fin (Rsign (y + - x))) (Fin 0))
    with (Fin (Rsign (y + - x) * 0)).
  change (js_add (Fin x) (Fin (Rsign (y + - x) * 0)))
    with (Fin (x + Rsign (y + - x) * 0)).
  change (js_max (Fin 0) (js_min (Fin 1) (Fin (x + Rsign (y + - x) * 0))))
    with (MathUtils.clamp (Fin (x + Rsign (y + - x) * 0)) (Fin 0) (Fin 1)).
  rewrite js_clamp_fin. f_equal.
  replace (x + Rsign (y + - x) * 0) with x by ring.
  apply Rclamp_id, Hx01.
Qed.

(** A frame of length zero in the constant-rate controller: the division
    of the distance moved (0) by the frame time (0) makes [currentSpeed]
    NaN.  The progress and the position do not move, and since
    [NaN > idleThreshold] is false the frame counts as standing still: the
    idle action, when there is one, is the current action afterwards. *)
Theorem constantrate_zero_frame_speed_is_NaN :
  forall c : ConstantRate.CharacterController jsnum,
    wf_constantrate c ->
    ConstantRate.lastZ c
      = MathUtils.lerp (ConstantRate.startZ c) (ConstantRate.endZ c)
                       (ConstantRate.currentProgress c) ->
    let c' := ConstantRate.update (Fin 0) c in
    ConstantRate.currentSpeed c' = NaN
    /\ ConstantRate.currentProgress c' = ConstantRate.currentProgress c
    /\ ConstantRate.lastZ c' = ConstantRate.lastZ c
    /\ vz (position (ConstantRate.object3D c')) = ConstantRate.lastZ c
    /\ (forall i, ConstantRate.idleAction c = Some i ->
                  ConstantRate.currentAction c' = Some i).
Proof.
  intros c Hwf Hl c'. subst c'.
  pose proof (constantrate_zero_frame_step c Hwf) as Hstep.
  destruct Hwf as ((x & Hx & Hx01) & _ & (s & e & Hs & He & Hse)).
  destruct (constantrate_update_motion (Fin 0) c) as [El Ev].
  destruct (update_progress (Fin 0) c) as [_ Ec].
  rewrite Hstep in El, Ev, Ec. rewrite <- Hl in El, Ev.
  assert (Hv : ConstantRate.currentSpeed (ConstantRate.update (Fin 0) c) = NaN).
  { rewrite Ev, Hl, Hx, Hs, He, js_lerp_fin. js_ops.
    change (js_sub (Fin ((1 - x) * s + x * e)) (Fin ((1 - x) * s + x * e)))
      with (Fin ((1 - x) * s + x * e + - ((1 - x) * s + x * e))).
    cbn [js_abs]. unfold js_div.
    rewrite (Rzero_true 0 eq_refl).
    rewrite Rzero_true; [reflexivity |].
    replace ((1 - x) * s + x * e + - ((1 - x) * s + x * e)) with 0 by ring.
    apply Rabs_R0. }
  split; [exact Hv |]. split; [exact Ec |]. split; [exact El |].
  split.
  - rewrite constantrate_update_object.
    unfold ConstantRate.updatePosition.
    cbn [ConstantRate.object3D position Vec3.set_z vz].
    rewrite Hstep. symmetry. exact Hl.
  - intros i Hi.
    unfold ConstantRate.update, ConstantRate.updateMixer,
      ConstantRate.updateAnimation.
    set (c1 := ConstantRate.updatePosition (Fin 0) c).
    assert (Hv1 : ConstantRate.currentSpeed c1 = NaN).
    { rewrite <- Hv. symmetry.
      destruct (constantrate_update_motion (Fin 0) c) as [_ Ev'].
      rewrite Ev'. reflexivity. }
    rewrite Hv1.
    change (gtb NaN ConstantRate.idleThreshold) with false.
    cbn [andb negb].
    change (ConstantRate.idleAction c1) with (ConstantRate.idleAction c).
    change (ConstantRate.currentAction c1) with (ConstantRate.currentAction c).
    rewrite Hi. cbn [isSome andb].
    destruct (same_action (ConstantRate.currentAction c) (Some i)) eqn:Hsame;
      cbn [negb].
    + apply same_action_Some in Hsame.
      destruct (ConstantRate.mixer c1); exact Hsame.
    + destruct (ConstantRate.mixer _); reflexivity.
Qed.

Lemma constantrate_zero_frame_speed_is_NaN_witness :
  let c := ConstantRate.loadedWithClips 0%nat 1%nat (@ConstantRate.init jsnum _) in
  wf_constantrate c
  /\ ConstantRate.currentSpeed (ConstantRate.update (Fin 0) c) = NaN.
Proof.
  intros c.
  assert (Hwf : wf_constantrate c).
  { unfold wf_constantrate, finite_unit. cbn.
    split; [exists 0; split; [reflexivity | lra] |].
    split; [exists 0; split; [reflexivity | lra] |].
    exists 0, (-30). repeat split; lra. }
  assert (Hl : ConstantRate.lastZ c
               = MathUtils.lerp (ConstantRate.startZ c) (ConstantRate.endZ c)
                   (ConstantRate.currentProgress c)).
  { cbn. f_equal. lra. }
  split; [exact Hwf |].
  exact (proj1 (constantrate_zero_frame_speed_is_NaN c Hwf Hl)).
Defined.

(** ** Tuning the follow camera *)

Lemma vlerp_one (v w : Vector3 R) : Vec3.vlerp v w 1 = w.
Proof.
  destruct v, w. unfold Vec3.vlerp. cbn. f_equal; ring.
Qed.

Lemma vlerp_zero (v w : Vector3 R) : Vec3.vlerp v w 0 = v.
Proof.
  destruct v, w. unfold Vec3.vlerp. cbn. f_equal; ring.
Qed.

Lemma followN_at_rest (tgt : Object3D R) (n : nat)
    (c : CameraController.CameraController R) :
  CameraController.smoothFactor c = 0 ->
  CameraController.currentPosition (CameraController.followN tgt n c)
  = CameraController.currentPosition c.
Proof.
  intros Hf. induction n as [| n IH]; [reflexivity |].
  cbn [CameraController.followN CameraController.follow
       CameraController.currentPosition].
  destruct (followN_frame tgt n c) as (_ & _ & ->).
  rewrite Hf, vlerp_zero. exact IH.
Qed.

(** [setOffset] and [setSmoothFactor], then [follow].  The factor is
    stored clamped to [0,1], whatever real number is passed, so [follow]
    never overshoots: after [n] frames on a subject that stands still the
    distance to the subject's position plus the new offset is
    [(1 - f)^n] times the distance at the start, hence never larger.  A
    factor of 1 or more puts the camera on its goal in one frame; a factor
    of 0 or less freezes the camera where it is. *)
Theorem camera_setters_then_follow :
  forall (c : CameraController.CameraController R) (tgt : Object3D R)
         (x y z factor : R) (n : nat),
    let c1 := CameraController.setSmoothFactor factor
                (CameraController.setOffset x y z c) in
    let f := CameraController.smoothFactor c1 in
    let goal := Vec3.vadd (position tgt) (mkVector3 x y z) in
    let at_frame k :=
      CameraController.currentPosition (CameraController.followN tgt k c1) in
    f = (if Rlt_dec factor 0 then 0 else if Rlt_dec 1 factor then 1 else factor)
    /\ dist (at_frame n) goal
       = (1 - f) ^ n * dist (CameraController.currentPosition c) goal
    /\ dist (at_frame n) goal <= dist (CameraController.currentPosition c) goal
    /\ camPosition (CameraController.camera (CameraController.followN tgt (S n) c1))
       = at_frame (S n)
    /\ (1 <= factor -> at_frame 1%nat = goal)
    /\ (factor <= 0 -> at_frame n = CameraController.currentPosition c).
Proof.
  intros c tgt x y z factor n c1 f goal at_frame.
  assert (Hf : f = if Rlt_dec factor 0 then 0
                   else if Rlt_dec 1 factor then 1 else factor)
    by (apply clamp_cases).
  assert (Hf01 : 0 <= f <= 1) by (apply clamp_unit).
  assert (Hd : dist (at_frame n) goal
               = (1 - f) ^ n * dist (CameraController.currentPosition c) goal)
    by (exact (proj1 (followN_distance tgt n c1 Hf01))).
  split; [exact Hf |]. split; [exact Hd |]. split; [| split; [| split]].
  - rewrite Hd.
    assert (Hp : 0 <= (1 - f) ^ n <= 1).
    { split; [apply pow_le; lra |].
      apply Rle_trans with (1 ^ n); [apply pow_incr; lra | rewrite pow1; lra]. }
    pose proof (dist_nonneg (CameraController.currentPosition c) goal).
    nra.
  - reflexivity.
  - intros H1. unfold at_frame.
    cbn [CameraController.followN CameraController.follow
         CameraController.currentPosition].
    assert (E : f = 1).
    { rewrite Hf. destruct (Rlt_dec factor 0); [lra |].
      destruct (Rlt_dec 1 factor); lra. }
    fold f. rewrite E. apply vlerp_one.
  - intros H0. unfold at_frame.
    change (CameraController.currentPosition c)
      with (CameraController.currentPosition c1).
    apply followN_at_rest. fold f. rewrite Hf.
    destruct (Rlt_dec factor 0); [reflexivity |].
    destruct (Rlt_dec 1 factor); lra.
Qed.

(** The clamp of [setSmoothFactor] lets NaN through: the factor stored is
    NaN, and the next [follow] makes every coordinate of the camera
    position NaN. *)
Theorem camera_NaN_smooth_factor :
  forall (c : CameraController.CameraController jsnum) (tgt : Object3D jsnum),
    let c1 := CameraController.setSmoothFactor NaN c in
    let p := camPosition (CameraController.camera
                            (CameraController.follow tgt c1)) in
    CameraController.smoothFactor c1 = NaN
    /\ vx p = NaN /\ vy p = NaN /\ vz p = NaN.
Proof.
  intros c tgt c1 p. split; [reflexivity |].
  assert (H : forall u v : jsnum, js_add u (js_mul v NaN) = NaN).
  { intros u v. destruct u, v; reflexivity. }
  unfold p, c1. cbn [CameraController.follow CameraController.camera camPosition
                       CameraController.smoothFactor
                       CameraController.setSmoothFactor
                       Vec3.vlerp vx vy vz].
  change (MathUtils.clamp NaN (lit 0) (lit 1)) with NaN.
  repeat split; apply H.
Qed.

(** ** The camera comes to rest behind the character *)

(** A point that chases a goal by lerp steps, once the goal stands
    still. *)
Lemma chase_settles (f : R) (cam goal : nat -> Vector3 R) (n1 : nat) :
  0 < f <= 1 ->
  (forall n, (n1 <= n)%nat -> goal n = goal n1) ->
  (forall n, cam (S n) = Vec3.vlerp (cam n) (goal (S n)) f) ->
  forall eps, 0 < eps ->
    exists n0, forall n, (n0 <= n)%nat -> dist (cam n) (goal n) < eps.
Proof.
  intros Hf Hgoal Hcam eps Heps.
  assert (Hk : forall k, dist (cam (n1 + k)%nat) (goal n1)
                         = (1 - f) ^ k * dist (cam n1) (goal n1)).
  { induction k as [| k IH]; [rewrite Nat.add_0_r; cbn; ring |].
    rewrite Nat.add_succ_r, Hcam.
    rewrite (Hgoal (S (n1 + k))) by lia.
    rewrite vlerp_contracts by lra. rewrite IH. cbn. ring. }
  destruct (geometric_vanishes (1 - f) (dist (cam n1) (goal n1)) eps)
    as [k0 Hk0]; [lra | apply dist_nonneg | exact Heps |].
  exists (n1 + k0)%nat. intros n Hn.
  replace n with (n1 + (n - n1))%nat by lia.
  rewrite (Hgoal (n1 + (n - n1))%nat) by lia.
  rewrite Hk. apply Hk0. lia.
Qed.

(** The constant-rate character stops for good once it is inside the
    dead zone of its target. *)
Lemma constantrate_comes_to_rest (c : ConstantRate.CharacterController R)
    (dts : nat -> R) (dmin : R) :
  0 <= ConstantRate.currentProgress c <= 1 ->
  0 <= ConstantRate.targetProgress c <= 1 ->
  ConstantRate.startZ c <> ConstantRate.endZ c ->
  0 < dmin -> (forall n, dmin <= dts n) ->
  exists n1, forall n, (n1 <= n)%nat ->
    position (ConstantRate.object3D (ConstantRate.ticks dts n c))
    = position (ConstantRate.object3D (ConstantRate.ticks dts n1 c)).
Proof.
  intros Hc Ht Hp Hd Hdts.
  destruct (cr_dead_zone c dts dmin Hc Ht Hp Hd Hdts) as [n0 Hn0].
  assert (Hunit : forall n,
             0 <= ConstantRate.currentProgress (ConstantRate.ticks dts n c) <= 1).
  { intros n. apply (cr_unit c dts dmin Hc Ht Hp Hd Hdts). }
  assert (Hcur : forall k,
             ConstantRate.currentProgress (ConstantRate.ticks dts (n0 + k) c)
             = ConstantRate.currentProgress (ConstantRate.ticks dts n0 c)).
  { induction k as [| k IH]; [rewrite Nat.add_0_r; reflexivity |].
    rewrite Nat.add_succ_r, <- IH.
    apply (cr_step c dts dmin Ht Hp Hd Hdts (n0 + k)%nat (Hunit _)).
    apply Hn0. lia. }
  assert (Hpos : forall n,
             position (ConstantRate.object3D (ConstantRate.ticks dts (S n) c))
             = Vec3.set_z (position (ConstantRate.object3D c))
                 (MathUtils.lerp (ConstantRate.startZ c) (ConstantRate.endZ c)
                    (ConstantRate.currentProgress
                       (ConstantRate.ticks dts (S n) c)))).
  { induction n as [| n IH].
    - cbn [ConstantRate.ticks].
      destruct (update_progress (dts 0%nat) c) as [_ ->].
      rewrite constantrate_update_object. reflexivity.
    - cbn [ConstantRate.ticks] in *.
      set (cn := ConstantRate.update (dts n) (ConstantRate.ticks dts n c)) in *.
      destruct (update_progress (dts (S n)) cn) as [_ ->].
      rewrite constantrate_update_object.
      unfold ConstantRate.updatePosition.
      cbn [ConstantRate.object3D position].
      rewrite IH.
      destruct (constantrate_ticks_frame dts (S n) c) as (_ & Es & Ee).
      cbn [ConstantRate.ticks] in Es, Ee. fold cn in Es, Ee.
      rewrite Es, Ee. reflexivity. }
  exists (S n0). intros n Hn.
  destruct n as [| n]; [lia |].
  rewrite !Hpos. f_equal. f_equal.
  replace (S n) with (n0 + (S n - n0))%nat by lia.
  replace (S n0) with (n0 + 1)%nat by lia.
  rewrite !Hcur. reflexivity.
Qed.

Lemma simple_frames_running {C : Type} {Api : CharacterApi R C}
    (dts : nat -> R) (n : nat) (e : SimpleExperience.Experience R C) :
  SimpleExperience.isRunning (SimpleExperience.frames dts n e)
  = SimpleExperience.isRunning e.
Proof.
  induction n as [| n IH]; [reflexivity |].
  cbn [SimpleExperience.frames]. unfold SimpleExperience.update.
  destruct (negb _) eqn:E; [exact IH |]. cbn. rewrite IH in E |- *.
  reflexivity.
Qed.

Lemma simple_frames_step (dts : nat -> R) (n : nat)
    (e : SimpleExperience.Experience R (ConstantRate.CharacterController R)) :
  SimpleExperience.isRunning e = true ->
  let en := SimpleExperience.frames dts n e in
  let cn := SimpleExperience.characterController en in
  cn = ConstantRate.ticks dts n (SimpleExperience.characterController e)
  /\ CameraController.smoothFactor (SimpleExperience.cameraController en)
     = CameraController.smoothFactor (SimpleExperience.cameraController e)
  /\ CameraController.offset (SimpleExperience.cameraController en)
     = CameraController.offset (SimpleExperience.cameraController e)
  /\ CameraController.currentPosition
       (SimpleExperience.cameraController
          (SimpleExperience.frames dts (S n) e))
     = Vec3.vlerp
         (CameraController.currentPosition (SimpleExperience.cameraController en))
         (Vec3.vadd
            (position (ConstantRate.object3D
               (ConstantRate.ticks dts (S n)
                  (SimpleExperience.characterController e))))
            (CameraController.offset (SimpleExperience.cameraController e)))
         (CameraController.smoothFactor (SimpleExperience.cameraController e)).
Proof.
  intros Hrun. induction n as [| n (IHc & IHf & IHo & IHp)].
  - cbn [SimpleExperience.frames]. split; [reflexivity |].
    split; [reflexivity |]. split; [reflexivity |].
    unfold SimpleExperience.update. rewrite Hrun. reflexivity.
  - cbv zeta in *.
    assert (Hr : SimpleExperience.isRunning (SimpleExperience.frames dts n e)
                 = true) by (rewrite simple_frames_running; exact Hrun).
    assert (Hr1 : SimpleExperience.isRunning
                    (SimpleExperience.frames dts (S n) e) = true)
      by (rewrite simple_frames_running; exact Hrun).
    assert (E1 : SimpleExperience.characterController
                   (SimpleExperience.frames dts (S n) e)
                 = ConstantRate.ticks dts (S n)
                     (SimpleExperience.characterController e)).
    { cbn [SimpleExperience.frames ConstantRate.ticks].
      unfold SimpleExperience.update at 1. rewrite Hr. cbn. rewrite IHc.
      reflexivity. }
    assert (E2 : CameraController.smoothFactor
                   (SimpleExperience.cameraController
                      (SimpleExperience.frames dts (S n) e))
                 = CameraController.smoothFactor
                     (SimpleExperience.cameraController e)).
    { cbn [SimpleExperience.frames].
      unfold SimpleExperience.update at 1. rewrite Hr. cbn. exact IHf. }
    assert (E3 : CameraController.offset
                   (SimpleExperience.cameraController
                      (SimpleExperience.frames dts (S n) e))
                 = CameraController.offset
                     (SimpleExperience.cameraController e)).
    { cbn [SimpleExperience.frames].
      unfold SimpleExperience.update at 1. rewrite Hr. cbn. exact IHo. }
    split; [exact E1 |]. split; [exact E2 |]. split; [exact E3 |].
    change (SimpleExperience.frames dts (S (S n)) e)
      with (SimpleExperience.update (dts (S n))
              (SimpleExperience.frames dts (S n) e)).
    unfold SimpleExperience.update at 1. rewrite Hr1.
    cbn [negb SimpleExperience.cameraController CameraController.follow
         CameraController.currentPosition].
    rewrite E2. unfold CameraController.desiredPosition. rewrite E3, E1.
    reflexivity.
Qed.

(** First revision of [Experience], with the constant-rate character:
    once the scroll stops, the camera comes to rest behind the character.
    While the loop runs, with frame times bounded below, the distance
    from the camera's smoothed position to the character's position plus
    the camera offset becomes and stays smaller than any given bound. *)
Theorem simple_experience_camera_settles :
  forall (e : SimpleExperience.Experience R (ConstantRate.CharacterController R))
         (dts : nat -> R) (dmin : R),
    SimpleExperience.isRunning e = true ->
    0 < CameraController.smoothFactor (SimpleExperience.cameraController e) <= 1 ->
    unit_progress (SimpleExperience.characterController e) ->
    ConstantRate.startZ (SimpleExperience.characterController e)
      <> ConstantRate.endZ (SimpleExperience.characterController e) ->
    0 < dmin -> (forall n, dmin <= dts n) ->
    forall eps, 0 < eps ->
      exists n0, forall n, (n0 <= n)%nat ->
        let en := SimpleExperience.frames dts n e in
        dist (CameraController.currentPosition
                (SimpleExperience.cameraController en))
             (Vec3.vadd
                (position (ConstantRate.object3D
                             (SimpleExperience.characterController en)))
                (CameraController.offset (SimpleExperience.cameraController en)))
        < eps.
Proof.
  intros e dts dmin Hrun Hf [Ht Hc] Hp Hd Hdts eps Heps.
  set (c := SimpleExperience.characterController e) in *.
  destruct (constantrate_comes_to_rest c dts dmin Hc Ht Hp Hd Hdts)
    as [n1 Hrest].
  set (off := CameraController.offset (SimpleExperience.cameraController e)).
  destruct (chase_settles
              (CameraController.smoothFactor (SimpleExperience.cameraController e))
              (fun n => CameraController.currentPosition
                          (SimpleExperience.cameraController
                             (SimpleExperience.frames dts n e)))
              (fun n => Vec3.vadd
                          (position (ConstantRate.object3D
                                       (ConstantRate.ticks dts n c))) off)
              n1 Hf) with (eps := eps) as [n0 Hn0].
  - intros n Hn. cbv beta. rewrite (Hrest n Hn). reflexivity.
  - intros n. cbv beta.
    exact (proj2 (proj2 (proj2 (simple_frames_step dts n e Hrun)))).
  - exact Heps.
  - exists n0. intros n Hn. cbv zeta.
    destruct (simple_frames_step dts n e Hrun) as (-> & _ & -> & _).
    apply Hn0, Hn.
Qed.

Lemma simple_experience_camera_settles_witness :
  let e := SimpleExperience.start 0
             (SimpleExperience.onScroll 1
                (SimpleExperience.construct (16 / 9) (@ConstantRate.init R _))) in
  (SimpleExperience.isRunning e = true
   /\ 0 < CameraController.smoothFactor (SimpleExperience.cameraController e) <= 1
   /\ 0 < 1 / 60)
  /\ exists n0, forall n, (n0 <= n)%nat ->
       dist (CameraController.currentPosition
               (SimpleExperience.cameraController
                  (SimpleExperience.frames (fun _ => 1 / 60) n e)))
            (Vec3.vadd
               (position (ConstantRate.object3D
                  (SimpleExperience.characterController
                     (SimpleExperience.frames (fun _ => 1 / 60) n e))))
               (CameraController.offset
                  (SimpleExperience.cameraController
                     (SimpleExperience.frames (fun _ => 1 / 60) n e))))
       < 1 / 100.
Proof.
  intros e.
  assert (H1 : SimpleExperience.isRunning e = true) by reflexivity.
  assert (H2 : 0 < CameraController.smoothFactor
                     (SimpleExperience.cameraController e) <= 1)
    by (cbn; lra).
  assert (H3 : 0 < 1 / 60) by lra.
  assert (H4 : unit_progress (SimpleExperience.characterController e)).
  { change (SimpleExperience.characterController e)
      with (ConstantRate.update 0
              (ConstantRate.setTargetProgress 1 ConstantRate.init)).
    apply (call_unit (ConstantRate.CallUpdate 0)).
    apply (call_unit (ConstantRate.CallSetTargetProgress 1)).
    unfold unit_progress. cbn. lra. }
  assert (H5 : ConstantRate.startZ (SimpleExperience.characterController e)
               <> ConstantRate.endZ (SimpleExperience.characterController e)).
  { change (SimpleExperience.characterController e)
      with (ConstantRate.update 0
              (ConstantRate.setTargetProgress 1 ConstantRate.init)).
    destruct (constantrate_update_frame 0
                (ConstantRate.setTargetProgress 1 (@ConstantRate.init R _)))
      as [-> ->]. cbn. lra. }
  split; [exact (conj H1 (conj H2 H3)) |].
  assert (H6 : 0 < 1 / 100) by lra.
  exact (simple_experience_camera_settles e (fun _ => 1 / 60) (1 / 60)
           H1 H2 H4 H5 H3 (fun _ => Rle_refl _) (1 / 100) H6).
Defined.

(** ** The same for the scene-based [Experience] *)

Lemma run_app {A C : Type} {N : JsNumber A} {Api : CharacterApi A C}
    (l1 l2 : list (Event (A := A))) (e : Experience A C) :
  run (l1 ++ l2) e
  = match run l1 e with Some e' => run l2 e' | None => None end.
Proof.
  revert e. induction l1 as [| ev l1 IH]; intros e; [reflexivity |].
  cbn [app run]. destruct (step ev e); [apply IH | reflexivity].
Qed.

Lemma tickEvents_S (dts : nat -> R) (n : nat) :
  tickEvents dts (S n) = tickEvents dts n ++ [Tick (dts n)].
Proof.
  unfold tickEvents. rewrite seq_S, map_app. reflexivity.
Qed.

(** The per-frame effects of Gidiş leave the character, the camera
    controller, the UI and the scene index alone. *)
Lemma updateGidisEffects_core {A C : Type} {N : JsNumber A}
    {Api : CharacterApi A C} (dt : A) (e : Experience A C) :
  let e' := updateGidisEffects dt e in
  characterController e' = characterController e
  /\ cameraController e' = cameraController e
  /\ uiController e' = uiController e
  /\ finalChoiceController e' = finalChoiceController e
  /\ isRunning e' = isRunning e
  /\ currentSceneIndex e' = currentSceneIndex e
  /\ sceneProgress e' = sceneProgress e.
Proof.
  assert (H : forall e0 : Experience A C,
             let e' := updateLightning dt e0 in
             characterController e' = characterController e0
             /\ cameraController e' = cameraController e0
             /\ uiController e' = uiController e0
             /\ finalChoiceController e' = finalChoiceController e0
             /\ isRunning e' = isRunning e0
             /\ currentSceneIndex e' = currentSceneIndex e0
             /\ sceneProgress e' = sceneProgress e0).
  { intros e0. unfold updateLightning.
    destruct (gidisLightningLight (gidisObjs e0)); [| repeat split].
    destruct (gtb _ _); [repeat split |].
    cbn. destruct (leb _ _); repeat split. }
  unfold updateGidisEffects.
  specialize (H (updateRain dt e)). cbv zeta in H |- *.
  destruct H as (H1 & H2 & H3 & H4 & H5 & H6 & H7).
  rewrite H1, H2, H3, H4, H5, H6, H7.
  unfold updateRain.
  destruct (gidisRainGeometry _); [| repeat split].
  destruct (gidisRainPoints _); [| repeat split].
  destruct (fallRain _ _ _ _). repeat split.
Qed.

(** One frame of the running scene-based [Experience]. *)
Lemma experience_frame {C : Type} {Api : CharacterApi R C}
    (dt : R) (e : Experience R C) :
  isRunning e = true ->
  (currentSceneIndex e < List.length SCENES)%nat ->
  exists e', update dt e = Some e'
    /\ characterController e' = cc_update dt (characterController e)
    /\ isRunning e' = true
    /\ currentSceneIndex e' = currentSceneIndex e
    /\ camPosition (CameraController.camera (cameraController e'))
       = Vec3.vlerp
           (camPosition (CameraController.camera (cameraController e)))
           (Vec3.vadd (position (cc_object3D (characterController e')))
                      (mkVector3 0 1.7 4))
           0.1.
Proof.
  intros Hrun Hidx. unfold update. rewrite Hrun. cbn [negb].
  cbn [currentSceneIndex withCharacter].
  destruct (sceneAt_in_range _ Hidx) as [def ->].
  eexists. split; [reflexivity |].
  set (e0 := withCharacter _ e).
  destruct (SceneId_eqb (id def) gidis).
  - destruct (updateGidisEffects_core dt e0) as (H1 & H2 & _ & _ & H5 & H6 & _).
    unfold updateCameraFollow.
    cbn [characterController cameraController isRunning currentSceneIndex
         withCamera CameraController.withCamera CameraController.camera
         camPosition].
    rewrite H1, H2, H5, H6. repeat split. exact Hrun.
  - unfold updateCameraFollow.
    cbn [characterController cameraController isRunning currentSceneIndex
         withCamera CameraController.withCamera CameraController.camera
         camPosition].
    repeat split. exact Hrun.
Qed.

Lemma experience_frames {C : Type} {Api : CharacterApi R C}
    (dts : nat -> R) (e : Experience R C) (n : nat) :
  isRunning e = true ->
  (currentSceneIndex e < List.length SCENES)%nat ->
  exists en, run (tickEvents dts n) e = Some en
    /\ isRunning en = true
    /\ currentSceneIndex en = currentSceneIndex e
    /\ exists en1, run (tickEvents dts (S n)) e = Some en1
         /\ characterController en1 = cc_update (dts n) (characterController en)
         /\ camPosition (CameraController.camera (cameraController en1))
            = Vec3.vlerp
                (camPosition (CameraController.camera (cameraController en)))
                (Vec3.vadd (position (cc_object3D (characterController en1)))
                           (mkVector3 0 1.7 4))
                0.1.
Proof.
  intros Hrun Hidx. induction n as [| n IH].
  - exists e. split; [reflexivity |]. split; [exact Hrun |].
    split; [reflexivity |].
    destruct (experience_frame (dts 0%nat) e Hrun Hidx)
      as (e1 & H1 & H2 & _ & _ & H5).
    exists e1. cbn [tickEvents seq map run step]. rewrite H1.
    repeat split; assumption.
  - destruct IH as (en & Hn & Hr & Hi & en1 & Hn1 & Hc1 & Hp1).
    assert (Hr1 : isRunning en1 = true /\ currentSceneIndex en1 = currentSceneIndex e).
    { rewrite tickEvents_S, run_app, Hn in Hn1. cbn [run step] in Hn1.
      destruct (experience_frame (dts n) en Hr) as (e' & H1 & _ & H3 & H4 & _);
        [rewrite Hi; exact Hidx |].
      rewrite H1 in Hn1. injection Hn1 as <-. rewrite H4, Hi. split; [exact H3 | reflexivity]. }
    destruct Hr1 as [Hr1 Hi1].
    exists en1. split; [exact Hn1 |]. split; [exact Hr1 |]. split; [exact Hi1 |].
    destruct (experience_frame (dts (S n)) en1 Hr1) as (e2 & H1 & H2 & _ & _ & H5);
      [rewrite Hi1; exact Hidx |].
    exists e2. rewrite (tickEvents_S dts (S n)), run_app, Hn1.
    cbn [run step]. rewrite H1. repeat split; assumption.
Qed.

(** The scene-based [Experience] with the constant-rate character: once
    the scroll stops, the camera comes to rest behind the character.
    While the loop runs, in any scene, with frame times bounded below,
    every frame is handled and the distance from the camera to the
    character's position plus (0, 1.7, 4) becomes and stays smaller than
    any given bound. *)
Theorem experience_camera_settles :
  forall (e : Experience R (ConstantRate.CharacterController R))
         (dts : nat -> R) (dmin : R),
    isRunning e = true ->
    (currentSceneIndex e < List.length SCENES)%nat ->
    unit_progress (characterController e) ->
    ConstantRate.startZ (characterController e)
      <> ConstantRate.endZ (characterController e) ->
    0 < dmin -> (forall n, dmin <= dts n) ->
    forall eps, 0 < eps ->
      exists n0, forall n, (n0 <= n)%nat ->
        exists en,
          run (tickEvents dts n) e = Some en
          /\ dist (camPosition (CameraController.camera (cameraController en)))
                  (Vec3.vadd
                     (position (ConstantRate.object3D (characterController en)))
                     (mkVector3 0 1.7 4))
             < eps.
Proof.
  intros e dts dmin Hrun Hidx [Ht Hc] Hp Hd Hdts eps Heps.
  set (c := characterController e) in *.
  destruct (constantrate_comes_to_rest c dts dmin Hc Ht Hp Hd Hdts)
    as [n1 Hrest].
  set (camAt := fun n =>
         match run (tickEvents dts n) e with
         | Some en => camPosition (CameraController.camera (cameraController en))
         | None => mkVector3 0 0 0
         end).
  assert (Hchar : forall n, exists en,
             run (tickEvents dts n) e = Some en
             /\ characterController en = ConstantRate.ticks dts n c).
  { induction n as [| n (en & Hn & Hcn)].
    - exists e. split; reflexivity.
    - destruct (experience_frames dts e n Hrun Hidx)
        as (en' & Hn' & _ & _ & en1 & Hn1 & Hc1 & _).
      rewrite Hn in Hn'. injection Hn' as <-.
      exists en1. split; [exact Hn1 |]. rewrite Hc1, Hcn. reflexivity. }
  destruct (chase_settles 0.1 camAt
              (fun n => Vec3.vadd
                          (position (ConstantRate.object3D
                                       (ConstantRate.ticks dts n c)))
                          (mkVector3 0 1.7 4))
              n1) with (eps := eps) as [n0 Hn0].
  - lra.
  - intros n Hn. cbv beta. rewrite (Hrest n Hn). reflexivity.
  - intros n. unfold camAt.
    destruct (experience_frames dts e n Hrun Hidx)
      as (en & Hn & _ & _ & en1 & Hn1 & Hc1 & Hp1).
    rewrite Hn, Hn1, Hp1.
    destruct (Hchar (S n)) as (en1' & Hn1' & Hc1').
    rewrite Hn1 in Hn1'. injection Hn1' as <-. rewrite Hc1'. reflexivity.
  - exact Heps.
  - exists n0. intros n Hn.
    destruct (Hchar n) as (en & Hen & Hcn).
    exists en. split; [exact Hen |].
    specialize (Hn0 n Hn). unfold camAt in Hn0. rewrite Hen in Hn0.
    rewrite Hcn. exact Hn0.
Qed.

Lemma experience_camera_settles_witness :
  let e := withRunning true sampleExperience in
  (isRunning e = true
   /\ (currentSceneIndex e < List.length SCENES)%nat
   /\ 0 < 1 / 60)
  /\ exists n0, forall n, (n0 <= n)%nat ->
       exists en,
         run (tickEvents (fun _ => 1 / 60) n) e = Some en
         /\ dist (camPosition (CameraController.camera (cameraController en)))
                 (Vec3.vadd
                    (position (ConstantRate.object3D (characterController en)))
                    (mkVector3 0 1.7 4))
            < 1 / 100.
Proof.
  intros e.
  assert (H1 : isRunning e = true) by reflexivity.
  assert (H2 : (currentSceneIndex e < List.length SCENES)%nat) by (cbn; lia).
  assert (H3 : 0 < 1 / 60) by lra.
  assert (H4 : unit_progress (characterController e))
    by (unfold unit_progress; cbn; lra).
  assert (H5 : ConstantRate.startZ (characterController e)
               <> ConstantRate.endZ (characterController e)) by (cbn; lra).
  assert (H6 : 0 < 1 / 100) by lra.
  split; [exact (conj H1 (conj H2 H3)) |].
  exact (experience_camera_settles e (fun _ => 1 / 60) (1 / 60)
           H1 H2 H4 H5 H3 (fun _ => Rle_refl _) (1 / 100) H6).
Defined.

(** ** Commands on a constructed Experience *)

Section Commands.
Context {A : Type} {N : JsNumber A} {C : Type} {Api : CharacterApi A C}.
Let Exp : Type := Experience A C.

(** What a load completion or failure leaves alone. *)
Lemma resume_core (t : Task) (e : Exp) :
  let e' := resume t e in
  characterController e' = characterController e
  /\ cameraController e' = cameraController e
  /\ uiController e' = uiController e
  /\ finalChoiceController e' = finalChoiceController e
  /\ isRunning e' = isRunning e
  /\ currentSceneIndex e' = currentSceneIndex e
  /\ sceneProgress e' = sceneProgress e.
Proof.
  destruct e as [w cam ch u f rn idx prog lf isl g].
  destruct t; cbn [resume]; try (repeat split; reflexivity).
  destruct g as [sun sl amb rg rm rp ll tm cd du].
  destruct sl, amb, rp, ll; repeat split; reflexivity.
Qed.

Lemma rejected_core (t : Task) (e : Exp) :
  let e' := rejected t e in
  characterController e' = characterController e
  /\ cameraController e' = cameraController e
  /\ uiController e' = uiController e
  /\ finalChoiceController e' = finalChoiceController e
  /\ isRunning e' = isRunning e
  /\ currentSceneIndex e' = currentSceneIndex e
  /\ sceneProgress e' = sceneProgress e
  /\ lif e' = lif e
  /\ yilSonuIsland e' = yilSonuIsland e
  /\ gidisObjs e' = gidisObjs e
  /\ sceneChildren (world e') = sceneChildren (world e)
  /\ pending (world e') = pending (world e).
Proof. destruct t; repeat split; reflexivity. Qed.

(** One frame, when the loop runs. *)
Lemma update_core (dt : A) (e : Exp) :
  isRunning e = true ->
  (currentSceneIndex e < List.length SCENES)%nat ->
  exists e', update dt e = Some e'
    /\ characterController e' = cc_update dt (characterController e)
    /\ uiController e' = uiController e
    /\ finalChoiceController e' = finalChoiceController e
    /\ isRunning e' = true
    /\ currentSceneIndex e' = currentSceneIndex e
    /\ sceneProgress e' = sceneProgress e.
Proof.
  intros Hrun Hidx. unfold update. rewrite Hrun. cbn [negb].
  cbn [currentSceneIndex withCharacter].
  destruct (sceneAt_in_range _ Hidx) as [def ->].
  eexists. split; [reflexivity |].
  set (e0 := withCharacter _ e).
  destruct (SceneId_eqb (id def) gidis).
  - destruct (updateGidisEffects_core dt e0) as (H1 & _ & H3 & H4 & H5 & H6 & H7).
    unfold updateCameraFollow.
    cbn [characterController uiController finalChoiceController isRunning
         currentSceneIndex sceneProgress withCamera].
    rewrite H1, H3, H4, H5, H6, H7. repeat split. exact Hrun.
  - repeat split. exact Hrun.
Qed.

(** The UI side of the activation of a scene. *)
Lemma applyCurrentScene_ui (e : Exp) (def : SceneDefinition) :
  sceneAt (currentSceneIndex e) = Some def ->
  exists e1, applyCurrentScene e = Some e1
    /\ uiController e1
       = (if SceneId_eqb (id def) final
          then mkUiC (Some (ui def)) (lit 0) false false
          else ui_updateProgress (lit 0)
                 (mkUiC (Some (ui def)) (lit 0) true false))
    /\ finalChoiceController e1
       = (if SceneId_eqb (id def) final then mkFinal true false
          else mkFinal false (hasCelebrated (finalChoiceController e)))
    /\ isRunning e1 = isRunning e
    /\ cameraController e1 = cameraController e.
Proof.
  intros Hdef. unfold applyCurrentScene. rewrite Hdef.
  set (e' := log _ e).
  destruct (cleanupAll_effect e') as (e0 & H0 & Hl & Hy & Hg & Hc & _).
  rewrite H0. clear H0.
  destruct Hc as (Hcam & _ & Hu & Hf & Hr & Hidx & _).
  destruct e0 as [w0 cam0 ch0 u0 f0 run0 idx0 prog0 lf0 isl0 g0].
  subst e'. destruct e as [w cam ch u f rn idx prog lf isl g].
  cbn in Hl, Hy, Hg, Hcam, Hu, Hf, Hr, Hidx, Hdef.
  subst lf0 isl0 g0 cam0 u0 f0 run0 idx0.
  destruct idx as [| [| [| [| [| idx]]]]]; cbn in Hdef;
    [ | | | | | destruct idx; discriminate Hdef]; injection Hdef as <-.
  all: eexists; (split; [vm_compute; reflexivity |]).
  all: repeat split.
Qed.


Lemma consistent_perform (k : Command) (e : Exp) :
  consistent e -> exists e', perform k e = Some e' /\ consistent e'.
Proof.
  intros Hc. destruct k as [ev | dt |]; cbn [perform].
  - apply consistent_step, Hc.
  - unfold start. destruct (isRunning e); [exists e; split; [reflexivity | exact Hc] |].
    assert (Hc0 : consistent (withRunning true e))
      by (apply (consistent_same_env e); auto).
    destruct (consistent_step (Tick dt) _ Hc0) as (e1 & H1 & Hc1).
    cbn [step] in H1. rewrite H1.
    eexists. split; [reflexivity |].
    apply (consistent_same_env e1); auto.
  - eexists. split; [reflexivity |].
    apply (consistent_same_env e); auto.
Qed.

(** A property kept by every command is kept by every sequence of
    commands, none of which fails. *)
Lemma performAll_keeps (P : Exp -> Prop) :
  (forall k e e', consistent e -> P e -> perform k e = Some e' -> P e') ->
  forall ks e, consistent e -> P e ->
    exists e', performAll ks e = Some e' /\ consistent e' /\ P e'.
Proof.
  intros Hstep ks. induction ks as [| k ks IH]; intros e Hc HP.
  - exists e. split; [reflexivity |]. split; assumption.
  - destruct (consistent_perform k e Hc) as (e1 & H1 & Hc1).
    cbn [performAll]. rewrite H1.
    apply IH; [exact Hc1 |]. exact (Hstep k e e1 Hc HP H1).
Qed.

Lemma construct_consistent (rnd : nat -> A) (aspect0 : A) (c0 : C) :
  exists e0, construct rnd aspect0 c0 = Some e0 /\ consistent e0.
Proof.
  apply (consistent_activate (blank rnd aspect0 c0) 0
           (consistent_blank rnd aspect0 c0)); [cbn; lia | right; reflexivity].
Qed.

Lemma construct_index (rnd : nat -> A) (aspect0 : A) (c0 : C) (e0 : Exp) :
  construct rnd aspect0 c0 = Some e0 -> currentSceneIndex e0 = 0%nat.
Proof.
  unfold construct. intros H0.
  destruct (sceneAt_in_range 0) as [def Hdef]; [cbn; lia |].
  destruct (applyCurrentScene_effect (blank rnd aspect0 c0) def Hdef)
    as (e1 & H1 & _ & H3 & _).
  rewrite H1 in H0. injection H0 as <-. exact H3.
Qed.

(** The scene index after one command. *)
Lemma perform_index (k : Command) (e e' : Exp) :
  consistent e -> perform k e = Some e' ->
  currentSceneIndex e'
  = match k with
    | Handle ClickNext => Nat.min 4 (S (currentSceneIndex e))
    | _ => currentSceneIndex e
    end.
Proof.
  intros Hc. pose proof Hc as (_ & Hidx & _).
  destruct (sceneAt_in_range _ Hidx) as [def Hdef].
  destruct k as [[| p | dt | n | n] | dt |]; cbn [perform step].
  - unfold goToNextScene.
    cbn [currentSceneIndex withUi].
    destruct (Nat.leb_spec (List.length SCENES - 1) (currentSceneIndex e))
      as [Hlast | Hmore].
    + intros [= <-].
      change (currentSceneIndex e = Nat.min 4 (S (currentSceneIndex e))).
      cbn in Hlast, Hidx. lia.
    + cbn in Hmore.
      destruct (sceneAt_in_range (S (currentSceneIndex e))) as [d1 Hd1];
        [cbn; lia |].
      destruct (applyCurrentScene_effect
                  (withIndex (S (currentSceneIndex e))
                     (withUi (ui_hideNextOverlay (uiController e)) e)) d1 Hd1)
        as (e1 & H1 & _ & H3 & _).
      rewrite H1. intros [= <-]. rewrite H3.
      cbn [currentSceneIndex withIndex]. lia.
  - unfold onScrollProgress. rewrite Hdef.
    destruct (SceneId_eqb _ _); intros [= <-]; reflexivity.
  - unfold update. destruct (isRunning e) eqn:Hr; cbn [negb];
      [| intros [= <-]; reflexivity].
    intros H. destruct (update_core dt e Hr Hidx) as (e1 & H1 & _ & _ & _ & _ & H6 & _).
    unfold update in H1. rewrite Hr in H1. cbn [negb] in H1.
    rewrite H1 in H. injection H as <-. exact H6.
  - destruct (extract n (pending (world e))) as [[t rest] |];
      intros [= <-]; [| reflexivity].
    destruct (resume_core t (withWorld (set_pending rest (world e)) e))
      as (_ & _ & _ & _ & _ & H6 & _). exact H6.
  - destruct (extract n (pending (world e))) as [[t rest] |];
      intros [= <-]; [| reflexivity].
    destruct t; reflexivity.
  - unfold start. destruct (isRunning e); [intros [= <-]; reflexivity |].
    destruct (update_core dt (withRunning true e) eq_refl Hidx)
      as (e1 & H1 & _ & _ & _ & _ & H6 & _).
    rewrite H1. intros [= <-]. exact H6.
  - intros [= <-]. reflexivity.
Qed.

Lemma performAll_index (ks : list Command) (e : Exp) :
  consistent e ->
  exists e', performAll ks e = Some e'
    /\ consistent e'
    /\ currentSceneIndex e' = Nat.min 4 (currentSceneIndex e + clicks ks).
Proof.
  revert e. induction ks as [| k ks IH]; intros e Hc.
  - exists e. split; [reflexivity |]. split; [exact Hc |].
    destruct Hc as (_ & Hidx & _). cbn in Hidx. cbn [clicks]. lia.
  - destruct (consistent_perform k e Hc) as (e1 & H1 & Hc1).
    cbn [performAll]. rewrite H1.
    destruct (IH e1 Hc1) as (e' & H2 & Hc' & Hi).
    exists e'. split; [exact H2 |]. split; [exact Hc' |].
    rewrite Hi, (perform_index k e e1 Hc H1).
    destruct Hc as (_ & Hidx & _). cbn in Hidx.
    destruct k as [[| p | dt | n | n] | dt |]; cbn [clicks]; lia.
Qed.

(** Whatever the page does with a constructed [Experience] (starting and
    stopping the loop; clicks, scroll reports, frames, loads that
    complete or fail, in any order), nothing throws, every object in
    the scene graph is referred to by an environment field, and at most
    one load per scene is in flight. *)
Theorem commanded_experience_is_consistent
    (rnd : nat -> A) (aspect0 : A) (c0 : C) (ks : list Command) :
  exists e0 e,
    construct rnd aspect0 c0 = Some e0
    /\ performAll ks e0 = Some e
    /\ consistent e.
Proof.
  destruct (construct_consistent rnd aspect0 c0) as (e0 & H0 & Hc0).
  destruct (performAll_index ks e0 Hc0) as (e & He & Hc & _).
  exists e0, e. split; [exact H0 |]. split; [exact He | exact Hc].
Qed.

(** The scene shown is the number of clicks on the "next scene" button,
    capped at the last scene (index 4): scenes are never skipped, never
    revisited, and nothing but a click changes the scene. *)
Theorem scene_index_counts_clicks
    (rnd : nat -> A) (aspect0 : A) (c0 : C) (ks : list Command) :
  exists e0 e,
    construct rnd aspect0 c0 = Some e0
    /\ performAll ks e0 = Some e
    /\ currentSceneIndex e = Nat.min 4 (clicks ks).
Proof.
  destruct (construct_consistent rnd aspect0 c0) as (e0 & H0 & Hc0).
  destruct (performAll_index ks e0 Hc0) as (e & He & _ & Hi).
  exists e0, e. split; [exact H0 |]. split; [exact He |].
  rewrite Hi, (construct_index rnd aspect0 c0 e0 H0). reflexivity.
Qed.
End Commands.

(** ** Progress, stage and scene stay in tune *)

Lemma sceneAt_facts (k : nat) (def : SceneDefinition) :
  sceneAt k = Some def ->
  SceneId_eqb (id def) final = Nat.eqb k 4
  /\ ((k < 4)%nat -> hasNext (ui def) = true).
Proof.
  intros H. destruct k as [| [| [| [| [| k]]]]]; cbn in H;
    [ | | | | | destruct k; discriminate H]; injection H as <-;
    split; try reflexivity; intros; try reflexivity; lia.
Qed.

Lemma Rmin_max_unit (p : R) : 0 <= Rmin 1 (Rmax 0 p) <= 1.
Proof.
  unfold Rmin, Rmax. destruct (Rle_dec 0 p); destruct (Rle_dec 1 _); lra.
Qed.

Lemma Rmin_max_id (p : R) : 0 <= p <= 1 -> Rmin 1 (Rmax 0 p) = p.
Proof.
  intros H. unfold Rmin, Rmax.
  destruct (Rle_dec 0 p); destruct (Rle_dec 1 _); lra.
Qed.

Section Tuning.
Context {C : Type} {Api : CharacterApi R C}.
Variable target : C -> R.
Hypothesis target_set :
  forall p c, target (cc_setTargetProgress p c) = MathUtils.clamp p 0 1.
Hypothesis target_update : forall dt c, target (cc_update dt c) = target c.
Hypothesis target_visible : forall b c, target (cc_setVisible b c) = target c.
Hypothesis visible_set :
  forall b c, visible (cc_object3D (cc_setVisible b c)) = b.
Hypothesis visible_target :
  forall p c, visible (cc_object3D (cc_setTargetProgress p c))
              = visible (cc_object3D c).
Hypothesis visible_update :
  forall dt c, visible (cc_object3D (cc_update dt c))
               = visible (cc_object3D c).
Let Exp : Type := Experience R C.

(** Changes that keep the scene, the progress, the UI and the overlay,
    and what is read of the character. *)
Lemma in_tune_frame (e e' : Exp) :
  currentSceneIndex e' = currentSceneIndex e ->
  sceneProgress e' = sceneProgress e ->
  uiController e' = uiController e ->
  finalChoiceController e' = finalChoiceController e ->
  target (characterController e') = target (characterController e) ->
  visible (cc_object3D (characterController e'))
    = visible (cc_object3D (characterController e)) ->
  in_tune target e -> in_tune target e'.
Proof.
  intros H1 H2 H3 H4 H5 H6.
  unfold in_tune, progress_shared, stage_matches_scene.
  rewrite H1, H2, H3, H4, H5, H6. tauto.
Qed.

(** The activation of a scene sets everything anew. *)
Lemma in_tune_activate (e e1 : Exp) (def : SceneDefinition) :
  sceneAt (currentSceneIndex e) = Some def ->
  applyCurrentScene e = Some e1 ->
  in_tune target e1.
Proof.
  intros Hdef H1.
  destruct (applyCurrentScene_effect e def Hdef)
    as (e2 & H2 & Hch & Hidx & Hsp & _).
  rewrite H1 in H2. injection H2 as <-.
  destruct (applyCurrentScene_ui e def Hdef) as (e2 & H2 & Hu & Hf & _).
  rewrite H1 in H2. injection H2 as <-.
  destruct (sceneAt_facts _ _ Hdef) as [Hfin Hnext].
  assert (Hz : Rmin 1 (Rmax 0 0) = 0) by (apply Rmin_max_id; lra).
  assert (Hlt : Rleb 0.98 0 = false) by (apply Rleb_false; lra).
  unfold in_tune, progress_shared, stage_matches_scene.
  rewrite Hch, Hidx, Hsp, Hu, Hf, Hdef, target_visible, target_set,
    visible_set, Hfin.
  change (@lit R RNumber 0) with 0.
  rewrite clamp_id by lra.
  destruct (Nat.eqb (currentSceneIndex e) 4) eqn:E4.
  - apply Nat.eqb_eq in E4. cbn.
    repeat split; try lra; try reflexivity; try (intros H; discriminate H);
      try (intros [Ha Hb]; first [lra | lia]).
  - cbn. rewrite Hz, Hlt. cbn.
    repeat split; try lra; try reflexivity; try (intros H; discriminate H);
      try (intros [Ha Hb]; first [lra | lia]).
Qed.

Lemma in_tune_perform (k : Command) (e e' : Exp) :
  consistent e -> in_tune target e -> perform k e = Some e' ->
  in_tune target e'.
Proof.
  intros Hc Ht. pose proof Hc as (_ & Hidx & _).
  destruct (sceneAt_in_range _ Hidx) as [def Hdef].
  destruct (sceneAt_facts _ _ Hdef) as [Hfin Hnext].
  destruct k as [[| p | dt | n | n] | dt |]; cbn [perform step].
  - unfold goToNextScene. cbn [currentSceneIndex withUi].
    destruct (Nat.leb_spec (List.length SCENES - 1) (currentSceneIndex e))
      as [Hlast | Hmore].
    + intros [= <-].
      assert (E4 : currentSceneIndex e = 4%nat) by (cbn in Hlast, Hidx; lia).
      destruct Ht as ((P1 & P2 & P3 & P4) & (S1 & S2 & S3 & S4) & Hcs).
      split; [exact (conj P1 (conj P2 (conj P3 P4))) |].
      split; [| exact Hcs].
      split; [exact S1 |]. split; [exact S2 |]. split; [exact S3 |].
      cbn [log withWorld withUi sceneProgress uiController currentSceneIndex
           ui_hideNextOverlay nextOverlay].
      split; [intros H; discriminate H | intros [_ H]; lia].
    + cbn in Hmore.
      destruct (sceneAt_in_range (S (currentSceneIndex e))) as [d1 Hd1];
        [cbn; lia |].
      apply (in_tune_activate _ _ d1). exact Hd1.
  - unfold onScrollProgress. rewrite Hdef, Hfin.
    destruct (Nat.eqb (currentSceneIndex e) 4) eqn:E4;
      [intros [= <-]; exact Ht |].
    apply Nat.eqb_neq in E4.
    assert (Hlt4 : (currentSceneIndex e < 4)%nat) by (cbn in Hidx; lia).
    intros [= <-].
    destruct Ht as ((P1 & P2 & P3 & P4) & (S1 & S2 & S3 & S4) & Hcs).
    rewrite Hdef in Hcs. cbn [option_map] in Hcs.
    pose proof (Rmin_max_unit p) as Hu.
    change (Math_min (lit 1) (Math_max (lit 0) p)) with (Rmin 1 (Rmax 0 p)).
    set (sp := Rmin 1 (Rmax 0 p)) in *.
    unfold in_tune, progress_shared, stage_matches_scene.
    cbn [withUi withCharacter withProgress sceneProgress characterController
         uiController finalChoiceController currentSceneIndex].
    unfold ui_updateProgress. rewrite Hcs.
    cbn [lastProgress panelVisible nextOverlay currentScene].
    change (Math_min (lit 1) (Math_max (lit 0) sp)) with (Rmin 1 (Rmax 0 sp)).
    rewrite (Rmin_max_id sp Hu), target_set, visible_target,
      (clamp_id sp Hu), (Hnext Hlt4).
    rewrite Hdef. cbn [option_map]. rewrite andb_true_r.
    change (geb sp (lit 0.98)) with (Rleb 0.98 sp).
    repeat split; try assumption; try lra.
    * intros H4. contradiction.
    * match goal with
      | H : Rleb _ _ = true |- _ => apply Rleb_true in H; exact H
      end.
    * intros [H _]. apply Rleb_true. exact H.
  - unfold update. destruct (isRunning e) eqn:Hr; cbn [negb];
      [| intros [= <-]; exact Ht].
    intros H.
    destruct (update_core dt e Hr Hidx) as (e1 & H1 & E1 & E2 & E3 & _ & E5 & E6).
    unfold update in H1. rewrite Hr in H1. cbn [negb] in H1.
    rewrite H1 in H. injection H as <-.
    apply (in_tune_frame e); try assumption; rewrite E1; auto.
  - destruct (extract n (pending (world e))) as [[t rest] |];
      intros [= <-]; [| exact Ht].
    destruct (resume_core t (withWorld (set_pending rest (world e)) e))
      as (E1 & _ & E3 & E4 & _ & E6 & E7).
    apply (in_tune_frame e); try assumption; rewrite E1; reflexivity.
  - destruct (extract n (pending (world e))) as [[t rest] |];
      intros [= <-]; [| exact Ht].
    apply (in_tune_frame e); try exact Ht; destruct t; reflexivity.
  - unfold start. destruct (isRunning e); [intros [= <-]; exact Ht |].
    destruct (update_core dt (withRunning true e) eq_refl Hidx)
      as (e1 & H1 & E1 & E2 & E3 & _ & E5 & E6).
    rewrite H1. intros [= <-].
    apply (in_tune_frame e); try exact Ht; cbn [log withWorld
      currentSceneIndex sceneProgress uiController finalChoiceController
      characterController]; try assumption; rewrite E1; auto.
  - intros [= <-]. apply (in_tune_frame e); try exact Ht; reflexivity.
Qed.

Lemma in_tune_construct (rnd : nat -> R) (aspect0 : R) (c0 : C) (e0 : Exp) :
  construct rnd aspect0 c0 = Some e0 -> in_tune target e0.
Proof.
  unfold construct. intros H0.
  destruct (sceneAt_in_range 0) as [def Hdef]; [cbn; lia |].
  exact (in_tune_activate (blank rnd aspect0 c0) e0 def Hdef H0).
Qed.

Lemma in_tune_always (rnd : nat -> R) (aspect0 : R) (c0 : C)
    (ks : list Command) :
  exists e0 e,
    construct rnd aspect0 c0 = Some e0
    /\ performAll ks e0 = Some e
    /\ in_tune target e.
Proof.
  destruct (construct_consistent rnd aspect0 c0) as (e0 & H0 & Hc0).
  pose proof (in_tune_construct rnd aspect0 c0 e0 H0) as Ht0.
  destruct (performAll_keeps (in_tune target) in_tune_perform ks e0 Hc0 Ht0)
    as (e & He & _ & Ht).
  exists e0, e. split; [exact H0 |]. split; [exact He | exact Ht].
Qed.
End Tuning.

Lemma constantrate_in_tune_always (rnd : nat -> R) (aspect0 : R)
    (c0 : ConstantRate.CharacterController R) (ks : list Command) :
  exists e0 e,
    construct rnd aspect0 c0 = Some e0
    /\ performAll ks e0 = Some e
    /\ in_tune ConstantRate.targetProgress e.
Proof.
  apply in_tune_always; try reflexivity.
  - intros dt c. apply update_progress.
  - intros dt c. cbn [cc_object3D cc_update ConstantRateApi].
    rewrite constantrate_update_object. reflexivity.
Qed.

Lemma expchase_in_tune_always (rnd : nat -> R) (aspect0 : R)
    (c0 : ExpChase.CharacterController R) (ks : list Command) :
  exists e0 e,
    construct rnd aspect0 c0 = Some e0
    /\ performAll ks e0 = Some e
    /\ in_tune ExpChase.targetProgress e.
Proof.
  apply in_tune_always; try reflexivity.
  - intros dt c. cbn [cc_update ExpChaseApi].
    destruct (ExpChase.mixer c) as [m |] eqn:Hm.
    + apply (expchase_update_fields dt c m Hm).
    + rewrite expchase_update_no_mixer by exact Hm. reflexivity.
  - intros dt c. cbn [cc_object3D cc_update ExpChaseApi].
    destruct (ExpChase.mixer c) as [m |] eqn:Hm.
    + destruct (expchase_update_motion dt c m Hm) as (-> & _). reflexivity.
    + rewrite expchase_update_no_mixer by exact Hm. reflexivity.
Qed.

(** The scroll progress is one number.  Whatever the page does with a
    constructed [Experience], with either character controller:
    [sceneProgress] lies in [0,1], the character's target progress and
    the progress last shown by the UI are equal to it, and in the final
    scene it is 0 (scroll reports are ignored there). *)
Theorem scroll_progress_is_shared :
  forall (rnd : nat -> R) (aspect0 : R) (ks : list Command),
    (forall c0 : ConstantRate.CharacterController R,
       exists e0 e,
         construct rnd aspect0 c0 = Some e0
         /\ performAll ks e0 = Some e
         /\ progress_shared ConstantRate.targetProgress e)
    /\ (forall c0 : ExpChase.CharacterController R,
         exists e0 e,
           construct rnd aspect0 c0 = Some e0
           /\ performAll ks e0 = Some e
           /\ progress_shared ExpChase.targetProgress e).
Proof.
  intros rnd aspect0 ks. split; intros c0.
  - destruct (constantrate_in_tune_always rnd aspect0 c0 ks)
      as (e0 & e & H0 & He & Ht & _).
    exists e0, e. split; [exact H0 |]. split; [exact He | exact Ht].
  - destruct (expchase_in_tune_always rnd aspect0 c0 ks)
      as (e0 & e & H0 & He & Ht & _).
    exists e0, e. split; [exact H0 |]. split; [exact He | exact Ht].
Qed.

(** What is on stage depends on the scene alone.  Whatever the page does
    with a constructed [Experience], with either character controller:
    the final-choice overlay is active exactly in the final scene, the
    text panel and the character are visible exactly in the other scenes,
    and the "next scene" popup is shown exactly when the progress is at
    least 0.98 in a scene other than the final one. *)
Theorem stage_follows_scene :
  forall (rnd : nat -> R) (aspect0 : R) (ks : list Command),
    (forall c0 : ConstantRate.CharacterController R,
       exists e0 e,
         construct rnd aspect0 c0 = Some e0
         /\ performAll ks e0 = Some e
         /\ stage_matches_scene e)
    /\ (forall c0 : ExpChase.CharacterController R,
         exists e0 e,
           construct rnd aspect0 c0 = Some e0
           /\ performAll ks e0 = Some e
           /\ stage_matches_scene e).
Proof.
  intros rnd aspect0 ks. split; intros c0.
  - destruct (constantrate_in_tune_always rnd aspect0 c0 ks)
      as (e0 & e & H0 & He & _ & Hs & _).
    exists e0, e. split; [exact H0 |]. split; [exact He | exact Hs].
  - destruct (expchase_in_tune_always rnd aspect0 c0 ks)
      as (e0 & e & H0 & He & _ & Hs & _).
    exists e0, e. split; [exact H0 |]. split; [exact He | exact Hs].
Qed.

(** ** Rain *)

Lemma makeRain_length {A : Type} {N : JsNumber A} (rnd : nat -> A)
    (k n : nat) :
  List.length (makeRain rnd k n) = n.
Proof.
  revert k. induction n as [| n IH]; intros k; [reflexivity |].
  cbn [makeRain List.length]. rewrite IH. reflexivity.
Qed.

Lemma makeRain_box (rnd : nat -> R) (k n : nat) :
  (forall i, 0 <= rnd i < 1) -> Forall inRainBox (makeRain rnd k n).
Proof.
  intros Hr. revert k. induction n as [| n IH]; intros k; [constructor |].
  cbn [makeRain]. constructor; [| apply IH].
  pose proof (Hr k). pose proof (Hr (k + 1)%nat). pose proof (Hr (k + 2)%nat).
  unfold inRainBox. cbn. lra.
Qed.

Lemma Rltb_false (x y : R) : Rltb x y = false <-> y <= x.
Proof.
  unfold Rltb. destruct (Rlt_dec x y); split; intros; try easy; lra.
Qed.

Lemma fallRain_spec (rnd : nat -> R) (k : nat) (dt : R)
    (ps : list (Vector3 R)) :
  (forall i, 0 <= rnd i < 1) -> 0 <= dt -> Forall inRainBox ps ->
  List.length (fst (fallRain rnd k dt ps)) = List.length ps
  /\ Forall inRainBox (fst (fallRain rnd k dt ps))
  /\ snd (fallRain rnd k dt ps)
     = (k + 3 * List.length (fallen dt ps))%nat.
Proof.
  intros Hr Hdt Hps. revert k.
  induction Hps as [| p ps Hp Hps IH]; intros k.
  - cbn. repeat split; [constructor | lia].
  - cbn [fallRain fallen filter].
    change (ltb (sub (vy p) (mul rainSpeed dt)) (lit 0))
      with (Rltb (vy p - 9 * dt) 0).
    destruct (Rltb (vy p - 9 * dt) 0) eqn:E.
    + specialize (IH (k + 3)%nat). fold (fallen dt ps).
      destruct (fallRain rnd (k + 3) dt ps) as [r k'].
      cbn [fst snd] in *. destruct IH as (I1 & I2 & I3).
      cbn [List.length]. split; [lia |]. split; [| lia].
      constructor; [| exact I2].
      pose proof (Hr k). pose proof (Hr (k + 1)%nat).
      pose proof (Hr (k + 2)%nat).
      unfold inRainBox. cbn. lra.
    + specialize (IH k). fold (fallen dt ps).
      destruct (fallRain rnd k dt ps) as [r k'].
      cbn [fst snd] in *. destruct IH as (I1 & I2 & I3).
      cbn [List.length]. split; [lia |]. split; [| exact I3].
      constructor; [| exact I2].
      apply Rltb_false in E. destruct Hp as (Hx & Hy & Hz).
      unfold inRainBox. cbn. lra.
Qed.

(** The lightning step leaves the rain alone. *)
Lemma updateLightning_rain {A C : Type} {N : JsNumber A}
    {Api : CharacterApi A C} (dt : A) (e : Experience A C) :
  gidisRainGeometry (gidisObjs (updateLightning dt e))
    = gidisRainGeometry (gidisObjs e)
  /\ gidisRainPoints (gidisObjs (updateLightning dt e))
     = gidisRainPoints (gidisObjs e).
Proof.
  unfold updateLightning.
  destruct (gidisLightningLight (gidisObjs e)); [| split; reflexivity].
  destruct (gtb _ _); [split; reflexivity |].
  cbn. destruct (leb _ _); split; reflexivity.
Qed.

(** The rain created by the setup of Gidiş. *)
Lemma gidisRest_rain {C : Type} {Api : CharacterApi R C}
    (e : Experience R C) :
  gidisRainPoints (gidisObjs e) = None ->
  gidisRainGeometry (gidisObjs (gidisRest e))
  = Some (makeRain (random (world e)) (drawn (world e)) 1800).
Proof.
  intros Hrp.
  destruct e as [w cam ch u f rn idx prog lf isl g].
  destruct w as [sc bg pd ni rnd dr con sy].
  destruct g as [sun sl amb rg rm rp ll tm cd du].
  cbn in Hrp. subst rp.
  destruct sl, amb, ll; reflexivity.
Qed.

(** The rain of Gidiş stays in its box.  The setup creates 1800 drops
    with x in [-5,5), y in [3,11) and z in [-25,5).  A frame of
    non-negative length keeps the number of drops, lowers every drop by
    [9 * dt] and puts the drops that would go below the ground back at
    the top, so that afterwards every drop has x in [-5,5), y in [0,12)
    and z in [-25,5); each drop put back takes three draws of
    [Math.random()]. *)
Theorem rain_stays_in_its_box :
  forall (C : Type) (Api : CharacterApi R C) (e : Experience R C) (dt : R),
    (forall i, 0 <= random (world e) i < 1) ->
    0 <= dt ->
    (gidisRainPoints (gidisObjs e) = None ->
     exists ps0,
       gidisRainGeometry (gidisObjs (gidisRest e)) = Some ps0
       /\ List.length ps0 = 1800%nat
       /\ Forall inRainBox ps0
       /\ Forall (fun p => 3 <= vy p < 11) ps0)
    /\ (forall ps o,
          gidisRainGeometry (gidisObjs e) = Some ps ->
          gidisRainPoints (gidisObjs e) = Some o ->
          Forall inRainBox ps ->
          exists ps',
            gidisRainGeometry (gidisObjs (updateGidisEffects dt e)) = Some ps'
            /\ List.length ps' = List.length ps
            /\ Forall inRainBox ps'
            /\ drawn (world (updateRain dt e))
               = (drawn (world e) + 3 * List.length (fallen dt ps))%nat).
Proof.
  intros C Api e dt Hr Hdt. split.
  - intros Hrp. rewrite (gidisRest_rain e Hrp).
    eexists. split; [reflexivity |].
    split; [apply makeRain_length |]. split; [apply makeRain_box, Hr |].
    generalize (drawn (world e)). generalize 1800%nat.
    intros n. induction n as [| n IH]; intros k; [constructor |].
    cbn [makeRain]. constructor; [| apply IH].
    pose proof (Hr (k + 1)%nat). cbn. lra.
  - intros ps o Hg Hp Hbox.
    destruct (fallRain_spec (random (world e)) (drawn (world e)) dt ps
                Hr Hdt Hbox) as (F1 & F2 & F3).
    unfold updateGidisEffects.
    rewrite (proj1 (updateLightning_rain dt (updateRain dt e))).
    unfold updateRain. rewrite Hg, Hp.
    destruct (fallRain (random (world e)) (drawn (world e)) dt ps)
      as [ps' k'].
    cbn [fst snd] in F1, F2, F3.
    exists ps'. split; [reflexivity |]. split; [exact F1 |].
    split; [exact F2 |].
    cbn [setGidisRainGeometry withGidis withWorld world consume drawn].
    rewrite F3. lia.
Qed.

Lemma rain_stays_in_its_box_witness :
  (forall i, 0 <= random (world sampleExperience) i < 1)
  /\ 0 <= 1 / 60
  /\ exists ps0,
       gidisRainGeometry (gidisObjs (gidisRest sampleExperience)) = Some ps0
       /\ List.length ps0 = 1800%nat.
Proof.
  assert (H1 : forall i, 0 <= random (world sampleExperience) i < 1)
    by (intros i; cbn; lra).
  assert (H2 : 0 <= 1 / 60) by lra.
  split; [exact H1 |]. split; [exact H2 |].
  destruct (proj1 (rain_stays_in_its_box _ _ sampleExperience (1 / 60) H1 H2)
              eq_refl) as (ps0 & E & L & _).
  exists ps0. split; [exact E | exact L].
Defined.

(** ** A load that fails *)

Section FailedLoad.
Context {A : Type} {N : JsNumber A} {C : Type} {Api : CharacterApi A C}.
Let Exp : Type := Experience A C.

(** One frame leaves the environment fields and the loads in flight
    alone. *)
Lemma update_env (dt : A) (e e' : Exp) :
  update dt e = Some e' ->
  lif e' = lif e
  /\ pending (world e') = pending (world e)
  /\ currentSceneIndex e' = currentSceneIndex e.
Proof.
  unfold update. destruct (isRunning e); cbn [negb];
    [| intros [= <-]; repeat split].
  cbn [currentSceneIndex withCharacter].
  destruct (sceneAt (currentSceneIndex e)) as [def |]; [| discriminate].
  intros [= <-]. set (e0 := withCharacter _ e).
  destruct (SceneId_eqb (id def) gidis).
  - destruct (updateGidisEffects_frame dt e0) as (_ & H2 & H3 & H4 & _).
    unfold updateCameraFollow.
    cbn [lif world currentSceneIndex withCamera].
    rewrite H2, H3, H4. repeat split.
  - repeat split.
Qed.

Lemma resume_other_env (t : Task) (e : Exp) :
  taskScene t <> lifStreet ->
  lif (resume t e) = lif e
  /\ pending (world (resume t e)) = pending (world e)
  /\ currentSceneIndex (resume t e) = currentSceneIndex e.
Proof.
  intros Ht.
  destruct e as [w cam ch u f rn idx prog lf isl g].
  destruct t; cbn [taskScene] in Ht; try contradiction; cbn [resume].
  - repeat split.
  - destruct g as [sun sl amb rg rm rp ll tm cd du].
    destruct sl, amb, rp, ll; repeat split; reflexivity.
Qed.

Lemma lifSunMissing_perform (k : Command) (e e' : Exp) :
  consistent e -> lifSunMissing e -> perform k e = Some e' ->
  lifSunMissing e'.
Proof.
  intros Hc (M1 & M2 & M3 & M4 & M5). pose proof Hc as (_ & Hidx & _).
  destruct k as [[| p | dt | n | n] | dt |]; cbn [perform step].
  - unfold goToNextScene. cbn [currentSceneIndex withUi].
    destruct (Nat.leb_spec (List.length SCENES - 1) (currentSceneIndex e))
      as [Hlast | Hmore].
    + intros [= <-]. exact (conj M1 (conj M2 (conj M3 (conj M4 M5)))).
    + cbn in Hmore.
      destruct (sceneAt_in_range (S (currentSceneIndex e))) as [d1 Hd1];
        [cbn; lia |].
      destruct (applyCurrentScene_effect
                  (withIndex (S (currentSceneIndex e))
                     (withUi (ui_hideNextOverlay (uiController e)) e)) d1 Hd1)
        as (e1 & H1 & _ & H3 & _ & H5 & _ & _ & H8 & _).
      rewrite H1. intros [= <-].
      unfold lifSunMissing. rewrite H3, H5, H8, inFlight_app.
      cbn [currentSceneIndex withIndex withUi pending world lifSun
           lifSunLight lifSunPointLight].
      rewrite M2.
      assert (E : inFlight lifStreet (awaits (id d1)) = 0%nat).
      { destruct (currentSceneIndex e) as [| [| [| [| k]]]];
          try lia; cbn in Hd1; injection Hd1 as <-; reflexivity. }
      rewrite E. repeat split. lia.
  - unfold onScrollProgress.
    destruct (sceneAt (currentSceneIndex e)) as [def |]; [| discriminate].
    destruct (SceneId_eqb _ _); intros [= <-];
      exact (conj M1 (conj M2 (conj M3 (conj M4 M5)))).
  - intros H. destruct (update_env dt e e' H) as (E1 & E2 & E3).
    unfold lifSunMissing. rewrite E1, E2, E3.
    exact (conj M1 (conj M2 (conj M3 (conj M4 M5)))).
  - destruct (extract n (pending (world e))) as [[t rest] |] eqn:E;
      intros [= <-]; [| exact (conj M1 (conj M2 (conj M3 (conj M4 M5))))].
    destruct (extract_spec _ _ _ _ E) as (l1 & l2 & Hp & ->).
    assert (Ht : taskScene t <> lifStreet).
    { intros Ht. apply (inFlight_zero_notin _ _ t M2 Ht).
      rewrite Hp. apply in_elt. }
    destruct (resume_other_env t
                (withWorld (set_pending (l1 ++ l2) (world e)) e) Ht)
      as (E1 & E2 & E3).
    unfold lifSunMissing. rewrite E1, E2, E3.
    cbn [lif withWorld world set_pending pending currentSceneIndex].
    rewrite Hp, inFlight_remove in M2.
    repeat split; try assumption. lia.
  - destruct (extract n (pending (world e))) as [[t rest] |] eqn:E;
      intros [= <-]; [| exact (conj M1 (conj M2 (conj M3 (conj M4 M5))))].
    destruct (extract_spec _ _ _ _ E) as (l1 & l2 & Hp & ->).
    rewrite Hp, inFlight_remove in M2.
    destruct t; (split; [exact M1 |]);
      (split; [change (inFlight lifStreet (l1 ++ l2) = 0%nat); lia |]);
      exact (conj M3 (conj M4 M5)).
  - unfold start. destruct (isRunning e);
      [intros [= <-]; exact (conj M1 (conj M2 (conj M3 (conj M4 M5)))) |].
    destruct (update dt (withRunning true e)) as [e1 |] eqn:E; [| discriminate].
    intros [= <-]. destruct (update_env dt _ e1 E) as (E1 & E2 & E3).
    unfold lifSunMissing.
    cbn [log withWorld lif world emit pending currentSceneIndex].
    rewrite E1, E2, E3.
    exact (conj M1 (conj M2 (conj M3 (conj M4 M5)))).
  - intros [= <-]. exact (conj M1 (conj M2 (conj M3 (conj M4 M5)))).
Qed.

(** The state right after a load of Lif Sokak has failed. *)
Lemma lifSunMissing_rejected (e : Exp) (n : nat) (t : Task)
    (rest : list Task) :
  consistent e ->
  extract n (pending (world e)) = Some (t, rest) ->
  taskScene t = lifStreet ->
  lifSunMissing (rejected t (withWorld (set_pending rest (world e)) e)).
Proof.
  intros (_ & _ & L1 & _ & _ & L2 & L3 & _) E Ht.
  destruct (extract_spec _ _ _ _ E) as (l1 & l2 & Hp & ->).
  assert (Hin : In t (pending (world e))) by (rewrite Hp; apply in_elt).
  rewrite <- Ht in L1.
  destruct (taken_out 1 e l1 l2 t Hp L1) as [Hz Hk].
  rewrite Ht in Hz.
  assert (Hf : lifSun (lif e) = None /\ lifSunLight (lif e) = None
               /\ lifSunPointLight (lif e) = None).
  { destruct t; cbn in Ht; try discriminate Ht.
    - specialize (L2 Hin). unfold lifEmpty in L2.
      destruct (lifTribune (lif e)), (lifSun (lif e)),
        (lifSunLight (lif e)), (lifSunPointLight (lif e));
        cbn in L2; try discriminate L2; repeat split.
    - destruct (L3 Hin) as (H1 & H2 & H3). repeat split; assumption. }
  destruct Hf as (F1 & F2 & F3).
  destruct t; cbn in Ht; try discriminate Ht;
    (split; [exact Hk |]); (split; [exact Hz |]);
    exact (conj F1 (conj F2 F3)).
Qed.

(** A load of Lif Sokak that fails is never retried.  When the load of
    the tribune or of the sun fails, then, whatever happens afterwards,
    the sun, its point light and its directional light never come into
    being: the fields stay null, and the scene graph only holds the
    tribune (if it had arrived) and the objects of the later scenes. *)
Theorem failed_lif_load_is_never_retried :
  forall (e : Exp) (n : nat) (t : Task) (rest : list Task)
         (ks : list Command),
    consistent e ->
    extract n (pending (world e)) = Some (t, rest) ->
    taskScene t = lifStreet ->
    exists e1 e2,
      step (Reject n) e = Some e1
      /\ performAll ks e1 = Some e2
      /\ lifSun (lif e2) = None
      /\ lifSunLight (lif e2) = None
      /\ lifSunPointLight (lif e2) = None
      /\ forall o, In o (sceneChildren (world e2)) ->
           In o (opt_list (lifTribune (lif e2)) ++ yilRefs e2 ++ gidisRefs e2).
Proof.
  intros e n t rest ks Hc E Ht.
  destruct (consistent_step (Reject n) e Hc) as (e1 & H1 & Hc1).
  pose proof (lifSunMissing_rejected e n t rest Hc E Ht) as Hm.
  assert (E1 : e1 = rejected t (withWorld (set_pending rest (world e)) e)).
  { cbn [step] in H1. rewrite E in H1. injection H1 as <-. reflexivity. }
  rewrite <- E1 in Hm.
  destruct (performAll_keeps lifSunMissing lifSunMissing_perform ks e1 Hc1 Hm)
    as (e2 & H2 & Hc2 & (_ & _ & M3 & M4 & M5)).
  exists e1, e2. split; [exact H1 |]. split; [exact H2 |].
  split; [exact M3 |]. split; [exact M4 |]. split; [exact M5 |].
  intros o Ho. destruct Hc2 as (Hsub & _).
  specialize (Hsub o Ho). apply referenced_split in Hsub.
  rewrite !in_app_iff. unfold lifRefs in Hsub.
  rewrite M3, M4, M5 in Hsub. cbn [opt_list light_list] in Hsub.
  rewrite !in_app_iff in Hsub. cbn [In] in Hsub. tauto.
Qed.
End FailedLoad.

Lemma failed_lif_load_is_never_retried_witness :
  (consistent lifLoading
   /\ extract 0 (pending (world lifLoading)) = Some (LifAwaitTribune, [])
   /\ taskScene LifAwaitTribune = lifStreet)
  /\ exists e1 e2,
       step (Reject 0) lifLoading = Some e1
       /\ performAll [Handle ClickNext; Handle (Resolve 0)] e1 = Some e2
       /\ lifSun (lif e2) = None.
Proof.
  assert (H1 : consistent lifLoading).
  { unfold consistent, atMostOnce. cbn.
    split; [intros o [] |]. repeat split; try lia;
      try (intros [H | []]; discriminate H); intros []. }
  assert (H2 : extract 0 (pending (world lifLoading))
               = Some (LifAwaitTribune, [])) by reflexivity.
  split; [exact (conj H1 (conj H2 eq_refl)) |].
  destruct (failed_lif_load_is_never_retried lifLoading 0 LifAwaitTribune []
              [Handle ClickNext; Handle (Resolve 0)] H1 H2 eq_refl)
    as (e1 & e2 & E1 & E2 & E3 & _).
  exists e1, e2. split; [exact E1 |]. split; [exact E2 | exact E3].
Defined.

(** ** The text panel and the "next scene" popup *)

Lemma Rceil_bounds (x : R) : x <= Rceil x < x + 1.
Proof.
  unfold Rceil. rewrite opp_IZR.
  destruct (base_Int_part (- x)) as [H1 H2]. lra.
Qed.

(** An integer is below the ceiling of [x] exactly when it is below
    [x]. *)
Lemma lt_Rceil (i : nat) (x : R) : INR i < Rceil x <-> INR i < x.
Proof.
  pose proof (Rceil_bounds x) as [H1 H2]. split; intros H; [| lra].
  unfold Rceil in *. rewrite INR_IZR_INZ in *.
  apply lt_IZR in H.
  assert (H3 : (Z.of_nat i + 1 <= - Int_part (- x))%Z) by lia.
  apply IZR_le in H3. rewrite plus_IZR in H3. lra.
Qed.

(** The number of lines shown, as a test on the index of a line. *)
Lemma below_visibleCount (i n : nat) (c : R) :
  0 <= c <= 1 ->
  INR i < Rmax 1 (Rmin (INR n) (Rceil (c * INR n)))
  <-> i = 0%nat \/ INR i < c * INR n.
Proof.
  intros Hc.
  assert (Hn : 0 <= INR n) by apply pos_INR.
  assert (Hi : i = 0%nat \/ 1 <= INR i).
  { destruct i as [| i]; [left; reflexivity | right].
    rewrite S_INR. pose proof (pos_INR i). lra. }
  pose proof (lt_Rceil i (c * INR n)) as Hceil.
  unfold Rmax, Rmin.
  destruct (Rle_dec (INR n) (Rceil (c * INR n)));
    destruct (Rle_dec 1 _); split; intros H;
    destruct Hi as [-> | Hi]; try (left; reflexivity); try (cbn; lra);
    try (right; nra); try (destruct H as [H | H]; [subst; cbn in *; lra |]);
    try (apply Hceil in H; lra); try nra; try lra.
  all: try (right; apply Hceil; lra).
  all: try (apply Hceil; nra).
  all: try (apply Hceil in H; nra).
Qed.

Lemma reveal_texts {A : Type} {N : JsNumber A} (vc : A)
  (els : list UiControllerDom.Paragraph) (k : nat) :
  map UiControllerDom.textContent (UiControllerDom.reveal k vc els)
  = map UiControllerDom.textContent els.
Proof.
  revert k. induction els as [| el els IH]; intros k; cbn; [reflexivity |].
  now rewrite IH.
Qed.

Lemma reveal_nth {A : Type} {N : JsNumber A} (vc : A)
  (els : list UiControllerDom.Paragraph) (k i : nat)
  (el : UiControllerDom.Paragraph) :
  nth_error (UiControllerDom.reveal k vc els) i = Some el ->
  UiControllerDom.isVisible el = ltb (lit (INR (k + i))) vc.
Proof.
  revert k i. induction els as [| e els IH]; intros k i H.
  - destruct i; discriminate.
  - destruct i as [| i]; cbn in H.
    + injection H as <-. cbn. now rewrite Nat.add_0_r.
    + apply IH in H. now rewrite Nat.add_succ_r.
Qed.

Lemma setScene_showing {A : Type} {N : JsNumber A}
  (sc : UiSceneConfig) (u : UiControllerDom.UiController A) :
  showing sc (UiControllerDom.setScene sc u).
Proof.
  split; [reflexivity |]. cbn. rewrite map_map. cbn. apply map_id.
Qed.

(** Revealing lines: after [updateProgress p] the panel still holds the
    lines of the scene, and line [i] is shown exactly when it is the
    first one or [i < clamp p * lineCount]; the value kept is the clamped
    progress. *)
Theorem lines_revealed_by_progress (sc : UiSceneConfig)
  (u : UiControllerDom.UiController R) (p : R) :
  showing sc u ->
  texts sc <> [] ->
  let u' := UiControllerDom.updateProgress p u in
  let c := Rmin 1 (Rmax 0 p) in
  showing sc u'
  /\ UiControllerDom.lastProgress u' = c
  /\ forall i el,
       nth_error (UiControllerDom.panelChildren u') i = Some el ->
       (UiControllerDom.isVisible el = true
        <-> i = 0%nat \/ INR i < c * INR (List.length (texts sc))).
Proof.
  intros [Hsc Htx] Hne u' c.
  assert (Hc : 0 <= c <= 1).
  { unfold c, Rmin, Rmax.
    destruct (Rle_dec 0 p); destruct (Rle_dec 1 _); lra. }
  assert (Hlen : List.length (UiControllerDom.panelChildren u)
                 = List.length (texts sc)).
  { rewrite <- Htx. now rewrite length_map. }
  assert (Hpos : List.length (texts sc) <> 0%nat).
  { destruct (texts sc); [congruence | discriminate]. }
  unfold u', UiControllerDom.updateProgress. rewrite Hsc. cbn zeta.
  cbn [UiControllerDom.panelChildren]. rewrite Hlen.
  destruct (Nat.eqb_spec (List.length (texts sc)) 0) as [E | _]; [contradiction |].
  cbn [orb].
  unfold UiControllerDom.updateNextOverlay.
  cbn [UiControllerDom.currentScene].
  change (Math_min (lit 1) (Math_max (lit 0) p)) with c.
  assert (Hvis : forall i el,
    nth_error
      (UiControllerDom.reveal 0
         (Math_max (lit 1)
            (Math_min (lit (INR (List.length (texts sc))))
               (Math_ceil (mul c (lit (INR (List.length (texts sc))))))))
         (UiControllerDom.panelChildren u)) i = Some el ->
    UiControllerDom.isVisible el = true
    <-> i = 0%nat \/ INR i < c * INR (List.length (texts sc))).
  { intros i el H. apply reveal_nth in H. rewrite H. cbn [Nat.add].
    rewrite <- (below_visibleCount i _ c Hc).
    cbn. unfold Rltb.
    destruct (Rlt_dec _ _); split; intros; try discriminate;
      try reflexivity; try assumption; contradiction. }
  destruct (andb _ _); unfold showing, UiControllerDom.hideNextOverlay;
    cbn [UiControllerDom.currentScene UiControllerDom.panelChildren
         UiControllerDom.lastProgress];
    (split; [split; [reflexivity |] | split; [reflexivity | exact Hvis]]);
    rewrite reveal_texts; exact Htx.
Qed.

Lemma lines_revealed_by_progress_witness :
  exists sc u,
    showing sc u /\ texts sc <> []
    /\ map UiControllerDom.isVisible
         (UiControllerDom.panelChildren
            (UiControllerDom.updateProgress (1 / 2) u))
       = [true; true; false; false].
Proof.
  set (sc := Experience.mkUi "t"%string
               ["a"; "b"; "c"; "d"]%string (Some "n"%string)).
  set (u0 := {| UiControllerDom.panelChildren := [];
                UiControllerDom.panelDisplay := ""%string;
                UiControllerDom.overlayHidden := true;
                UiControllerDom.overlayActive := false;
                UiControllerDom.nextTitleText := ""%string;
                UiControllerDom.currentScene := None;
                UiControllerDom.lastProgress := 0 |}
             : UiControllerDom.UiController R).
  exists sc, (UiControllerDom.setScene sc u0).
  assert (Hs : showing sc (UiControllerDom.setScene sc u0))
    by apply setScene_showing.
  assert (Hne : texts sc <> []) by discriminate.
  split; [exact Hs |]. split; [exact Hne |].
  destruct (lines_revealed_by_progress sc _ (1 / 2) Hs Hne)
    as [[_ Htx] [_ Hvis]].
  set (u' := UiControllerDom.updateProgress (1 / 2)
               (UiControllerDom.setScene sc u0)) in *.
  assert (Hc : Rmin 1 (Rmax 0 (1 / 2)) = 1 / 2).
  { unfold Rmin, Rmax. destruct (Rle_dec 0 (1 / 2));
      destruct (Rle_dec 1 _); lra. }
  rewrite Hc in Hvis.
  destruct (UiControllerDom.panelChildren u')
    as [| e0 [| e1 [| e2 [| e3 [| e4 l]]]]]; try discriminate Htx.
  pose proof (Hvis 0%nat e0 eq_refl) as H0.
  pose proof (Hvis 1%nat e1 eq_refl) as H1.
  pose proof (Hvis 2%nat e2 eq_refl) as H2.
  pose proof (Hvis 3%nat e3 eq_refl) as H3.
  cbn in H0, H1, H2, H3 |- *.
  assert (E0 : UiControllerDom.isVisible e0 = true)
    by (apply H0; left; reflexivity).
  assert (E1 : UiControllerDom.isVisible e1 = true)
    by (apply H1; right; lra).
  assert (E2 : UiControllerDom.isVisible e2 = false).
  { destruct (UiControllerDom.isVisible e2); [| reflexivity].
    destruct (proj1 H2 eq_refl) as [E | E]; [discriminate | lra]. }
  assert (E3 : UiControllerDom.isVisible e3 = false).
  { destruct (UiControllerDom.isVisible e3); [| reflexivity].
    destruct (proj1 H3 eq_refl) as [E | E]; [discriminate | lra]. }
  now rewrite E0, E1, E2, E3.
Defined.

Lemma reveal_NaN (els : list UiControllerDom.Paragraph) (k : nat) :
  Forall (fun el => UiControllerDom.isVisible el = false)
    (UiControllerDom.reveal k NaN els).
Proof.
  revert k. induction els as [| el els IH]; intros k; cbn; constructor;
    [reflexivity | apply IH].
Qed.

(** A progress that is NaN hides every line, the first one too, and the
    popup; NaN is what remains as the last progress. *)
Theorem NaN_progress_hides_every_line (sc : UiSceneConfig)
  (u : UiControllerDom.UiController jsnum) :
  showing sc u ->
  texts sc <> [] ->
  let u' := UiControllerDom.updateProgress NaN u in
  showing sc u'
  /\ Forall (fun el => UiControllerDom.isVisible el = false)
       (UiControllerDom.panelChildren u')
  /\ UiControllerDom.overlayActive u' = false
  /\ UiControllerDom.overlayHidden u' = true
  /\ UiControllerDom.lastProgress u' = NaN.
Proof.
  intros [Hsc Htx] Hne u'.
  assert (Hlen : List.length (UiControllerDom.panelChildren u)
                 = List.length (texts sc)).
  { rewrite <- Htx. now rewrite length_map. }
  assert (Hpos : List.length (texts sc) <> 0%nat).
  { destruct (texts sc); [congruence | discriminate]. }
  unfold u', UiControllerDom.updateProgress. rewrite Hsc. cbn zeta.
  cbn [UiControllerDom.panelChildren]. rewrite Hlen.
  destruct (Nat.eqb_spec (List.length (texts sc)) 0) as [E | _]; [contradiction |].
  cbn [orb].
  unfold UiControllerDom.updateNextOverlay.
  cbn [UiControllerDom.currentScene].
  change (Math_min (lit 1) (Math_max (lit 0) NaN)) with NaN.
  change (geb NaN (lit 0.98)) with false. cbn [andb].
  change (Math_max (lit 1)
            (Math_min (lit (INR (List.length (texts sc))))
               (Math_ceil (mul NaN (lit (INR (List.length (texts sc))))))))
    with NaN.
  unfold showing, UiControllerDom.hideNextOverlay;
    cbn [UiControllerDom.currentScene UiControllerDom.panelChildren
         UiControllerDom.lastProgress UiControllerDom.overlayActive
         UiControllerDom.overlayHidden].
  split; [split; [reflexivity | rewrite reveal_texts; exact Htx] |].
  split; [apply reveal_NaN |]. repeat split.
Qed.

Lemma NaN_progress_hides_every_line_witness :
  exists sc u,
    showing sc u /\ texts sc <> []
    /\ Forall (fun el => UiControllerDom.isVisible el = false)
         (UiControllerDom.panelChildren
            (UiControllerDom.updateProgress NaN u)).
Proof.
  set (sc := Experience.mkUi "t"%string ["a"; "b"]%string None).
  set (u0 := {| UiControllerDom.panelChildren := [];
                UiControllerDom.panelDisplay := ""%string;
                UiControllerDom.overlayHidden := true;
                UiControllerDom.overlayActive := false;
                UiControllerDom.nextTitleText := ""%string;
                UiControllerDom.currentScene := None;
                UiControllerDom.lastProgress := Fin 0 |}
             : UiControllerDom.UiController jsnum).
  exists sc, (UiControllerDom.setScene sc u0).
  assert (Hs : showing sc (UiControllerDom.setScene sc u0))
    by apply setScene_showing.
  assert (Hne : texts sc <> []) by discriminate.
  split; [exact Hs |]. split; [exact Hne |].
  exact (proj1 (proj2 (NaN_progress_hides_every_line sc _ Hs Hne))).
Defined.

(** The summary of the controller that [Experience] works with is what
    the page-level controller does. *)
Lemma ui_summary_agrees {A : Type} {N : JsNumber A} {Cl : JsCeil A}
  (u : UiControllerDom.UiController A) (sc : UiSceneConfig) (p : A)
  (v : bool) :
  UiControllerDom.summary (UiControllerDom.setScene sc u)
  = ui_setScene sc (UiControllerDom.summary u)
  /\ UiControllerDom.summary (UiControllerDom.updateProgress p u)
     = ui_updateProgress p (UiControllerDom.summary u)
  /\ UiControllerDom.summary (UiControllerDom.setPanelVisible v u)
     = ui_setPanelVisible v (UiControllerDom.summary u)
  /\ UiControllerDom.summary (UiControllerDom.hideNextOverlay u)
     = ui_hideNextOverlay (UiControllerDom.summary u).
Proof.
  split; [reflexivity |]. split; [| split; [| reflexivity]].
  - unfold UiControllerDom.updateProgress, ui_updateProgress,
      UiControllerDom.summary, UiControllerDom.updateNextOverlay.
    cbn [currentScene UiControllerDom.currentScene].
    destruct (UiControllerDom.currentScene u) as [scn |] eqn:E;
      [| now rewrite E].
    cbn zeta. cbn [UiControllerDom.panelChildren].
    destruct (_ || _); cbn [UiControllerDom.currentScene];
      destruct (_ && _); reflexivity.
  - unfold UiControllerDom.summary, ui_setPanelVisible. cbn.
    now destruct v.
Qed.

(** ** The final choice *)

Section FinalFacts.
Import FinalChoiceControllerDom.

Lemma celebrations_bounded_handle {A : Type} {N : JsNumber A}
  (ev : Event A) (shows : nat) (f : FinalChoiceController A) :
  celebrations_bounded shows f ->
  celebrations_bounded (shows + (if isShow ev then 1 else 0))
    (handle ev f).
Proof.
  intros H. pose proof H as (Ha & Hb & Hc & Hd).
  destruct ev as [vp rx ry ap | | | vp rx ry | vp rx ry]; cbn [handle isShow].
  - unfold show, resetNegativeButtonPosition, withPosition,
      celebrations_bounded. cbn.
    split; [exact Ha |]. split.
    + destruct (isActive f && negb (hasCelebrated f)); lia.
    + split; [intros _; split; reflexivity | discriminate].
  - unfold hide, celebrations_bounded. cbn.
    split; [exact Ha |]. split.
    + destruct (isActive f && negb (hasCelebrated f)); lia.
    + split; [discriminate | exact Hd].
  - unfold onPositiveClick.
    destruct (isActive f) eqn:Ea; destruct (hasCelebrated f) eqn:Eh; cbn.
    + unfold celebrations_bounded. rewrite Ea, Eh. cbn.
      repeat split; try apply Hc; try apply Hd; try reflexivity;
        try exact Ha. cbn in Hb. lia.
    + unfold startCelebration, celebrations_bounded. cbn.
      rewrite Ea. rewrite length_app. cbn. cbn in Hb.
      repeat split; try (apply Hc; reflexivity); lia.
    + unfold celebrations_bounded. rewrite Ea, Eh. cbn.
      repeat split; try apply Hd; try reflexivity; try exact Ha;
        try discriminate. cbn in Hb. lia.
    + unfold celebrations_bounded. rewrite Ea, Eh. cbn.
      repeat split; try discriminate; try exact Ha. cbn in Hb. lia.
  - unfold onNegativeMouseEnter. rewrite Nat.add_0_r. clear Ha Hb Hc Hd.
    destruct (negb (isActive f)); exact H.
  - unfold onNegativeMouseMove. rewrite Nat.add_0_r. clear Ha Hb Hc Hd.
    destruct (negb (isActive f)); exact H.
Qed.

Lemma celebrations_bounded_run {A : Type} {N : JsNumber A}
  (evs : list (Event A)) (shows : nat) (f : FinalChoiceController A) :
  celebrations_bounded shows f ->
  celebrations_bounded (shows + List.length (filter isShow evs))
    (run evs f).
Proof.
  revert shows f. induction evs as [| ev evs IH]; intros shows f H.
  - cbn. now rewrite Nat.add_0_r.
  - cbn [run fold_left]. apply (celebrations_bounded_handle ev) in H.
    apply IH in H. cbn [filter].
    destruct (isShow ev); cbn [List.length] in *.
    + now replace (shows + S (List.length (filter isShow evs)))%nat
        with (shows + 1 + List.length (filter isShow evs))%nat by lia.
    + now rewrite Nat.add_0_r in H.
Qed.
End FinalFacts.

(** The celebration starts at most once for each time the overlay is
    shown: after any events on a newly constructed controller, the
    celebrations logged - as many as the animations started - are no
    more than the calls of [show]; and while [hasCelebrated] holds the
    celebration classes are set. *)
Theorem celebration_at_most_once_per_show {A : Type} {N : JsNumber A}
  (page : FinalChoiceControllerDom.Page A)
  (f0 : FinalChoiceControllerDom.FinalChoiceController A)
  (evs : list (FinalChoiceControllerDom.Event A)) :
  FinalChoiceControllerDom.construct page = inl f0 ->
  let f := FinalChoiceControllerDom.run evs f0 in
  (List.length (FinalChoiceControllerDom.console f)
   <= List.length (filter FinalChoiceControllerDom.isShow evs))%nat
  /\ FinalChoiceControllerDom.animations f
     = List.length (FinalChoiceControllerDom.console f)
  /\ (FinalChoiceControllerDom.hasCelebrated f = true ->
      FinalChoiceControllerDom.rootCelebrate f = true
      /\ FinalChoiceControllerDom.celebrationActive f = true
      /\ FinalChoiceControllerDom.celebrationHidden f = false)
  /\ (FinalChoiceControllerDom.isActive f = true ->
      FinalChoiceControllerDom.rootActive f = true
      /\ FinalChoiceControllerDom.rootHidden f = false).
Proof.
  intros Hc f.
  assert (H0 : celebrations_bounded 0 f0).
  { unfold FinalChoiceControllerDom.construct in Hc.
    destruct (FinalChoiceControllerDom.final_choice_overlay page)
      as [[[h a] c] |]; [| discriminate].
    destruct (FinalChoiceControllerDom.final_choice_positive page);
      [| discriminate].
    destruct (FinalChoiceControllerDom.final_choice_negative page)
      as [[l t] |]; [| discriminate].
    destruct (FinalChoiceControllerDom.final_celebration page)
      as [[ch ca] |]; [| discriminate].
    injection Hc as <-. unfold celebrations_bounded. cbn.
    repeat split; try discriminate; lia. }
  apply (celebrations_bounded_run evs) in H0.
  destruct H0 as (Ha & Hb & Hc' & Hd). fold f in Ha, Hb, Hc', Hd.
  cbn [Nat.add] in Hb.
  split; [| split; [exact Ha | split; [exact Hd | exact Hc']]].
  destruct (FinalChoiceControllerDom.isActive f
            && negb (FinalChoiceControllerDom.hasCelebrated f)); lia.
Qed.

Lemma celebration_at_most_once_per_show_witness :
  exists (page : FinalChoiceControllerDom.Page R) f0 evs,
    FinalChoiceControllerDom.construct page = inl f0
    /\ (List.length
          (FinalChoiceControllerDom.console
             (FinalChoiceControllerDom.run evs f0))
        <= List.length (filter FinalChoiceControllerDom.isShow evs))%nat.
Proof.
  set (page := FinalChoiceControllerDom.mkPage
                 (Some (true, false, false)) (Some tt)
                 (Some (@None R, @None R)) (Some (true, false)) None).
  set (vp := FinalChoiceControllerDom.mkViewport 1280 720 120 40).
  destruct (FinalChoiceControllerDom.construct page) as [f0 | msg] eqn:E;
    [| discriminate E].
  exists page, f0,
    [FinalChoiceControllerDom.Show vp (1 / 2) (1 / 2) true;
     FinalChoiceControllerDom.PositiveClick;
     FinalChoiceControllerDom.PositiveClick;
     FinalChoiceControllerDom.Hide;
     FinalChoiceControllerDom.PositiveClick].
  split; [exact E |].
  exact (proj1 (celebration_at_most_once_per_show page f0 _ E)).
Defined.

(** While the overlay is active, the button that evades the pointer
    stays inside the window, 20 px or more from its left and top edge,
    provided the button fits into the window with that margin. *)
Theorem evading_button_stays_on_screen
  (vp : FinalChoiceControllerDom.Viewport R) (rx ry : R)
  (f : FinalChoiceControllerDom.FinalChoiceController R) :
  roomy vp -> unit_draw rx -> unit_draw ry ->
  FinalChoiceControllerDom.isActive f = true ->
  onScreen 20 vp (FinalChoiceControllerDom.onNegativeMouseEnter vp rx ry f)
  /\ onScreen 20 vp
       (FinalChoiceControllerDom.onNegativeMouseMove vp rx ry f).
Proof.
  intros (Hw & Hh & Hw0 & Hh0) Hx Hy Ha.
  unfold FinalChoiceControllerDom.onNegativeMouseEnter,
    FinalChoiceControllerDom.onNegativeMouseMove. rewrite Ha. cbn [negb].
  unfold unit_draw in *.
  assert (H : onScreen 20 vp (FinalChoiceControllerDom.evade vp rx ry f)).
  { unfold onScreen, FinalChoiceControllerDom.evade,
      FinalChoiceControllerDom.withPosition.
    cbn [FinalChoiceControllerDom.negativeLeft
         FinalChoiceControllerDom.negativeTop].
    eexists; eexists. split; [reflexivity |]. split; [reflexivity |].
    cbn. repeat split; nra. }
  split; exact H.
Qed.

Lemma evading_button_stays_on_screen_witness :
  exists (vp : FinalChoiceControllerDom.Viewport R)
         (f : FinalChoiceControllerDom.FinalChoiceController R),
    roomy vp /\ FinalChoiceControllerDom.isActive f = true
    /\ onScreen 20 vp
         (FinalChoiceControllerDom.onNegativeMouseMove vp (1 / 2) (1 / 4) f).
Proof.
  set (vp := FinalChoiceControllerDom.mkViewport 1280 720 120 40).
  set (f := FinalChoiceControllerDom.show vp 0 0 true
              {| FinalChoiceControllerDom.rootHidden := true;
                 FinalChoiceControllerDom.rootActive := false;
                 FinalChoiceControllerDom.rootCelebrate := false;
                 FinalChoiceControllerDom.celebrationHidden := true;
                 FinalChoiceControllerDom.celebrationActive := false;
                 FinalChoiceControllerDom.musicEl := None;
                 FinalChoiceControllerDom.negativeLeft := None;
                 FinalChoiceControllerDom.negativeTop := None;
                 FinalChoiceControllerDom.isActive := false;
                 FinalChoiceControllerDom.hasCelebrated := false;
                 FinalChoiceControllerDom.animations := 0;
                 FinalChoiceControllerDom.console := [] |}).
  assert (Hr : roomy vp) by (unfold roomy; cbn; lra).
  assert (Hx : unit_draw (1 / 2)) by (unfold unit_draw; lra).
  assert (Hy : unit_draw (1 / 4)) by (unfold unit_draw; lra).
  exists vp, f. split; [exact Hr |]. split; [reflexivity |].
  exact (proj2 (evading_button_stays_on_screen vp _ _ f Hr Hx Hy eq_refl)).
Defined.

(** Where [show] puts the button.  With 100 px or more of room beyond
    the margin in both directions it lies inside the window, 50 px or
    more from the left and top edge.  In a window so narrow that the
    room is below 50 px, some value of [Math.random()] puts its left
    edge outside the window. *)
Theorem shown_button_position
  (vp : FinalChoiceControllerDom.Viewport R) (ry : R) (autoplay : bool)
  (f : FinalChoiceControllerDom.FinalChoiceController R) :
  let maxX := FinalChoiceControllerDom.innerWidth vp
              - FinalChoiceControllerDom.offsetWidth vp - 20 in
  let maxY := FinalChoiceControllerDom.innerHeight vp
              - FinalChoiceControllerDom.offsetHeight vp - 20 in
  (forall rx, unit_draw rx -> unit_draw ry ->
      100 <= maxX -> 100 <= maxY ->
      onScreen 50 vp (FinalChoiceControllerDom.show vp rx ry autoplay f))
  /\ (maxX < 50 ->
      exists rx x,
        unit_draw rx
        /\ FinalChoiceControllerDom.negativeLeft
             (FinalChoiceControllerDom.show vp rx ry autoplay f) = Some x
        /\ x < 0).
Proof.
  intros maxX maxY. split.
  - intros rx Hx Hy HX HY. unfold unit_draw in *.
    unfold onScreen, FinalChoiceControllerDom.show,
      FinalChoiceControllerDom.resetNegativeButtonPosition,
      FinalChoiceControllerDom.withPosition.
    cbn [FinalChoiceControllerDom.negativeLeft
         FinalChoiceControllerDom.negativeTop].
    eexists; eexists. split; [reflexivity |]. split; [reflexivity |].
    subst maxX maxY. cbn. repeat split; nra.
  - intros HX.
    exists ((50 / (100 - maxX) + 1) / 2). eexists.
    assert (Hd : 0 < 100 - maxX) by lra.
    assert (Hq : 50 / (100 - maxX) < 1).
    { apply Rmult_lt_reg_r with (100 - maxX); [exact Hd |].
      unfold Rdiv. rewrite Rmult_assoc, Rinv_l by lra. lra. }
    assert (Hq0 : 0 < 50 / (100 - maxX)).
    { apply Rdiv_lt_0_compat; lra. }
    split; [unfold unit_draw; lra |]. split; [reflexivity |].
    cbn. fold maxX.
    set (q := 50 / (100 - maxX)) in *.
    assert (Hqe : q * (100 - maxX) = 50).
    { unfold q, Rdiv. rewrite Rmult_assoc, Rinv_l by lra. lra. }
    nra.
Qed.

Lemma shown_button_position_witness :
  onScreen 50 (FinalChoiceControllerDom.mkViewport 1280 720 120 40)
    (FinalChoiceControllerDom.show
       (FinalChoiceControllerDom.mkViewport 1280 720 120 40)
       (1 / 2) (1 / 4) true
       {| FinalChoiceControllerDom.rootHidden := true;
          FinalChoiceControllerDom.rootActive := false;
          FinalChoiceControllerDom.rootCelebrate := false;
          FinalChoiceControllerDom.celebrationHidden := true;
          FinalChoiceControllerDom.celebrationActive := false;
          FinalChoiceControllerDom.musicEl := None;
          FinalChoiceControllerDom.negativeLeft := None;
          FinalChoiceControllerDom.negativeTop := None;
          FinalChoiceControllerDom.isActive := false;
          FinalChoiceControllerDom.hasCelebrated := false;
          FinalChoiceControllerDom.animations := 0;
          FinalChoiceControllerDom.console := [] |}).
Proof.
  apply (proj1 (shown_button_position
                  (FinalChoiceControllerDom.mkViewport 1280 720 120 40)
                  (1 / 4) true _) (1 / 2)).
  - unfold unit_draw; lra.
  - unfold unit_draw; lra.
  - cbn; lra.
  - cbn; lra.
Defined.

(** The summary of the controller that [Experience] works with is what
    the page-level controller does. *)
Lemma final_summary_agrees {A : Type} {N : JsNumber A}
  (f : FinalChoiceControllerDom.FinalChoiceController A)
  (vp : FinalChoiceControllerDom.Viewport A) (rx ry : A) (ap : bool) :
  FinalChoiceControllerDom.summary
    (FinalChoiceControllerDom.show vp rx ry ap f)
  = final_show (FinalChoiceControllerDom.summary f)
  /\ FinalChoiceControllerDom.summary (FinalChoiceControllerDom.hide f)
     = final_hide (FinalChoiceControllerDom.summary f).
Proof. split; reflexivity. Qed.

(** ** Scroll progress *)

Lemma existsb_fresh (fn : nat) (l : list nat) :
  Forall (fun g => (g < fn)%nat) l -> existsb (Nat.eqb fn) l = false.
Proof.
  induction 1 as [| g l Hg _ IH]; cbn; [reflexivity |].
  rewrite IH. destruct (Nat.eqb_spec fn g); [lia | reflexivity].
Qed.

Section DirectScroll.
Context {A : Type} {N : JsNumber A} {S : Type} (callback : A -> S -> S).
Import ScrollControllerDirect.

Lemma runHandleScroll_report (c : ScrollController A)
  (w : Browser.Window A) (s : S) :
  runHandleScroll callback c w s
  = callback (report (maxScroll c) (Browser.scrollY w)) s.
Proof.
  unfold runHandleScroll, report. now destruct (leb _ _).
Qed.

Lemma dispose_not_listening (c : ScrollController A)
  (w : Browser.Window A) :
  listening callback c (dispose c w) false.
Proof.
  intros w' s Hw. unfold dispatchScroll. rewrite Hw.
  unfold dispose, Browser.removeEventListener. cbn.
  induction (Browser.scrollListeners w) as [| g l IH] in s |- *;
    [reflexivity |].
  cbn. destruct (Nat.eqb_spec (handleScroll c) g) as [E | E]; cbn.
  - apply IH.
  - destruct (Nat.eqb_spec g (handleScroll c)); [congruence | apply IH].
Qed.

Lemma run_direct (c : ScrollController A) (evs : list (Event A))
  (ws : Browser.Window A * S) (b : bool) :
  listening callback c (fst ws) b ->
  snd (run callback c evs ws)
  = fold_left (fun s y => callback (report (maxScroll c) y) s)
      (if b then heard evs else []) (snd ws).
Proof.
  revert ws b. induction evs as [| ev evs IH]; intros [w s] b Hl.
  - now destruct b.
  - change (run callback c (ev :: evs) (w, s))
      with (run callback c evs (step callback c ev (w, s))).
    cbn [fst snd] in *.
    destruct ev as [y | ih sh |]; cbn [step heard].
    + rewrite (IH _ b)
        by (intros w' s' Hw; apply Hl; rewrite Hw; reflexivity).
      cbn [fst snd].
      rewrite (Hl (Browser.scrolledTo y w) s eq_refl).
      destruct b; [| reflexivity].
      rewrite runHandleScroll_report. reflexivity.
    + rewrite (IH _ b)
        by (intros w' s' Hw; apply Hl; rewrite Hw; reflexivity).
      destruct b; reflexivity.
    + rewrite (IH _ false) by apply dispose_not_listening.
      now destruct b.
Qed.
End DirectScroll.

(** The direct ScrollController reports [scrollY / maxScroll], or 0 when
    [maxScroll <= 0], with the [maxScroll] measured by the constructor:
    once from the constructor itself, then once for every scroll until
    [dispose]; a later layout does not change the divisor, and nothing
    is reported after [dispose]. *)
Theorem direct_scroll_reports {A : Type} {N : JsNumber A} {S : Type}
  (callback : A -> S -> S) (w0 : Browser.Window A) (s0 : S)
  (evs : list (ScrollControllerDirect.Event A)) :
  listeners_known w0 ->
  let c := fst (fst (ScrollControllerDirect.construct callback w0 s0)) in
  let w1 := snd (fst (ScrollControllerDirect.construct callback w0 s0)) in
  let s1 := snd (ScrollControllerDirect.construct callback w0 s0) in
  let m := sub (Browser.scrollHeight w0) (Browser.innerHeight w0) in
  ScrollControllerDirect.maxScroll c = m
  /\ snd (ScrollControllerDirect.run callback c evs (w1, s1))
     = fold_left
         (fun s y => callback (ScrollControllerDirect.report m y) s)
         (Browser.scrollY w0 :: ScrollControllerDirect.heard evs) s0.
Proof.
  intros Hk c w1 s1 m. split; [reflexivity |].
  assert (Hl : listening callback c w1 true).
  { intros w' s Hw. unfold ScrollControllerDirect.dispatchScroll.
    rewrite Hw. unfold w1, ScrollControllerDirect.construct. cbn [fst snd].
    unfold Browser.addEventListener.
    cbn [Browser.scrollListeners Browser.setBodyHeight Browser.newFunction].
    rewrite (existsb_fresh _ _ Hk).
    cbn [Browser.scrollListeners Browser.withListeners].
    rewrite fold_left_app. cbn [fold_left].
    change (ScrollControllerDirect.handleScroll c)
      with (Browser.functions w0).
    rewrite Nat.eqb_refl.
    f_equal. unfold listeners_known in Hk.
    induction Hk as [| g l Hg _ IH] in s |- *; [reflexivity |].
    cbn. destruct (Nat.eqb_spec g (Browser.functions w0)); [lia |].
    apply IH. }
  rewrite (run_direct callback c evs (w1, s1) true Hl).
  cbn [snd].
  cbn [fold_left]. f_equal.
  unfold s1, ScrollControllerDirect.construct. cbn [snd].
  rewrite runHandleScroll_report.
  unfold Browser.addEventListener.
  cbn [Browser.scrollListeners Browser.setBodyHeight Browser.newFunction].
  rewrite (existsb_fresh _ _ Hk). reflexivity.
Qed.

Lemma direct_scroll_reports_witness :
  listeners_known sampleWindow
  /\ snd (ScrollControllerDirect.run record_progress
            (fst (fst (ScrollControllerDirect.construct record_progress
                         sampleWindow [])))
            [ScrollControllerDirect.ScrollTo 1600;
             ScrollControllerDirect.LaidOut 1600 4000;
             ScrollControllerDirect.ScrollTo 2400;
             ScrollControllerDirect.Dispose;
             ScrollControllerDirect.ScrollTo 3200]
            (snd (fst (ScrollControllerDirect.construct record_progress
                         sampleWindow [])),
             snd (ScrollControllerDirect.construct record_progress
                    sampleWindow [])))
     = [ScrollControllerDirect.report (4000 - 800) 0;
        ScrollControllerDirect.report (4000 - 800) 1600;
        ScrollControllerDirect.report (4000 - 800) 2400].
Proof.
  assert (Hk : listeners_known sampleWindow) by constructor.
  split; [exact Hk |].
  exact (proj2 (direct_scroll_reports record_progress sampleWindow []
                  [ScrollControllerDirect.ScrollTo 1600;
                   ScrollControllerDirect.LaidOut 1600 4000;
                   ScrollControllerDirect.ScrollTo 2400;
                   ScrollControllerDirect.Dispose;
                   ScrollControllerDirect.ScrollTo 3200] Hk)).
Defined.

Section SmoothScroll.
Context {A : Type} {N : JsNumber A} {S : Type}
  (onProgressChange : A -> S -> S).
Import ScrollControllerSmooth.

Lemma calculateProgress_boundSince (w : Browser.Window A)
  (cs : ScrollController A * S) :
  boundSince (fst (calculateProgress onProgressChange w cs))
  = boundSince (fst cs).
Proof.
  destruct cs as [c s]. unfold calculateProgress.
  destruct (leb _ _); [reflexivity |]. cbn zeta.
  cbn [isSmoothing withTarget].
  destruct (isSmoothing c); reflexivity.
Qed.

Lemma dispatchScroll_still_bound (w0 w w' : Browser.Window A)
  (c : ScrollController A) (s : S) :
  listeners_known w0 -> still_bound w0 c w ->
  Browser.scrollListeners w' = Browser.scrollListeners w ->
  dispatchScroll onProgressChange w' (c, s)
  = calculateProgress onProgressChange w' (c, s).
Proof.
  intros Hk (Hl & Hb & _) Hw. unfold dispatchScroll. rewrite Hw, Hl.
  rewrite fold_left_app. cbn [fold_left].
  assert (E : fold_left
                (fun cs fn =>
                   if Nat.leb (boundSince (fst cs)) fn
                   then onScroll onProgressChange w' cs else cs)
                (Browser.scrollListeners w0) (c, s) = (c, s)).
  { unfold listeners_known in Hk. clear Hl Hw.
    induction Hk as [| g l Hg _ IH]; [reflexivity |].
    cbn [fold_left fst]. rewrite Hb.
    destruct (Nat.leb_spec (Browser.functions w0) g); [lia | exact IH]. }
  rewrite E. cbn [fst]. rewrite Hb, Nat.leb_refl. reflexivity.
Qed.

Lemma dispose_still_bound (w0 w : Browser.Window A)
  (c : ScrollController A) :
  listeners_known w0 -> still_bound w0 c w -> still_bound w0 c (dispose w).
Proof.
  intros Hk (Hl & Hb & Hf). unfold still_bound, dispose.
  cbn [Browser.scrollListeners Browser.removeEventListener
       Browser.withListeners Browser.newFunction Browser.functions].
  split; [| split; [exact Hb | lia]].
  rewrite Hl. rewrite filter_app. cbn [filter].
  destruct (Nat.eqb_spec (Browser.functions w) (Browser.functions w0));
    [lia |]. cbn [negb]. f_equal.
  unfold listeners_known in Hk. clear Hl.
  induction Hk as [| g l Hg _ IH]; [reflexivity |].
  cbn [filter].
  destruct (Nat.eqb_spec (Browser.functions w) g); [lia |].
  cbn [negb]. now rewrite IH.
Qed.

Lemma step_still_bound (w0 : Browser.Window A) (ev : Event A)
  (st : ScrollController A * Browser.Window A * S) :
  listeners_known w0 ->
  still_bound w0 (fst (fst st)) (snd (fst st)) ->
  still_bound w0 (fst (fst (step onProgressChange ev st)))
    (snd (fst (step onProgressChange ev st))).
Proof.
  intros Hk H. destruct st as [[c w] s]. cbn [fst snd] in H.
  destruct ev as [y | ih sh | v | b | p |]; cbn [step].
  - rewrite (dispatchScroll_still_bound w0 w (Browser.scrolledTo y w) c s
               Hk H eq_refl).
    pose proof (calculateProgress_boundSince
                  (Browser.scrolledTo y w) (c, s)) as Hb.
    destruct (calculateProgress _ _ _) as [c' s']. cbn [fst snd] in *.
    destruct H as (Hl & Hb' & Hf).
    split; [exact Hl | split; [congruence | exact Hf]].
  - exact H.
  - exact H.
  - exact H.
  - exact H.
  - apply dispose_still_bound; assumption.
Qed.

Lemma run_still_bound (w0 : Browser.Window A) (evs : list (Event A))
  (st : ScrollController A * Browser.Window A * S) :
  listeners_known w0 ->
  still_bound w0 (fst (fst st)) (snd (fst st)) ->
  still_bound w0 (fst (fst (run onProgressChange evs st)))
    (snd (fst (run onProgressChange evs st))).
Proof.
  intros Hk. revert st. induction evs as [| ev evs IH]; intros st H.
  - exact H.
  - change (run onProgressChange (ev :: evs) st)
      with (run onProgressChange evs (step onProgressChange ev st)).
    apply IH. apply step_still_bound; assumption.
Qed.

Lemma construct_still_bound (w0 : Browser.Window A) (s0 : S) :
  listeners_known w0 ->
  still_bound w0 (fst (fst (construct onProgressChange w0 s0)))
    (snd (fst (construct onProgressChange w0 s0))).
Proof.
  intros Hk. unfold construct. cbn zeta.
  match goal with
  | |- context [calculateProgress onProgressChange ?w ?cs] =>
      pose proof (calculateProgress_boundSince w cs) as Hb;
      destruct (calculateProgress onProgressChange w cs) as [c' s']
  end.
  cbn [fst snd boundSince] in *.
  unfold still_bound, Browser.addEventListener.
  cbn [Browser.scrollListeners Browser.newFunction].
  rewrite (existsb_fresh _ _ Hk).
  cbn [Browser.scrollListeners Browser.withListeners Browser.functions
       Browser.newFunction].
  split; [reflexivity | split; [exact Hb | lia]].
Qed.
End SmoothScroll.

(** [dispose] of the smoothed ScrollController removes nothing: it asks
    the window to remove a function made on the spot, which was never
    registered.  After any events, [dispose] among them, the listener
    bound by the constructor is still registered and a scroll still
    runs [calculateProgress]. *)
Theorem smooth_dispose_keeps_listening {A : Type} {N : JsNumber A}
  {S : Type} (onProgressChange : A -> S -> S)
  (w0 : Browser.Window A) (s0 : S)
  (evs : list (ScrollControllerSmooth.Event A)) (y : A) :
  listeners_known w0 ->
  let st := ScrollControllerSmooth.run onProgressChange evs
              (ScrollControllerSmooth.construct onProgressChange w0 s0) in
  let c := fst (fst st) in
  let w := snd (fst st) in
  Browser.scrollListeners w
  = Browser.scrollListeners w0 ++ [Browser.functions w0]
  /\ Browser.scrollListeners (ScrollControllerSmooth.dispose w)
     = Browser.scrollListeners w
  /\ ScrollControllerSmooth.step onProgressChange
       (ScrollControllerSmooth.ScrollTo y) st
     = (let w' := Browser.scrolledTo y w in
        let cs := ScrollControllerSmooth.calculateProgress
                    onProgressChange w' (c, snd st) in
        (fst cs, w', snd cs)).
Proof.
  intros Hk st c w.
  assert (H : still_bound w0 c w).
  { apply run_still_bound; [exact Hk |].
    apply construct_still_bound; exact Hk. }
  pose proof (dispose_still_bound w0 w c Hk H) as Hd.
  split; [exact (proj1 H) |]. split.
  - rewrite (proj1 Hd). symmetry. exact (proj1 H).
  - subst c w. destruct st as [[c w] s]. cbn [fst snd] in *.
    cbn [ScrollControllerSmooth.step].
    rewrite (dispatchScroll_still_bound onProgressChange w0 w
               (Browser.scrolledTo y w) c s Hk H eq_refl).
    destruct (ScrollControllerSmooth.calculateProgress _ _ _)
      as [c' s']. reflexivity.
Qed.

Lemma smooth_dispose_keeps_listening_witness :
  listeners_known sampleWindow
  /\ Browser.scrollListeners
       (snd (fst (ScrollControllerSmooth.run record_progress
                    [ScrollControllerSmooth.Dispose;
                     ScrollControllerSmooth.Dispose]
                    (ScrollControllerSmooth.construct record_progress
                       sampleWindow []))))
     = [0%nat].
Proof.
  assert (Hk : listeners_known sampleWindow) by constructor.
  split; [exact Hk |].
  exact (proj1 (smooth_dispose_keeps_listening record_progress
                  sampleWindow []
                  [ScrollControllerSmooth.Dispose;
                   ScrollControllerSmooth.Dispose] 0 Hk)).
Defined.

Lemma Rmax_min_unit (p : R) : 0 <= Rmax 0 (Rmin 1 p) <= 1.
Proof.
  unfold Rmin, Rmax. destruct (Rle_dec 1 p); destruct (Rle_dec 0 _); lra.
Qed.

Lemma last_snoc (l : list R) (p d : R) : last (l ++ [p]) d = p.
Proof. apply last_last. Qed.

Lemma reports_in_unit_calculate (w : Browser.Window R)
  (c : ScrollControllerSmooth.ScrollController R) (log : list R) :
  reports_in_unit c log ->
  reports_in_unit
    (fst (ScrollControllerSmooth.calculateProgress record_progress w
            (c, log)))
    (snd (ScrollControllerSmooth.calculateProgress record_progress w
            (c, log))).
Proof.
  intros (Hlog & Ht & Hp).
  unfold ScrollControllerSmooth.calculateProgress. cbn zeta.
  destruct (leb _ _).
  - cbn [fst snd]. split; [exact Hlog |]. split; [cbn; lra | exact Hp].
  - cbn [ScrollControllerSmooth.isSmoothing
         ScrollControllerSmooth.withTarget
         ScrollControllerSmooth.targetProgress].
    set (t := Math_max (lit 0) (Math_min (lit 1) _)).
    assert (Hu : 0 <= t <= 1) by apply Rmax_min_unit.
    destruct (ScrollControllerSmooth.isSmoothing c); cbn [fst snd].
    + split; [exact Hlog |]. split; [exact Hu | exact Hp].
    + unfold record_progress. split.
      * apply Forall_app. split; [exact Hlog |].
        constructor; [exact Hu | constructor].
      * split; [exact Hu |]. cbn. now rewrite last_snoc.
Qed.

Lemma reports_in_unit_step (w0 : Browser.Window R)
  (ev : ScrollControllerSmooth.Event R)
  (st : ScrollControllerSmooth.ScrollController R * Browser.Window R
        * list R) :
  listeners_known w0 -> tween_in_unit ev ->
  still_bound w0 (fst (fst st)) (snd (fst st)) ->
  reports_in_unit (fst (fst st)) (snd st) ->
  reports_in_unit
    (fst (fst (ScrollControllerSmooth.step record_progress ev st)))
    (snd (ScrollControllerSmooth.step record_progress ev st)).
Proof.
  intros Hk Hev Hb H. destruct st as [[c w] log]. cbn [fst snd] in *.
  destruct ev as [y | ih sh | v | b | p |];
    cbn [ScrollControllerSmooth.step].
  - rewrite (dispatchScroll_still_bound record_progress w0 w
               (Browser.scrolledTo y w) c log Hk Hb eq_refl).
    pose proof (reports_in_unit_calculate (Browser.scrolledTo y w) c log H)
      as H'.
    destruct (ScrollControllerSmooth.calculateProgress _ _ _) as [c' s'].
    exact H'.
  - exact H.
  - destruct H as (Hlog & Ht & Hp). cbn in Hev. cbn [fst snd].
    unfold record_progress. split.
    + apply Forall_app. split; [exact Hlog |].
      constructor; [exact Hev | constructor].
    + split; [exact Ht |]. cbn. now rewrite last_snoc.
  - exact H.
  - destruct H as (Hlog & Ht & Hp). cbn [fst snd].
    unfold record_progress.
    cbn [ScrollControllerSmooth.targetProgress
         ScrollControllerSmooth.withTarget].
    set (t := Math_max (lit 0) (Math_min (lit 1) p)).
    assert (Hu : 0 <= t <= 1) by apply Rmax_min_unit.
    split.
    + apply Forall_app. split; [exact Hlog |].
      constructor; [exact Hu | constructor].
    + split; [exact Hu |]. cbn. now rewrite last_snoc.
  - exact H.
Qed.

Lemma reports_in_unit_run (w0 : Browser.Window R)
  (evs : list (ScrollControllerSmooth.Event R))
  (st : ScrollControllerSmooth.ScrollController R * Browser.Window R
        * list R) :
  listeners_known w0 -> Forall tween_in_unit evs ->
  still_bound w0 (fst (fst st)) (snd (fst st)) ->
  reports_in_unit (fst (fst st)) (snd st) ->
  reports_in_unit
    (fst (fst (ScrollControllerSmooth.run record_progress evs st)))
    (snd (ScrollControllerSmooth.run record_progress evs st)).
Proof.
  intros Hk Hevs. revert st.
  induction Hevs as [| ev evs Hev _ IH]; intros st Hb Hr; [exact Hr |].
  change (ScrollControllerSmooth.run record_progress (ev :: evs) st)
    with (ScrollControllerSmooth.run record_progress evs
            (ScrollControllerSmooth.step record_progress ev st)).
  apply IH.
  - apply step_still_bound; assumption.
  - apply (reports_in_unit_step w0); assumption.
Qed.

(** With the smoothed ScrollController, as long as gsap hands values of
    [[0,1]] to [onUpdate]: the constructor reports nothing itself, every
    value reported lies in [[0,1]], so does the target, and
    [getProgress] is the value reported last (0 before the first). *)
Theorem smooth_scroll_reports_in_unit (w0 : Browser.Window R)
  (evs : list (ScrollControllerSmooth.Event R)) :
  listeners_known w0 ->
  Forall tween_in_unit evs ->
  let st := ScrollControllerSmooth.run record_progress evs
              (ScrollControllerSmooth.construct record_progress w0 []) in
  snd (ScrollControllerSmooth.construct record_progress w0 []) = []
  /\ reports_in_unit (fst (fst st)) (snd st).
Proof.
  intros Hk Hevs st.
  assert (H0 : snd (ScrollControllerSmooth.construct record_progress w0 [])
               = []).
  { unfold ScrollControllerSmooth.construct,
      ScrollControllerSmooth.calculateProgress. cbn zeta.
    destruct (leb _ _); reflexivity. }
  split; [exact H0 |].
  apply (reports_in_unit_run w0); [exact Hk | exact Hevs | |].
  - apply construct_still_bound; exact Hk.
  - unfold ScrollControllerSmooth.construct. cbn zeta.
    match goal with
    | |- context [ScrollControllerSmooth.calculateProgress
                    record_progress ?w (?c, [])] =>
        pose proof (reports_in_unit_calculate w c []) as Hc;
        destruct (ScrollControllerSmooth.calculateProgress
                    record_progress w (c, [])) as [c' s']
    end.
    cbn [fst snd] in *. apply Hc.
    split; [constructor |]. split; [cbn; lra | reflexivity].
Qed.

Lemma smooth_scroll_reports_in_unit_witness :
  listeners_known sampleWindow
  /\ Forall tween_in_unit
       [ScrollControllerSmooth.ScrollTo 1600;
        ScrollControllerSmooth.GsapUpdate (1 / 4);
        ScrollControllerSmooth.SetSmoothing false;
        ScrollControllerSmooth.ScrollTo 4000;
        ScrollControllerSmooth.SetManualProgress (-3)]
  /\ reports_in_unit
       (fst (fst (ScrollControllerSmooth.run record_progress
                    [ScrollControllerSmooth.ScrollTo 1600;
                     ScrollControllerSmooth.GsapUpdate (1 / 4);
                     ScrollControllerSmooth.SetSmoothing false;
                     ScrollControllerSmooth.ScrollTo 4000;
                     ScrollControllerSmooth.SetManualProgress (-3)]
                    (ScrollControllerSmooth.construct record_progress
                       sampleWindow []))))
       (snd (ScrollControllerSmooth.run record_progress
               [ScrollControllerSmooth.ScrollTo 1600;
                ScrollControllerSmooth.GsapUpdate (1 / 4);
                ScrollControllerSmooth.SetSmoothing false;
                ScrollControllerSmooth.ScrollTo 4000;
                ScrollControllerSmooth.SetManualProgress (-3)]
               (ScrollControllerSmooth.construct record_progress
                  sampleWindow []))).
Proof.
  assert (Hk : listeners_known sampleWindow) by constructor.
  assert (Hev : Forall tween_in_unit
       [ScrollControllerSmooth.ScrollTo 1600;
        ScrollControllerSmooth.GsapUpdate (1 / 4);
        ScrollControllerSmooth.SetSmoothing false;
        ScrollControllerSmooth.ScrollTo 4000;
        ScrollControllerSmooth.SetManualProgress (-3)]).
  { repeat constructor; cbn; lra. }
  split; [exact Hk |]. split; [exact Hev |].
  exact (proj2 (smooth_scroll_reports_in_unit sampleWindow _ Hk Hev)).
Defined.
